(** * pattern-algebra: a shallow embedding of the core engine

    The development follows the layout of [packages/core/src]:
    the pattern AST ([types/ast.ts]), the segment matcher
    ([match/segment-matcher.ts]), the NFA builder
    ([compile/automaton-builder.ts]), quick-reject filters
    ([compile/quick-reject.ts]), the path utilities
    ([match/path-utils.ts]), the matcher ([match/matcher.ts]),
    subset construction ([automaton/determinize.ts]), the product
    construction ([automaton/intersect.ts]), complement, the pattern-level
    algebra, emptiness / witness search and the containment analyzer.

    Conventions.
    - JavaScript strings are modelled by [string]: sequences of 8-bit
      characters.  All inputs considered are ASCII / Latin-1 text.
    - State identifiers and array indices are [nat].
    - A JavaScript [Set<number>] is an insertion-ordered list without
      duplicates; an array used as a stack keeps its top at the head of the
      list; an array used as a queue is a list consumed from the head.
    - Exceptions are values of [Error] carried by the [result] monad.
      [while] loops whose termination is not structural take a loop budget;
      exhausting it yields [OutOfFuel], which is not a behaviour of the
      program; the budgets of [determinize], [intersect], the epsilon
      closures, [isEmpty] and [findWitness] are proved sufficient below.

    Layout.  The embedding comes first, one module per source file; then
    the vocabulary of the statements; then the invariants and lemmas about
    the loops of the program; the statements C1 to C10 and, after them,
    the further properties X1 to X30 come last. *)

From Stdlib Require Import String Ascii List Arith Bool Lia DecimalString DecimalNat.
Import ListNotations.
Local Open Scope list_scope.
Local Open Scope string_scope.

Set Warnings "-register-all,-abstract-large-number".

(* ===================================================================== *)
(** ** JavaScript prelude                                                 *)
(* ===================================================================== *)

(** [types/errors.ts]: PatternErrorCode *)
Inductive PatternErrorCode :=
| INVALID_GLOBSTAR | UNCLOSED_BRACKET | UNCLOSED_BRACE | EMPTY_CHARCLASS
| INVALID_RANGE | EXPANSION_LIMIT | NESTED_BRACES | INVALID_ESCAPE
| BANNED_FEATURE | INVALID_REGEX | UNSAFE_REGEX | DFA_STATE_LIMIT.

(** [types/errors.ts]: class AutomatonLimitError (the message is a
    diagnostic string and is not modelled). *)
Record AutomatonLimitError := mkLimitError {
  code : PatternErrorCode;
  limit : nat;
  actual : nat
}.

Inductive Error :=
| TypeError                          (* property read on [undefined] *)
| SyntaxError                        (* [new RegExp] on a malformed source *)
| LimitError (e : AutomatonLimitError)
| ThrownError (msg : string)         (* [throw new Error(msg)] *)
| OutOfFuel.                         (* loop budget exhausted (model only) *)

Inductive result (A : Type) :=
| Ok (a : A)
| Err (e : Error).
Arguments Ok {A} a.
Arguments Err {A} e.

Definition bind {A B} (m : result A) (k : A -> result B) : result B :=
  match m with
  | Ok a => k a
  | Err e => Err e
  end.

Declare Scope result_scope.
Delimit Scope result_scope with result.
Notation "x <- m ;; k" := (bind m (fun x => k))
  (at level 61, m at next level, right associativity) : result_scope.
Notation "' p <- m ;; k" := (bind m (fun x => let p := x in k))
  (at level 61, p pattern, m at next level, right associativity) : result_scope.
Local Open Scope result_scope.

(** [for (const x of xs) acc = f(acc, x)] with exceptions. *)
Fixpoint foldM {A B} (f : B -> A -> result B) (xs : list A) (acc : B) : result B :=
  match xs with
  | [] => Ok acc
  | x :: r => acc' <- f acc x ;; foldM f r acc'
  end.

Fixpoint mapM {A B} (f : A -> result B) (xs : list A) : result (list B) :=
  match xs with
  | [] => Ok []
  | x :: r => y <- f x ;; ys <- mapM f r ;; Ok (y :: ys)
  end.

(** [while (...) { body }]: [step] runs the body once and answers [inl]
    with the next loop state or [inr] with the value the loop leaves behind.
    [fuel] bounds the number of iterations. *)
Fixpoint while_loop {S R} (fuel : nat) (step : S -> result (S + R)) (s : S) : result R :=
  match fuel with
  | 0 => Err OutOfFuel
  | S fuel =>
      next <- step s ;;
      match next with
      | inl s' => while_loop fuel step s'
      | inr r => Ok r
      end
  end.

(** JavaScript numbers that occur as segment counts: naturals and the two
    infinities produced by [Math.min()] / [Math.max()] of no arguments. *)
Inductive jsnum :=
| NegInfinity
| Num (n : nat)
| Infinity.

Module Js.

Definition num_ltb (a b : jsnum) : bool :=
  match a, b with
  | NegInfinity, NegInfinity => false
  | NegInfinity, _ => true
  | Num _, NegInfinity => false
  | Num x, Num y => Nat.ltb x y
  | Num _, Infinity => true
  | Infinity, _ => false
  end.

Definition num_min (a b : jsnum) : jsnum := if num_ltb b a then b else a.
Definition num_max (a b : jsnum) : jsnum := if num_ltb a b then b else a.

(** [Math.min(...xs)] and [Math.max(...xs)] *)
Definition Math_min (xs : list jsnum) : jsnum := fold_left num_min xs Infinity.
Definition Math_max (xs : list jsnum) : jsnum := fold_left num_max xs NegInfinity.

(** [String(n)] for a natural number *)
Definition String_of_nat (n : nat) : string :=
  NilEmpty.string_of_uint (Nat.to_uint n).

Fixpoint chars (s : string) : list ascii :=
  match s with
  | EmptyString => []
  | String c r => c :: chars r
  end.

Fixpoint of_chars (l : list ascii) : string :=
  match l with
  | [] => EmptyString
  | c :: r => String c (of_chars r)
  end.

(** [s.startsWith(p)]; on success the rest of [s] is returned too. *)
Fixpoint strip_prefix (p s : string) : option string :=
  match p with
  | EmptyString => Some s
  | String a p' =>
      match s with
      | EmptyString => None
      | String b s' => if Ascii.eqb a b then strip_prefix p' s' else None
      end
  end.

Definition startsWith (s p : string) : bool :=
  match strip_prefix p s with Some _ => true | None => false end.

Definition rev_string (s : string) : string := of_chars (rev (chars s)).

Definition endsWith (s p : string) : bool :=
  startsWith (rev_string s) (rev_string p).

(** [s.includes(sub)] *)
Fixpoint includes (s sub : string) : bool :=
  startsWith s sub ||
  match s with
  | EmptyString => false
  | String _ r => includes r sub
  end.

(** [s.includes(c)] for a one-character string [c] *)
Definition includes_char (s : string) (c : ascii) : bool :=
  existsb (Ascii.eqb c) (chars s).

(** [s.slice(n)] *)
Fixpoint slice_from (n : nat) (s : string) : string :=
  match n, s with
  | 0, _ => s
  | S n', String _ r => slice_from n' r
  | S _, EmptyString => EmptyString
  end.

(** [s.slice(0, -1)] *)
Definition drop_last (s : string) : string := of_chars (removelast (chars s)).

(** [s.split(sep)] for a one-character separator *)
Fixpoint split (sep : ascii) (s : string) : list string :=
  match s with
  | EmptyString => [EmptyString]
  | String c r =>
      if Ascii.eqb c sep then EmptyString :: split sep r
      else match split sep r with
           | h :: t => String c h :: t
           | [] => [String c EmptyString]
           end
  end.

(** [xs.join(sep)] *)
Fixpoint join (sep : string) (xs : list string) : string :=
  match xs with
  | [] => EmptyString
  | [x] => x
  | x :: r => x ++ sep ++ join sep r
  end.

(** [xs.includes(x)] on an array of strings *)
Definition array_includes (xs : list string) (x : string) : bool :=
  existsb (String.eqb x) xs.

(** [Set<number>]: insertion-ordered, duplicate-free *)
Definition set_has (s : list nat) (x : nat) : bool := existsb (Nat.eqb x) s.
Definition set_add (s : list nat) (x : nat) : list nat :=
  if set_has s x then s else (s ++ [x])%list.
(** [new Set(xs)] *)
Definition set_of (xs : list nat) : list nat := fold_left set_add xs [].

(** [Map<string, number>] *)
Fixpoint map_get (m : list (string * nat)) (k : string) : option nat :=
  match m with
  | [] => None
  | (k', v) :: r => if String.eqb k k' then Some v else map_get r k
  end.
Definition map_set (m : list (string * nat)) (k : string) (v : nat) :=
  (m ++ [(k, v)])%list.

(** [xs[i] = v] for an index inside the array *)
Fixpoint array_set {A} (xs : list A) (i : nat) (v : A) : list A :=
  match xs, i with
  | [], _ => []
  | _ :: r, 0 => v :: r
  | x :: r, S i' => x :: array_set r i' v
  end.

(** [xs.sort((a, b) => a - b)] *)
Fixpoint insert_sorted (x : nat) (l : list nat) : list nat :=
  match l with
  | [] => [x]
  | y :: r => if Nat.leb x y then x :: l else y :: insert_sorted x r
  end.
Definition sort (l : list nat) : list nat := fold_right insert_sorted [] l.

End Js.

(* ===================================================================== *)
(** ** [types/errors.ts], [types/ast.ts]                                  *)
(* ===================================================================== *)

(** [PatternError]; the human-readable message is not modelled. *)
Record PatternError := mkPatternError {
  err_code : PatternErrorCode
}.

Record CharRange := mkCharRange {
  range_start : ascii;
  range_end : ascii
}.

Record CharClassSegment := mkCharClass {
  negated : bool;
  ranges : list CharRange;
  chars : string
}.

Inductive WildcardPart :=
| WLiteral (value : string)
| WStar
| WQuestion.

Inductive SegmentPart :=
| PLiteral (value : string)
| PStar
| PQuestion
| PCharclass (spec : CharClassSegment).

Inductive Segment :=
| LiteralSegment (value : string)
| WildcardSegment (pattern : string) (parts : list WildcardPart)
| GlobstarSegment
| CharClass (spec : CharClassSegment)
| CompositeSegment (parts : list SegmentPart).

Inductive PatternNode :=
| SegmentSequence (segments : list Segment)
| Alternation (branches : list PatternNode).

Record PathPattern := mkPathPattern {
  source : string;
  root : PatternNode;
  isAbsolute : bool;
  isNegation : bool;
  errors : option (list PatternError)
}.

(* ===================================================================== *)
(** ** Regular expressions built by the library                           *)
(* ===================================================================== *)

(** The library only ever constructs anchored regular expressions
    [^ ... $] whose body is a sequence of: an escaped literal run, [.*],
    [.], a bracket class, and (in the two regex literals [/^.+$/] and
    [/^.*$/]) [.+].  [RegExp] is the syntax tree of such an expression;
    [RegExp_source] is the text handed to [new RegExp] and [RegExp_test]
    is ECMAScript matching for it (no flags): [.] matches any character
    except a line terminator, a bracket class matches any listed
    character, line terminators included. *)
Inductive RegExpNode :=
| ReLiteral (s : string)
| ReDotStar
| ReDotPlus
| ReDot
| ReClass (spec : CharClassSegment).

Record RegExp := mkRegExp { re_body : list RegExpNode }.

Module Re.

Definition is_line_terminator (c : ascii) : bool :=
  Ascii.eqb c "010"%char || Ascii.eqb c "013"%char.

Definition dot (c : ascii) : bool := negb (is_line_terminator c).

(** [escapeRegex]: [str.replace(/[.*+?^${}()|[\]\\]/g, '\\$&')] *)
Definition is_regex_special (c : ascii) : bool :=
  Js.includes_char ".*+?^${}()|[]\" c.

Fixpoint escapeRegex (str : string) : string :=
  match str with
  | EmptyString => EmptyString
  | String c r =>
      if is_regex_special c then String "\"%char (String c (escapeRegex r))
      else String c (escapeRegex r)
  end.

(** [escapeRegexChar] *)
Definition escapeRegexChar (c : ascii) : string :=
  if Js.includes_char "^-]\" c then String "\"%char (String c EmptyString)
  else String c EmptyString.

(** The bracket expression emitted by [charClassToRegex] and
    [compositeToRegex]. *)
Definition class_source (spec : CharClassSegment) : string :=
  "[" ++ (if negated spec then "^" else "")
      ++ String.concat "" (map escapeRegexChar (Js.chars (chars spec)))
      ++ String.concat ""
           (map (fun r => escapeRegexChar (range_start r) ++ "-"
                          ++ escapeRegexChar (range_end r)) (ranges spec))
      ++ "]".

Definition node_source (n : RegExpNode) : string :=
  match n with
  | ReLiteral s => escapeRegex s
  | ReDotStar => ".*"
  | ReDotPlus => ".+"
  | ReDot => "."
  | ReClass spec => class_source spec
  end.

Definition RegExp_source (r : RegExp) : string :=
  "^" ++ String.concat "" (map node_source (re_body r)) ++ "$".

Definition in_range (c : ascii) (r : CharRange) : bool :=
  Nat.leb (nat_of_ascii (range_start r)) (nat_of_ascii c)
  && Nat.leb (nat_of_ascii c) (nat_of_ascii (range_end r)).

Definition class_test (spec : CharClassSegment) (c : ascii) : bool :=
  let m := Js.includes_char (chars spec) c || existsb (in_range c) (ranges spec) in
  if negated spec then negb m else m.

Fixpoint match_body (body : list RegExpNode) (s : string) : bool :=
  match body with
  | [] => match s with EmptyString => true | _ => false end
  | ReLiteral l :: rest =>
      match Js.strip_prefix l s with
      | Some s' => match_body rest s'
      | None => false
      end
  | ReDot :: rest =>
      match s with
      | String c s' => dot c && match_body rest s'
      | EmptyString => false
      end
  | ReDotStar :: rest =>
      (fix star (s : string) : bool :=
         match_body rest s ||
         match s with
         | String c s' => dot c && star s'
         | EmptyString => false
         end) s
  | ReDotPlus :: rest =>
      match s with
      | String c s' =>
          dot c &&
          (fix star (s : string) : bool :=
             match_body rest s ||
             match s with
             | String c s' => dot c && star s'
             | EmptyString => false
             end) s'
      | EmptyString => false
      end
  | ReClass spec :: rest =>
      match s with
      | String c s' => class_test spec c && match_body rest s'
      | EmptyString => false
      end
  end.

Definition RegExp_test (r : RegExp) (s : string) : bool := match_body (re_body r) s.

(** [new RegExp(src)] throws a SyntaxError on a bracket range whose
    start is above its end ("Range out of order in character class"). *)
Definition range_in_order (r : CharRange) : bool :=
  Nat.leb (nat_of_ascii (range_start r)) (nat_of_ascii (range_end r)).

Definition node_well_formed (n : RegExpNode) : bool :=
  match n with
  | ReClass spec => forallb range_in_order (ranges spec)
  | _ => true
  end.

Definition new_RegExp (body : list RegExpNode) : result RegExp :=
  if forallb node_well_formed body then Ok (mkRegExp body) else Err SyntaxError.

End Re.

(* ===================================================================== *)
(** ** [types/automaton.ts]                                               *)
(* ===================================================================== *)

(** [RegExp | SegmentMatcher]: either a regular expression or the
    composite object returned by [createIntersectionPattern], whose [test]
    is the conjunction of the two tests and whose [source] is
    [(a.source)∩(b.source)]. *)
Inductive SegmentMatcher :=
| MRegExp (r : RegExp)
| MIntersection (a b : SegmentMatcher).

Fixpoint test (m : SegmentMatcher) (str : string) : bool :=
  match m with
  | MRegExp r => Re.RegExp_test r str
  | MIntersection a b => test a str && test b str
  end.

Fixpoint matcher_source (m : SegmentMatcher) : string :=
  match m with
  | MRegExp r => Re.RegExp_source r
  | MIntersection a b => "(" ++ matcher_source a ++ ")∩(" ++ matcher_source b ++ ")"
  end.

Inductive AutomatonTransition :=
| LiteralTransition (segment : string) (target : nat)
| WildcardTransition (pattern : SegmentMatcher) (patternSource : string) (target : nat)
| GlobstarTransition (selfLoop : nat) (exit : nat)
| EpsilonTransition (target : nat).

Record AutomatonState := mkState {
  id : nat;
  transitions : list AutomatonTransition;
  accepting : bool
}.

Record SegmentAutomaton := mkAutomaton {
  states : list AutomatonState;
  initialState : nat;
  acceptingStates : list nat;
  isDeterministic : bool
}.

Record QuickRejectFilter := mkFilter {
  requiredPrefix : option string;
  requiredSuffix : option string;
  minLength : option nat;
  requiredLiterals : option (list string)
}.

Record CompiledPattern := mkCompiled {
  cp_source : string;
  ast : PathPattern;
  quickReject : QuickRejectFilter;
  automaton : SegmentAutomaton;
  isUnbounded : bool;
  minSegments : jsnum;
  maxSegments : option jsnum
}.

(** [automaton.states[i]]: [undefined] outside the array *)
Definition state_at (a : SegmentAutomaton) (i : nat) : option AutomatonState :=
  nth_error (states a) i.

(** [automaton.states[i].field]: a TypeError outside the array *)
Definition state_at_exn (a : SegmentAutomaton) (i : nat) : result AutomatonState :=
  match state_at a i with
  | Some s => Ok s
  | None => Err TypeError
  end.

(* ===================================================================== *)
(** ** [match/segment-matcher.ts]                                         *)
(* ===================================================================== *)

Module SegMatch.

(** [matchCharClass] *)
Definition matchCharClass (char : ascii) (spec : CharClassSegment) : bool :=
  let matches := Js.includes_char (chars spec) char in
  let matches :=
    if negb matches then
      existsb (fun range =>
                 Nat.leb (nat_of_ascii (range_start range)) (nat_of_ascii char)
                 && Nat.leb (nat_of_ascii char) (nat_of_ascii (range_end range)))
              (ranges spec)
    else matches in
  if negated spec then negb matches else matches.

(** [matchWildcardParts(segment, segPos, parts, partIndex)].  The
    arguments are the text from [segPos] on and the parts from
    [partIndex] on. *)
Fixpoint matchWildcardParts (segment : string) (parts : list WildcardPart) : bool :=
  match parts with
  | [] => match segment with EmptyString => true | _ => false end
  | WLiteral literal :: rest =>
      match Js.strip_prefix literal segment with
      | Some segment' => matchWildcardParts segment' rest
      | None => false
      end
  | WQuestion :: rest =>
      match segment with
      | EmptyString => false
      | String _ segment' => matchWildcardParts segment' rest
      end
  | WStar :: rest =>
      match rest with
      | [] => true
      | _ =>
          (fix try (s : string) : bool :=
             if matchWildcardParts s rest then true
             else match s with
                  | EmptyString => false
                  | String _ s' => try s'
                  end) segment
      end
  end.

Definition matchWildcard (segment : string) (parts : list WildcardPart) : bool :=
  matchWildcardParts segment parts.

(** [matchCompositeParts] *)
Fixpoint matchCompositeParts (segment : string) (parts : list SegmentPart) : bool :=
  match parts with
  | [] => match segment with EmptyString => true | _ => false end
  | PLiteral literal :: rest =>
      match Js.strip_prefix literal segment with
      | Some segment' => matchCompositeParts segment' rest
      | None => false
      end
  | PQuestion :: rest =>
      match segment with
      | EmptyString => false
      | String _ segment' => matchCompositeParts segment' rest
      end
  | PStar :: rest =>
      match rest with
      | [] => true
      | _ =>
          (fix try (s : string) : bool :=
             if matchCompositeParts s rest then true
             else match s with
                  | EmptyString => false
                  | String _ s' => try s'
                  end) segment
      end
  | PCharclass spec :: rest =>
      match segment with
      | EmptyString => false
      | String c segment' =>
          if matchCharClass c spec then matchCompositeParts segment' rest else false
      end
  end.

Definition matchComposite (segment : string) (parts : list SegmentPart) : bool :=
  matchCompositeParts segment parts.

(** [matchSegment] *)
Definition matchSegment (segment : string) (pattern : Segment) : bool :=
  match pattern with
  | LiteralSegment value => String.eqb segment value
  | GlobstarSegment => true
  | WildcardSegment _ parts => matchWildcard segment parts
  | CharClass spec =>
      match segment with
      | String c EmptyString => matchCharClass c spec
      | _ => false
      end
  | CompositeSegment parts => matchComposite segment parts
  end.

(** [wildcardToRegex] *)
Definition wildcardToRegex (parts : list WildcardPart) : result RegExp :=
  Re.new_RegExp
    (map (fun part => match part with
                      | WLiteral value => ReLiteral value
                      | WStar => ReDotStar
                      | WQuestion => ReDot
                      end) parts).

(** [charClassToRegex] *)
Definition charClassToRegex (spec : CharClassSegment) : result RegExp :=
  Re.new_RegExp [ReClass spec].

(** [compositeToRegex] *)
Definition compositeToRegex (parts : list SegmentPart) : result RegExp :=
  Re.new_RegExp
    (map (fun part => match part with
                      | PLiteral value => ReLiteral value
                      | PStar => ReDotStar
                      | PQuestion => ReDot
                      | PCharclass spec => ReClass spec
                      end) parts).

(** [segmentToRegex]: [null] for a literal *)
Definition segmentToRegex (pattern : Segment) : result (option RegExp) :=
  match pattern with
  | LiteralSegment _ => Ok None
  | GlobstarSegment => Ok (Some (mkRegExp [ReDotPlus]))
  | WildcardSegment _ parts => r <- wildcardToRegex parts ;; Ok (Some r)
  | CharClass spec => r <- charClassToRegex spec ;; Ok (Some r)
  | CompositeSegment parts => r <- compositeToRegex parts ;; Ok (Some r)
  end.

End SegMatch.

(* ===================================================================== *)
(** ** [compile/automaton-builder.ts]                                     *)
(* ===================================================================== *)

Module Builder.

Record AutomatonBuilder := mkBuilder {
  builder_states : list AutomatonState;
  nextStateId : nat
}.

(** [createState]: returns the fresh id and the updated builder *)
Definition createState (builder : AutomatonBuilder) (accepting : bool)
  : nat * AutomatonBuilder :=
  let id := nextStateId builder in
  (id, mkBuilder (builder_states builder ++ [mkState id [] accepting])%list (S id)).

(** [addTransition] *)
Definition addTransition (builder : AutomatonBuilder) (fromState : nat)
           (transition : AutomatonTransition) : result AutomatonBuilder :=
  match nth_error (builder_states builder) fromState with
  | None => Err TypeError
  | Some state =>
      Ok (mkBuilder
            (Js.array_set (builder_states builder) fromState
               (mkState (id state) (transitions state ++ [transition])%list (accepting state)))
            (nextStateId builder))
  end.

(** [buildSegmentAutomaton] *)
Definition buildSegmentAutomaton (builder : AutomatonBuilder) (segment : Segment)
           (startState endState : nat) : result AutomatonBuilder :=
  match segment with
  | LiteralSegment value =>
      addTransition builder startState (LiteralTransition value endState)
  | GlobstarSegment =>
      addTransition builder startState (GlobstarTransition startState endState)
  | WildcardSegment _ _ | CharClass _ | CompositeSegment _ =>
      regex <- SegMatch.segmentToRegex segment ;;
      match regex with
      | Some regex =>
          addTransition builder startState
            (WildcardTransition (MRegExp regex)
               (match segment with WildcardSegment pattern _ => pattern | _ => "" end)
               endState)
      | None => Ok builder
      end
  end.

(** The [for] loop of [buildSequenceAutomaton] over a non-empty list *)
Fixpoint buildSequenceLoop (builder : AutomatonBuilder) (segments : list Segment)
         (currentState endState : nat) : result AutomatonBuilder :=
  match segments with
  | [] => Ok builder
  | segment :: rest =>
      let isLast := match rest with [] => true | _ => false end in
      let '(nextState, builder) :=
        if isLast then (endState, builder) else createState builder false in
      builder <- buildSegmentAutomaton builder segment currentState nextState ;;
      buildSequenceLoop builder rest nextState endState
  end.

(** [buildSequenceAutomaton] *)
Definition buildSequenceAutomaton (builder : AutomatonBuilder) (segments : list Segment)
           (startState endState : nat) : result AutomatonBuilder :=
  match segments with
  | [] => addTransition builder startState (EpsilonTransition endState)
  | _ => buildSequenceLoop builder segments startState endState
  end.

(** [buildNodeAutomaton]; the inner loop is [buildAlternationAutomaton]. *)
Fixpoint buildNodeAutomaton (builder : AutomatonBuilder) (node : PatternNode)
         (startState endState : nat) {struct node} : result AutomatonBuilder :=
  match node with
  | SegmentSequence segments =>
      buildSequenceAutomaton builder segments startState endState
  | Alternation branches =>
      (fix buildAlternationAutomaton (builder : AutomatonBuilder)
           (branches : list PatternNode) : result AutomatonBuilder :=
         match branches with
         | [] => Ok builder
         | branch :: rest =>
             let '(branchStart, builder) := createState builder false in
             let '(branchEnd, builder) := createState builder false in
             builder <- addTransition builder startState (EpsilonTransition branchStart) ;;
             builder <- buildNodeAutomaton builder branch branchStart branchEnd ;;
             builder <- addTransition builder branchEnd (EpsilonTransition endState) ;;
             buildAlternationAutomaton builder rest
         end) builder branches
  end.

(** [buildAutomaton] *)
Definition buildAutomaton (pattern : PathPattern) : result SegmentAutomaton :=
  let builder := mkBuilder [] 0 in
  let '(initialId, builder) := createState builder false in
  let '(finalId, builder) := createState builder true in
  builder <- buildNodeAutomaton builder (root pattern) initialId finalId ;;
  Ok (mkAutomaton (builder_states builder) initialId [finalId] false).

Definition is_globstar (segment : Segment) : bool :=
  match segment with GlobstarSegment => true | _ => false end.

(** [getNodeMinSegments] *)
Fixpoint getNodeMinSegments (node : PatternNode) : jsnum :=
  match node with
  | SegmentSequence segments =>
      Num (List.length (filter (fun s => negb (is_globstar s)) segments))
  | Alternation branches => Js.Math_min (map getNodeMinSegments branches)
  end.

Definition getMinSegments (pattern : PathPattern) : jsnum :=
  getNodeMinSegments (root pattern).

(** [getNodeMaxSegments]: [None] is [undefined] *)
Fixpoint getNodeMaxSegments (node : PatternNode) : option jsnum :=
  match node with
  | SegmentSequence segments =>
      if existsb is_globstar segments then None else Some (Num (List.length segments))
  | Alternation branches =>
      let maxes := map getNodeMaxSegments branches in
      if existsb (fun m => match m with None => true | Some _ => false end) maxes
      then None
      else Some (Js.Math_max
                   (map (fun m => match m with Some n => n | None => NegInfinity end) maxes))
  end.

Definition getMaxSegments (pattern : PathPattern) : option jsnum :=
  getNodeMaxSegments (root pattern).

(** [isUnbounded] *)
Definition isUnbounded (pattern : PathPattern) : bool :=
  match getMaxSegments pattern with None => true | Some _ => false end.

End Builder.

(* ===================================================================== *)
(** ** [compile/quick-reject.ts]                                          *)
(* ===================================================================== *)

Module QuickReject.

Definition literal_value (segment : Segment) : option string :=
  match segment with LiteralSegment value => Some value | _ => None end.

(** Leading run of literal segments ([for ... else break]) *)
Fixpoint leading_literals (segments : list Segment) : list string :=
  match segments with
  | LiteralSegment value :: rest => value :: leading_literals rest
  | _ => []
  end.

(** Trailing run of literal segments, in path order ([unshift]) *)
Definition trailing_literals (segments : list Segment) : list string :=
  rev (leading_literals (rev segments)).

(** [getSegmentMinLength] *)
Definition getSegmentMinLength (segment : Segment) : nat :=
  match segment with
  | LiteralSegment value => String.length value
  | GlobstarSegment => 0
  | WildcardSegment _ parts =>
      fold_left (fun min part =>
                   match part with
                   | WLiteral value => min + String.length value
                   | WQuestion => min + 1
                   | WStar => min
                   end) parts 0
  | CharClass _ => 1
  | CompositeSegment parts =>
      fold_left (fun min part =>
                   match part with
                   | PLiteral value => min + String.length value
                   | PQuestion | PCharclass _ => min + 1
                   | PStar => min
                   end) parts 0
  end.

(** [extractSequenceFilters] *)
Definition extractSequenceFilters (segments : list Segment) : QuickRejectFilter :=
  let prefixParts := leading_literals segments in
  let requiredPrefix :=
    if Nat.ltb 0 (List.length prefixParts)
    then Some ("/" ++ Js.join "/" prefixParts) else None in
  let suffixParts := trailing_literals segments in
  let requiredSuffix :=
    if Nat.ltb 0 (List.length suffixParts)
       && Nat.ltb (List.length suffixParts) (List.length segments)
    then Some ("/" ++ Js.join "/" suffixParts) else None in
  let literals :=
    flat_map (fun segment => match literal_value segment with
                             | Some v => [v]
                             | None => []
                             end) segments in
  let requiredLiterals :=
    if Nat.ltb 0 (List.length literals) then Some literals else None in
  let minLengthValue :=
    fold_left (fun acc segment => acc + getSegmentMinLength segment + 1) segments 0 in
  let minLength := if Nat.ltb 1 minLengthValue then Some minLengthValue else None in
  mkFilter requiredPrefix requiredSuffix minLength requiredLiterals.

(** [buildQuickRejectFilter] *)
Definition buildQuickRejectFilter (pattern : PathPattern) : QuickRejectFilter :=
  match root pattern with
  | SegmentSequence segments => extractSequenceFilters segments
  | Alternation _ => mkFilter None None None None
  end.

(** [applyQuickReject] *)
Definition applyQuickReject (path : string) (filter : QuickRejectFilter) : bool :=
  if match minLength filter with
     | Some n => Nat.ltb (String.length path) n
     | None => false
     end then false
  else if match requiredPrefix filter with
          | Some p => negb (Js.startsWith path p)
          | None => false
          end then false
  else if match requiredSuffix filter with
          | Some s => negb (Js.endsWith path s)
          | None => false
          end then false
  else match requiredLiterals filter with
       | Some required =>
           let segments := Js.split "/" path in
           forallb (fun r => Js.array_includes segments r) required
       | None => true
       end.

End QuickReject.

(* ===================================================================== *)
(** ** [compile/compiler.ts]                                              *)
(* ===================================================================== *)

Module Compiler.

(** [compilePattern] *)
Definition compilePattern (pattern : PathPattern) : result CompiledPattern :=
  automaton <- Builder.buildAutomaton pattern ;;
  let quickReject := QuickReject.buildQuickRejectFilter pattern in
  let minSegments := Builder.getMinSegments pattern in
  let maxSegments := Builder.getMaxSegments pattern in
  Ok (mkCompiled (source pattern) pattern quickReject automaton
        (Builder.isUnbounded pattern) minSegments maxSegments).

End Compiler.

(* ===================================================================== *)
(** ** [match/path-utils.ts]                                              *)
(* ===================================================================== *)

Module PathUtils.

(** [pathToSegments] *)
Definition pathToSegments (path : string) : list string :=
  if String.eqb path "" || String.eqb path "/" then []
  else
    let withoutLeadingSlash :=
      if Js.startsWith path "/" then Js.slice_from 1 path else path in
    let withoutTrailingSlash :=
      if Js.endsWith withoutLeadingSlash "/"
      then Js.drop_last withoutLeadingSlash else withoutLeadingSlash in
    if String.eqb withoutTrailingSlash "" then []
    else Js.split "/" withoutTrailingSlash.

(** [segmentsToPath] *)
Definition segmentsToPath (segments : list string) : string :=
  match segments with
  | [] => "/"
  | _ => "/" ++ Js.join "/" segments
  end.

(** [PathContext] *)
Record PathContext := mkContext {
  homeDir : string;
  cwd : string;
  projectRoot : option string
}.

(** [s.replace(/\\/g, '/')] *)
Definition backslashes_to_slashes (s : string) : string :=
  Js.of_chars (map (fun c => if Ascii.eqb c "\"%char then "/"%char else c) (Js.chars s)).

(** The loop of [normalizePath] that resolves [.] and [..]; [resolved.pop()]
    on an empty array is skipped by the source, and [removelast []] is []. *)
Fixpoint resolve_loop (segments resolved : list string) : list string :=
  match segments with
  | [] => resolved
  | segment :: rest =>
      if String.eqb segment "." then resolve_loop rest resolved
      else if String.eqb segment ".." then
        resolve_loop rest
          (if Nat.ltb 0 (List.length resolved) then removelast resolved else resolved)
      else resolve_loop rest (resolved ++ [segment])%list
  end.

(** [normalizePath] *)
Definition normalizePath (path : string) (context : PathContext) : string :=
  let normalized := backslashes_to_slashes path in
  let normalized :=
    if String.eqb normalized "~" then homeDir context
    else if Js.startsWith normalized "~/"
         then homeDir context ++ Js.slice_from 1 normalized
         else normalized in
  let normalized :=
    if negb (Js.startsWith normalized "/") then cwd context ++ "/" ++ normalized
    else normalized in
  let segments :=
    filter (fun s => negb (String.eqb s "")) (Js.split "/" normalized) in
  let resolved := resolve_loop segments [] in
  "/" ++ Js.join "/" resolved.

(** [isAbsolutePath] *)
Definition isAbsolutePath (path : string) : bool :=
  Js.startsWith path "/" || Js.startsWith path "~".

(** [s.lastIndexOf(c)] for a one-character string [c]; [None] is [-1] *)
Definition lastIndexOf (s : string) (c : ascii) : option nat :=
  fold_left (fun acc ic => if Ascii.eqb (snd ic) c then Some (fst ic) else acc)
            (combine (seq 0 (String.length s)) (Js.chars s)) None.

(** [getExtension] *)
Definition getExtension (pathOrSegment : string) : string :=
  let segment :=
    match lastIndexOf pathOrSegment "/" with
    | Some lastSlash => Js.slice_from (lastSlash + 1) pathOrSegment
    | None => pathOrSegment
    end in
  match lastIndexOf segment "." with
  | Some lastDot => if Nat.leb lastDot 0 then "" else Js.slice_from lastDot segment
  | None => ""
  end.

(** [getBasename] *)
Definition getBasename (path : string) : string :=
  let segments := pathToSegments path in
  if Nat.ltb 0 (List.length segments) then last segments "" else "".

(** [getDirname]; [segments.slice(0, -1)] is [removelast segments] *)
Definition getDirname (path : string) : string :=
  let segments := pathToSegments path in
  if Nat.leb (List.length segments) 1 then "/"
  else segmentsToPath (removelast segments).

(** The loop of [isAncestorPath]: beyond the end of the descendant the
    source compares with [undefined], which differs from every string. *)
Fixpoint segments_agree (ancestorSegments descendantSegments : list string) : bool :=
  match ancestorSegments, descendantSegments with
  | [], _ => true
  | x :: xs, y :: ys => if negb (String.eqb x y) then false else segments_agree xs ys
  | _ :: _, [] => false
  end.

(** [isAncestorPath] *)
Definition isAncestorPath (ancestor descendant : string) : bool :=
  let ancestorSegments := pathToSegments ancestor in
  let descendantSegments := pathToSegments descendant in
  if Nat.ltb (List.length descendantSegments) (List.length ancestorSegments) then false
  else segments_agree ancestorSegments descendantSegments.

(** The loop of [commonPrefix], which stops at the shorter length and
    breaks at the first difference *)
Fixpoint common_loop (segmentsA segmentsB : list string) : list string :=
  match segmentsA, segmentsB with
  | x :: xs, y :: ys => if String.eqb x y then x :: common_loop xs ys else []
  | _, _ => []
  end.

(** [commonPrefix] *)
Definition commonPrefix (pathA pathB : string) : string :=
  let segmentsA := pathToSegments pathA in
  let segmentsB := pathToSegments pathB in
  segmentsToPath (common_loop segmentsA segmentsB).

End PathUtils.

(* ===================================================================== *)
(** ** [match/matcher.ts]                                                 *)
(* ===================================================================== *)

Module Matcher.

(** Number of transitions of an automaton; bounds the number of pushes an
    epsilon-closure computation can perform. *)
Definition count_transitions (a : SegmentAutomaton) : nat :=
  fold_right (fun s n => List.length (transitions s) + n) 0 (states a).

(** Body of the inner [for] loop of [epsilonClosure]: the pair is
    (closure, worklist). *)
Definition closure_visit (acc : list nat * list nat) (transition : AutomatonTransition)
  : list nat * list nat :=
  let '(closure, worklist) := acc in
  match transition with
  | EpsilonTransition target =>
      if negb (Js.set_has closure target)
      then (Js.set_add closure target, target :: worklist) else acc
  | GlobstarTransition _ exit =>
      if negb (Js.set_has closure exit)
      then (Js.set_add closure exit, exit :: worklist) else acc
  | _ => acc
  end.

(** Body of the [while (worklist.length > 0)] loop of [epsilonClosure] *)
Definition closure_step (automaton : SegmentAutomaton) (st : list nat * list nat)
  : result ((list nat * list nat) + list nat) :=
  let '(closure, worklist) := st in
  match worklist with
  | [] => Ok (inr closure)
  | stateId :: worklist =>
      state <- state_at_exn automaton stateId ;;
      Ok (inl (fold_left closure_visit (transitions state) (closure, worklist)))
  end.

(** [epsilonClosure(automaton, states)].  Every push adds a new target
    to the closure, so the loop runs at most
    [states.size + count_transitions] times. *)
Definition epsilonClosure (automaton : SegmentAutomaton) (states : list nat)
  : result (list nat) :=
  while_loop (S (List.length states + count_transitions automaton))
    (closure_step automaton) (states, rev states).

(** [getDeterministicTarget] *)
Definition getDeterministicTarget (transitions : list AutomatonTransition)
           (segment : string) : option nat :=
  match find (fun t => match t with
                       | LiteralTransition s _ => String.eqb s segment
                       | _ => false
                       end) transitions with
  | Some (LiteralTransition _ target) => Some target
  | _ =>
      match find (fun t => match t with
                           | WildcardTransition pattern _ _ => test pattern segment
                           | _ => false
                           end) transitions with
      | Some (WildcardTransition _ _ target) => Some target
      | _ =>
          match find (fun t => match t with
                               | GlobstarTransition _ _ => true
                               | _ => false
                               end) transitions with
          | Some (GlobstarTransition selfLoop _) => Some selfLoop
          | _ => None
          end
      end
  end.

(** [matchTransition] *)
Definition matchTransition (transition : AutomatonTransition) (segment : string) : bool :=
  match transition with
  | LiteralTransition s _ => String.eqb s segment
  | WildcardTransition pattern _ _ => test pattern segment
  | GlobstarTransition _ _ => true
  | EpsilonTransition _ => false
  end.

(** [getTransitionTarget] *)
Definition getTransitionTarget (transition : AutomatonTransition) (_segment : string)
  : option nat :=
  match transition with
  | LiteralTransition _ target | WildcardTransition _ _ target => Some target
  | GlobstarTransition selfLoop _ => Some selfLoop
  | EpsilonTransition _ => None
  end.

(** One iteration of [for (const stateId of currentStates)] *)
Definition step_state (automaton : SegmentAutomaton) (segment : string)
           (nextStates : list nat) (stateId : nat) : result (list nat) :=
  state <- state_at_exn automaton stateId ;;
  if isDeterministic automaton then
    match getDeterministicTarget (transitions state) segment with
    | Some target => Ok (Js.set_add nextStates target)
    | None => Ok nextStates
    end
  else
    Ok (fold_left
          (fun nextStates transition =>
             if matchTransition transition segment then
               match getTransitionTarget transition segment with
               | Some target => Js.set_add nextStates target
               | None => nextStates
               end
             else nextStates)
          (transitions state) nextStates).

(** The [for (const segment of segments)] loop of [simulateNFA]; [inl]
    is the early [return false]. *)
Fixpoint simulate_loop (automaton : SegmentAutomaton) (segments : list string)
         (currentStates : list nat) : result (option (list nat)) :=
  match segments with
  | [] => Ok (Some currentStates)
  | segment :: rest =>
      nextStates <- foldM (step_state automaton segment) currentStates [] ;;
      currentStates <- epsilonClosure automaton nextStates ;;
      if Nat.eqb (List.length currentStates) 0 then Ok None
      else simulate_loop automaton rest currentStates
  end.

(** The final [for] loop of [simulateNFA] *)
Fixpoint any_accepting (automaton : SegmentAutomaton) (currentStates : list nat)
  : result bool :=
  match currentStates with
  | [] => Ok false
  | stateId :: rest =>
      state <- state_at_exn automaton stateId ;;
      if accepting state then Ok true else any_accepting automaton rest
  end.

(** [simulateNFA] *)
Definition simulateNFA (automaton : SegmentAutomaton) (segments : list string)
  : result bool :=
  currentStates <- epsilonClosure automaton [initialState automaton] ;;
  final <- simulate_loop automaton segments currentStates ;;
  match final with
  | None => Ok false
  | Some currentStates => any_accepting automaton currentStates
  end.

(** [matchPathUnderlying] *)
Definition matchPathUnderlying (path : string) (pattern : CompiledPattern) : result bool :=
  if negb (QuickReject.applyQuickReject path (quickReject pattern)) then Ok false
  else
    let segments := PathUtils.pathToSegments path in
    if Js.num_ltb (Num (List.length segments)) (minSegments pattern) then Ok false
    else if match maxSegments pattern with
            | Some max => Js.num_ltb max (Num (List.length segments))
            | None => false
            end then Ok false
    else simulateNFA (automaton pattern) segments.

(** [matchPath] *)
Definition matchPath (path : string) (pattern : CompiledPattern) : result bool :=
  matches <- matchPathUnderlying path pattern ;;
  Ok (if isNegation (ast pattern) then negb matches else matches).

(** [matchPathWithContext] *)
Definition matchPathWithContext (path : string) (pattern : CompiledPattern)
           (context : PathUtils.PathContext) : result bool :=
  let normalized := PathUtils.normalizePath path context in
  matchPath normalized pattern.

(** [matchSequenceRecursive(segments, segIndex, patterns, patIndex)];
    [patterns] holds the patterns from [patIndex] on. *)
Fixpoint matchSequenceRecursive (segments : list string) (segIndex : nat)
         (patterns : list Segment) : option nat :=
  match patterns with
  | [] => Some segIndex
  | GlobstarSegment :: rest =>
      (fix loop (iterations consume : nat) : option nat :=
         match iterations with
         | 0 => None
         | S iterations =>
             match matchSequenceRecursive segments (segIndex + consume) rest with
             | Some result =>
                 if Nat.eqb result (List.length segments) then Some result
                 else loop iterations (S consume)
             | None => loop iterations (S consume)
             end
         end)
        (if Nat.leb segIndex (List.length segments)
         then S (List.length segments - segIndex) else 0)
        0
  | pattern :: rest =>
      if Nat.leb (List.length segments) segIndex then None
      else match nth_error segments segIndex with
           | None => None
           | Some segment =>
               if negb (SegMatch.matchSegment segment pattern) then None
               else matchSequenceRecursive segments (S segIndex) rest
           end
  end.

Definition matchSequence (segments : list string) (startIndex : nat)
           (patterns : list Segment) : option nat :=
  matchSequenceRecursive segments startIndex patterns.

(** [matchPatternNode] *)
Fixpoint matchPatternNode (segments : list string) (startIndex : nat)
         (node : PatternNode) : option nat :=
  match node with
  | SegmentSequence patterns => matchSequence segments startIndex patterns
  | Alternation branches =>
      (fix try (branches : list PatternNode) : option nat :=
         match branches with
         | [] => None
         | branch :: rest =>
             match matchPatternNode segments startIndex branch with
             | Some result => Some result
             | None => try rest
             end
         end) branches
  end.

(** [matchPathDirect] *)
Definition matchPathDirect (path : string) (pattern : PathPattern) : bool :=
  let segments := PathUtils.pathToSegments path in
  match matchPatternNode segments 0 (root pattern) with
  | Some _ => true
  | None => false
  end.

End Matcher.

(* ===================================================================== *)
(** ** [parse/parser.ts]                                                  *)
(* ===================================================================== *)

(** The parser records errors in [state.errors]; the model threads the list
    of error codes (positions and messages are diagnostics and are not
    modelled). *)
Module Parser.

Definition backslash : ascii := "\"%char.

Definition is_backslash (prevChar : option ascii) : bool :=
  match prevChar with Some c => Ascii.eqb c backslash | None => false end.

Definition push_error (errors : list PatternError) (c : PatternErrorCode) :=
  (errors ++ [mkPatternError c])%list.

(** [containsTopLevelBraces]: the second scan decides the result (the
    first one only updates local counters). *)
Fixpoint containsTopLevelBraces_scan (prevChar : option ascii) (inBracket : bool)
         (pattern : string) : bool :=
  match pattern with
  | EmptyString => false
  | String char rest =>
      if is_backslash prevChar then containsTopLevelBraces_scan (Some char) inBracket rest
      else if Ascii.eqb char "[" && negb inBracket
           then containsTopLevelBraces_scan (Some char) true rest
      else if Ascii.eqb char "]" && inBracket
           then containsTopLevelBraces_scan (Some char) false rest
      else if Ascii.eqb char "{" && negb inBracket then true
      else containsTopLevelBraces_scan (Some char) inBracket rest
  end.

Definition containsTopLevelBraces (pattern : string) : bool :=
  containsTopLevelBraces_scan None false pattern.

(** Local variables of the scanning loop of [expandBracesOnce];
    [None] stands for the initial [-1]. *)
Record BraceScan := mkScan {
  scan_inBracket : bool;
  braceStart : option nat;
  braceEnd : option nat;
  braceDepth : nat;
  scan_errors : list PatternError
}.

Fixpoint brace_scan (i : nat) (prevChar : option ascii) (pattern : string)
         (st : BraceScan) : BraceScan :=
  match pattern with
  | EmptyString => st
  | String char rest =>
      let continue st := brace_scan (S i) (Some char) rest st in
      if is_backslash prevChar then continue st
      else if Ascii.eqb char "[" && negb (scan_inBracket st) then
        continue (mkScan true (braceStart st) (braceEnd st) (braceDepth st) (scan_errors st))
      else if Ascii.eqb char "]" && scan_inBracket st then
        continue (mkScan false (braceStart st) (braceEnd st) (braceDepth st) (scan_errors st))
      else if Ascii.eqb char "{" && negb (scan_inBracket st) then
        let start := if Nat.eqb (braceDepth st) 0 then Some i else braceStart st in
        let depth := S (braceDepth st) in
        let errors := if Nat.ltb 1 depth then push_error (scan_errors st) NESTED_BRACES
                      else scan_errors st in
        continue (mkScan (scan_inBracket st) start (braceEnd st) depth errors)
      else if Ascii.eqb char "}" && negb (scan_inBracket st) then
        if Nat.ltb 0 (braceDepth st) then
          let depth := braceDepth st - 1 in
          if Nat.eqb depth 0
          then mkScan (scan_inBracket st) (braceStart st) (Some i) depth (scan_errors st)
          else continue (mkScan (scan_inBracket st) (braceStart st) (braceEnd st)
                           depth (scan_errors st))
        else continue st
      else continue st
  end.

(** Local variables of [splitByComma] *)
Fixpoint splitByComma_loop (prevChar : option ascii) (content : string)
         (parts : list string) (current : string) (depth : nat) (inBracket : bool)
  : list string :=
  match content with
  | EmptyString => (parts ++ [current])%list
  | String char rest =>
      let add := current ++ String char EmptyString in
      if is_backslash prevChar
      then splitByComma_loop (Some char) rest parts add depth inBracket
      else if Ascii.eqb char "[" && negb inBracket
           then splitByComma_loop (Some char) rest parts add depth true
      else if Ascii.eqb char "]" && inBracket
           then splitByComma_loop (Some char) rest parts add depth false
      else if Ascii.eqb char "{" && negb inBracket
           then splitByComma_loop (Some char) rest parts add (S depth) inBracket
      else if Ascii.eqb char "}" && negb inBracket && Nat.ltb 0 depth
           then splitByComma_loop (Some char) rest parts add (depth - 1) inBracket
      else if Ascii.eqb char "," && Nat.eqb depth 0 && negb inBracket
           then splitByComma_loop (Some char) rest (parts ++ [current])%list "" depth inBracket
      else splitByComma_loop (Some char) rest parts add depth inBracket
  end.

Definition splitByComma (content : string) : list string :=
  splitByComma_loop None content [] "" 0 false.

Definition is_digit (c : ascii) : bool :=
  Nat.leb 48 (nat_of_ascii c) && Nat.leb (nat_of_ascii c) 57.

(** [parseInt(s, 10)] on a string matching [-?\d+] *)
Definition parseInt (s : string) : option (bool * nat) :=
  let '(neg, digits) :=
    match s with
    | String "-"%char r => (true, r)
    | _ => (false, s)
    end in
  match digits with
  | EmptyString => None
  | _ =>
      if forallb is_digit (Js.chars digits)
      then Some (neg, fold_left (fun acc c => 10 * acc + (nat_of_ascii c - 48))
                                (Js.chars digits) 0)
      else None
  end.

(** First occurrence of [".."] : the texts before and after it *)
Fixpoint split_dotdot (s : string) : option (string * string) :=
  match s with
  | String "."%char (String "."%char r) => Some (EmptyString, r)
  | String c r =>
      match split_dotdot r with
      | Some (a, b) => Some (String c a, b)
      | None => None
      end
  | EmptyString => None
  end.

(** [/^(-?\d+)\.\.(-?\d+)$/.exec(s)] followed by the two [parseInt]s.
    Digits and [-] never contain a dot, so the first [".."] is the only
    possible split. *)
Definition rangeMatch (s : string) : option ((bool * nat) * (bool * nat)) :=
  match split_dotdot s with
  | Some (a, b) =>
      match parseInt a, parseInt b with
      | Some x, Some y => Some (x, y)
      | _, _ => None
      end
  | None => None
  end.

(** Integers as sign and magnitude; [-0] prints as [0]. *)
Definition int_to_string (neg : bool) (n : nat) : string :=
  if neg && negb (Nat.eqb n 0) then "-" ++ Js.String_of_nat n else Js.String_of_nat n.

Definition int_leb (a b : bool * nat) : bool :=
  match a, b with
  | (true, x), (true, y) => Nat.leb y x
  | (true, x), (false, y) => true
  | (false, x), (true, y) => Nat.eqb x 0 && Nat.eqb y 0
  | (false, x), (false, y) => Nat.leb x y
  end.

(** [Math.abs(end - start)] *)
Definition int_dist (a b : bool * nat) : nat :=
  match a, b with
  | (true, x), (true, y) | (false, x), (false, y) => (x - y) + (y - x)
  | (true, x), (false, y) | (false, x), (true, y) => x + y
  end.

(** [start + i * step] for [step] = 1 ([up]) or -1 *)
Definition int_step (start : bool * nat) (up : bool) (i : nat) : bool * nat :=
  match start, up with
  | (false, x), true => (false, x + i)
  | (true, x), false => (true, x + i)
  | (false, x), false => if Nat.leb i x then (false, x - i) else (true, i - x)
  | (true, x), true => if Nat.leb i x then (true, x - i) else (false, i - x)
  end.

(** [s.split('|SPLIT|')] *)
Fixpoint split_marker (fuel : nat) (s : string) (current : string) : list string :=
  match fuel with
  | 0 => [current ++ s]
  | S fuel =>
      match Js.strip_prefix "|SPLIT|" s with
      | Some r => current :: split_marker fuel r ""
      | None =>
          match s with
          | EmptyString => [current]
          | String c r => split_marker fuel r (current ++ String c EmptyString)
          end
      end
  end.

(** [xs.flatMap(f)] for an [f] that may push errors *)
Fixpoint flatMapM {A} (f : A -> list PatternError -> result (list string * list PatternError))
         (xs : list A) (errors : list PatternError)
  : result (list string * list PatternError) :=
  match xs with
  | [] => Ok ([], errors)
  | x :: r =>
      '(ys, errors) <- f x errors ;;
      '(zs, errors) <- flatMapM f r errors ;;
      Ok ((ys ++ zs)%list, errors)
  end.

(** [expandBracesOnce]; [fuel] bounds the depth of the recursion. *)
Fixpoint expandBracesOnce (fuel : nat) (pattern : string) (errors : list PatternError)
  : result (list string * list PatternError) :=
  match fuel with
  | 0 => Err OutOfFuel
  | S fuel =>
      let st := brace_scan 0 None pattern (mkScan false None None 0 errors) in
      let errors := scan_errors st in
      match braceStart st with
      | None => Ok ([pattern], errors)
      | Some bStart =>
          match braceEnd st with
          | None => Ok ([pattern], push_error errors UNCLOSED_BRACE)
          | Some bEnd =>
              let prefix := String.substring 0 bStart pattern in
              let braceContent := String.substring (S bStart) (bEnd - S bStart) pattern in
              let suffix := Js.slice_from (S bEnd) pattern in
              let alternatives := splitByComma braceContent in
              let standard :=
                flatMapM (fun p errors =>
                            if containsTopLevelBraces p
                            then expandBracesOnce fuel p errors
                            else Ok ([p], errors))
                         (map (fun alt => prefix ++ alt ++ suffix) alternatives) errors in
              match alternatives with
              | [alt] =>
                  if Js.includes alt ".." then
                    match rangeMatch alt with
                    | Some (start, end_) =>
                        let up := int_leb start end_ in
                        let count := S (int_dist end_ start) in
                        let number i :=
                          let '(neg, n) := int_step start up i in
                          prefix ++ int_to_string neg n ++ suffix in
                        if Nat.ltb 50 count then
                          let errors := push_error errors EXPANSION_LIMIT in
                          let joined := Js.join "|SPLIT|" (map number (seq 0 50)) in
                          '(ps, errors) <- expandBracesOnce fuel joined errors ;;
                          Ok (flat_map (fun p => split_marker (S (String.length p)) p "") ps,
                              errors)
                        else
                          let expanded := map number (seq 0 count) in
                          if containsTopLevelBraces suffix
                          then flatMapM (fun p errors => expandBracesOnce fuel p errors)
                                        expanded errors
                          else Ok (expanded, errors)
                    | None => standard
                    end
                  else standard
              | _ => standard
              end
          end
      end
  end.

(** [splitBySlash] *)
Fixpoint splitBySlash_loop (prevChar : option ascii) (pattern : string)
         (parts : list string) (current : string) (inBracket : bool) : list string :=
  match pattern with
  | EmptyString =>
      if negb (String.eqb current "") then (parts ++ [current])%list else parts
  | String char rest =>
      let add := current ++ String char EmptyString in
      if is_backslash prevChar
      then splitBySlash_loop (Some char) rest parts add inBracket
      else if Ascii.eqb char "[" && negb inBracket
           then splitBySlash_loop (Some char) rest parts add true
      else if Ascii.eqb char "]" && inBracket
           then splitBySlash_loop (Some char) rest parts add false
      else if Ascii.eqb char "/" && negb inBracket
           then splitBySlash_loop (Some char) rest
                  (if negb (String.eqb current "") then (parts ++ [current])%list else parts)
                  "" inBracket
      else splitBySlash_loop (Some char) rest parts add inBracket
  end.

Definition splitBySlash (pattern : string) : list string :=
  splitBySlash_loop None pattern [] "" false.

(** [hasUnescapedSpecial] *)
Fixpoint hasUnescapedSpecial (segment : string) (chars : string) : bool :=
  match segment with
  | EmptyString => false
  | String char rest =>
      match rest with
      | String _ rest' =>
          if Ascii.eqb char backslash then hasUnescapedSpecial rest' chars
          else if Js.includes_char chars char then true
          else hasUnescapedSpecial rest chars
      | EmptyString => Js.includes_char chars char
      end
  end.

(** The scan for an unescaped [**] in [parseSegment] *)
Fixpoint has_double_star (segment : string) : bool :=
  match segment with
  | String char ((String next rest') as rest) =>
      if Ascii.eqb char backslash then has_double_star rest'
      else if Ascii.eqb char "*" && Ascii.eqb next "*" then true
      else has_double_star rest
  | _ => false
  end.

(** [unescapeSegment] *)
Fixpoint unescapeSegment (segment : string) : string :=
  match segment with
  | EmptyString => EmptyString
  | String char rest =>
      match rest with
      | String next rest' =>
          if Ascii.eqb char backslash then String next (unescapeSegment rest')
          else String char (unescapeSegment rest)
      | EmptyString => String char EmptyString
      end
  end.

(** The [while] loop of [parseCharClass], on the text from index [i] on.
    Returns the class, the text from [endIndex] on, and the errors. *)
Fixpoint parseCharClass_loop (segment : string) (negated : bool)
         (ranges : list CharRange) (chars : string) (errors : list PatternError)
  : CharClassSegment * string * list PatternError :=
  match segment with
  | EmptyString =>
      (mkCharClass negated ranges chars, EmptyString, push_error errors UNCLOSED_BRACKET)
  | String char rest =>
      if Ascii.eqb char "]" then
        let errors :=
          if String.eqb chars "" && Nat.eqb (List.length ranges) 0
          then push_error errors EMPTY_CHARCLASS else errors in
        (mkCharClass negated ranges chars, rest, errors)
      else
        match rest with
        | String next rest' =>
            if Ascii.eqb char backslash then
              parseCharClass_loop rest' negated ranges
                (chars ++ String next EmptyString) errors
            else
              match rest' with
              | String end_ rest'' =>
                  if Ascii.eqb next "-" && negb (Ascii.eqb end_ "]") then
                    let errors :=
                      if Nat.ltb (nat_of_ascii end_) (nat_of_ascii char)
                      then push_error errors INVALID_RANGE else errors in
                    parseCharClass_loop rest'' negated
                      (ranges ++ [mkCharRange char end_])%list chars errors
                  else
                    parseCharClass_loop rest negated ranges
                      (chars ++ String char EmptyString) errors
              | EmptyString =>
                  parseCharClass_loop rest negated ranges
                    (chars ++ String char EmptyString) errors
              end
        | EmptyString =>
            parseCharClass_loop rest negated ranges
              (chars ++ String char EmptyString) errors
        end
  end.

(** [parseCharClass(segment, startIndex, state)], on the text that
    follows the opening bracket *)
Definition parseCharClass (afterBracket : string) (errors : list PatternError)
  : CharClassSegment * string * list PatternError :=
  let '(negated, s) :=
    match afterBracket with
    | String c r => if Ascii.eqb c "!" || Ascii.eqb c "^" then (true, r)
                    else (false, afterBracket)
    | EmptyString => (false, afterBracket)
    end in
  let '(chars, s) :=
    match s with
    | String c r => if Ascii.eqb c "]" then ("]", r) else ("", s)
    | EmptyString => ("", s)
    end in
  parseCharClass_loop s negated [] chars errors.

Definition flushLiteral (parts : list SegmentPart) (literalBuffer : string)
  : list SegmentPart :=
  if negb (String.eqb literalBuffer "")
  then (parts ++ [PLiteral literalBuffer])%list else parts.

(** The [while (i < segment.length)] loop of [parseSegmentParts].  Each
    iteration consumes at least one character, so a budget of
    [segment.length] iterations is never exhausted. *)
Fixpoint parseSegmentParts_loop (fuel : nat) (segment : string)
         (parts : list SegmentPart) (literalBuffer : string) (errors : list PatternError)
  : result (list SegmentPart * list PatternError) :=
  match segment with
  | EmptyString => Ok (flushLiteral parts literalBuffer, errors)
  | String char rest =>
      match fuel with
      | 0 => Err OutOfFuel
      | S fuel =>
          match (if Ascii.eqb char backslash then rest else EmptyString) with
          | String next rest' =>
              parseSegmentParts_loop fuel rest' parts
                (literalBuffer ++ String next EmptyString) errors
          | EmptyString =>
              if Ascii.eqb char "*" then
                parseSegmentParts_loop fuel rest
                  (flushLiteral parts literalBuffer ++ [PStar])%list "" errors
              else if Ascii.eqb char "?" then
                parseSegmentParts_loop fuel rest
                  (flushLiteral parts literalBuffer ++ [PQuestion])%list "" errors
              else if Ascii.eqb char "[" then
                let '(charclass, rest, errors) := parseCharClass rest errors in
                parseSegmentParts_loop fuel rest
                  (flushLiteral parts literalBuffer ++ [PCharclass charclass])%list ""
                  errors
              else
                parseSegmentParts_loop fuel rest parts
                  (literalBuffer ++ String char EmptyString) errors
          end
      end
  end.

Definition parseSegmentParts (segment : string) (errors : list PatternError)
  : result (list SegmentPart * list PatternError) :=
  parseSegmentParts_loop (String.length segment) segment [] "" errors.

(** [parseSegment] *)
Definition parseSegment (segment : string) (errors : list PatternError)
  : result (Segment * list PatternError) :=
  if String.eqb segment "**" then Ok (GlobstarSegment, errors)
  else
    let errors :=
      if hasUnescapedSpecial segment "*" && has_double_star segment
      then push_error errors INVALID_GLOBSTAR else errors in
    let hasWildcard := hasUnescapedSpecial segment "*?" in
    let hasBracket := hasUnescapedSpecial segment "[" in
    if negb hasWildcard && negb hasBracket
    then Ok (LiteralSegment (unescapeSegment segment), errors)
    else
      '(parts, errors) <- parseSegmentParts segment errors ;;
      if negb hasBracket then
        wildcardParts <-
          mapM (fun p => match p with
                         | PLiteral value => Ok (WLiteral value)
                         | PStar => Ok WStar
                         | PQuestion => Ok WQuestion
                         | PCharclass _ => Err (ThrownError "Unexpected part type: charclass")
                         end) parts ;;
        Ok (WildcardSegment segment wildcardParts, errors)
      else Ok (CompositeSegment parts, errors).

(** [segmentStrings.map((seg) => parseSegment(seg, state))] *)
Fixpoint parseSegments (segmentStrings : list string) (errors : list PatternError)
  : result (list Segment * list PatternError) :=
  match segmentStrings with
  | [] => Ok ([], errors)
  | seg :: rest =>
      '(s, errors) <- parseSegment seg errors ;;
      '(ss, errors) <- parseSegments rest errors ;;
      Ok (s :: ss, errors)
  end.

(** [parseSegmentSequence] *)
Definition parseSegmentSequence (pattern : string) (errors : list PatternError)
  : result (PatternNode * list PatternError) :=
  let toParse :=
    if Js.startsWith pattern "/" then Js.slice_from 1 pattern
    else if Js.startsWith pattern "~/" then Js.slice_from 2 pattern
    else if String.eqb pattern "~" then ""
    else pattern in
  if String.eqb toParse "" then Ok (SegmentSequence [], errors)
  else
    '(segments, errors) <- parseSegments (splitBySlash toParse) errors ;;
    Ok (SegmentSequence segments, errors).

(** [branches.map((branch) => parseSegmentSequence(branch, state))] *)
Fixpoint parseBranches (branches : list string) (errors : list PatternError)
  : result (list PatternNode * list PatternError) :=
  match branches with
  | [] => Ok ([], errors)
  | branch :: rest =>
      '(n, errors) <- parseSegmentSequence branch errors ;;
      '(ns, errors) <- parseBranches rest errors ;;
      Ok (n :: ns, errors)
  end.

(** Depth budget handed to [expandBracesOnce] by [parsePattern] *)
Definition expansion_fuel (source : string) : nat := 64 * S (String.length source).

(** [parsePattern] *)
Definition parsePattern (source : string) : result PathPattern :=
  let '(isNegation, patternToParse) :=
    if Js.startsWith source "!" then (true, Js.slice_from 1 source)
    else (false, source) in
  let isAbsolute :=
    Js.startsWith patternToParse "/" || Js.startsWith patternToParse "~" in
  let hasBraces := containsTopLevelBraces patternToParse in
  '(root, errors) <-
    (if hasBraces then
       '(branches, errors) <-
         expandBracesOnce (expansion_fuel source) patternToParse [] ;;
       match branches with
       | [branch] => parseSegmentSequence branch errors
       | _ =>
           '(nodes, errors) <- parseBranches branches errors ;;
           Ok (Alternation nodes, errors)
       end
     else parseSegmentSequence patternToParse []) ;;
  Ok (mkPathPattern source root isAbsolute isNegation
        (if Nat.ltb 0 (List.length errors) then Some errors else None)).

End Parser.

(** ** [parse/validator.ts] *)
Module Validator.

Definition validateCharClass (spec : CharClassSegment) : list PatternError :=
  ((if String.eqb (chars spec) "" && Nat.eqb (List.length (ranges spec)) 0
    then [mkPatternError EMPTY_CHARCLASS] else [])
   ++ flat_map (fun range =>
                  if Nat.ltb (nat_of_ascii (range_end range))
                             (nat_of_ascii (range_start range))
                  then [mkPatternError INVALID_RANGE] else [])
               (ranges spec))%list.

(** [validateSegment] *)
Definition validateSegment (segment : Segment) : list PatternError :=
  match segment with
  | LiteralSegment _ => []
  | GlobstarSegment => []
  | WildcardSegment pattern _ =>
      if Js.includes pattern "**" then [mkPatternError INVALID_GLOBSTAR] else []
  | CharClass spec => validateCharClass spec
  | CompositeSegment parts =>
      flat_map (fun part => match part with
                            | PCharclass spec => validateCharClass spec
                            | _ => []
                            end) parts
  end.

(** [validateNode] *)
Fixpoint validateNode (node : PatternNode) : list PatternError :=
  match node with
  | SegmentSequence segments => flat_map validateSegment segments
  | Alternation branches => flat_map validateNode branches
  end.

(** [validatePattern] *)
Definition validatePattern (pattern : PathPattern) : list PatternError :=
  ((match errors pattern with Some es => es | None => [] end)
   ++ validateNode (root pattern))%list.

(** [isValidPattern] *)
Definition isValidPattern (pattern : PathPattern) : bool :=
  Nat.eqb (List.length (validatePattern pattern)) 0.

End Validator.

(* ===================================================================== *)
(** ** [automaton/determinize.ts]                                         *)
(* ===================================================================== *)

Module Determinize.

Definition DEFAULT_MAX_DFA_STATES : nat := 10000.

(** [DeterminizeOptions]; [maxStates] is a natural number here
    ([Infinity] is not modelled). *)
Record DeterminizeOptions := mkOptions { maxStates : option nat }.

Definition default_options : DeterminizeOptions := mkOptions None.

Inductive AlphabetSymbol :=
| SymLiteral (value : string)
| SymWildcard (pattern : SegmentMatcher) (patternSource : string)
| SymAny.

(** [serializeStateSet] *)
Definition serializeStateSet (stateSet : list nat) : string :=
  Js.join "," (map Js.String_of_nat (Js.sort stateSet)).

Definition closure_visit (acc : list nat * list nat) (transition : AutomatonTransition)
  : list nat * list nat :=
  let '(closure, worklist) := acc in
  match transition with
  | EpsilonTransition target =>
      if negb (Js.set_has closure target)
      then (Js.set_add closure target, target :: worklist) else acc
  | GlobstarTransition _ exit =>
      if negb (Js.set_has closure exit)
      then (Js.set_add closure exit, exit :: worklist) else acc
  | _ => acc
  end.

Definition closure_step (automaton : SegmentAutomaton) (st : list nat * list nat)
  : result ((list nat * list nat) + list nat) :=
  let '(closure, worklist) := st in
  match worklist with
  | [] => Ok (inr closure)
  | stateId :: worklist =>
      state <- state_at_exn automaton stateId ;;
      Ok (inl (fold_left closure_visit (transitions state) (closure, worklist)))
  end.

(** [epsilonClosure] (the copy in [determinize.ts]) *)
Definition epsilonClosure (automaton : SegmentAutomaton) (states : list nat)
  : result (list nat) :=
  while_loop (S (List.length states + Matcher.count_transitions automaton))
    (closure_step automaton) (states, rev states).

(** [transition.patternSource || transition.pattern.source] *)
Definition wildcard_key (pattern : SegmentMatcher) (patternSource : string) : string :=
  if String.eqb patternSource "" then matcher_source pattern else patternSource.

(** Local variables of [collectAlphabet]: symbols, literalSet, the keys
    of wildcardSet *)
Definition collect_visit (acc : list AlphabetSymbol * list string * list string)
           (transition : AutomatonTransition) :=
  let '(symbols, literalSet, wildcardSet) := acc in
  match transition with
  | LiteralTransition segment _ =>
      if negb (Js.array_includes literalSet segment)
      then ((symbols ++ [SymLiteral segment])%list, (literalSet ++ [segment])%list, wildcardSet)
      else acc
  | WildcardTransition pattern patternSource _ =>
      let key := wildcard_key pattern patternSource in
      if negb (Js.array_includes wildcardSet key)
      then ((symbols ++ [SymWildcard pattern patternSource])%list, literalSet,
            (wildcardSet ++ [key])%list)
      else acc
  | _ => acc
  end.

(** [collectAlphabet] *)
Definition collectAlphabet (automaton : SegmentAutomaton) : list AlphabetSymbol :=
  fst (fst (fold_left (fun acc state => fold_left collect_visit (transitions state) acc)
                      (states automaton) ([], [], []))).

(** [matchesSymbol] *)
Definition matchesSymbol (transition : AutomatonTransition) (symbol : AlphabetSymbol)
  : bool :=
  match transition, symbol with
  | LiteralTransition segment _, SymLiteral value => String.eqb segment value
  | WildcardTransition _ patternSource _, SymWildcard _ symbolSource =>
      String.eqb patternSource symbolSource
  | _, _ => false
  end.

(** [getTarget] *)
Definition getTarget (transition : AutomatonTransition) : nat :=
  match transition with
  | LiteralTransition _ target | WildcardTransition _ _ target => target
  | GlobstarTransition selfLoop _ => selfLoop
  | EpsilonTransition target => target
  end.

(** [computeTransition] *)
Definition computeTransition (nfa : SegmentAutomaton) (fromStates : list nat)
           (symbol : AlphabetSymbol) : result (list nat) :=
  reached <-
    foldM (fun reached stateId =>
             state <- state_at_exn nfa stateId ;;
             Ok (fold_left (fun reached transition =>
                              if matchesSymbol transition symbol
                              then Js.set_add reached (getTarget transition)
                              else reached)
                           (transitions state) reached))
          fromStates [] ;;
  epsilonClosure nfa reached.

(** [computeAnyTransition] *)
Definition computeAnyTransition (nfa : SegmentAutomaton) (fromStates : list nat)
  : result (list nat) :=
  reached <-
    foldM (fun reached stateId =>
             state <- state_at_exn nfa stateId ;;
             Ok (fold_left (fun reached transition =>
                              match transition with
                              | GlobstarTransition selfLoop _ => Js.set_add reached selfLoop
                              | _ => reached
                              end)
                           (transitions state) reached))
          fromStates [] ;;
  epsilonClosure nfa reached.

(** The wildcard added by [makeComplete]: [/^.*$/] with source tag [*] *)
Definition catchAll (target : nat) : AutomatonTransition :=
  WildcardTransition (MRegExp (mkRegExp [ReDotStar])) "*" target.

(** [/^\^?\.\*\$?$/.test(source)] *)
Definition isCatchAllSource (source : string) : bool :=
  String.eqb source ".*" || String.eqb source "^.*"
  || String.eqb source ".*$" || String.eqb source "^.*$".

Definition hasCatchAll (state : AutomatonState) : bool :=
  existsb (fun t => match t with
                    | WildcardTransition pattern _ _ =>
                        isCatchAllSource (matcher_source pattern)
                    | _ => false
                    end) (transitions state).

(** [makeComplete] *)
Definition makeComplete (dfa : SegmentAutomaton) : SegmentAutomaton :=
  let sinkStateId := List.length (states dfa) in
  let sinkState := mkState sinkStateId [catchAll sinkStateId] false in
  let completedStates :=
    map (fun state =>
           if hasCatchAll state then state
           else mkState (id state) (transitions state ++ [catchAll sinkStateId])%list
                        (accepting state))
        (states dfa) in
  mkAutomaton (completedStates ++ [sinkState])%list (initialState dfa)
              (acceptingStates dfa) true.

(** Variables captured by the closure [getOrCreateState] *)
Record Construction := mkConstruction {
  stateSetMap : list (string * nat);
  dfaStates : list AutomatonState
}.

(** [[...nfaStateSet].some((s) => nfa.states[s].accepting)] *)
Fixpoint some_accepting (nfa : SegmentAutomaton) (nfaStateSet : list nat) : result bool :=
  match nfaStateSet with
  | [] => Ok false
  | s :: rest =>
      state <- state_at_exn nfa s ;;
      if accepting state then Ok true else some_accepting nfa rest
  end.

(** [getOrCreateState] *)
Definition getOrCreateState (nfa : SegmentAutomaton) (maxStates : nat)
           (c : Construction) (nfaStateSet : list nat) : result (nat * Construction) :=
  let key := serializeStateSet nfaStateSet in
  match Js.map_get (stateSetMap c) key with
  | Some dfaStateId => Ok (dfaStateId, c)
  | None =>
      if Nat.leb maxStates (List.length (dfaStates c)) then
        Err (LimitError (mkLimitError DFA_STATE_LIMIT maxStates
                                      (List.length (dfaStates c) + 1)))
      else
        let dfaStateId := List.length (dfaStates c) in
        accepting <- some_accepting nfa nfaStateSet ;;
        Ok (dfaStateId,
            mkConstruction (Js.map_set (stateSetMap c) key dfaStateId)
                           (dfaStates c ++ [mkState dfaStateId [] accepting])%list)
  end.

(** State of the main loop *)
Record Loop := mkLoop {
  construction : Construction;
  worklist : list (nat * list nat);
  processed : list nat
}.

(** What one alphabet symbol (or the "any" symbol) contributes while a
    DFA state is being processed *)
Definition add_target (nfa : SegmentAutomaton) (maxStates : nat) (processed : list nat)
           (mk : nat -> list AutomatonTransition)
           (acc : Construction * list AutomatonTransition * list (nat * list nat))
           (targetNfaSet : list nat)
  : result (Construction * list AutomatonTransition * list (nat * list nat)) :=
  let '(c, transitions, worklist) := acc in
  if Nat.ltb 0 (List.length targetNfaSet) then
    '(targetDfaState, c) <- getOrCreateState nfa maxStates c targetNfaSet ;;
    let transitions := (transitions ++ mk targetDfaState)%list in
    let worklist :=
      if negb (Js.set_has processed targetDfaState)
      then (targetDfaState, targetNfaSet) :: worklist else worklist in
    Ok (c, transitions, worklist)
  else Ok acc.

Definition symbol_transition (symbol : AlphabetSymbol) (target : nat)
  : list AutomatonTransition :=
  match symbol with
  | SymLiteral value => [LiteralTransition value target]
  | SymWildcard pattern patternSource => [WildcardTransition pattern patternSource target]
  | SymAny => []
  end.

(** The wildcard emitted for the "any" symbol: [/^.+$/], source tag [*] *)
Definition any_transition (target : nat) : list AutomatonTransition :=
  [WildcardTransition (MRegExp (mkRegExp [ReDotPlus])) "*" target].

(** Body of the main [while] loop *)
Definition determinize_step (nfa : SegmentAutomaton) (maxStates : nat)
           (alphabet : list AlphabetSymbol) (l : Loop) : result (Loop + Construction) :=
  match worklist l with
  | [] => Ok (inr (construction l))
  | (dfaStateId, nfaStateSet) :: worklist =>
      if Js.set_has (processed l) dfaStateId
      then Ok (inl (mkLoop (construction l) worklist (processed l)))
      else
        let processed := Js.set_add (processed l) dfaStateId in
        acc <-
          foldM (fun acc symbol =>
                   targetNfaSet <- computeTransition nfa nfaStateSet symbol ;;
                   add_target nfa maxStates processed (symbol_transition symbol)
                              acc targetNfaSet)
                alphabet (construction l, [], worklist) ;;
        anyTarget <- computeAnyTransition nfa nfaStateSet ;;
        '(c, transitions, worklist) <-
          add_target nfa maxStates processed any_transition acc anyTarget ;;
        match nth_error (dfaStates c) dfaStateId with
        | None => Err TypeError (* not reached: ids come from getOrCreateState *)
        | Some state =>
            Ok (inl (mkLoop
                       (mkConstruction (stateSetMap c)
                          (Js.array_set (dfaStates c) dfaStateId
                             (mkState (id state) transitions (accepting state))))
                       worklist processed))
        end
  end.

(** Iteration budget of the main loop: every DFA state is processed once
    and pushes at most one entry per alphabet symbol plus one. *)
Definition determinize_fuel (maxStates : nat) (alphabet : list AlphabetSymbol) : nat :=
  2 + S maxStates * S (List.length alphabet).

(** [determinize] *)
Definition determinize (nfa : SegmentAutomaton) (options : DeterminizeOptions)
  : result SegmentAutomaton :=
  let maxStates :=
    match maxStates options with Some n => n | None => DEFAULT_MAX_DFA_STATES end in
  if isDeterministic nfa then Ok (makeComplete nfa)
  else
    initialClosure <- epsilonClosure nfa [initialState nfa] ;;
    '(initialDfaState, c) <-
      getOrCreateState nfa maxStates (mkConstruction [] []) initialClosure ;;
    let alphabet := collectAlphabet nfa in
    c <- while_loop (determinize_fuel maxStates alphabet)
           (determinize_step nfa maxStates alphabet)
           (mkLoop c [(initialDfaState, initialClosure)] []) ;;
    let acceptingStates := map id (filter accepting (dfaStates c)) in
    Ok (makeComplete (mkAutomaton (dfaStates c) initialDfaState acceptingStates true)).

End Determinize.

(* ===================================================================== *)
(** ** [automaton/intersect.ts]                                           *)
(* ===================================================================== *)

Module Intersect.

(** [renumberTransition] *)
Definition renumberTransition (t : AutomatonTransition) (offset : nat)
  : AutomatonTransition :=
  match t with
  | LiteralTransition segment target => LiteralTransition segment (target + offset)
  | WildcardTransition pattern patternSource target =>
      WildcardTransition pattern patternSource (target + offset)
  | EpsilonTransition target => EpsilonTransition (target + offset)
  | GlobstarTransition selfLoop exit => GlobstarTransition (selfLoop + offset) (exit + offset)
  end.

(** [union] *)
Definition union (a b : SegmentAutomaton) : SegmentAutomaton :=
  let aOffset := 0 in
  let bOffset := List.length (states a) in
  let newInitialState := List.length (states a) + List.length (states b) in
  let renumber offset state :=
    mkState (id state + offset)
            (map (fun t => renumberTransition t offset) (transitions state))
            (accepting state) in
  let states :=
    (map (renumber aOffset) (states a) ++ map (renumber bOffset) (states b)
     ++ [mkState newInitialState
           [EpsilonTransition (initialState a + aOffset);
            EpsilonTransition (initialState b + bOffset)] false])%list in
  let acceptingStates :=
    (map (fun s => s + aOffset) (acceptingStates a)
     ++ map (fun s => s + bOffset) (acceptingStates b))%list in
  mkAutomaton states newInitialState acceptingStates false.

Inductive ProductMode := intersection | union_mode.

(** [TransitionWithoutTarget] *)
Inductive TransitionWithoutTarget :=
| LiteralPart (segment : string)
| WildcardPart_ (pattern : SegmentMatcher) (patternSource : string).

Record CombinedTransition := mkCombined {
  transition : TransitionWithoutTarget;
  targetA : nat;
  targetB : nat
}.

(** [createIntersectionPattern] *)
Definition createIntersectionPattern (patternA patternB : SegmentMatcher)
  : SegmentMatcher := MIntersection patternA patternB.

(** [handleGlobstarProduct] *)
Definition handleGlobstarProduct (transA transB : AutomatonTransition)
  : option CombinedTransition :=
  match transA, transB with
  | GlobstarTransition selfLoopA _, GlobstarTransition selfLoopB _ =>
      Some (mkCombined (WildcardPart_ (MRegExp (mkRegExp [ReDotPlus])) "**")
                       selfLoopA selfLoopB)
  | GlobstarTransition selfLoopA _, LiteralTransition segment target =>
      Some (mkCombined (LiteralPart segment) selfLoopA target)
  | GlobstarTransition selfLoopA _, WildcardTransition pattern patternSource target =>
      Some (mkCombined (WildcardPart_ pattern patternSource) selfLoopA target)
  | LiteralTransition segment target, GlobstarTransition selfLoopB _ =>
      Some (mkCombined (LiteralPart segment) target selfLoopB)
  | WildcardTransition pattern patternSource target, GlobstarTransition selfLoopB _ =>
      Some (mkCombined (WildcardPart_ pattern patternSource) target selfLoopB)
  | _, _ => None
  end.

(** [combineTransitions] *)
Definition combineTransitions (transA transB : AutomatonTransition)
  : option CombinedTransition :=
  match transA, transB with
  | EpsilonTransition _, _ | _, EpsilonTransition _ => None
  | LiteralTransition segmentA targetA, LiteralTransition segmentB targetB =>
      if String.eqb segmentA segmentB
      then Some (mkCombined (LiteralPart segmentA) targetA targetB) else None
  | LiteralTransition segmentA targetA, WildcardTransition patternB _ targetB =>
      if test patternB segmentA
      then Some (mkCombined (LiteralPart segmentA) targetA targetB) else None
  | WildcardTransition patternA _ targetA, LiteralTransition segmentB targetB =>
      if test patternA segmentB
      then Some (mkCombined (LiteralPart segmentB) targetA targetB) else None
  | WildcardTransition patternA sourceA targetA, WildcardTransition patternB sourceB targetB =>
      Some (mkCombined
              (WildcardPart_ (createIntersectionPattern patternA patternB)
                             ("(" ++ sourceA ++ ")∩(" ++ sourceB ++ ")"))
              targetA targetB)
  | _, _ => handleGlobstarProduct transA transB
  end.

(** [getPairKey] *)
Definition getPairKey (sa sb : nat) : string :=
  Js.String_of_nat sa ++ "," ++ Js.String_of_nat sb.

(** Variables captured by the closure [getOrCreateState] *)
Record Construction := mkConstruction {
  pairToState : list (string * nat);
  productStates : list AutomatonState
}.

(** [a.states[sa]?.accepting ?? false] *)
Definition accepting_or_false (a : SegmentAutomaton) (s : nat) : bool :=
  match state_at a s with Some st => accepting st | None => false end.

(** [stateA?.transitions ?? []] *)
Definition transitions_or_empty (a : SegmentAutomaton) (s : nat)
  : list AutomatonTransition :=
  match state_at a s with Some st => transitions st | None => [] end.

(** [getOrCreateState] *)
Definition getOrCreateState (a b : SegmentAutomaton) (mode : ProductMode)
           (c : Construction) (sa sb : nat) : nat * Construction :=
  let key := getPairKey sa sb in
  match Js.map_get (pairToState c) key with
  | Some stateId => (stateId, c)
  | None =>
      let stateId := List.length (productStates c) in
      let acceptA := accepting_or_false a sa in
      let acceptB := accepting_or_false b sb in
      let accepting :=
        match mode with
        | intersection => acceptA && acceptB
        | union_mode => acceptA || acceptB
        end in
      (stateId,
       mkConstruction (Js.map_set (pairToState c) key stateId)
                      (productStates c ++ [mkState stateId [] accepting])%list)
  end.

Record WorkItem := mkItem { stateId : nat; sa : nat; sb : nat }.

(** State of the main loop; [processed] is a [Set<string>] of pair keys *)
Record Loop := mkLoop {
  construction : Construction;
  worklist : list WorkItem;
  processed : list string
}.

(** Body of the two nested [for] loops for one pair [(transA, transB)] *)
Definition combine_visit (a b : SegmentAutomaton) (mode : ProductMode)
           (processed : list string)
           (acc : Construction * list AutomatonTransition * list WorkItem)
           (pair : AutomatonTransition * AutomatonTransition)
  : Construction * list AutomatonTransition * list WorkItem :=
  let '(c, transitions, worklist) := acc in
  match combineTransitions (fst pair) (snd pair) with
  | Some combined =>
      let '(targetState, c) :=
        getOrCreateState a b mode c (targetA combined) (targetB combined) in
      let t :=
        match transition combined with
        | LiteralPart segment => LiteralTransition segment targetState
        | WildcardPart_ pattern patternSource =>
            WildcardTransition pattern patternSource targetState
        end in
      let targetKey := getPairKey (targetA combined) (targetB combined) in
      (c, (transitions ++ [t])%list,
       if negb (Js.array_includes processed targetKey)
       then mkItem targetState (targetA combined) (targetB combined) :: worklist
       else worklist)
  | None => acc
  end.

(** Body of the main [while] loop *)
Definition product_step (a b : SegmentAutomaton) (mode : ProductMode) (l : Loop)
  : result (Loop + Construction) :=
  match worklist l with
  | [] => Ok (inr (construction l))
  | item :: worklist =>
      let key := getPairKey (sa item) (sb item) in
      if Js.array_includes (processed l) key
      then Ok (inl (mkLoop (construction l) worklist (processed l)))
      else
        let processed := (processed l ++ [key])%list in
        let pairs :=
          flat_map (fun transA =>
                      map (fun transB => (transA, transB))
                          (transitions_or_empty b (sb item)))
                   (transitions_or_empty a (sa item)) in
        let '(c, transitions, worklist) :=
          fold_left (combine_visit a b mode processed) pairs
                    (construction l, [], worklist) in
        match nth_error (productStates c) (stateId item) with
        | None => Err TypeError (* not reached: ids come from getOrCreateState *)
        | Some state =>
            Ok (inl (mkLoop
                       (mkConstruction (pairToState c)
                          (Js.array_set (productStates c) (stateId item)
                             (mkState (id state) transitions (accepting state))))
                       worklist processed))
        end
  end.

(** Iteration budget: each pair of states is processed once and pushes at
    most one entry per pair of transitions. *)
Definition product_fuel (a b : SegmentAutomaton) : nat :=
  2 + Matcher.count_transitions a * Matcher.count_transitions b.

(** [productConstruction] *)
Definition productConstruction (a b : SegmentAutomaton) (mode : ProductMode)
  : result SegmentAutomaton :=
  let '(initialState_, c) :=
    getOrCreateState a b mode (mkConstruction [] []) (initialState a) (initialState b) in
  c <- while_loop (product_fuel a b) (product_step a b mode)
         (mkLoop c [mkItem initialState_ (initialState a) (initialState b)] []) ;;
  let acceptingStates := map id (filter accepting (productStates c)) in
  Ok (mkAutomaton (productStates c) initialState_ acceptingStates
                  (isDeterministic a && isDeterministic b)).

(** [intersect] *)
Definition intersect (a b : SegmentAutomaton) : result SegmentAutomaton :=
  productConstruction a b intersection.

End Intersect.

(* ===================================================================== *)
(** ** [automaton/complement.ts]                                          *)
(* ===================================================================== *)

Module Complement.

(** [complement] *)
Definition complement (automaton : SegmentAutomaton) : result SegmentAutomaton :=
  dfa <- (if isDeterministic automaton then Ok automaton
          else Determinize.determinize automaton Determinize.default_options) ;;
  let complementedStates :=
    map (fun state => mkState (id state) (transitions state) (negb (accepting state)))
        (states dfa) in
  let acceptingStates := map id (filter accepting complementedStates) in
  Ok (mkAutomaton complementedStates (initialState dfa) acceptingStates true).

End Complement.

(* ===================================================================== *)
(** ** [automaton/pattern-algebra.ts]                                     *)
(* ===================================================================== *)

Module PatternAlgebra.

Inductive MergeMode := for_intersection | for_union.

(** [createSyntheticAst] *)
Definition createSyntheticAst (source : string) (operands : list PathPattern)
  : PathPattern :=
  mkPathPattern source (Alternation (map root operands))
                (existsb isAbsolute operands) false None.

(** Longest common prefix of two strings *)
Fixpoint common_prefix (a b : string) : string :=
  match a, b with
  | String x a', String y b' =>
      if Ascii.eqb x y then String x (common_prefix a' b') else EmptyString
  | _, _ => EmptyString
  end.

(** [common || undefined] *)
Definition nonempty (s : string) : option string :=
  if String.eqb s "" then None else Some s.

(** [mergePrefix] *)
Definition mergePrefix (a b : option string) (mode : MergeMode) : option string :=
  match a, b, mode with
  | None, _, for_intersection => b
  | None, _, for_union => None
  | _, None, for_intersection => a
  | _, None, for_union => None
  | Some a, Some b, for_intersection =>
      if Js.startsWith a b then Some a
      else if Js.startsWith b a then Some b
      else if Nat.leb (String.length b) (String.length a) then Some a else Some b
  | Some a, Some b, for_union => nonempty (common_prefix a b)
  end.

(** [mergeSuffix] *)
Definition mergeSuffix (a b : option string) (mode : MergeMode) : option string :=
  match a, b, mode with
  | None, _, for_intersection => b
  | None, _, for_union => None
  | _, None, for_intersection => a
  | _, None, for_union => None
  | Some a, Some b, for_intersection =>
      if Js.endsWith a b then Some a
      else if Js.endsWith b a then Some b
      else if Nat.leb (String.length b) (String.length a) then Some a else Some b
  | Some a, Some b, for_union =>
      nonempty (Js.rev_string (common_prefix (Js.rev_string a) (Js.rev_string b)))
  end.

(** [mergeMinLength] *)
Definition mergeMinLength (a b : option nat) (mode : MergeMode) : option nat :=
  match a, b, mode with
  | None, _, for_intersection => b
  | None, _, for_union => None
  | _, None, for_intersection => a
  | _, None, for_union => None
  | Some a, Some b, for_intersection => Some (Nat.max a b)
  | Some a, Some b, for_union => Some (Nat.min a b)
  end.

(** [new Set(xs)] for strings *)
Definition string_set_of (xs : list string) : list string :=
  fold_left (fun acc x => if Js.array_includes acc x then acc else (acc ++ [x])%list) xs [].

(** [mergeLiterals] *)
Definition mergeLiterals (a b : option (list string)) (mode : MergeMode)
  : option (list string) :=
  match a, b, mode with
  | None, _, for_intersection => b
  | None, _, for_union => None
  | _, None, for_intersection => a
  | _, None, for_union => None
  | Some a, Some b, for_intersection =>
      let combined := string_set_of (a ++ b)%list in
      if Nat.ltb 0 (List.length combined) then Some combined else None
  | Some a, Some b, for_union =>
      let common := filter (fun lit => Js.array_includes b lit) a in
      if Nat.ltb 0 (List.length common) then Some common else None
  end.

(** [mergeQuickRejectForIntersection] *)
Definition mergeQuickRejectForIntersection (a b : QuickRejectFilter) : QuickRejectFilter :=
  mkFilter (mergePrefix (requiredPrefix a) (requiredPrefix b) for_intersection)
           (mergeSuffix (requiredSuffix a) (requiredSuffix b) for_intersection)
           (mergeMinLength (minLength a) (minLength b) for_intersection)
           (mergeLiterals (requiredLiterals a) (requiredLiterals b) for_intersection).

(** [mergeQuickRejectForUnion] *)
Definition mergeQuickRejectForUnion (a b : QuickRejectFilter) : QuickRejectFilter :=
  mkFilter (mergePrefix (requiredPrefix a) (requiredPrefix b) for_union)
           (mergeSuffix (requiredSuffix a) (requiredSuffix b) for_union)
           (mergeMinLength (minLength a) (minLength b) for_union)
           (mergeLiterals (requiredLiterals a) (requiredLiterals b) for_union).

(** [computeIntersectionMaxSegments] *)
Definition computeIntersectionMaxSegments (a b : option jsnum) : option jsnum :=
  match a, b with
  | None, _ => b
  | _, None => a
  | Some a, Some b => Some (Js.num_min a b)
  end.

(** [computeUnionMaxSegments] *)
Definition computeUnionMaxSegments (a b : option jsnum) (aUnbounded bUnbounded : bool)
  : option jsnum :=
  if aUnbounded || bUnbounded then None
  else match a, b with
       | Some a, Some b => Some (Js.num_max a b)
       | _, _ => None
       end.

(** [a.automaton.isDeterministic ? a.automaton : determinize(a.automaton)] *)
Definition as_dfa (a : SegmentAutomaton) : result SegmentAutomaton :=
  if isDeterministic a then Ok a
  else Determinize.determinize a Determinize.default_options.

(** [patternIntersect] *)
Definition patternIntersect (a b : CompiledPattern) : result CompiledPattern :=
  dfaA <- as_dfa (automaton a) ;;
  dfaB <- as_dfa (automaton b) ;;
  automaton <- Intersect.intersect dfaA dfaB ;;
  let source := "(" ++ cp_source a ++ ") ∩ (" ++ cp_source b ++ ")" in
  let ast := createSyntheticAst source [ast a; ast b] in
  let quickReject := mergeQuickRejectForIntersection (quickReject a) (quickReject b) in
  Ok (mkCompiled source ast quickReject automaton
        (isUnbounded a && isUnbounded b)
        (Js.num_max (minSegments a) (minSegments b))
        (computeIntersectionMaxSegments (maxSegments a) (maxSegments b))).

(** [patternUnion] *)
Definition patternUnion (a b : CompiledPattern) : result CompiledPattern :=
  dfaA <- as_dfa (automaton a) ;;
  dfaB <- as_dfa (automaton b) ;;
  let automaton := Intersect.union dfaA dfaB in
  let source := "(" ++ cp_source a ++ ") ∪ (" ++ cp_source b ++ ")" in
  let ast := createSyntheticAst source [ast a; ast b] in
  let quickReject := mergeQuickRejectForUnion (quickReject a) (quickReject b) in
  Ok (mkCompiled source ast quickReject automaton
        (isUnbounded a || isUnbounded b)
        (Js.num_min (minSegments a) (minSegments b))
        (computeUnionMaxSegments (maxSegments a) (maxSegments b)
                                 (isUnbounded a) (isUnbounded b))).

(** [patternComplement] *)
Definition patternComplement (a : CompiledPattern) : result CompiledPattern :=
  dfa <- as_dfa (automaton a) ;;
  automaton <- Complement.complement dfa ;;
  let source := "¬(" ++ cp_source a ++ ")" in
  let ast := createSyntheticAst source [ast a] in
  Ok (mkCompiled source ast (mkFilter None None None None) automaton
        true (Num 0) None).

(** [patternDifference] *)
Definition patternDifference (a b : CompiledPattern) : result CompiledPattern :=
  dfaA <- as_dfa (automaton a) ;;
  dfaB <- as_dfa (automaton b) ;;
  bComplement <- Complement.complement dfaB ;;
  automaton <- Intersect.intersect dfaA bComplement ;;
  let source := "(" ++ cp_source a ++ ") \ (" ++ cp_source b ++ ")" in
  let ast := createSyntheticAst source [ast a; ast b] in
  Ok (mkCompiled source ast (quickReject a) automaton
        (isUnbounded a) (minSegments a) (maxSegments a)).

End PatternAlgebra.

(* ===================================================================== *)
(** ** [automaton/emptiness.ts]                                           *)
(* ===================================================================== *)

Module Emptiness.

(** [getTransitionTargets] *)
Definition getTransitionTargets (transition : AutomatonTransition) : list nat :=
  match transition with
  | LiteralTransition _ target | WildcardTransition _ _ target
  | EpsilonTransition target => [target]
  | GlobstarTransition selfLoop exit => [selfLoop; exit]
  end.

(** Body of the [while] loop of [findReachableStates]; the loop state is
    (reachable, worklist). *)
Definition reachable_step (automaton : SegmentAutomaton) (st : list nat * list nat)
  : result ((list nat * list nat) + list nat) :=
  let '(reachable, worklist) := st in
  match worklist with
  | [] => Ok (inr reachable)
  | stateId :: worklist =>
      if Js.set_has reachable stateId then Ok (inl (reachable, worklist))
      else
        let reachable := Js.set_add reachable stateId in
        match state_at automaton stateId with
        | None => Ok (inl (reachable, worklist))
        | Some state =>
            Ok (inl (reachable,
                     fold_left
                       (fun worklist target =>
                          if negb (Js.set_has reachable target)
                          then target :: worklist else worklist)
                       (flat_map getTransitionTargets (transitions state))
                       worklist))
        end
  end.

(** [findReachableStates].  A state is expanded once and pushes at most
    two entries per transition. *)
Definition findReachableStates (automaton : SegmentAutomaton) : result (list nat) :=
  while_loop (2 + 2 * Matcher.count_transitions automaton)
    (reachable_step automaton) ([], [initialState automaton]).

(** [isEmpty] *)
Definition isEmpty (automaton : SegmentAutomaton) : result bool :=
  reachable <- findReachableStates automaton ;;
  Ok (negb (existsb (fun acceptingId => Js.set_has reachable acceptingId)
                    (acceptingStates automaton))).

(** Body of the [while] loop of [epsilonClosure]; the loop state is
    (closure, worklist). *)
Definition closure_step (automaton : SegmentAutomaton) (st : list nat * list nat)
  : result ((list nat * list nat) + list nat) :=
  let '(closure, worklist) := st in
  match worklist with
  | [] => Ok (inr closure)
  | stateId :: worklist =>
      if Js.set_has closure stateId then Ok (inl (closure, worklist))
      else
        let closure := Js.set_add closure stateId in
        match state_at automaton stateId with
        | None => Ok (inl (closure, worklist))
        | Some state =>
            Ok (inl (closure,
                     fold_left
                       (fun worklist transition =>
                          match transition with
                          | EpsilonTransition target =>
                              if negb (Js.set_has closure target)
                              then target :: worklist else worklist
                          | GlobstarTransition _ exit =>
                              if negb (Js.set_has closure exit)
                              then exit :: worklist else worklist
                          | _ => worklist
                          end)
                       (transitions state) worklist))
        end
  end.

(** [epsilonClosure(automaton, startState)] (the copy in [emptiness.ts]) *)
Definition epsilonClosure (automaton : SegmentAutomaton) (startState : nat)
  : result (list nat) :=
  while_loop (2 + Matcher.count_transitions automaton)
    (closure_step automaton) ([], [startState]).

(** [generateMatchingSample] *)
Definition generateMatchingSample (pattern : SegmentMatcher) (patternSource : string)
  : string :=
  if Js.includes patternSource ".ts" then "file.ts"
  else if Js.includes patternSource ".js" then "file.js"
  else if Js.startsWith patternSource "*." then "sample" ++ Js.slice_from 1 patternSource
  else if Js.endsWith patternSource "*" then Js.drop_last patternSource ++ "sample"
  else if Js.startsWith patternSource "*" then "sample" ++ Js.slice_from 1 patternSource
  else
    match find (fun sample => test pattern sample)
               ["file"; "dir"; "foo"; "bar"; "test"; "src"; "index.ts"] with
    | Some sample => sample
    | None => "segment"
    end.

(** [SearchState] *)
Record SearchState := mkSearch { search_stateId : nat; path : list string }.

(** What one transition pushes onto the queue *)
Definition explore (automaton : SegmentAutomaton) (visited : list nat) (path : list string)
           (queue : list SearchState) (transition : AutomatonTransition)
  : result (list SearchState) :=
  match transition with
  | EpsilonTransition target =>
      Ok (if negb (Js.set_has visited target)
          then (queue ++ [mkSearch target path])%list else queue)
  | LiteralTransition segment target =>
      Ok (if negb (Js.set_has visited target)
          then (queue ++ [mkSearch target (path ++ [segment])])%list else queue)
  | WildcardTransition pattern patternSource target =>
      let sample := generateMatchingSample pattern patternSource in
      Ok (if negb (Js.set_has visited target)
          then (queue ++ [mkSearch target (path ++ [sample])])%list else queue)
  | GlobstarTransition selfLoop exit =>
      exitClosure <- epsilonClosure automaton exit ;;
      let queue :=
        fold_left (fun queue exitState =>
                     if negb (Js.set_has visited exitState)
                     then (queue ++ [mkSearch exitState path])%list else queue)
                  exitClosure queue in
      Ok (if negb (Js.set_has visited selfLoop)
          then (queue ++ [mkSearch selfLoop (path ++ ["x"])])%list else queue)
  end.

(** Body of the [while (queue.length > 0)] loop of [findWitness]; the
    loop state is (visited, queue). *)
Definition witness_step (automaton : SegmentAutomaton)
           (st : list nat * list SearchState)
  : result ((list nat * list SearchState) + option string) :=
  let '(visited, queue) := st in
  match queue with
  | [] => Ok (inr None)
  | mkSearch stateId path :: queue =>
      if Js.set_has visited stateId then Ok (inl (visited, queue))
      else
        let visited := Js.set_add visited stateId in
        match state_at automaton stateId with
        | None => Ok (inl (visited, queue))
        | Some state =>
            if accepting state && Nat.ltb 0 (List.length path)
            then Ok (inr (Some ("/" ++ Js.join "/" path)))
            else
              queue <- foldM (explore automaton visited path) (transitions state) queue ;;
              Ok (inl (visited, queue))
        end
  end.

(** Iteration budget of the search: a state is expanded once; one
    transition pushes at most one entry per member of an epsilon closure
    plus one, and a closure has at most [count_transitions + 1] members. *)
Definition witness_fuel (automaton : SegmentAutomaton) : nat :=
  let t := Matcher.count_transitions automaton in
  S ((t + 2) * (t + 2)).

(** [findWitness]: [None] is [undefined] *)
Definition findWitness (automaton : SegmentAutomaton) : result (option string) :=
  initialClosure <- epsilonClosure automaton (initialState automaton) ;;
  if existsb (fun stateId => match state_at automaton stateId with
                             | Some state => accepting state
                             | None => false
                             end) initialClosure
  then Ok (Some "/")
  else
    let queue :=
      (mkSearch (initialState automaton) []
       :: map (fun stateId => mkSearch stateId [])
              (filter (fun stateId => negb (Nat.eqb stateId (initialState automaton)))
                      initialClosure)) in
    while_loop (witness_fuel automaton) (witness_step automaton) ([], queue).

End Emptiness.

(* ===================================================================== *)
(** ** [containment/containment.ts]                                       *)
(* ===================================================================== *)

Module Containment.

Inductive PatternRelationship := subset | equal | superset | overlapping | disjoint.

(** [ContainmentResult].  The [explanation] field is diagnostic data
    computed from the other fields by functions that read the same
    patterns; it is not modelled.  Its only calls that can raise
    ([generateTestPaths], [matchPath] in [findSharedExample]) repeat calls
    already made by [checkHasOverlap]. *)
Record ContainmentResult := mkResult {
  patternA : string;
  patternB : string;
  isSubset : bool;
  isSuperset : bool;
  isEqual : bool;
  hasOverlap : bool;
  relationship : PatternRelationship;
  counterexample : option string;
  reverseCounterexample : option string
}.

(** [generateSegmentValue] *)
Definition generateSegmentValue (segment : Segment) (variation : nat) : string :=
  match segment with
  | LiteralSegment value => value
  | GlobstarSegment => "subdir"
  | WildcardSegment pattern _ =>
      if Js.endsWith pattern ".ts" then "file" ++ Js.String_of_nat variation ++ ".ts"
      else if Js.endsWith pattern ".js" then "file" ++ Js.String_of_nat variation ++ ".js"
      else if Js.startsWith pattern "test-" then "test-" ++ Js.String_of_nat variation
      else "match" ++ Js.String_of_nat variation
  | CharClass spec =>
      match ranges spec with
      | range :: _ => String (range_start range) EmptyString
      | [] =>
          match chars spec with
          | String c _ => String c EmptyString
          | EmptyString => "x"
          end
      end
  | CompositeSegment _ => "composite" ++ Js.String_of_nat variation
  end.

(** [generateBasePath] *)
Definition generateBasePath (segments : list Segment) : string :=
  "/" ++ Js.join "/" (map (fun segment => generateSegmentValue segment 0) segments).

(** [generatePathVariation] *)
Definition generatePathVariation (segments : list Segment) (variationIndex : nat)
  : string :=
  let '(parts, _) :=
    fold_left
      (fun (acc : list string * bool) segment =>
         let '(parts, usedVariation) := acc in
         if Builder.is_globstar segment && negb usedVariation then
           let extraCount := 1 + Nat.modulo variationIndex 3 in
           ((parts ++ map (fun j => ("dir" ++ Js.String_of_nat j)%string) (seq 0 extraCount))%list,
            true)
         else
           ((parts ++ [generateSegmentValue segment
                         (if usedVariation then 0 else variationIndex)])%list,
            usedVariation))
      segments ([], false) in
  "/" ++ Js.join "/" parts.

(** The [for (let i = 1; i < count && paths.length < count; i++)] loop *)
Fixpoint variations_loop (segments : list Segment) (count : nat)
         (iterations i : nat) (paths : list string) : list string :=
  match iterations with
  | 0 => paths
  | S iterations =>
      if Nat.ltb i count && Nat.ltb (List.length paths) count then
        let variation := generatePathVariation segments i in
        variations_loop segments count iterations (S i)
          (if negb (String.eqb variation "") && negb (Js.array_includes paths variation)
           then (paths ++ [variation])%list else paths)
      else paths
  end.

(** [generatePathsFromSequence] *)
Definition generatePathsFromSequence (segments : list Segment) (count : nat)
  : list string :=
  variations_loop segments count count 1 [generateBasePath segments].

(** [Math.ceil(count / n)] for [n > 0] *)
Definition ceil_div (count n : nat) : nat := (count + n - 1) / n.

(** [generateTestPaths]; a branch that is not a sequence makes
    [sequence.segments] undefined and the iteration over it raises. *)
Definition generateTestPaths (pattern : CompiledPattern) (count : nat)
  : result (list string) :=
  match root (ast pattern) with
  | Alternation branches =>
      paths <-
        foldM (fun paths branch =>
                 match branch with
                 | SegmentSequence segments =>
                     Ok (paths ++ generatePathsFromSequence segments
                                    (ceil_div count (List.length branches)))%list
                 | Alternation _ => Err TypeError
                 end) branches [] ;;
      Ok (firstn count paths)
  | SegmentSequence segments =>
      Ok (firstn count (generatePathsFromSequence segments count))
  end.

(** The [while (segments.length < bound) segments.push(filler)] loops *)
Definition pad_to (bound : nat) (filler : string) (segments : list string) : list string :=
  (segments ++ repeat filler (bound - List.length segments))%list.

(** [generateDeepPath] for a natural [depth] *)
Definition generateDeepPath (pattern : CompiledPattern) (depth : nat) : string :=
  let segments :=
    match root (ast pattern) with
    | SegmentSequence segs =>
        fold_left (fun segments seg =>
                     if Builder.is_globstar seg then pad_to (depth - 1) "deep" segments
                     else (segments ++ [generateSegmentValue seg 0])%list)
                  segs []
    | Alternation _ => []
    end in
  "/" ++ Js.join "/" (pad_to depth "extra" segments).

(** [(b.maxSegments ?? 0) + 1]; [-Infinity + 1] leaves every loop bound
    false, like [0]; [Infinity] would make [generateDeepPath] diverge. *)
Definition deep_depth (maxSegments : option jsnum) : result nat :=
  match maxSegments with
  | None => Ok 1
  | Some (Num n) => Ok (n + 1)
  | Some NegInfinity => Ok 0
  | Some Infinity => Err OutOfFuel
  end.

(** First path of [paths] that [pattern] does not match *)
Fixpoint first_mismatch (paths : list string) (pattern : CompiledPattern)
  : result (option string) :=
  match paths with
  | [] => Ok None
  | path :: rest =>
      matches <- Matcher.matchPath path pattern ;;
      if negb matches then Ok (Some path) else first_mismatch rest pattern
  end.

(** [checkContainmentStructural] *)
Definition checkContainmentStructural (a b : CompiledPattern)
  : result (bool * bool * option string * option string) :=
  aPaths <- generateTestPaths a 20 ;;
  bPaths <- generateTestPaths b 20 ;;
  counterexample <- first_mismatch aPaths b ;;
  let aSubsetB := match counterexample with None => true | Some _ => false end in
  reverseCounterexample <- first_mismatch bPaths a ;;
  let bSubsetA := match reverseCounterexample with None => true | Some _ => false end in
  '(aSubsetB, counterexample) <-
    (if aSubsetB && isUnbounded a && negb (isUnbounded b)
     then depth <- deep_depth (maxSegments b) ;;
          Ok (false, Some (generateDeepPath a depth))
     else Ok (aSubsetB, counterexample)) ;;
  '(bSubsetA, reverseCounterexample) <-
    (if bSubsetA && isUnbounded b && negb (isUnbounded a)
     then depth <- deep_depth (maxSegments a) ;;
          Ok (false, Some (generateDeepPath b depth))
     else Ok (bSubsetA, reverseCounterexample)) ;;
  Ok (aSubsetB, bSubsetA, counterexample, reverseCounterexample).

(** [suffix.lastIndexOf('.')] *)
Definition lastIndexOf_dot (s : string) : option nat :=
  fold_left (fun acc ic => if Ascii.eqb (snd ic) "." then Some (fst ic) else acc)
            (combine (seq 0 (String.length s)) (Js.chars s)) None.

(** [extractFileInfo] *)
Definition extractFileInfo (suffix : string) : string * string :=
  if String.eqb suffix "" then ("", "")
  else match lastIndexOf_dot suffix with
       | Some lastDot =>
           if Nat.ltb 0 lastDot
           then (String.substring 0 lastDot suffix, Js.slice_from lastDot suffix)
           else (suffix, "")
       | None => (suffix, "")
       end.

(** [s?.replace(/^\//, '') ?? ''] *)
Definition strip_slash (s : option string) : string :=
  match s with
  | Some s => match Js.strip_prefix "/" s with Some r => r | None => s end
  | None => ""
  end.

Definition truthy (s : string) : bool := negb (String.eqb s "").
Definition or_else (s d : string) : string := if truthy s then s else d.

Definition push_new (paths : list string) (path : string) : list string :=
  if negb (Js.array_includes paths path) then (paths ++ [path])%list else paths.

(** The three nested loops of [generateCombinedPaths]: each [break]
    tests the same condition, so the loops stop together after the first
    iteration that fills [paths]. *)
Fixpoint combined_loop (count : nat) (candidates : list (string * string))
         (paths : list string) : list string :=
  match candidates with
  | [] => paths
  | (prefix, filename) :: rest =>
      let paths :=
        push_new paths (if truthy prefix then "/" ++ prefix ++ "/" ++ filename
                        else "/" ++ filename) in
      let paths :=
        if truthy prefix then push_new paths ("/" ++ prefix ++ "/sub/" ++ filename)
        else paths in
      if Nat.leb count (List.length paths) then paths
      else combined_loop count rest paths
  end.

(** [generateCombinedPaths] *)
Definition generateCombinedPaths (a b : CompiledPattern) (count : nat) : list string :=
  let aPrefix := strip_slash (requiredPrefix (quickReject a)) in
  let bPrefix := strip_slash (requiredPrefix (quickReject b)) in
  let aSuffix := strip_slash (requiredSuffix (quickReject a)) in
  let bSuffix := strip_slash (requiredSuffix (quickReject b)) in
  let prefixes := filter truthy [aPrefix; bPrefix] in
  let prefixes := match prefixes with [] => [""] | _ => prefixes end in
  let suffixInfoA := extractFileInfo aSuffix in
  let suffixInfoB := extractFileInfo bSuffix in
  let basenames :=
    filter truthy [or_else (fst suffixInfoA) "index"; or_else (fst suffixInfoB) "index";
                   "file"; "test"] in
  let extensions := filter truthy [snd suffixInfoA; snd suffixInfoB; ".ts"; ".js"] in
  let candidates :=
    flat_map (fun prefix =>
                flat_map (fun basename =>
                            map (fun ext => (prefix, basename ++ ext)) extensions)
                         basenames)
             prefixes in
  firstn count (combined_loop count candidates []).

(** Does [pattern] match some path of [paths]? *)
Fixpoint any_match (paths : list string) (pattern : CompiledPattern) : result bool :=
  match paths with
  | [] => Ok false
  | path :: rest =>
      matches <- Matcher.matchPath path pattern ;;
      if matches then Ok true else any_match rest pattern
  end.

Fixpoint any_match_both (paths : list string) (a b : CompiledPattern) : result bool :=
  match paths with
  | [] => Ok false
  | path :: rest =>
      ma <- Matcher.matchPath path a ;;
      mb <- (if ma then Matcher.matchPath path b else Ok false) ;;
      if ma && mb then Ok true else any_match_both rest a b
  end.

(** [checkHasOverlap] *)
Definition checkHasOverlap (a b : CompiledPattern) : result bool :=
  aPaths <- generateTestPaths a 10 ;;
  inB <- any_match aPaths b ;;
  if inB then Ok true
  else
    bPaths <- generateTestPaths b 10 ;;
    inA <- any_match bPaths a ;;
    if inA then Ok true
    else any_match_both (generateCombinedPaths a b 10) a b.

(** [checkContainment] *)
Definition checkContainment (a b : CompiledPattern) : result ContainmentResult :=
  '(isSubset, isSuperset, counterexample, reverseCounterexample) <-
    checkContainmentStructural a b ;;
  let isEqual := isSubset && isSuperset in
  hasOverlap <- checkHasOverlap a b ;;
  let relationship :=
    if isEqual then equal
    else if isSubset then subset
    else if isSuperset then superset
    else if negb hasOverlap then disjoint
    else overlapping in
  Ok (mkResult (cp_source a) (cp_source b) isSubset isSuperset isEqual hasOverlap
               relationship counterexample reverseCounterexample).

End Containment.

(* ===================================================================== *)
(** ** Helpers shared by the statements                                   *)
(* ===================================================================== *)

(** [compilePattern(parsePattern(source))], the [compile] helper of the
    test suites *)
Definition compile (source : string) : result CompiledPattern :=
  pattern <- Parser.parsePattern source ;; Compiler.compilePattern pattern.

(** [buildAutomaton(parsePattern(source))] *)
Definition nfa_of (source : string) : result SegmentAutomaton :=
  pattern <- Parser.parsePattern source ;; Builder.buildAutomaton pattern.

(** [isValidPattern(parsePattern(source))] *)
Definition valid_source (source : string) : result bool :=
  pattern <- Parser.parsePattern source ;; Ok (Validator.isValidPattern pattern).

(** Number of transitions of a state that can fire on a segment *)
Definition applicable (state : AutomatonState) (segment : string) : nat :=
  List.length (filter (fun t => Matcher.matchTransition t segment) (transitions state)).

(* ===================================================================== *)
(** * Vocabulary of the statements                                        *)
(* ===================================================================== *)

(** ** Well-formed automata *)

(** Every target of a transition is below [n]. *)
Definition targets_below (n : nat) (t : AutomatonTransition) : Prop :=
  forall x, In x (Emptiness.getTransitionTargets t) -> x < n.

Definition states_below (n : nat) (sts : list AutomatonState) : Prop :=
  forall s t, In s sts -> In t (transitions s) -> targets_below n t.

(** The initial state and every transition target index the state array. *)
Definition well_formed (a : SegmentAutomaton) : Prop :=
  initialState a < List.length (states a) /\
  states_below (List.length (states a)) (states a).

(** Executable form of [well_formed] *)
Definition well_formedb (a : SegmentAutomaton) : bool :=
  Nat.ltb (initialState a) (List.length (states a)) &&
  forallb (fun s =>
             forallb (fun t =>
                        forallb (fun x => Nat.ltb x (List.length (states a)))
                                (Emptiness.getTransitionTargets t))
                     (transitions s))
          (states a).

(** [acceptingStates] lists every state whose [accepting] bit is set. *)
Definition accepting_listed (a : SegmentAutomaton) : Prop :=
  forall i s, state_at a i = Some s -> accepting s = true ->
              In i (acceptingStates a).

(** ** The graph of an automaton *)

(** Targets of the epsilon-like edges (epsilon targets, globstar exits) *)
Definition eps_targets_of (ts : list AutomatonTransition) : list nat :=
  flat_map (fun t => match t with
                     | EpsilonTransition target => [target]
                     | GlobstarTransition _ exit => [exit]
                     | _ => []
                     end) ts.

Definition eps_targets (a : SegmentAutomaton) : list nat :=
  flat_map (fun s => eps_targets_of (transitions s)) (states a).

(** [j] is the target of some transition of state [i]. *)
Definition edge (a : SegmentAutomaton) (i j : nat) : Prop :=
  exists s, state_at a i = Some s /\
            In j (flat_map Emptiness.getTransitionTargets (transitions s)).

(** [j] is the target of an epsilon transition, or the exit of a
    globstar transition, of state [i]. *)
Definition eps_edge (a : SegmentAutomaton) (i j : nat) : Prop :=
  exists s, state_at a i = Some s /\ In j (eps_targets_of (transitions s)).

Inductive eps_reach (a : SegmentAutomaton) (i : nat) : nat -> Prop :=
| eps_reach_refl : eps_reach a i i
| eps_reach_step j k : eps_reach a i j -> eps_edge a j k -> eps_reach a i k.

(** A set of states closed under the transitions *)
Definition closed (a : SegmentAutomaton) (P : nat -> Prop) : Prop :=
  forall i j, P i -> edge a i j -> P j.

(** State [j] is entered from state [i] by consuming [segment]. *)
Definition seg_edge (a : SegmentAutomaton) (segment : string) (i j : nat) : Prop :=
  exists s t, state_at a i = Some s /\ In t (transitions s) /\
              Matcher.matchTransition t segment = true /\
              Matcher.getTransitionTarget t segment = Some j.

(** [reach a p i]: the automaton can be in state [i] after the segments
    [p], by the transitions the set-based simulation follows. *)
Inductive reach (a : SegmentAutomaton) : list string -> nat -> Prop :=
| reach_init : reach a [] (initialState a)
| reach_eps p i j : reach a p i -> eps_edge a i j -> reach a p j
| reach_segment p segment i j :
    reach a p i -> seg_edge a segment i j -> reach a (p ++ [segment])%list j.

(** ** Determinism *)

(** A segment without line terminators *)
Definition no_line_terminator (segment : string) : bool :=
  forallb Re.dot (Js.chars segment).

(** A matcher that accepts every segment without line terminators *)
Definition universal (p : SegmentMatcher) : Prop :=
  forall segment, no_line_terminator segment = true -> test p segment = true.

(** A list of transitions holding a universal wildcard *)
Definition has_universal (ts : list AutomatonTransition) : Prop :=
  exists p src target, In (WildcardTransition p src target) ts /\ universal p.

(** Every state carries a universal wildcard. *)
Definition complete (a : SegmentAutomaton) : Prop :=
  forall s, In s (states a) -> has_universal (transitions s).

(** What the matcher does in a state on a segment: some transition can
    fire, and [getDeterministicTarget] selects the target of one of them. *)
Definition selects_one (s : AutomatonState) (segment : string) : Prop :=
  1 <= applicable s segment /\
  exists t target,
    In t (transitions s) /\
    Matcher.matchTransition t segment = true /\
    Matcher.getTransitionTarget t segment = Some target /\
    Matcher.getDeterministicTarget (transitions s) segment = Some target.

(** The order in which [getDeterministicTarget] looks at the transitions
    of a state.  [first_literal ts segment t]: [t] is the first literal
    transition of [ts] whose segment is [segment]. *)
Definition first_literal (ts : list AutomatonTransition) (segment : string)
           (t : AutomatonTransition) : Prop :=
  exists pre post target,
    ts = (pre ++ t :: post)%list /\
    t = LiteralTransition segment target /\
    forall target', ~ In (LiteralTransition segment target') pre.

(** No literal transition of [ts] carries [segment]. *)
Definition no_literal (ts : list AutomatonTransition) (segment : string) : Prop :=
  forall target, ~ In (LiteralTransition segment target) ts.

(** [t] is the first wildcard transition of [ts] whose pattern accepts
    [segment]. *)
Definition first_wildcard (ts : list AutomatonTransition) (segment : string)
           (t : AutomatonTransition) : Prop :=
  exists pre post pattern patternSource target,
    ts = (pre ++ t :: post)%list /\
    t = WildcardTransition pattern patternSource target /\
    test pattern segment = true /\
    forall pattern' patternSource' target',
      In (WildcardTransition pattern' patternSource' target') pre ->
      test pattern' segment = false.

(** Literal before wildcard: [t] is the first literal transition equal to
    the segment when there is one, and otherwise the first wildcard
    transition that matches it. *)
Definition selected_by_priority (ts : list AutomatonTransition) (segment : string)
           (t : AutomatonTransition) : Prop :=
  first_literal ts segment t \/
  (no_literal ts segment /\ first_wildcard ts segment t).

(** The deterministic automata the library produces: outputs of
    [determinize] (on an input that, when it is itself flagged
    deterministic, is well formed) and products of such automata returned
    by [intersect]. *)
Inductive produced : SegmentAutomaton -> Prop :=
| produced_determinize nfa options dfa :
    (isDeterministic nfa = true -> well_formed nfa) ->
    Determinize.determinize nfa options = Ok dfa -> produced dfa
| produced_intersect a b p :
    produced a -> produced b -> Intersect.intersect a b = Ok p -> produced p.

(** ** The state cap *)

(** [options.maxStates ?? DEFAULT_MAX_DFA_STATES] *)
Definition configured_cap (options : Determinize.DeterminizeOptions) : nat :=
  match Determinize.maxStates options with
  | Some n => n
  | None => Determinize.DEFAULT_MAX_DFA_STATES
  end.

(** The [AutomatonLimitError] raised under [options] *)
Definition limit_error_for (options : Determinize.DeterminizeOptions) : Error :=
  LimitError (mkLimitError DFA_STATE_LIMIT (configured_cap options)
                           (S (configured_cap options))).

(** ** Witness search *)

(** Every wildcard transition accepts the sample generated for it. *)
Definition samples_match (a : SegmentAutomaton) : bool :=
  forallb (fun s =>
             forallb (fun t =>
                        match t with
                        | WildcardTransition pattern patternSource _ =>
                            test pattern
                                 (Emptiness.generateMatchingSample pattern patternSource)
                        | _ => true
                        end) (transitions s))
          (states a).

(** ** Concrete automata used as instances *)

Definition empty_automaton : SegmentAutomaton := mkAutomaton [] 0 [] false.

Definition unwrap (r : result SegmentAutomaton) : SegmentAutomaton :=
  match r with Ok x => x | Err _ => empty_automaton end.

(** NFAs of [a], [*.ts] and [{a,b,c,d,e}/*.ts]; DFAs of the first two and
    their product *)
Definition nfa_a : SegmentAutomaton := Eval vm_compute in unwrap (nfa_of "a").
Definition nfa_star_ts : SegmentAutomaton := Eval vm_compute in unwrap (nfa_of "*.ts").
Definition nfa_braces : SegmentAutomaton :=
  Eval vm_compute in unwrap (nfa_of "{a,b,c,d,e}/*.ts").
Definition dfa_a : SegmentAutomaton :=
  Eval vm_compute in unwrap (Determinize.determinize nfa_a Determinize.default_options).
Definition dfa_star_ts : SegmentAutomaton :=
  Eval vm_compute in
    unwrap (Determinize.determinize nfa_star_ts Determinize.default_options).
Definition dfa_braces : SegmentAutomaton :=
  Eval vm_compute in
    unwrap (Determinize.determinize nfa_braces Determinize.default_options).
Definition product_a_star_ts : SegmentAutomaton :=
  Eval vm_compute in unwrap (Intersect.intersect dfa_a dfa_star_ts).

(** The NFA of [a] with its [isDeterministic] flag set: an automaton that
    is flagged deterministic and whose states carry no catch-all *)
Definition flagged_nfa_a : SegmentAutomaton :=
  mkAutomaton (states nfa_a) (initialState nfa_a) (acceptingStates nfa_a) true.

(** ** Runs and reachability *)

(** Some run of the automaton over the segments ends in a state whose
    [accepting] bit is set. *)
Definition has_accepting_run (a : SegmentAutomaton) (p : list string) : Prop :=
  exists i s, reach a p i /\ state_at a i = Some s /\ accepting s = true.

(** [j] is reached from [i] along transitions of any kind. *)
Inductive graph_reach (a : SegmentAutomaton) (i : nat) : nat -> Prop :=
| graph_reach_refl : graph_reach a i i
| graph_reach_step j k : graph_reach a i j -> edge a j k -> graph_reach a i k.

(** Every listed accepting state is a state whose [accepting] bit is set. *)
Definition listed_accepting (a : SegmentAutomaton) : Prop :=
  forall i, In i (acceptingStates a) ->
            exists s, state_at a i = Some s /\ accepting s = true.

(** ** Deterministic simulation *)

(** A transition that consumes a segment and is neither a globstar nor an
    epsilon transition *)
Definition consuming (t : AutomatonTransition) : bool :=
  match t with
  | LiteralTransition _ _ | WildcardTransition _ _ _ => true
  | _ => false
  end.

(** Every transition of the automaton is a literal or a wildcard. *)
Definition eps_free (a : SegmentAutomaton) : bool :=
  forallb (fun s => forallb consuming (transitions s)) (states a).

(** The state reached from [q] by following, on each segment, the target
    that [getDeterministicTarget] selects *)
Fixpoint run_dfa (a : SegmentAutomaton) (q : nat) (p : list string) : option nat :=
  match p with
  | [] => Some q
  | segment :: rest =>
      match state_at a q with
      | None => None
      | Some s =>
          match Matcher.getDeterministicTarget (transitions s) segment with
          | Some target => run_dfa a target rest
          | None => None
          end
      end
  end.

(** The [accepting] bit of the state a run ends in *)
Definition accepts_dfa (a : SegmentAutomaton) (p : list string) : bool :=
  match run_dfa a (initialState a) p with
  | Some q => match state_at a q with Some s => accepting s | None => false end
  | None => false
  end.

(** ** Paths *)

(** A segment without a slash *)
Definition slash_free (s : string) : bool := negb (Js.includes_char s "/").

(** A segment of a normalized path: not empty, no slash *)
Definition plain_segment (s : string) : bool :=
  negb (String.eqb s "") && slash_free s.

(** A segment that [normalizePath] keeps: plain, and neither [.] nor [..] *)
Definition resolved_segment (s : string) : bool :=
  plain_segment s && negb (String.eqb s ".") && negb (String.eqb s "..").

(** A string without a backslash *)
Definition backslash_free (s : string) : bool :=
  negb (Js.includes_char s "\").

(** [xs] is an initial part of [ys]. *)
Definition prefix_of (xs ys : list string) : Prop :=
  exists rest, ys = (xs ++ rest)%list.

(** ** Further concrete instances *)

Definition empty_pattern : PathPattern :=
  mkPathPattern "" (SegmentSequence []) false false None.

Definition empty_compiled : CompiledPattern :=
  mkCompiled "" empty_pattern (mkFilter None None None None) empty_automaton
             false (Num 0) None.

Definition unwrap_compiled (r : result CompiledPattern) : CompiledPattern :=
  match r with Ok x => x | Err _ => empty_compiled end.

(** The pattern [a], parsed and compiled, and its complement *)
Definition pattern_a : PathPattern :=
  Eval vm_compute in
    match Parser.parsePattern "a" with Ok p => p | Err _ => empty_pattern end.
Definition compiled_a : CompiledPattern :=
  Eval vm_compute in unwrap_compiled (compile "a").
Definition complement_a : CompiledPattern :=
  Eval vm_compute in unwrap_compiled (PatternAlgebra.patternComplement compiled_a).

(** ** Segment counts *)

(** [n < m] is false and, when a maximum is defined, [max < n] is false:
    the two bound checks of [matchPathUnderlying] let [n] segments pass. *)
Definition within_bounds (n : nat) (minSegments : jsnum) (maxSegments : option jsnum)
  : bool :=
  negb (Js.num_ltb (Num n) minSegments) &&
  negb (match maxSegments with
        | Some max => Js.num_ltb max (Num n)
        | None => false
        end).

(** ** Instances for the containment check *)

(** The patterns [src/index.ts] and [src/*.ts], compiled, and the result
    of [checkContainment] for them *)
Definition compiled_index_ts : CompiledPattern :=
  Eval vm_compute in unwrap_compiled (compile "src/index.ts").
Definition compiled_src_star_ts : CompiledPattern :=
  Eval vm_compute in unwrap_compiled (compile "src/*.ts").
Definition containment_index_star : Containment.ContainmentResult :=
  Eval vm_compute in
    match Containment.checkContainment compiled_index_ts compiled_src_star_ts with
    | Ok r => r
    | Err _ =>
        Containment.mkResult "" "" false false false false Containment.disjoint None None
    end.

(** The product of the NFA of [a] with itself *)
Definition product_a_a : SegmentAutomaton :=
  Eval vm_compute in unwrap (Intersect.intersect nfa_a nfa_a).

(* ===================================================================== *)
(** * Invariants and lemmas                                               *)
(* ===================================================================== *)

(* ===================================================================== *)
(** ** Reasoning about [while_loop]                                       *)
(* ===================================================================== *)

Section WhileLoop.

Context {S R : Type}.
Variable step : S -> result (S + R).

(** Invariant rule: whatever the loop leaves behind satisfies [Post]. *)
Lemma while_loop_inv (Inv : S -> Prop) (Post : R -> Prop) :
  (forall s s', Inv s -> step s = Ok (inl s') -> Inv s') ->
  (forall s r, Inv s -> step s = Ok (inr r) -> Post r) ->
  forall fuel s r, Inv s -> while_loop fuel step s = Ok r -> Post r.
Proof.
  intros Hpres Hexit fuel.
  induction fuel as [|fuel IH]; intros s r Hs Hrun; simpl in Hrun.
  - discriminate.
  - destruct (step s) as [[s'|r']|e] eqn:Hstep; simpl in Hrun.
    + eapply IH; [|exact Hrun]. eauto.
    + injection Hrun as <-. eauto.
    + discriminate.
Qed.

(** An exception that escapes the loop was raised by the body, unless the
    budget ran out. *)
Lemma while_loop_err (Inv : S -> Prop) (Q : Error -> Prop) :
  (forall s s', Inv s -> step s = Ok (inl s') -> Inv s') ->
  (forall s e, Inv s -> step s = Err e -> Q e) ->
  forall fuel s e, Inv s -> while_loop fuel step s = Err e -> e = OutOfFuel \/ Q e.
Proof.
  intros Hpres Herr fuel.
  induction fuel as [|fuel IH]; intros s e Hs Hrun; simpl in Hrun.
  - left. congruence.
  - destruct (step s) as [[s'|r']|e'] eqn:Hstep; simpl in Hrun.
    + eapply IH; [|exact Hrun]. eauto.
    + discriminate.
    + right. injection Hrun as <-. eauto.
Qed.

(** A run that does not exhaust its budget is unchanged by a larger one. *)
Lemma while_loop_mono fuel fuel' s r :
  fuel <= fuel' -> while_loop fuel step s = r -> r <> Err OutOfFuel ->
  while_loop fuel' step s = r.
Proof.
  revert fuel' s r.
  induction fuel as [|fuel IH]; intros fuel' s r Hle Hrun Hne; simpl in Hrun.
  - congruence.
  - destruct fuel' as [|fuel']; [lia|]. simpl.
    destruct (step s) as [[s'|r']|e'] eqn:Hstep; simpl in *; auto.
    apply IH; auto. lia.
Qed.

(** Termination by a decreasing measure. *)
Lemma while_loop_terminates (Inv : S -> Prop) (mu : S -> nat) :
  (forall s s', Inv s -> step s = Ok (inl s') -> Inv s' /\ mu s' < mu s) ->
  (forall s, Inv s -> step s <> Err OutOfFuel) ->
  forall fuel s, Inv s -> mu s < fuel -> while_loop fuel step s <> Err OutOfFuel.
Proof.
  intros Hdec Hbody fuel.
  induction fuel as [|fuel IH]; intros s Hs Hmu; [lia|]. simpl.
  destruct (step s) as [[s'|r']|e'] eqn:Hstep; simpl.
  - destruct (Hdec _ _ Hs Hstep) as [Hs' Hlt]. apply IH; auto. lia.
  - discriminate.
  - intros Heq. injection Heq as ->. eapply Hbody; eauto.
Qed.

End WhileLoop.

(** [foldM] preserves an invariant of the accumulator. *)
Lemma foldM_inv {A B} (f : B -> A -> result B) (Inv : B -> Prop) :
  forall xs acc r,
    (forall acc x acc', In x xs -> Inv acc -> f acc x = Ok acc' -> Inv acc') ->
    Inv acc -> foldM f xs acc = Ok r -> Inv r.
Proof.
  induction xs as [|x xs IH]; intros acc r Hf Hacc Hrun; simpl in Hrun.
  - injection Hrun as <-. exact Hacc.
  - destruct (f acc x) as [acc'|e] eqn:Hfx; simpl in Hrun; [|discriminate].
    eapply IH; [| |exact Hrun].
    + intros. eapply Hf; eauto. right; auto.
    + eapply Hf; eauto. left; auto.
Qed.

Lemma foldM_err {A B} (f : B -> A -> result B) (Inv : B -> Prop) (Q : Error -> Prop) :
  forall xs acc e,
    (forall acc x acc', In x xs -> Inv acc -> f acc x = Ok acc' -> Inv acc') ->
    (forall acc x e, In x xs -> Inv acc -> f acc x = Err e -> Q e) ->
    Inv acc -> foldM f xs acc = Err e -> Q e.
Proof.
  induction xs as [|x xs IH]; intros acc e Hf Hq Hacc Hrun; simpl in Hrun.
  - discriminate.
  - destruct (f acc x) as [acc'|e'] eqn:Hfx; simpl in Hrun.
    + eapply IH; [| | |exact Hrun].
      * intros. eapply Hf; eauto. right; auto.
      * intros. eapply Hq; eauto. right; auto.
      * eapply Hf; eauto. left; auto.
    + injection Hrun as <-. eapply Hq; eauto. left; auto.
Qed.

(* ===================================================================== *)
(** ** Arrays, sets and maps                                              *)
(* ===================================================================== *)

Lemma array_set_length {A} (xs : list A) i v :
  List.length (Js.array_set xs i v) = List.length xs.
Proof.
  revert i; induction xs as [|x xs IH]; intros [|i]; simpl; auto.
Qed.

Lemma array_set_In {A} (xs : list A) i v x :
  In x (Js.array_set xs i v) -> x = v \/ In x xs.
Proof.
  revert i; induction xs as [|y xs IH]; intros [|i]; simpl; auto.
  - intros [<-|H]; auto.
  - intros [<-|H]; auto. destruct (IH _ H); auto.
Qed.

Lemma array_set_nth_same {A} (xs : list A) i v :
  i < List.length xs -> nth_error (Js.array_set xs i v) i = Some v.
Proof.
  revert i; induction xs as [|y xs IH]; intros [|i]; simpl; intros H; try lia; auto.
  apply IH. lia.
Qed.

Lemma array_set_nth_other {A} (xs : list A) i j v :
  i <> j -> nth_error (Js.array_set xs i v) j = nth_error xs j.
Proof.
  revert i j; induction xs as [|y xs IH]; intros [|i] [|j]; simpl; intros H;
    try congruence; auto.
Qed.

Lemma set_has_In s x : Js.set_has s x = true <-> In x s.
Proof.
  unfold Js.set_has. rewrite existsb_exists. split.
  - intros [y [Hy Heq]]. apply Nat.eqb_eq in Heq. subst. auto.
  - intros H. exists x. split; auto. apply Nat.eqb_refl.
Qed.

Lemma set_has_false s x : Js.set_has s x = false <-> ~ In x s.
Proof.
  rewrite <- set_has_In. destruct (Js.set_has s x); split; congruence.
Qed.

Lemma set_add_In s x y : In y (Js.set_add s x) <-> y = x \/ In y s.
Proof.
  unfold Js.set_add. destruct (Js.set_has s x) eqn:H.
  - apply set_has_In in H. split; auto. intros [->|]; auto.
  - rewrite in_app_iff. simpl. split; intros; intuition auto.
Qed.

Lemma set_add_NoDup s x : NoDup s -> NoDup (Js.set_add s x).
Proof.
  intros H. unfold Js.set_add. destruct (Js.set_has s x) eqn:Hx; auto.
  apply set_has_false in Hx.
  apply NoDup_app; auto.
  - constructor; [intros []|constructor].
  - intros y Hy [<-|[]]. auto.
Qed.

Lemma map_get_set m k v k' :
  Js.map_get (Js.map_set m k v) k' =
  match Js.map_get m k' with
  | Some x => Some x
  | None => if String.eqb k' k then Some v else None
  end.
Proof.
  unfold Js.map_set.
  induction m as [|[k0 v0] m IH]; simpl.
  - reflexivity.
  - destruct (String.eqb k' k0); auto.
Qed.

(* ===================================================================== *)
(** ** Well-formed automata                                               *)
(* ===================================================================== *)


Lemma targets_below_mono n n' t : n <= n' -> targets_below n t -> targets_below n' t.
Proof. intros Hle H x Hx. specialize (H x Hx). lia. Qed.

Lemma states_below_mono n n' sts : n <= n' -> states_below n sts -> states_below n' sts.
Proof. intros Hle H s t Hs Ht. eapply targets_below_mono; eauto. Qed.

Lemma states_below_app n a b :
  states_below n a -> states_below n b -> states_below n (a ++ b).
Proof.
  intros Ha Hb s t Hs Ht. apply in_app_or in Hs. destruct Hs; eauto.
Qed.

Lemma state_at_exn_Ok a i s :
  state_at_exn a i = Ok s <-> nth_error (states a) i = Some s.
Proof.
  unfold state_at_exn, state_at. destruct (nth_error (states a) i); split; congruence.
Qed.

Lemma state_at_exn_Err a i e : state_at_exn a i = Err e -> e = TypeError.
Proof.
  unfold state_at_exn, state_at. destruct (nth_error (states a) i); congruence.
Qed.


(* ===================================================================== *)
(** ** Termination of the epsilon closure                                 *)
(* ===================================================================== *)


(** Members of [E] that are not yet in the set [C] *)
Definition unseen (C E : list nat) : nat :=
  List.length (filter (fun t => negb (Js.set_has C t)) E).

Lemma eps_targets_of_length ts : List.length (eps_targets_of ts) <= List.length ts.
Proof.
  induction ts as [|t ts IH]; simpl; auto.
  rewrite length_app. destruct t; simpl; lia.
Qed.

Lemma eps_targets_length a :
  List.length (eps_targets a) <= Matcher.count_transitions a.
Proof.
  unfold eps_targets, Matcher.count_transitions.
  induction (states a) as [|s sts IH]; simpl; auto.
  rewrite length_app. pose proof (eps_targets_of_length (transitions s)). lia.
Qed.

Lemma eps_targets_In a i s x :
  nth_error (states a) i = Some s -> In x (eps_targets_of (transitions s)) ->
  In x (eps_targets a).
Proof.
  intros Hnth Hx. unfold eps_targets. apply in_flat_map.
  exists s. split; auto. eapply nth_error_In; eauto.
Qed.

Lemma unseen_length C E : unseen C E <= List.length E.
Proof. unfold unseen. apply filter_length_le. Qed.

Lemma unseen_add_le C E x : unseen (Js.set_add C x) E <= unseen C E.
Proof.
  unfold unseen. induction E as [|y E IH]; simpl; auto.
  destruct (Js.set_has C y) eqn:Hy; simpl.
  - assert (H : Js.set_has (Js.set_add C x) y = true).
    { apply set_has_In, set_add_In. right. apply set_has_In. auto. }
    rewrite H. simpl. auto.
  - destruct (Js.set_has (Js.set_add C x) y); simpl; lia.
Qed.

Lemma unseen_add_lt C E x :
  In x E -> Js.set_has C x = false -> unseen (Js.set_add C x) E < unseen C E.
Proof.
  unfold unseen. intros Hin Hx. induction E as [|y E IH]; simpl; [destruct Hin|].
  destruct Hin as [->|Hin].
  - rewrite Hx. simpl.
    assert (H : Js.set_has (Js.set_add C x) x = true).
    { apply set_has_In, set_add_In. left; auto. }
    rewrite H. simpl. pose proof (unseen_add_le C E x). unfold unseen in *. lia.
  - specialize (IH Hin).
    destruct (Js.set_has C y) eqn:Hy; simpl.
    + assert (H : Js.set_has (Js.set_add C x) y = true).
      { apply set_has_In, set_add_In. right. apply set_has_In. auto. }
      rewrite H. simpl. auto.
    + destruct (Js.set_has (Js.set_add C x) y); simpl; lia.
Qed.

(** One pass over the transitions of a state does not increase
    [worklist.length + unseen]. *)
Lemma closure_visit_measure E ts :
  forall C W C' W',
    (forall x, In x (eps_targets_of ts) -> In x E) ->
    fold_left Determinize.closure_visit ts (C, W) = (C', W') ->
    List.length W' + unseen C' E <= List.length W + unseen C E.
Proof.
  induction ts as [|t ts IH]; intros C W C' W' HE Hfold; simpl in Hfold.
  - injection Hfold as <- <-. lia.
  - assert (HE' : forall x, In x (eps_targets_of ts) -> In x E).
    { intros x Hx. apply HE. unfold eps_targets_of. simpl. apply in_or_app. right. exact Hx. }
    assert (Hpush : forall x, In x E ->
              forall C1 W1, (if negb (Js.set_has C x)
                             then (Js.set_add C x, x :: W) else (C, W)) = (C1, W1) ->
              List.length W1 + unseen C1 E <= List.length W + unseen C E).
    { intros x Hx C1 W1. destruct (Js.set_has C x) eqn:Hhas; simpl.
      - intros Heq. injection Heq as <- <-. lia.
      - intros Heq. injection Heq as <- <-. simpl.
        pose proof (unseen_add_lt C E x Hx Hhas). lia. }
    destruct t as [seg tg|p src tg|sl ex|tg]; simpl in Hfold.
    + apply IH in Hfold; auto.
    + apply IH in Hfold; auto.
    + destruct (if negb (Js.set_has C ex) then (Js.set_add C ex, ex :: W) else (C, W))
        as [C1 W1] eqn:Hv.
      apply IH in Hfold; auto.
      assert (In ex E) by (apply HE; simpl; auto).
      specialize (Hpush ex H C1 W1 Hv). lia.
    + destruct (if negb (Js.set_has C tg) then (Js.set_add C tg, tg :: W) else (C, W))
        as [C1 W1] eqn:Hv.
      apply IH in Hfold; auto.
      assert (In tg E) by (apply HE; simpl; auto).
      specialize (Hpush tg H C1 W1 Hv). lia.
Qed.

(** The closure loop never exhausts its budget. *)
Lemma det_closure_terminates a X :
  Determinize.epsilonClosure a X <> Err OutOfFuel.
Proof.
  unfold Determinize.epsilonClosure.
  apply while_loop_terminates with
    (Inv := fun _ => True)
    (mu := fun st => List.length (snd st) + unseen (fst st) (eps_targets a)); auto.
  - intros [C W] [C' W'] _. unfold Determinize.closure_step.
    destruct W as [|x W]; [discriminate|].
    destruct (state_at_exn a x) as [st|e] eqn:Hst; simpl; [|discriminate].
    intros Heq. injection Heq as Heq. split; auto.
    apply state_at_exn_Ok in Hst.
    apply closure_visit_measure with (E := eps_targets a) in Heq.
    + simpl. lia.
    + intros y Hy. eapply eps_targets_In; eauto.
  - intros [C W] _. unfold Determinize.closure_step.
    destruct W as [|x W]; [discriminate|].
    destruct (state_at_exn a x) as [st|e] eqn:Hst; simpl; [discriminate|].
    apply state_at_exn_Err in Hst. subst. discriminate.
  - simpl. rewrite length_rev.
    pose proof (unseen_length X (eps_targets a)).
    pose proof (eps_targets_length a). lia.
Qed.

Lemma matcher_closure_eq a X :
  Matcher.epsilonClosure a X = Determinize.epsilonClosure a X.
Proof. reflexivity. Qed.

(** The only exception of the closure is a state index outside the array. *)
Lemma det_closure_err_type a X e :
  Determinize.epsilonClosure a X = Err e -> e = TypeError.
Proof.
  intros H. pose proof (det_closure_terminates a X) as Hfuel.
  unfold Determinize.epsilonClosure in *. pose proof H as H0.
  eapply while_loop_err with (Inv := fun _ => True) (Q := fun e => e = TypeError) in H;
    auto.
  - destruct H as [->|H]; [congruence|exact H].
  - intros [closure wl] e' _. unfold Determinize.closure_step.
    destruct wl as [|x wl]; [discriminate|].
    destruct (state_at_exn a x) eqn:Hs; simpl; [discriminate|].
    intros Heq. injection Heq as <-. eapply state_at_exn_Err; eauto.
Qed.
(* ===================================================================== *)
(** ** Exceptions raised inside [determinize]                             *)
(* ===================================================================== *)

Lemma computeTransition_err nfa X sym e :
  Determinize.computeTransition nfa X sym = Err e -> e = TypeError.
Proof.
  unfold Determinize.computeTransition. intros H.
  match type of H with bind ?m _ = _ => destruct m as [reached|e'] eqn:Hf end;
    simpl in H.
  - eapply det_closure_err_type; eauto.
  - injection H as <-.
    eapply foldM_err with (Inv := fun _ => True) (Q := fun e => e = TypeError) in Hf; auto.
    intros acc x e0 _ _. destruct (state_at_exn nfa x) eqn:Hs; simpl; [discriminate|].
    intros Heq. injection Heq as <-. eapply state_at_exn_Err; eauto.
Qed.

Lemma computeAnyTransition_err nfa X e :
  Determinize.computeAnyTransition nfa X = Err e -> e = TypeError.
Proof.
  unfold Determinize.computeAnyTransition. intros H.
  match type of H with bind ?m _ = _ => destruct m as [reached|e'] eqn:Hf end;
    simpl in H.
  - eapply det_closure_err_type; eauto.
  - injection H as <-.
    eapply foldM_err with (Inv := fun _ => True) (Q := fun e => e = TypeError) in Hf; auto.
    intros acc x e0 _ _. destruct (state_at_exn nfa x) eqn:Hs; simpl; [discriminate|].
    intros Heq. injection Heq as <-. eapply state_at_exn_Err; eauto.
Qed.

Lemma some_accepting_err nfa X e :
  Determinize.some_accepting nfa X = Err e -> e = TypeError.
Proof.
  induction X as [|x X IH]; simpl; [discriminate|].
  destruct (state_at_exn nfa x) eqn:Hs; simpl.
  - destruct (accepting a); [discriminate|auto].
  - intros Heq. injection Heq as <-. eapply state_at_exn_Err; eauto.
Qed.

(** The only exceptions raised by the body of [determinize]: a TypeError
    (state index outside the NFA) and the limit error for the configured
    cap. *)
Definition limit_shape (cap : nat) (e : Error) : Prop :=
  e = TypeError \/ e = LimitError (mkLimitError DFA_STATE_LIMIT cap (S cap)).

(* ===================================================================== *)
(** ** Invariants of subset construction                                  *)
(* ===================================================================== *)

Module DetInv.

Import Determinize.

(** Invariant of the variables captured by [getOrCreateState] *)
Record CInv (cap : nat) (c : Construction) : Prop := mkCInv {
  ci_cap : List.length (dfaStates c) <= cap;
  ci_map : forall k v, Js.map_get (stateSetMap c) k = Some v ->
                       v < List.length (dfaStates c);
  ci_targets : states_below (List.length (dfaStates c)) (dfaStates c)
}.

Lemma CInv_empty cap : CInv cap (mkConstruction [] []).
Proof.
  constructor; simpl.
  - lia.
  - discriminate.
  - intros s t [].
Qed.

Lemma getOrCreateState_Ok nfa cap c X i c' :
  CInv cap c -> getOrCreateState nfa cap c X = Ok (i, c') ->
  CInv cap c' /\ i < List.length (dfaStates c') /\
  List.length (dfaStates c) <= List.length (dfaStates c').
Proof.
  intros [Hcap Hmap Htg]. unfold getOrCreateState.
  destruct (Js.map_get (stateSetMap c) (serializeStateSet X)) as [v|] eqn:Hget.
  - intros Heq. injection Heq as <- <-.
    split; [constructor; auto|]. split; eauto.
  - destruct (Nat.leb cap (List.length (dfaStates c))) eqn:Hle; [discriminate|].
    apply Nat.leb_gt in Hle.
    destruct (some_accepting nfa X) as [acc|e]; simpl; [|discriminate].
    intros Heq. injection Heq as <- <-. simpl.
    rewrite length_app. simpl.
    split; [constructor; simpl|split; lia].
    + rewrite length_app. simpl. lia.
    + intros k v. rewrite map_get_set, length_app. simpl.
      destruct (Js.map_get (stateSetMap c) k) as [x|] eqn:Hk.
      * intros Heq. injection Heq as <-. apply Hmap in Hk. lia.
      * destruct (String.eqb k (serializeStateSet X)); [|discriminate].
        intros Heq. injection Heq as <-. lia.
    + rewrite length_app. simpl. apply states_below_app.
      * eapply states_below_mono; [|exact Htg]. lia.
      * intros s t [<-|[]] [].
Qed.

Lemma getOrCreateState_Err nfa cap c X e :
  CInv cap c -> getOrCreateState nfa cap c X = Err e -> limit_shape cap e.
Proof.
  intros [Hcap Hmap Htg]. unfold getOrCreateState.
  destruct (Js.map_get (stateSetMap c) (serializeStateSet X)) as [v|]; [discriminate|].
  destruct (Nat.leb cap (List.length (dfaStates c))) eqn:Hle.
  - apply Nat.leb_le in Hle. intros Heq. injection Heq as <-. right.
    replace (List.length (dfaStates c)) with cap by lia.
    rewrite Nat.add_1_r. reflexivity.
  - destruct (some_accepting nfa X) as [acc|e'] eqn:Hacc; simpl; [discriminate|].
    intros Heq. injection Heq as <-. left. eapply some_accepting_err; eauto.
Qed.

(** Invariant of the accumulator while one DFA state is processed:
    the construction, the transitions collected so far, the worklist. *)
Definition AInv (cap : nat) (n0 : nat)
           (acc : Construction * list AutomatonTransition * list (nat * list nat)) : Prop :=
  let '(c, ts, wl) := acc in
  CInv cap c /\ n0 <= List.length (dfaStates c) /\
  (forall t, In t ts -> targets_below (List.length (dfaStates c)) t) /\
  (forall item, In item wl -> fst item < List.length (dfaStates c)).

Definition mk_below (mk : nat -> list AutomatonTransition) : Prop :=
  forall n target t, target < n -> In t (mk target) -> targets_below n t.

Lemma symbol_transition_below sym : mk_below (symbol_transition sym).
Proof.
  intros n target t Hlt.
  destruct sym; simpl; intros Ht; try (destruct Ht as [<-|[]]); try contradiction;
    intros x [<-|[]]; auto.
Qed.

Lemma any_transition_below : mk_below any_transition.
Proof.
  intros n target t Hlt. simpl; intros [<-|[]] x [<-|[]]; auto.
Qed.

Lemma add_target_Ok nfa cap processed mk n0 acc X acc' :
  mk_below mk -> AInv cap n0 acc ->
  add_target nfa cap processed mk acc X = Ok acc' -> AInv cap n0 acc'.
Proof.
  intros Hmk. destruct acc as [[c ts] wl]. intros (HC & Hn0 & Hts & Hwl).
  unfold add_target.
  destruct (Nat.ltb 0 (List.length X)).
  - destruct (getOrCreateState nfa cap c X) as [[i c1]|e] eqn:Hgoc; simpl; [|discriminate].
    destruct (getOrCreateState_Ok _ _ _ _ _ _ HC Hgoc) as (HC1 & Hi & Hmono).
    intros Heq. injection Heq as <-. simpl.
    split; [exact HC1|]. split; [lia|]. split.
    + intros t Ht. apply in_app_or in Ht. destruct Ht as [Ht|Ht].
      * eapply targets_below_mono; [|eauto]. lia.
      * eapply Hmk; eauto.
    + intros item Hitem.
      destruct (negb (Js.set_has processed i)).
      * destruct Hitem as [<-|Hitem]; simpl; auto.
        specialize (Hwl _ Hitem). lia.
      * specialize (Hwl _ Hitem). lia.
  - intros Heq. injection Heq as <-. simpl. auto.
Qed.

Lemma add_target_Err nfa cap processed mk n0 acc X e :
  AInv cap n0 acc ->
  add_target nfa cap processed mk acc X = Err e -> limit_shape cap e.
Proof.
  destruct acc as [[c ts] wl]. intros (HC & Hn0 & Hts & Hwl).
  unfold add_target.
  destruct (Nat.ltb 0 (List.length X)); [|discriminate].
  destruct (getOrCreateState nfa cap c X) as [[i c1]|e'] eqn:Hgoc; simpl; [discriminate|].
  intros Heq. injection Heq as <-. eapply getOrCreateState_Err; eauto.
Qed.

(** Invariant of the main loop *)
Record LInv (cap : nat) (l : Loop) : Prop := mkLInv {
  li_c : CInv cap (construction l);
  li_worklist : forall item, In item (worklist l) ->
                             fst item < List.length (dfaStates (construction l));
  li_processed : forall i, In i (processed l) ->
                           i < List.length (dfaStates (construction l));
  li_nodup : NoDup (processed l)
}.

(** The loop body, split at the fold over the alphabet *)
Definition symbols_fold nfa cap alphabet processed X acc :=
  foldM (fun acc symbol =>
           targetNfaSet <- computeTransition nfa X symbol ;;
           add_target nfa cap processed (symbol_transition symbol) acc targetNfaSet)
        alphabet acc.

Lemma symbols_fold_Ok nfa cap alphabet processed X n0 acc acc' :
  AInv cap n0 acc -> symbols_fold nfa cap alphabet processed X acc = Ok acc' ->
  AInv cap n0 acc'.
Proof.
  intros Hacc Hrun. unfold symbols_fold in Hrun.
  eapply foldM_inv with (Inv := AInv cap n0) in Hrun; eauto.
  intros a sym a' _ Ha.
  destruct (computeTransition nfa X sym) as [T|e]; simpl; [|discriminate].
  apply add_target_Ok; auto. apply symbol_transition_below.
Qed.

Lemma symbols_fold_Err nfa cap alphabet processed X n0 acc e :
  AInv cap n0 acc -> symbols_fold nfa cap alphabet processed X acc = Err e ->
  limit_shape cap e.
Proof.
  intros Hacc Hrun. unfold symbols_fold in Hrun.
  eapply foldM_err with (Inv := AInv cap n0) (Q := limit_shape cap) in Hrun; eauto.
  - intros a sym a' _ Ha.
    destruct (computeTransition nfa X sym) as [T|e']; simpl; [|discriminate].
    apply add_target_Ok; auto. apply symbol_transition_below.
  - intros a sym e0 _ Ha.
    destruct (computeTransition nfa X sym) as [T|e'] eqn:Hc; simpl.
    + eapply add_target_Err; eauto.
    + intros Heq. injection Heq as <-. left. eapply computeTransition_err; eauto.
Qed.

Lemma determinize_step_unfold nfa cap alphabet l :
  determinize_step nfa cap alphabet l =
  match worklist l with
  | [] => Ok (inr (construction l))
  | (dfaStateId, nfaStateSet) :: worklist =>
      if Js.set_has (processed l) dfaStateId
      then Ok (inl (mkLoop (construction l) worklist (processed l)))
      else
        let processed := Js.set_add (processed l) dfaStateId in
        acc <- symbols_fold nfa cap alphabet processed nfaStateSet
                 (construction l, [], worklist) ;;
        anyTarget <- computeAnyTransition nfa nfaStateSet ;;
        '(c, transitions, worklist) <-
          add_target nfa cap processed any_transition acc anyTarget ;;
        match nth_error (dfaStates c) dfaStateId with
        | None => Err TypeError
        | Some state =>
            Ok (inl (mkLoop
                       (mkConstruction (stateSetMap c)
                          (Js.array_set (dfaStates c) dfaStateId
                             (mkState (id state) transitions (accepting state))))
                       worklist processed))
        end
  end.
Proof. reflexivity. Qed.

Lemma determinize_step_inl nfa cap alphabet l l' :
  LInv cap l -> determinize_step nfa cap alphabet l = Ok (inl l') ->
  LInv cap l' /\
  List.length (dfaStates (construction l)) <= List.length (dfaStates (construction l')).
Proof.
  intros [HC Hwl Hpr Hnd]. rewrite determinize_step_unfold.
  destruct (worklist l) as [|[i X] wl] eqn:Hw; [discriminate|].
  destruct (Js.set_has (processed l) i) eqn:Hhas.
  - intros Heq. injection Heq as <-. split; [|simpl; lia].
    constructor; simpl; auto.
    intros item Hitem. apply Hwl. right; auto.
  - cbv zeta.
    assert (Hi : i < List.length (dfaStates (construction l)))
      by (apply (Hwl (i, X)); left; auto).
    assert (Hacc0 : AInv cap (List.length (dfaStates (construction l)))
                         (construction l, [], wl)).
    { split; [exact HC|]. split; [lia|]. split; [intros t []|].
      intros item Hitem. apply Hwl. right; auto. }
    destruct (symbols_fold _ _ _ _ _ _) as [acc|e] eqn:Hfold; simpl; [|discriminate].
    apply (symbols_fold_Ok _ _ _ _ _ _ _ _ Hacc0) in Hfold.
    destruct (computeAnyTransition nfa X) as [T|e]; simpl; [|discriminate].
    destruct (add_target _ _ _ _ acc T) as [[[c ts] wl']|e] eqn:Hadd; simpl; [|discriminate].
    apply (add_target_Ok _ _ _ _ _ _ _ _ any_transition_below Hfold) in Hadd.
    destruct Hadd as ([Hcap Hmap Htg] & Hn0 & Hts & Hwl').
    destruct (nth_error (dfaStates c) i) as [st|] eqn:Hnth; [|discriminate].
    intros Heq. injection Heq as <-. split; [|simpl; rewrite array_set_length; exact Hn0].
    constructor; simpl.
    + constructor; simpl; rewrite ?array_set_length; auto.
      intros s t Hs Ht. apply array_set_In in Hs. destruct Hs as [->|Hs].
      * simpl in Ht. auto.
      * eapply Htg; eauto.
    + rewrite array_set_length. auto.
    + rewrite array_set_length. intros j Hj. apply set_add_In in Hj.
      destruct Hj as [->|Hj]; [lia|]. specialize (Hpr _ Hj). lia.
    + apply set_add_NoDup; auto.
Qed.

Lemma determinize_step_inr nfa cap alphabet l c :
  determinize_step nfa cap alphabet l = Ok (inr c) -> c = construction l.
Proof.
  rewrite determinize_step_unfold.
  destruct (worklist l) as [|[i X] wl].
  - intros Heq. injection Heq as <-. reflexivity.
  - destruct (Js.set_has (processed l) i); [discriminate|]. cbv zeta.
    destruct (symbols_fold _ _ _ _ _ _) as [acc|e]; cbn [bind]; [|discriminate].
    destruct (computeAnyTransition nfa X) as [T|e]; cbn [bind]; [|discriminate].
    destruct (add_target _ _ _ _ acc T) as [[[c2 ts] wl']|e]; cbn [bind]; [|discriminate].
    destruct (nth_error (dfaStates c2) i); discriminate.
Qed.

Lemma determinize_step_Err nfa cap alphabet l e :
  LInv cap l -> determinize_step nfa cap alphabet l = Err e ->
  limit_shape cap e.
Proof.
  intros [HC Hwl Hpr Hnd]. rewrite determinize_step_unfold.
  destruct (worklist l) as [|[i X] wl] eqn:Hw; [discriminate|].
  destruct (Js.set_has (processed l) i) eqn:Hhas; [discriminate|].
  cbv zeta.
  assert (Hacc0 : AInv cap (List.length (dfaStates (construction l)))
                       (construction l, [], wl)).
  { split; [exact HC|]. split; [lia|]. split; [intros t []|].
    intros item Hitem. apply Hwl. right; auto. }
  destruct (symbols_fold _ _ _ _ _ _) as [acc|e'] eqn:Hfold; simpl.
  - apply (symbols_fold_Ok _ _ _ _ _ _ _ _ Hacc0) in Hfold.
    destruct (computeAnyTransition nfa X) as [T|e'] eqn:Hany; simpl.
    + destruct (add_target _ _ _ _ acc T) as [[[c ts] wl']|e'] eqn:Hadd; simpl.
      * destruct (nth_error (dfaStates c) i); [discriminate|].
        intros Heq. injection Heq as <-. left. reflexivity.
      * intros Heq. injection Heq as <-. eapply add_target_Err; eauto.
    + intros Heq. injection Heq as <-. left. eapply computeAnyTransition_err; eauto.
  - intros Heq. injection Heq as <-. eapply symbols_fold_Err; eauto.
Qed.

End DetInv.

(* ===================================================================== *)
(** ** Termination of subset construction                                 *)
(* ===================================================================== *)

Module DetTermination.

Import Determinize DetInv.

Lemma add_target_worklist nfa cap processed mk c ts wl X c' ts' wl' :
  add_target nfa cap processed mk (c, ts, wl) X = Ok (c', ts', wl') ->
  List.length wl' <= S (List.length wl).
Proof.
  unfold add_target. destruct (Nat.ltb 0 (List.length X)).
  - destruct (getOrCreateState nfa cap c X) as [[i c1]|e]; simpl; [|discriminate].
    intros Heq. injection Heq as H1 H2 H3; subst.
    destruct (negb (Js.set_has processed i)); simpl; lia.
  - intros Heq. injection Heq as H1 H2 H3; subst. lia.
Qed.

Lemma symbols_fold_worklist nfa cap processed X alphabet :
  forall c ts wl c' ts' wl',
    symbols_fold nfa cap alphabet processed X (c, ts, wl) = Ok (c', ts', wl') ->
    List.length wl' <= List.length wl + List.length alphabet.
Proof.
  unfold symbols_fold.
  induction alphabet as [|sym alphabet IH]; intros c ts wl c' ts' wl' Hrun;
    cbn [foldM bind] in Hrun.
  - injection Hrun as H1 H2 H3; subst. simpl. lia.
  - destruct (computeTransition nfa X sym) as [T|e]; cbn [bind] in Hrun; [|discriminate].
    destruct (add_target nfa cap processed (symbol_transition sym) (c, ts, wl) T)
      as [[[c1 ts1] wl1]|e] eqn:Hadd; cbn [bind] in Hrun; [|discriminate].
    apply add_target_worklist in Hadd. apply IH in Hrun. simpl. lia.
Qed.

Lemma processed_bound (p : list nat) n :
  NoDup p -> (forall i, In i p -> i < n) -> List.length p <= n.
Proof.
  intros Hnd Hlt. rewrite <- (length_seq n 0) at 1.
  apply NoDup_incl_length; auto.
  intros i Hi. apply in_seq. specialize (Hlt i Hi). lia.
Qed.

Lemma LInv_processed cap l : LInv cap l -> List.length (processed l) <= cap.
Proof.
  intros [[Hcap _ _] _ Hpr Hnd].
  pose proof (processed_bound _ _ Hnd Hpr). lia.
Qed.

Lemma set_add_length_new s x :
  Js.set_has s x = false -> List.length (Js.set_add s x) = S (List.length s).
Proof.
  intros H. unfold Js.set_add. rewrite H, length_app. simpl. lia.
Qed.

(** Entries still to pop, plus the entries every unprocessed DFA state may
    still push *)
Definition measure (cap : nat) (alphabet : list AlphabetSymbol) (l : Loop) : nat :=
  List.length (worklist l) + (cap - List.length (processed l)) * S (List.length alphabet).

Lemma determinize_step_measure nfa cap alphabet l l' :
  LInv cap l -> determinize_step nfa cap alphabet l = Ok (inl l') ->
  measure cap alphabet l' < measure cap alphabet l.
Proof.
  intros HL Hstep. destruct (determinize_step_inl _ _ _ _ _ HL Hstep) as [HL' _].
  pose proof (LInv_processed _ _ HL') as Hp'.
  revert Hstep. rewrite determinize_step_unfold. unfold measure.
  destruct (worklist l) as [|[i X] wl] eqn:Hw; [discriminate|].
  destruct (Js.set_has (processed l) i) eqn:Hhas.
  - intros Heq. injection Heq as <-. simpl. lia.
  - cbv zeta.
    destruct (symbols_fold _ _ _ _ _ _) as [acc|e] eqn:Hfold; cbn [bind];
      [|discriminate].
    destruct (computeAnyTransition nfa X) as [T|e]; cbn [bind]; [|discriminate].
    destruct (add_target _ _ _ _ acc T) as [[[c ts] wl']|e] eqn:Hadd; cbn [bind];
      [|discriminate].
    destruct acc as [[c1 ts1] wl1].
    apply symbols_fold_worklist in Hfold.
    apply add_target_worklist in Hadd.
    destruct (nth_error (dfaStates c) i) as [st|]; [|discriminate].
    intros Heq. injection Heq as Heq. subst l'. simpl in *.
    rewrite (set_add_length_new _ _ Hhas) in *.
    set (K := List.length alphabet) in *.
    replace (cap - List.length (processed l))
      with (S (cap - S (List.length (processed l)))) by lia.
    simpl. lia.
Qed.

Lemma determinize_loop_terminates nfa cap alphabet l :
  LInv cap l ->
  List.length (worklist l) + cap * S (List.length alphabet)
    < determinize_fuel cap alphabet ->
  while_loop (determinize_fuel cap alphabet) (determinize_step nfa cap alphabet) l
    <> Err OutOfFuel.
Proof.
  intros HL Hfuel.
  apply while_loop_terminates with (Inv := LInv cap) (mu := measure cap alphabet); auto.
  - intros s s' Hs Hstep. split.
    + eapply determinize_step_inl; eauto.
    + eapply determinize_step_measure; eauto.
  - intros s Hs Hstep. apply (determinize_step_Err _ _ _ _ _ Hs) in Hstep.
    destruct Hstep; discriminate.
  - unfold measure.
    assert (cap - List.length (processed l) <= cap) by lia.
    assert ((cap - List.length (processed l)) * S (List.length alphabet)
            <= cap * S (List.length alphabet)) by (apply Nat.mul_le_mono_r; auto).
    lia.
Qed.

End DetTermination.

(* ===================================================================== *)
(** ** The same construction under two caps                               *)
(* ===================================================================== *)

Module DetCaps.

Import Determinize DetInv.

Definition limit_error (m : nat) : Error :=
  LimitError (mkLimitError DFA_STATE_LIMIT m (S m)).

Section TwoCaps.

Variable nfa : SegmentAutomaton.
Variables m m' : nat.

Lemma getOrCreateState_sim c X i c1 :
  List.length (dfaStates c) <= m ->
  getOrCreateState nfa m' c X = Ok (i, c1) ->
  (getOrCreateState nfa m c X = Ok (i, c1) /\ List.length (dfaStates c1) <= m)
  \/ getOrCreateState nfa m c X = Err (limit_error m).
Proof.
  intros Hle. unfold getOrCreateState.
  destruct (Js.map_get (stateSetMap c) (serializeStateSet X)) as [v|].
  - intros Heq. injection Heq as <- <-. left. auto.
  - destruct (Nat.leb m' (List.length (dfaStates c))); [discriminate|].
    destruct (Nat.leb m (List.length (dfaStates c))) eqn:Hm.
    + intros _. right. apply Nat.leb_le in Hm.
      replace (List.length (dfaStates c)) with m by lia.
      rewrite Nat.add_1_r. reflexivity.
    + apply Nat.leb_gt in Hm.
      destruct (some_accepting nfa X) as [acc|e]; simpl; [|discriminate].
      intros Heq. injection Heq as <- <-. left. split; auto.
      simpl. rewrite length_app. simpl. lia.
Qed.

Definition acc_size
           (acc : Construction * list AutomatonTransition * list (nat * list nat)) : nat :=
  List.length (dfaStates (fst (fst acc))).

Lemma add_target_sim processed mk acc X acc' :
  acc_size acc <= m ->
  add_target nfa m' processed mk acc X = Ok acc' ->
  (add_target nfa m processed mk acc X = Ok acc' /\ acc_size acc' <= m)
  \/ add_target nfa m processed mk acc X = Err (limit_error m).
Proof.
  destruct acc as [[c ts] wl]. unfold acc_size. simpl. intros Hle.
  unfold add_target. destruct (Nat.ltb 0 (List.length X)).
  - destruct (getOrCreateState nfa m' c X) as [[i c1]|e] eqn:Hgoc; simpl; [|discriminate].
    destruct (getOrCreateState_sim _ _ _ _ Hle Hgoc) as [[-> Hle1]| ->]; simpl.
    + intros Heq. injection Heq as <-. left. split; auto.
    + intros _. right. reflexivity.
  - intros Heq. injection Heq as <-. left. split; auto.
Qed.

Lemma symbols_fold_sim processed X alphabet :
  forall acc acc',
    acc_size acc <= m ->
    symbols_fold nfa m' alphabet processed X acc = Ok acc' ->
    (symbols_fold nfa m alphabet processed X acc = Ok acc' /\ acc_size acc' <= m)
    \/ symbols_fold nfa m alphabet processed X acc = Err (limit_error m).
Proof.
  unfold symbols_fold.
  induction alphabet as [|sym alphabet IH]; intros acc acc' Hle Hrun;
    cbn [foldM bind] in *.
  - injection Hrun as <-. left. auto.
  - destruct (computeTransition nfa X sym) as [T|e]; cbn [bind] in *; [|discriminate].
    destruct (add_target nfa m' processed (symbol_transition sym) acc T)
      as [acc1|e] eqn:Hadd; cbn [bind] in Hrun; [|discriminate].
    destruct (add_target_sim _ _ _ _ _ Hle Hadd) as [[-> Hle1]| ->]; cbn [bind].
    + apply IH; auto.
    + right. reflexivity.
Qed.

Definition next_size (r : Loop + Construction) : nat :=
  match r with
  | inl l => List.length (dfaStates (construction l))
  | inr c => List.length (dfaStates c)
  end.

Lemma determinize_step_sim alphabet l r :
  List.length (dfaStates (construction l)) <= m ->
  determinize_step nfa m' alphabet l = Ok r ->
  (determinize_step nfa m alphabet l = Ok r /\ next_size r <= m)
  \/ determinize_step nfa m alphabet l = Err (limit_error m).
Proof.
  intros Hle. rewrite !determinize_step_unfold.
  destruct (worklist l) as [|[i X] wl].
  - intros Heq. injection Heq as <-. left. auto.
  - destruct (Js.set_has (processed l) i).
    + intros Heq. injection Heq as <-. left. auto.
    + cbv zeta.
      destruct (symbols_fold nfa m' _ _ _ _) as [acc|e] eqn:Hfold; simpl; [|discriminate].
      apply symbols_fold_sim in Hfold; [|exact Hle].
      destruct Hfold as [[-> Hle1]| ->]; simpl; [|intros _; right; reflexivity].
      destruct (computeAnyTransition nfa X) as [T|e]; simpl; [|discriminate].
      destruct (add_target nfa m' _ _ acc T) as [[[c ts] wl']|e] eqn:Hadd; simpl;
        [|discriminate].
      destruct (add_target_sim _ _ _ _ _ Hle1 Hadd) as [[-> Hle2]| ->]; simpl;
        [|intros _; right; reflexivity].
      destruct (nth_error (dfaStates c) i); [|discriminate].
      intros Heq. injection Heq as <-. left. split; auto.
      simpl. rewrite array_set_length. exact Hle2.
Qed.

Lemma determinize_loop_sim alphabet fuel :
  forall l c',
    List.length (dfaStates (construction l)) <= m ->
    while_loop fuel (determinize_step nfa m' alphabet) l = Ok c' ->
    (while_loop fuel (determinize_step nfa m alphabet) l = Ok c'
     /\ List.length (dfaStates c') <= m)
    \/ while_loop fuel (determinize_step nfa m alphabet) l = Err (limit_error m).
Proof.
  induction fuel as [|fuel IH]; intros l c' Hle Hrun; simpl in *; [discriminate|].
  destruct (determinize_step nfa m' alphabet l) as [r|e] eqn:Hstep; simpl in Hrun;
    [|discriminate].
  destruct (determinize_step_sim _ _ _ Hle Hstep) as [[-> Hle1]| ->]; simpl;
    [|right; reflexivity].
  destruct r as [l1|c1].
  - apply IH; auto.
  - injection Hrun as <-. left. auto.
Qed.

End TwoCaps.

End DetCaps.

(* ===================================================================== *)
(** ** [determinize] as a whole                                           *)
(* ===================================================================== *)

Module DetWhole.

Import Determinize DetInv DetTermination DetCaps.

(** The subset-construction branch of [determinize] *)
Definition subset_construction (nfa : SegmentAutomaton) (cap : nat)
  : result (nat * Construction) :=
  initialClosure <- epsilonClosure nfa [initialState nfa] ;;
  '(initialDfaState, c) <-
    getOrCreateState nfa cap (mkConstruction [] []) initialClosure ;;
  let alphabet := collectAlphabet nfa in
  c <- while_loop (determinize_fuel cap alphabet)
         (determinize_step nfa cap alphabet)
         (mkLoop c [(initialDfaState, initialClosure)] []) ;;
  Ok (initialDfaState, c).

Definition finish (r : nat * Construction) : SegmentAutomaton :=
  makeComplete (mkAutomaton (dfaStates (snd r)) (fst r)
                  (map id (filter accepting (dfaStates (snd r)))) true).

Lemma determinize_unfold nfa options :
  determinize nfa options =
  if isDeterministic nfa then Ok (makeComplete nfa)
  else r <- subset_construction nfa (configured_cap options) ;; Ok (finish r).
Proof.
  unfold determinize, subset_construction, configured_cap, finish.
  destruct (isDeterministic nfa); [reflexivity|].
  destruct (epsilonClosure nfa [initialState nfa]) as [C0|e]; cbn [bind]; [|reflexivity].
  destruct (getOrCreateState _ _ _ C0) as [[i0 c0]|e]; cbn [bind]; [|reflexivity].
  destruct (while_loop _ _ _) as [c|e]; cbn [bind]; reflexivity.
Qed.

Lemma initial_LInv nfa cap C0 i0 c0 :
  getOrCreateState nfa cap (mkConstruction [] []) C0 = Ok (i0, c0) ->
  LInv cap (mkLoop c0 [(i0, C0)] []).
Proof.
  intros Hgoc.
  destruct (getOrCreateState_Ok _ _ _ _ _ _ (CInv_empty cap) Hgoc) as (HC & Hi & _).
  constructor; simpl; auto.
  - intros item [<-|[]]. exact Hi.
  - intros i [].
  - constructor.
Qed.

(** Facts about a finished subset construction *)
Lemma subset_construction_Ok nfa cap i0 c :
  subset_construction nfa cap = Ok (i0, c) ->
  CInv cap c /\ i0 < List.length (dfaStates c).
Proof.
  unfold subset_construction.
  destruct (epsilonClosure nfa [initialState nfa]) as [C0|e]; cbn [bind]; [|discriminate].
  destruct (getOrCreateState _ _ _ C0) as [[i1 c0]|e] eqn:Hgoc; cbn [bind]; [|discriminate].
  destruct (while_loop _ _ _) as [c1|e] eqn:Hloop; cbn [bind]; [|discriminate].
  intros Heq. injection Heq as <- <-.
  pose proof (initial_LInv _ _ _ _ _ Hgoc) as HL.
  destruct (getOrCreateState_Ok _ _ _ _ _ _ (CInv_empty cap) Hgoc) as (_ & Hi & _).
  eapply while_loop_inv with
    (Inv := fun l => LInv cap l /\ i1 < List.length (dfaStates (construction l)))
    (Post := fun c => CInv cap c /\ i1 < List.length (dfaStates c)) in Hloop; auto.
  - intros s s' [Hs Hlt] Hstep.
    destruct (determinize_step_inl _ _ _ _ _ Hs Hstep) as [Hs' Hgrow].
    split; [exact Hs'|lia].
  - intros s r [Hs Hlt] Hstep. apply determinize_step_inr in Hstep. subst r.
    split; [apply Hs|exact Hlt].
Qed.

(** [determinize] never exhausts a loop budget. *)
Lemma subset_construction_terminates nfa cap :
  subset_construction nfa cap <> Err OutOfFuel.
Proof.
  unfold subset_construction.
  destruct (epsilonClosure nfa [initialState nfa]) as [C0|e] eqn:Hc; cbn [bind].
  - destruct (getOrCreateState _ _ _ C0) as [[i1 c0]|e] eqn:Hgoc; cbn [bind].
    + pose proof (initial_LInv _ _ _ _ _ Hgoc) as HL.
      pose proof (determinize_loop_terminates nfa cap (collectAlphabet nfa) _ HL) as Hterm.
      destruct (while_loop _ _ _) as [c1|e] eqn:Hloop; cbn [bind]; [discriminate|].
      intros Heq. injection Heq as ->. apply Hterm; auto.
      simpl. unfold determinize_fuel. lia.
    + apply (getOrCreateState_Err _ _ _ _ _ (CInv_empty cap)) in Hgoc.
      destruct Hgoc as [->| ->]; discriminate.
    - apply det_closure_err_type in Hc. subst. discriminate.
Qed.

(** The exceptions of subset construction *)
Lemma subset_construction_Err nfa cap e :
  subset_construction nfa cap = Err e -> limit_shape cap e.
Proof.
  intros H. pose proof (subset_construction_terminates nfa cap) as Hterm.
  revert H Hterm. unfold subset_construction.
  destruct (epsilonClosure nfa [initialState nfa]) as [C0|e0] eqn:Hc; cbn [bind].
  - destruct (getOrCreateState _ _ _ C0) as [[i1 c0]|e0] eqn:Hgoc; cbn [bind].
    + pose proof (initial_LInv _ _ _ _ _ Hgoc) as HL.
      destruct (while_loop _ _ _) as [c1|e0] eqn:Hloop; cbn [bind]; [discriminate|].
      intros Heq Hterm. injection Heq as ->.
      eapply while_loop_err with (Inv := LInv cap) (Q := limit_shape cap) in Hloop; auto.
      * destruct Hloop as [->|H]; [congruence|exact H].
      * intros s s' Hs Hstep. eapply determinize_step_inl; eauto.
      * intros s e0 Hs Hstep. eapply determinize_step_Err; eauto.
    + intros Heq _. injection Heq as ->.
      eapply getOrCreateState_Err; eauto. apply CInv_empty.
  - intros Heq _. injection Heq as ->. left. eapply det_closure_err_type; eauto.
Qed.

(** A run that succeeds under one cap fails under any cap it exceeds. *)
Lemma subset_construction_cap nfa m m' i0 c :
  subset_construction nfa m' = Ok (i0, c) ->
  m < List.length (dfaStates c) ->
  subset_construction nfa m = Err (limit_error m).
Proof.
  intros Hrun Hlt.
  destruct (subset_construction_Ok _ _ _ _ Hrun) as [[Hcap _ _] _].
  assert (Hmm : m < m') by lia.
  pose proof (subset_construction_terminates nfa m) as Hterm.
  revert Hrun Hterm. unfold subset_construction.
  destruct (epsilonClosure nfa [initialState nfa]) as [C0|e]; cbn [bind]; [|discriminate].
  destruct (getOrCreateState nfa m' _ C0) as [[i1 c0]|e] eqn:Hgoc; cbn [bind];
    [|discriminate].
  apply getOrCreateState_sim with (m := m) in Hgoc; [|simpl; lia].
  destruct Hgoc as [[Hgoc Hle]| ->]; cbn [bind]; [|reflexivity].
  rewrite Hgoc. cbn [bind].
  destruct (while_loop _ (determinize_step nfa m' _) _) as [c1|e] eqn:Hloop; cbn [bind];
    [|discriminate].
  intros Heq. injection Heq as <- <-.
  apply determinize_loop_sim with (m := m) in Hloop; [|exact Hle].
  destruct Hloop as [[_ Hle1]|Hloop]; [lia|].
  destruct (while_loop (determinize_fuel m _) _ _) as [c2|e] eqn:Hrun; cbn [bind].
  - intros _.
    apply while_loop_mono with (fuel' := determinize_fuel m' (collectAlphabet nfa)) in Hrun.
    + congruence.
    + unfold determinize_fuel. apply Nat.add_le_mono_l, Nat.mul_le_mono_r. lia.
    + discriminate.
  - intros Hterm.
    apply while_loop_mono with (fuel' := determinize_fuel m' (collectAlphabet nfa)) in Hrun.
    + congruence.
    + unfold determinize_fuel. apply Nat.add_le_mono_l, Nat.mul_le_mono_r. lia.
    + congruence.
Qed.

Lemma makeComplete_length a :
  List.length (states (makeComplete a)) = S (List.length (states a)).
Proof.
  unfold makeComplete. simpl. rewrite length_app, length_map. simpl. lia.
Qed.

End DetWhole.

(* ===================================================================== *)
(** ** Catch-all wildcards                                                *)
(* ===================================================================== *)

Lemma append_empty s1 s2 : s1 ++ s2 = "" -> s1 = "" /\ s2 = "".
Proof. destruct s1; simpl; [auto|discriminate]. Qed.

Lemma concat_cons (x : string) xs : String.concat "" (x :: xs) = x ++ String.concat "" xs.
Proof.
  destruct xs as [|y ys]; simpl; [|reflexivity].
  induction x; simpl; congruence.
Qed.

Definition body_source (body : list RegExpNode) : string :=
  String.concat "" (map Re.node_source body).

Lemma body_source_cons n body :
  body_source (n :: body) = Re.node_source n ++ body_source body.
Proof. unfold body_source. simpl map. apply concat_cons. Qed.

(** The first character of an escaped literal is a backslash or a
    character that is not special. *)
Lemma escapeRegex_head c l rest x r :
  Re.escapeRegex (String c l) ++ rest = String x r ->
  x = "\"%char \/ Re.is_regex_special x = false.
Proof.
  simpl. destruct (Re.is_regex_special c) eqn:Hc; simpl.
  - intros H. injection H as <- _. left. reflexivity.
  - intros H. injection H as <- _. right. exact Hc.
Qed.

Lemma escapeRegex_not_dot c l rest r :
  Re.escapeRegex (String c l) ++ rest = String "." r -> False.
Proof.
  intros H. apply escapeRegex_head in H. destruct H as [H|H]; discriminate.
Qed.

Lemma escapeRegex_not_star c l rest r :
  Re.escapeRegex (String c l) ++ rest = String "*" r -> False.
Proof.
  intros H. apply escapeRegex_head in H. destruct H as [H|H]; discriminate.
Qed.

(** A body whose source is empty matches the empty string. *)
Lemma body_source_empty body :
  body_source body = "" -> Re.match_body body "" = true.
Proof.
  induction body as [|n body IH]; [reflexivity|].
  rewrite body_source_cons. intros H. apply append_empty in H. destruct H as [Hn Hb].
  destruct n as [l| | | |spec]; simpl in Hn; try discriminate.
  destruct l; [|simpl in Hn; destruct (Re.is_regex_special a); discriminate].
  simpl. auto.
Qed.

(** No body has the source [*]. *)
Lemma body_source_star body : body_source body = "*" -> False.
Proof.
  induction body as [|n body IH]; [discriminate|].
  rewrite body_source_cons.
  destruct n as [l| | | |spec]; simpl; try discriminate.
  destruct l as [|c l]; [exact IH|].
  apply escapeRegex_not_star.
Qed.

Lemma dotstar_all rest :
  Re.match_body rest "" = true ->
  forall s, no_line_terminator s = true -> Re.match_body (ReDotStar :: rest) s = true.
Proof.
  intros Hrest s. induction s as [|c s IH]; intros Hs.
  - simpl. rewrite Hrest. reflexivity.
  - simpl in Hs. apply andb_true_iff in Hs. destruct Hs as [Hc Hs].
    specialize (IH Hs). simpl in *. rewrite Hc, IH. simpl. apply orb_true_r.
Qed.

(** A body whose source is [.*] matches every segment without line
    terminators. *)
Lemma body_source_dotstar body :
  body_source body = ".*" ->
  forall s, no_line_terminator s = true -> Re.match_body body s = true.
Proof.
  induction body as [|n body IH]; [discriminate|].
  rewrite body_source_cons.
  destruct n as [l| | | |spec]; simpl.
  - destruct l as [|c l].
    + intros H s Hs. simpl. apply IH; auto.
    + intros H. exfalso. eapply escapeRegex_not_dot; eauto.
  - intros H. injection H as H. intros s Hs.
    apply dotstar_all; auto. apply body_source_empty; auto.
  - discriminate.
  - intros H. injection H as H. exfalso. eapply body_source_star; eauto.
  - discriminate.
Qed.

Lemma append_dollar b s : b ++ "$" = String.append s "$" -> b = s.
Proof.
  revert s. induction b as [|c b IH]; intros [|d s]; simpl; intros H.
  - reflexivity.
  - injection H as _ H. destruct s; discriminate.
  - injection H as _ H. destruct b; discriminate.
  - injection H as -> H. f_equal. auto.
Qed.

(** [makeComplete]'s test for an existing catch-all identifies matchers
    that accept every segment without line terminators. *)
Lemma isCatchAllSource_universal p :
  Determinize.isCatchAllSource (matcher_source p) = true -> universal p.
Proof.
  destruct p as [[body]|a b]; [|discriminate].
  unfold Determinize.isCatchAllSource, matcher_source, Re.RegExp_source.
  cbn [re_body]. fold (body_source body).
  change ("^" ++ body_source body ++ "$") with (String "^" (body_source body ++ "$")).
  intros H.
  assert (Hsrc : body_source body = ".*").
  { rewrite !orb_true_iff in H.
    destruct H as [[[H|H]|H]|H]; apply String.eqb_eq in H; try discriminate.
    - injection H as H.
      destruct (body_source body) as [|c1 [|c2 [|c3 r]]]; simpl in H; try discriminate;
        injection H; intros; subst; try discriminate.
    - injection H as H. apply append_dollar. exact H. }
  intros segment Hseg. cbn [test]. unfold Re.RegExp_test. cbn [re_body].
  apply body_source_dotstar; auto.
Qed.

Lemma catchAll_universal : universal (MRegExp (mkRegExp [ReDotStar])).
Proof. apply isCatchAllSource_universal. reflexivity. Qed.

Lemma intersection_universal a b :
  universal a -> universal b -> universal (MIntersection a b).
Proof.
  intros Ha Hb s Hs. simpl. rewrite Ha, Hb; auto.
Qed.

Lemma has_universal_selects s segment :
  has_universal (transitions s) -> no_line_terminator segment = true ->
  selects_one s segment.
Proof.
  intros (p & src & tgt & Hin & Hu) Hseg. specialize (Hu _ Hseg). split.
  - unfold applicable.
    assert (Hf : In (WildcardTransition p src tgt)
                    (filter (fun t => Matcher.matchTransition t segment) (transitions s))).
    { apply filter_In. split; auto. }
    destruct (filter _ _); [destruct Hf|simpl; lia].
  - unfold Matcher.getDeterministicTarget.
    destruct (find _ (transitions s)) as [t|] eqn:Hlit.
    + apply find_some in Hlit. destruct Hlit as [Ht Hlit].
      destruct t as [seg tg| | |]; try discriminate.
      exists (LiteralTransition seg tg), tg. auto.
    + clear Hlit.
      destruct (find (fun t => match t with
                               | WildcardTransition pattern _ _ => test pattern segment
                               | _ => false
                               end) (transitions s)) as [t|] eqn:Hw.
      * apply find_some in Hw. destruct Hw as [Ht Hw].
        destruct t as [|pat psrc tg| |]; try discriminate.
        exists (WildcardTransition pat psrc tg), tg. auto.
      * exfalso. eapply find_none in Hw; [|exact Hin]. simpl in Hw. congruence.
Qed.

(** [find] returns the first element that passes the test. *)
Lemma find_first {A} (f : A -> bool) (l : list A) (x : A) :
  find f l = Some x ->
  exists pre post,
    l = (pre ++ x :: post)%list /\ f x = true /\ forall y, In y pre -> f y = false.
Proof.
  induction l as [|a l IH]; simpl; [discriminate|].
  destruct (f a) eqn:Hfa.
  - intros H. assert (a = x) by congruence. subst a.
    exists [], l. split; [reflexivity|]. split; [exact Hfa|]. intros y [].
  - intros H. destruct (IH H) as (pre & post & Hl & Hx & Hpre).
    exists (a :: pre), post. split; [rewrite Hl; reflexivity|].
    split; [exact Hx|]. intros y [Hy|Hy]; [subst y; exact Hfa|auto].
Qed.

(** Two splits of a list at the first element with a property meet at the
    same element. *)
Lemma first_split_unique {A} (P : A -> Prop) :
  forall (pre post pre' post' : list A) (t t' : A),
    (pre ++ t :: post)%list = (pre' ++ t' :: post')%list ->
    P t -> P t' ->
    (forall x, In x pre -> ~ P x) ->
    (forall x, In x pre' -> ~ P x) ->
    t = t'.
Proof.
  induction pre as [|a pre IH];
    intros post [|a' pre'] post' t t' Heq Ht Ht' Hp Hp'; simpl in Heq.
  - congruence.
  - exfalso. apply (Hp' a'); [left; reflexivity|]. congruence.
  - exfalso. apply (Hp a); [left; reflexivity|]. congruence.
  - assert (Heq' : (pre ++ t :: post)%list = (pre' ++ t' :: post')%list)
      by congruence.
    apply (IH post pre' post' t t' Heq' Ht Ht').
    + intros x Hx. apply Hp. right; exact Hx.
    + intros x Hx. apply Hp'. right; exact Hx.
Qed.

(** The transition that [selected_by_priority] describes is unique. *)
Lemma selected_by_priority_unique ts segment t t' :
  selected_by_priority ts segment t ->
  selected_by_priority ts segment t' ->
  t = t'.
Proof.
  intros [Hl|[Hn Hw]] [Hl'|[Hn' Hw']].
  - destruct Hl as (pre & post & tg & E & Et & Hp).
    destruct Hl' as (pre' & post' & tg' & E' & Et' & Hp').
    apply (first_split_unique
             (fun x => exists g, x = LiteralTransition segment g)
             pre post pre' post').
    + congruence.
    + exists tg; exact Et.
    + exists tg'; exact Et'.
    + intros x Hx [g Hg]. subst x. exact (Hp g Hx).
    + intros x Hx [g Hg]. subst x. exact (Hp' g Hx).
  - exfalso. destruct Hl as (pre & post & tg & E & Et & _).
    apply (Hn' tg). rewrite E, <- Et. apply in_elt.
  - exfalso. destruct Hl' as (pre & post & tg & E & Et & _).
    apply (Hn tg). rewrite E, <- Et. apply in_elt.
  - destruct Hw as (pre & post & p & src & tg & E & Et & Hm & Hp).
    destruct Hw' as (pre' & post' & p' & src' & tg' & E' & Et' & Hm' & Hp').
    apply (first_split_unique
             (fun x => exists q s g,
                         x = WildcardTransition q s g /\ test q segment = true)
             pre post pre' post').
    + congruence.
    + exists p, src, tg; auto.
    + exists p', src', tg'; auto.
    + intros x Hx (q & s & g & Hq & Hqm). subst x.
      rewrite (Hp q s g Hx) in Hqm. discriminate.
    + intros x Hx (q & s & g & Hq & Hqm). subst x.
      rewrite (Hp' q s g Hx) in Hqm. discriminate.
Qed.

(** In a state that carries a universal wildcard, [getDeterministicTarget]
    returns the target of the transition selected by priority: the two
    [for] loops of the source, literal first. *)
Lemma getDeterministicTarget_priority ts segment :
  has_universal ts -> no_line_terminator segment = true ->
  exists t target,
    In t ts /\
    Matcher.matchTransition t segment = true /\
    Matcher.getTransitionTarget t segment = Some target /\
    Matcher.getDeterministicTarget ts segment = Some target /\
    selected_by_priority ts segment t.
Proof.
  intros (p & src & tgt & Hin & Hu) Hseg. specialize (Hu _ Hseg).
  unfold Matcher.getDeterministicTarget.
  destruct (find _ ts) as [t|] eqn:Hlit.
  - destruct (find_first _ _ _ Hlit) as (pre & post & E & Ht & Hpre).
    destruct t as [seg tg| | |]; try discriminate.
    apply String.eqb_eq in Ht. subst seg.
    exists (LiteralTransition segment tg), tg.
    split; [rewrite E; apply in_elt|].
    split; [simpl; apply String.eqb_refl|].
    split; [reflexivity|]. split; [reflexivity|].
    left. exists pre, post, tg. split; [exact E|]. split; [reflexivity|].
    intros g Hg. specialize (Hpre _ Hg). simpl in Hpre.
    rewrite String.eqb_refl in Hpre. discriminate.
  - assert (Hno : no_literal ts segment).
    { intros g Hg. eapply find_none in Hlit; [|exact Hg]. simpl in Hlit.
      rewrite String.eqb_refl in Hlit. discriminate. }
    clear Hlit.
    destruct (find (fun t => match t with
                             | WildcardTransition pattern _ _ => test pattern segment
                             | _ => false
                             end) ts) as [t|] eqn:Hw.
    + destruct (find_first _ _ _ Hw) as (pre & post & E & Ht & Hpre).
      destruct t as [|pat psrc tg| |]; try discriminate.
      exists (WildcardTransition pat psrc tg), tg.
      split; [rewrite E; apply in_elt|].
      split; [exact Ht|]. split; [reflexivity|]. split; [reflexivity|].
      right. split; [exact Hno|].
      exists pre, post, pat, psrc, tg. split; [exact E|].
      split; [reflexivity|]. split; [exact Ht|].
      intros q s g Hg. exact (Hpre _ Hg).
    + exfalso. eapply find_none in Hw; [|exact Hin]. simpl in Hw. congruence.
Qed.

(** [makeComplete] makes every state complete and keeps targets in range. *)
Lemma makeComplete_complete a : complete (Determinize.makeComplete a).
Proof.
  intros s Hs. unfold Determinize.makeComplete in Hs. simpl in Hs.
  apply in_app_or in Hs. destruct Hs as [Hs|[<-|[]]].
  - apply in_map_iff in Hs. destruct Hs as (s0 & <- & Hs0).
    destruct (Determinize.hasCatchAll s0) eqn:Hc.
    + unfold Determinize.hasCatchAll in Hc. apply existsb_exists in Hc.
      destruct Hc as (t & Ht & Hsrc). destruct t; try discriminate.
      exists pattern, patternSource, target. split; auto.
      apply isCatchAllSource_universal; auto.
    + simpl. do 3 eexists. split; [apply in_or_app; right; left; reflexivity|].
      apply catchAll_universal.
  - simpl. do 3 eexists. split; [left; reflexivity|]. apply catchAll_universal.
Qed.

Lemma makeComplete_well_formed a :
  well_formed a -> well_formed (Determinize.makeComplete a).
Proof.
  intros [Hinit Htg]. split.
  - rewrite DetWhole.makeComplete_length. simpl. lia.
  - rewrite DetWhole.makeComplete_length.
    unfold Determinize.makeComplete. simpl.
    apply states_below_app.
    + intros s t Hs Ht. apply in_map_iff in Hs. destruct Hs as (s0 & <- & Hs0).
      destruct (Determinize.hasCatchAll s0).
      * eapply targets_below_mono; [|eapply Htg; eauto]. lia.
      * simpl in Ht. apply in_app_or in Ht. destruct Ht as [Ht|[<-|[]]].
        -- eapply targets_below_mono; [|eapply Htg; eauto]. lia.
        -- intros x [<-|[]]. lia.
    + intros s t [<-|[]] [<-|[]] x [<-|[]]. lia.
Qed.

(** The output of [determinize] is complete and, for a well-formed or
    non-deterministic input, well formed. *)
Lemma determinize_complete nfa options dfa :
  Determinize.determinize nfa options = Ok dfa ->
  complete dfa /\ isDeterministic dfa = true.
Proof.
  rewrite DetWhole.determinize_unfold.
  destruct (isDeterministic nfa).
  - intros H. injection H as <-. split; [apply makeComplete_complete|reflexivity].
  - destruct (DetWhole.subset_construction _ _) as [r|e]; cbn [bind]; [|discriminate].
    intros H. injection H as <-. split; [apply makeComplete_complete|reflexivity].
Qed.

Lemma determinize_well_formed nfa options dfa :
  (isDeterministic nfa = true -> well_formed nfa) ->
  Determinize.determinize nfa options = Ok dfa -> well_formed dfa.
Proof.
  intros Hwf. rewrite DetWhole.determinize_unfold.
  destruct (isDeterministic nfa).
  - intros H. injection H as <-. apply makeComplete_well_formed. auto.
  - destruct (DetWhole.subset_construction _ _) as [[i0 c]|e] eqn:Hrun; cbn [bind];
      [|discriminate].
    intros H. injection H as <-.
    destruct (DetWhole.subset_construction_Ok _ _ _ _ Hrun) as [[_ _ Htg] Hi].
    apply makeComplete_well_formed. split; simpl; auto.
Qed.

(* ===================================================================== *)
(** ** Invariants of the product construction                             *)
(* ===================================================================== *)

Lemma array_includes_In xs x : Js.array_includes xs x = true <-> In x xs.
Proof.
  unfold Js.array_includes. rewrite existsb_exists. split.
  - intros [y [Hy Heq]]. apply String.eqb_eq in Heq. subst. auto.
  - intros H. exists x. split; auto. apply String.eqb_refl.
Qed.

Lemma array_includes_false xs x : Js.array_includes xs x = false <-> ~ In x xs.
Proof.
  rewrite <- array_includes_In. destruct (Js.array_includes xs x); split; congruence.
Qed.

Module ProductInv.

Import Intersect.

(** The targets of a combined transition are targets of its components. *)
Lemma combineTransitions_targets tA tB cb :
  combineTransitions tA tB = Some cb ->
  In (targetA cb) (Emptiness.getTransitionTargets tA) /\
  In (targetB cb) (Emptiness.getTransitionTargets tB).
Proof.
  destruct tA, tB; simpl; try discriminate;
    try (match goal with |- context [if ?x then _ else _] => destruct x end);
    try discriminate; intros H; injection H as <-; simpl; auto.
Qed.

(** Two wildcards combine into the wildcard that tests both matchers. *)
Lemma combineTransitions_wildcards pa srca ta pb srcb tb :
  exists src,
    combineTransitions (WildcardTransition pa srca ta) (WildcardTransition pb srcb tb)
    = Some (mkCombined (WildcardPart_ (MIntersection pa pb) src) ta tb).
Proof. eexists. reflexivity. Qed.

Section Product.

Variables a b : SegmentAutomaton.
Variable mode : ProductMode.
Hypothesis Ha_wf : well_formed a.
Hypothesis Hb_wf : well_formed b.
Hypothesis Ha_c : complete a.
Hypothesis Hb_c : complete b.

Definition in_range (sa sb : nat) : Prop :=
  sa < List.length (states a) /\ sb < List.length (states b).

(** A product state whose transitions have been filled in *)
Definition filled (sts : list AutomatonState) (i : nat) : Prop :=
  exists st, nth_error sts i = Some st /\ has_universal (transitions st).

Definition map_below (c : Construction) : Prop :=
  forall k v, Js.map_get (pairToState c) k = Some v ->
              v < List.length (productStates c).

Definition item_ok (c : Construction) (item : WorkItem) : Prop :=
  in_range (sa item) (sb item) /\
  Js.map_get (pairToState c) (getPairKey (sa item) (sb item)) = Some (stateId item).

Record PInv (l : Loop) : Prop := mkPInv {
  pi_map : map_below (construction l);
  pi_items : forall item, In item (worklist l) -> item_ok (construction l) item;
  pi_processed :
    forall k, In k (processed l) ->
              exists v, Js.map_get (pairToState (construction l)) k = Some v /\
                        filled (productStates (construction l)) v;
  pi_states :
    forall i, i < List.length (productStates (construction l)) ->
              filled (productStates (construction l)) i \/
              exists item, In item (worklist l) /\ stateId item = i
}.

Lemma getOrCreateState_spec c sa sb i c' :
  map_below c ->
  getOrCreateState a b mode c sa sb = (i, c') ->
  Js.map_get (pairToState c') (getPairKey sa sb) = Some i /\
  map_below c' /\
  (forall k v, Js.map_get (pairToState c) k = Some v ->
               Js.map_get (pairToState c') k = Some v) /\
  (c' = c \/
   (Js.map_get (pairToState c) (getPairKey sa sb) = None /\
    i = List.length (productStates c) /\
    (exists acc, productStates c' = (productStates c ++ [mkState i [] acc])%list) /\
    (forall k, Js.map_get (pairToState c') k <> None ->
               Js.map_get (pairToState c) k <> None \/ k = getPairKey sa sb))).
Proof.
  intros Hmap. unfold getOrCreateState.
  destruct (Js.map_get (pairToState c) (getPairKey sa sb)) as [v|] eqn:Hget.
  - intros H. injection H as <- <-. auto.
  - intros H. injection H as <- <-. cbn [pairToState productStates].
    split; [|split; [|split]].
    + rewrite map_get_set, Hget, String.eqb_refl. reflexivity.
    + intros k v. cbn [pairToState productStates]. rewrite map_get_set, length_app.
      destruct (Js.map_get (pairToState c) k) as [x|] eqn:Hk.
      * intros H. injection H as <-. apply Hmap in Hk. simpl. lia.
      * destruct (String.eqb k (getPairKey sa sb)); [|discriminate].
        intros H. injection H as <-. simpl. lia.
    + intros k v Hk. rewrite map_get_set, Hk. reflexivity.
    + right. split; [reflexivity|]. split; [reflexivity|]. split; [eauto|].
      intros k. rewrite map_get_set.
      destruct (Js.map_get (pairToState c) k); [left; discriminate|].
      destruct (String.eqb k (getPairKey sa sb)) eqn:Heq; [|congruence].
      apply String.eqb_eq in Heq. auto.
Qed.

(** Invariant of the accumulator of the two nested [for] loops, relative
    to the construction [c0] and the worklist [wl0] they started from and
    to the set [P] of processed keys *)
Definition FInv (c0 : Construction) (wl0 : list WorkItem) (P : list string)
           (acc : Construction * list AutomatonTransition * list WorkItem) : Prop :=
  let '(c, ts, wl) := acc in
  map_below c /\
  (forall k v, Js.map_get (pairToState c0) k = Some v ->
               Js.map_get (pairToState c) k = Some v) /\
  (exists extra, productStates c = (productStates c0 ++ extra)%list) /\
  (forall item, In item wl -> item_ok c item) /\
  (forall i, List.length (productStates c0) <= i < List.length (productStates c) ->
             exists item, In item wl /\ stateId item = i) /\
  (forall item, In item wl0 -> In item wl) /\
  (forall k, In k P -> Js.map_get (pairToState c) k <> None).

Lemma item_ok_mono c c' item :
  (forall k v, Js.map_get (pairToState c) k = Some v ->
               Js.map_get (pairToState c') k = Some v) ->
  item_ok c item -> item_ok c' item.
Proof. intros Hm [Hr Hk]. split; auto. Qed.

Lemma combine_visit_FInv c0 wl0 P acc pair :
  (forall cb, combineTransitions (fst pair) (snd pair) = Some cb ->
              in_range (targetA cb) (targetB cb)) ->
  FInv c0 wl0 P acc -> FInv c0 wl0 P (combine_visit a b mode P acc pair).
Proof.
  intros Hrange. destruct acc as [[c ts] wl].
  intros (Hmap & Hext & [extra Hpre] & Hitems & Hnew & Hwl0 & HP).
  unfold combine_visit.
  destruct (combineTransitions (fst pair) (snd pair)) as [cb|] eqn:Hcb;
    [|exact (conj Hmap (conj Hext (conj (ex_intro _ extra Hpre)
               (conj Hitems (conj Hnew (conj Hwl0 HP))))))].
  specialize (Hrange cb eq_refl).
  destruct (getOrCreateState a b mode c (targetA cb) (targetB cb)) as [i c1] eqn:Hgoc.
  destruct (getOrCreateState_spec _ _ _ _ _ Hmap Hgoc) as (Hi & Hmap1 & Hext1 & Hcase).
  assert (Hnewitem : item_ok c1 (mkItem i (targetA cb) (targetB cb))).
  { split; simpl; auto. }
  assert (Hitems1 : forall item, In item wl -> item_ok c1 item).
  { intros item Hin. eapply item_ok_mono; eauto. }
  split; [exact Hmap1|]. split; [intros k v Hk; auto|].
  split; [|split; [|split; [|split]]].
  - destruct Hcase as [->|(_ & _ & [st Hst] & _)]; [eauto|].
    eexists. rewrite Hst, Hpre, <- app_assoc. reflexivity.
  - intros item Hin.
    destruct (negb (Js.array_includes P (getPairKey (targetA cb) (targetB cb)))); auto.
    destruct Hin as [<-|Hin]; auto.
  - intros j Hj.
    destruct Hcase as [->|(Hnone & Hieq & [st Hst] & _)].
    + destruct (Hnew j Hj) as (item & Hin & Hid). exists item. split; auto.
      destruct (negb _); [right|]; auto.
    + rewrite Hst, length_app in Hj. simpl in Hj.
      destruct (Nat.eq_dec j (List.length (productStates c))) as [Hjeq|Hjne].
      * (* the state just created: its key is not processed, so it is pushed *)
        assert (Hnp : Js.array_includes P (getPairKey (targetA cb) (targetB cb)) = false).
        { apply array_includes_false. intros Hin. apply HP in Hin. congruence. }
        rewrite Hnp. simpl. eexists. split; [left; reflexivity|]. simpl. congruence.
      * destruct (Hnew j ltac:(lia)) as (item & Hin & Hid). exists item. split; auto.
        destruct (negb _); [right|]; auto.
  - intros item Hin. destruct (negb _); [right|]; auto.
  - intros k Hk. specialize (HP k Hk).
    destruct (Js.map_get (pairToState c) k) as [v|] eqn:Hget; [|congruence].
    rewrite (Hext1 _ _ Hget). discriminate.
Qed.

Lemma fold_FInv c0 wl0 P pairs :
  forall acc,
    (forall pair cb, In pair pairs ->
                     combineTransitions (fst pair) (snd pair) = Some cb ->
                     in_range (targetA cb) (targetB cb)) ->
    FInv c0 wl0 P acc ->
    FInv c0 wl0 P (fold_left (combine_visit a b mode P) pairs acc).
Proof.
  induction pairs as [|pair pairs IH]; intros acc Hrange Hacc; simpl; auto.
  apply IH.
  - intros p cb Hin. apply Hrange. right; auto.
  - apply combine_visit_FInv; auto. intros cb. apply Hrange. left; auto.
Qed.

Definition acc_transitions
           (acc : Construction * list AutomatonTransition * list WorkItem) :=
  snd (fst acc).

Lemma combine_visit_transitions P acc pair :
  (has_universal (acc_transitions acc) ->
   has_universal (acc_transitions (combine_visit a b mode P acc pair))) /\
  (forall pa srca ta pb srcb tb,
      pair = (WildcardTransition pa srca ta, WildcardTransition pb srcb tb) ->
      universal pa -> universal pb ->
      has_universal (acc_transitions (combine_visit a b mode P acc pair))).
Proof.
  destruct acc as [[c ts] wl]. unfold combine_visit, acc_transitions. split.
  - intros (p & src & tgt & Hin & Hu).
    destruct (combineTransitions (fst pair) (snd pair)) as [cb|]; simpl.
    + destruct (getOrCreateState _ _ _ _ _ _) as [i c1]. simpl.
      exists p, src, tgt. split; auto. apply in_or_app. left; auto.
    + exists p, src, tgt. auto.
  - intros pa srca ta pb srcb tb -> Hpa Hpb. cbn [fst snd].
    destruct (combineTransitions_wildcards pa srca ta pb srcb tb) as [src ->].
    cbn [targetA targetB transition].
    destruct (getOrCreateState _ _ _ _ _ _) as [i c1]. simpl.
    do 3 eexists. split; [apply in_or_app; right; left; reflexivity|].
    apply intersection_universal; auto.
Qed.

Lemma fold_transitions P pairs :
  forall acc,
    has_universal (acc_transitions acc) \/
    (exists pa srca ta pb srcb tb,
        In (WildcardTransition pa srca ta, WildcardTransition pb srcb tb) pairs /\
        universal pa /\ universal pb) ->
    has_universal (acc_transitions (fold_left (combine_visit a b mode P) pairs acc)).
Proof.
  induction pairs as [|pair pairs IH]; intros acc H; simpl.
  - destruct H as [H|(pa & srca & ta & pb & srcb & tb & [] & _)]. exact H.
  - apply IH. destruct (combine_visit_transitions P acc pair) as [Hkeep Hnew].
    destruct H as [H|(pa & srca & ta & pb & srcb & tb & [Hin|Hin] & Hpa & Hpb)].
    + left. auto.
    + left. eapply Hnew; eauto.
    + right. do 6 eexists. eauto.
Qed.

Lemma pairs_In (tsA tsB : list AutomatonTransition) x y :
  In x tsA -> In y tsB ->
  In (x, y) (flat_map (fun tA => map (fun tB => (tA, tB)) tsB) tsA).
Proof.
  intros Hx Hy. apply in_flat_map. exists x. split; auto.
  apply in_map_iff. exists y. auto.
Qed.

Lemma pairs_In_inv (tsA tsB : list AutomatonTransition) p :
  In p (flat_map (fun tA => map (fun tB => (tA, tB)) tsB) tsA) ->
  In (fst p) tsA /\ In (snd p) tsB.
Proof.
  intros H. apply in_flat_map in H. destruct H as (x & Hx & H).
  apply in_map_iff in H. destruct H as (y & <- & Hy). auto.
Qed.

Lemma transitions_or_empty_range (x : SegmentAutomaton) s t :
  well_formed x -> In t (transitions_or_empty x s) ->
  targets_below (List.length (states x)) t.
Proof.
  intros [_ Htg]. unfold transitions_or_empty, state_at.
  destruct (nth_error (states x) s) as [st|] eqn:Hnth; [|intros []].
  intros Ht. eapply Htg; eauto. eapply nth_error_In; eauto.
Qed.

Lemma transitions_or_empty_universal (x : SegmentAutomaton) s :
  complete x -> s < List.length (states x) ->
  has_universal (transitions_or_empty x s).
Proof.
  intros Hc Hlt. unfold transitions_or_empty, state_at.
  destruct (nth_error (states x) s) as [st|] eqn:Hnth.
  - apply Hc. eapply nth_error_In; eauto.
  - apply nth_error_None in Hnth. lia.
Qed.

Lemma filled_array_set sts i j st :
  has_universal (transitions st) -> i < List.length sts ->
  filled sts j -> filled (Js.array_set sts i st) j.
Proof.
  intros Hu Hi (st0 & Hnth & Hu0).
  destruct (Nat.eq_dec i j) as [->|Hne].
  - exists st. split; auto. apply array_set_nth_same; auto.
  - exists st0. split; auto. rewrite array_set_nth_other; auto.
Qed.

Lemma filled_app sts extra j : filled sts j -> filled ((sts ++ extra)%list) j.
Proof.
  intros (st & Hnth & Hu). exists st. split; auto.
  rewrite nth_error_app1; auto. apply nth_error_Some. congruence.
Qed.

Lemma product_step_inl l l' :
  PInv l -> product_step a b mode l = Ok (inl l') -> PInv l'.
Proof.
  intros [Hmap Hitems Hproc Hstates]. unfold product_step.
  destruct (worklist l) as [|item wl] eqn:Hw; [discriminate|].
  destruct (Hitems item (or_introl eq_refl)) as [[Hsa Hsb] Hkey].
  destruct (Js.array_includes (processed l) (getPairKey (sa item) (sb item))) eqn:Hinc.
  - (* already processed: skip *)
    intros H. injection H as <-. constructor; simpl; auto.
    + intros it Hin. apply Hitems. right; auto.
    + intros i Hi. destruct (Hstates i Hi) as [Hf|(it & [<-|Hin] & Hid)]; eauto.
      left. apply array_includes_In in Hinc.
      destruct (Hproc _ Hinc) as (v & Hv & Hf). rewrite Hkey in Hv.
      injection Hv as <-. subst i. exact Hf.
  - (* process the pair *)
    apply array_includes_false in Hinc.
    set (P := (processed l ++ [getPairKey (sa item) (sb item)])%list).
    set (pairs := flat_map _ _).
    destruct (fold_left (combine_visit a b mode P) pairs (construction l, [], wl))
      as [[c ts] wl'] eqn:Hfold.
    assert (HF : FInv (construction l) wl P (c, ts, wl')).
    { rewrite <- Hfold. apply fold_FInv.
      - intros pair cb Hin Hcb. apply pairs_In_inv in Hin. destruct Hin as [HA HB].
        apply combineTransitions_targets in Hcb. destruct Hcb as [HtA HtB].
        split.
        + eapply (transitions_or_empty_range a); eauto.
        + eapply (transitions_or_empty_range b); eauto.
      - split; [exact Hmap|]. split; [auto|]. split; [exists []; rewrite app_nil_r; auto|].
        split; [intros it Hin; apply Hitems; right; auto|].
        split; [intros i Hi; lia|]. split; [auto|].
        intros k Hk. apply in_app_or in Hk. destruct Hk as [Hk|[<-|[]]].
        + destruct (Hproc k Hk) as (v & -> & _). discriminate.
        + rewrite Hkey. discriminate. }
    assert (HT : has_universal ts).
    { change ts with (acc_transitions (c, ts, wl')). rewrite <- Hfold.
      apply fold_transitions. right.
      destruct (transitions_or_empty_universal a (sa item) Ha_c Hsa)
        as (pa & srca & ta & HinA & Hpa).
      destruct (transitions_or_empty_universal b (sb item) Hb_c Hsb)
        as (pb & srcb & tb & HinB & Hpb).
      exists pa, srca, ta, pb, srcb, tb. split; [|auto].
      apply pairs_In; auto. }
    destruct HF as (Hmap1 & Hext1 & [extra Hpre] & Hitems1 & Hnew1 & Hwl1 & HP1).
    assert (Hid : stateId item < List.length (productStates c)).
    { apply Hmap in Hkey. rewrite Hpre, length_app. lia. }
    destruct (nth_error (productStates c) (stateId item)) as [st|] eqn:Hnth;
      [|apply nth_error_None in Hnth; lia].
    intros H. injection H as <-.
    set (st' := mkState (id st) ts (accepting st)).
    assert (Hst' : has_universal (transitions st')) by exact HT.
    constructor; cbn [construction worklist processed pairToState productStates].
    + intros k v Hk. cbn [pairToState productStates] in *.
      rewrite array_set_length. eapply Hmap1; eauto.
    + exact Hitems1.
    + intros k Hk. apply in_app_or in Hk. destruct Hk as [Hk|[<-|[]]].
      * destruct (Hproc k Hk) as (v & Hv & Hf). exists v. split; [auto|].
        apply filled_array_set; auto. rewrite Hpre. apply filled_app. exact Hf.
      * exists (stateId item). split; [auto|].
        exists st'. split; auto. apply array_set_nth_same; auto.
    + rewrite array_set_length. intros i Hi.
      destruct (Nat.lt_ge_cases i (List.length (productStates (construction l))))
        as [Hold|Hnew].
      * destruct (Hstates i Hold) as [Hf|(it & [<-|Hin] & Hid')].
        -- left. apply filled_array_set; auto. rewrite Hpre. apply filled_app. exact Hf.
        -- left. subst i. exists st'. split; auto. apply array_set_nth_same; auto.
        -- right. exists it. split; auto.
      * right. apply Hnew1. lia.
Qed.

Lemma product_step_inr l c :
  PInv l -> product_step a b mode l = Ok (inr c) ->
  forall st, In st (productStates c) -> has_universal (transitions st).
Proof.
  intros [Hmap Hitems Hproc Hstates]. unfold product_step.
  destruct (worklist l) as [|item wl] eqn:Hw.
  - intros H. injection H as <-. intros st Hin.
    apply In_nth_error in Hin. destruct Hin as [i Hi].
    assert (Hlt : i < List.length (productStates (construction l)))
      by (apply nth_error_Some; congruence).
    destruct (Hstates i Hlt) as [(st0 & Hnth & Hu)|(it & [] & _)].
    congruence.
  - destruct (Js.array_includes _ _); [discriminate|].
    destruct (fold_left _ _ _) as [[c1 ts] wl'].
    destruct (nth_error _ _); discriminate.
Qed.

(** Every state of the product of two complete, well-formed automata
    carries a universal wildcard. *)
Lemma productConstruction_complete p :
  productConstruction a b mode = Ok p -> complete p.
Proof.
  unfold productConstruction.
  destruct (getOrCreateState a b mode (mkConstruction [] []) (initialState a)
              (initialState b)) as [i0 c0] eqn:Hgoc.
  destruct (while_loop _ _ _) as [c|e] eqn:Hloop; cbn [bind]; [|discriminate].
  intros H. injection H as <-. intros st Hin. cbn [states] in Hin.
  revert st Hin.
  refine (while_loop_inv (product_step a b mode) PInv
           (fun c => forall st, In st (productStates c) ->
                                has_universal (transitions st))
           product_step_inl product_step_inr _ _ _ _ Hloop).
  assert (Hm0 : map_below (mkConstruction [] [])) by (intros k v; discriminate).
  destruct (getOrCreateState_spec _ _ _ _ _ Hm0 Hgoc) as (Hi & Hmap & _ & Hcase).
  constructor; cbn [construction worklist processed].
  - exact Hmap.
  - intros item [<-|[]]. split; [|exact Hi].
    split; [apply Ha_wf|apply Hb_wf].
  - intros k [].
  - intros i Hlt. right. eexists. split; [left; reflexivity|]. simpl.
    destruct Hcase as [->|(_ & -> & [st Hst] & _)]; simpl in *; [lia|].
    rewrite Hst in Hlt. simpl in Hlt. lia.
Qed.


Lemma combine_visit_length P acc pair :
  List.length (productStates (fst (fst acc)))
  <= List.length (productStates (fst (fst (combine_visit a b mode P acc pair)))).
Proof.
  destruct acc as [[c ts] wl]. unfold combine_visit.
  destruct (combineTransitions (fst pair) (snd pair)) as [cb|]; [|simpl; lia].
  unfold getOrCreateState.
  destruct (Js.map_get _ _); simpl; [lia|]. rewrite length_app. lia.
Qed.

Lemma fold_length P pairs :
  forall acc,
    List.length (productStates (fst (fst acc)))
    <= List.length (productStates
                      (fst (fst (fold_left (combine_visit a b mode P) pairs acc)))).
Proof.
  induction pairs as [|pair pairs IH]; intros acc; simpl; [lia|].
  eapply Nat.le_trans; [apply combine_visit_length|apply IH].
Qed.

Lemma product_step_length l l' :
  product_step a b mode l = Ok (inl l') ->
  List.length (productStates (construction l))
  <= List.length (productStates (construction l')).
Proof.
  unfold product_step.
  destruct (worklist l) as [|item wl]; [discriminate|].
  destruct (Js.array_includes _ _).
  - intros H. injection H as <-. simpl. lia.
  - set (P := (processed l ++ _)%list). set (pairs := flat_map _ _).
    pose proof (fold_length P pairs (construction l, [], wl)) as Hlen.
    destruct (fold_left _ _ _) as [[c ts] wl'].
    destruct (nth_error _ _); [|discriminate].
    intros H. injection H as <-. cbn [construction productStates fst] in *.
    rewrite array_set_length. exact Hlen.
Qed.

(** *** The product is well formed *)

Definition WInv (acc : Construction * list AutomatonTransition * list WorkItem) : Prop :=
  let '(c, ts, _) := acc in
  map_below c /\
  states_below (List.length (productStates c)) (productStates c) /\
  (forall t, In t ts -> targets_below (List.length (productStates c)) t).

Lemma getOrCreateState_states_below c sa sb i c' :
  map_below c ->
  states_below (List.length (productStates c)) (productStates c) ->
  getOrCreateState a b mode c sa sb = (i, c') ->
  List.length (productStates c) <= List.length (productStates c') /\
  i < List.length (productStates c') /\
  states_below (List.length (productStates c')) (productStates c').
Proof.
  intros Hmap Hsts Hgoc.
  destruct (getOrCreateState_spec _ _ _ _ _ Hmap Hgoc) as (Hi & Hmap' & _ & Hcase).
  split; [|split; [eauto|]].
  - destruct Hcase as [->|(_ & _ & [acc ->] & _)]; [lia|]. rewrite length_app. lia.
  - destruct Hcase as [->|(_ & _ & [acc ->] & _)]; [exact Hsts|].
    apply states_below_app.
    + eapply states_below_mono; [|exact Hsts]. rewrite length_app. lia.
    + intros s t [<-|[]] [].
Qed.

Lemma combine_visit_WInv P acc pair : WInv acc -> WInv (combine_visit a b mode P acc pair).
Proof.
  destruct acc as [[c ts] wl]. intros (Hmap & Hsts & Hts). unfold combine_visit.
  destruct (combineTransitions (fst pair) (snd pair)) as [cb|]; [|repeat split; auto].
  destruct (getOrCreateState a b mode c (targetA cb) (targetB cb)) as [i c1] eqn:Hgoc.
  destruct (getOrCreateState_states_below _ _ _ _ _ Hmap Hsts Hgoc) as (Hle & Hi & Hsts1).
  destruct (getOrCreateState_spec _ _ _ _ _ Hmap Hgoc) as (_ & Hmap1 & _ & _).
  split; [exact Hmap1|]. split; [exact Hsts1|].
  intros t Ht. apply in_app_or in Ht. destruct Ht as [Ht|[<-|[]]].
  - eapply targets_below_mono; [exact Hle|]. auto.
  - destruct (transition cb); intros x [<-|[]]; exact Hi.
Qed.

Lemma fold_WInv P pairs :
  forall acc, WInv acc -> WInv (fold_left (combine_visit a b mode P) pairs acc).
Proof.
  induction pairs as [|pair pairs IH]; intros acc Hacc; simpl; auto.
  apply IH. apply combine_visit_WInv. exact Hacc.
Qed.

Definition WL (c : Construction) : Prop :=
  map_below c /\ states_below (List.length (productStates c)) (productStates c).

Lemma product_step_WL_inl l l' :
  WL (construction l) -> product_step a b mode l = Ok (inl l') -> WL (construction l').
Proof.
  intros [Hmap Hsts]. unfold product_step.
  destruct (worklist l) as [|item wl]; [discriminate|].
  destruct (Js.array_includes _ _).
  - intros H. injection H as <-. split; assumption.
  - set (P := (processed l ++ _)%list). set (pairs := flat_map _ _).
    assert (HW : WInv (fold_left (combine_visit a b mode P) pairs (construction l, [], wl))).
    { apply fold_WInv. split; [exact Hmap|]. split; [exact Hsts|]. intros t []. }
    destruct (fold_left _ _ _) as [[c ts] wl'].
    destruct HW as (Hmap1 & Hsts1 & Hts).
    destruct (nth_error (productStates c) (stateId item)) as [st|]; [|discriminate].
    intros H. injection H as <-. cbn [construction]. split.
    + intros k v Hk. cbn [pairToState productStates] in *.
      rewrite array_set_length. eapply Hmap1; eauto.
    + cbn [productStates]. rewrite array_set_length.
      intros s t Hs Ht. apply array_set_In in Hs. destruct Hs as [->|Hs].
      * apply Hts. exact Ht.
      * eapply Hsts1; eauto.
Qed.

Lemma product_step_WL_inr l c :
  WL (construction l) -> product_step a b mode l = Ok (inr c) -> WL c.
Proof.
  intros HW. unfold product_step.
  destruct (worklist l) as [|item wl].
  - intros H. injection H as <-. exact HW.
  - destruct (Js.array_includes _ _); [discriminate|].
    destruct (fold_left _ _ _) as [[c1 ts] wl'].
    destruct (nth_error _ _); discriminate.
Qed.

Lemma productConstruction_well_formed p :
  productConstruction a b mode = Ok p -> well_formed p.
Proof.
  unfold productConstruction.
  destruct (getOrCreateState a b mode (mkConstruction [] []) (initialState a)
              (initialState b)) as [i0 c0] eqn:Hgoc.
  destruct (while_loop _ _ _) as [c|e] eqn:Hloop; cbn [bind]; [|discriminate].
  intros H. injection H as <-.
  assert (Hm0 : map_below (mkConstruction [] [])) by (intros k v; discriminate).
  assert (Hs0 : states_below (List.length (productStates (mkConstruction [] [])))
                             (productStates (mkConstruction [] [])))
    by (intros s t []).
  destruct (getOrCreateState_states_below _ _ _ _ _ Hm0 Hs0 Hgoc) as (_ & Hi0 & Hsts0).
  destruct (getOrCreateState_spec _ _ _ _ _ Hm0 Hgoc) as (_ & Hmap0 & _ & _).
  assert (Hpost : WL c /\ List.length (productStates c0) <= List.length (productStates c)).
  { refine (while_loop_inv (product_step a b mode)
              (fun l => WL (construction l) /\
                        List.length (productStates c0)
                        <= List.length (productStates (construction l)))
              (fun c => WL c /\ List.length (productStates c0)
                                <= List.length (productStates c))
              _ _ _ _ _ _ Hloop).
    - intros l l' [HW Hlen] Hstep. split; [eapply product_step_WL_inl; eauto|].
      eapply Nat.le_trans; [exact Hlen|]. eapply product_step_length; eauto.
    - intros l r [HW Hlen] Hstep. split; [eapply product_step_WL_inr; eauto|].
      unfold product_step in Hstep. destruct (worklist l).
      + injection Hstep as <-. exact Hlen.
      + destruct (Js.array_includes _ _); [discriminate|].
        destruct (fold_left _ _ _) as [[c1 ts] wl'].
        destruct (nth_error _ _); discriminate.
    - split; [split; assumption|]. cbn [construction]. lia. }
  destruct Hpost as [[Hmap Hsts] Hlen].
  split; cbn [states initialState]; [lia|exact Hsts].
Qed.

End Product.

End ProductInv.

Lemma produced_invariant a :
  produced a -> isDeterministic a = true /\ well_formed a /\ complete a.
Proof.
  induction 1 as [nfa options dfa Hwf Hdet|a b p Ha [Hfa [Hwa Hca]] Hb [Hfb [Hwb Hcb]] Hp].
  - destruct (determinize_complete _ _ _ Hdet) as [Hc Hf].
    split; [exact Hf|]. split; [|exact Hc].
    eapply determinize_well_formed; eauto.
  - unfold Intersect.intersect in Hp. split; [|split].
    + unfold Intersect.productConstruction in Hp.
      destruct (Intersect.getOrCreateState _ _ _ _ _ _) as [i0 c0].
      destruct (while_loop _ _ _) as [c|e]; cbn [bind] in Hp; [|discriminate].
      injection Hp as <-. cbn [isDeterministic]. rewrite Hfa, Hfb. reflexivity.
    + exact (ProductInv.productConstruction_well_formed _ _ _ _ Hp).
    + exact (ProductInv.productConstruction_complete _ _ _ Hwa Hwb Hca Hcb _ Hp).
Qed.

(* ===================================================================== *)
(** ** Total correctness of [while_loop]                                  *)
(* ===================================================================== *)

(** A loop whose body keeps an invariant, decreases a measure and raises
    nothing returns, within any budget above the measure, a result that
    satisfies the postcondition. *)
Lemma while_loop_total {S R : Type} (step : S -> result (S + R))
      (Inv : S -> Prop) (mu : S -> nat) (Post : R -> Prop) :
  (forall s, Inv s ->
             match step s with
             | Ok (inl s') => Inv s' /\ mu s' < mu s
             | Ok (inr r) => Post r
             | Err _ => False
             end) ->
  forall fuel s, Inv s -> mu s < fuel ->
                 exists r, while_loop fuel step s = Ok r /\ Post r.
Proof.
  intros Hstep fuel.
  induction fuel as [|fuel IH]; intros s Hs Hmu; [lia|]. simpl.
  specialize (Hstep s Hs).
  destruct (step s) as [[s'|r]|e]; simpl.
  - destruct Hstep as [Hs' Hlt]. apply IH; auto. lia.
  - exists r. auto.
  - destruct Hstep.
Qed.

(* ===================================================================== *)
(** ** Work still to be done by a graph traversal                         *)
(* ===================================================================== *)

Lemma set_has_add C x y :
  Js.set_has (Js.set_add C x) y = Js.set_has C y || Nat.eqb y x.
Proof.
  destruct (Js.set_has (Js.set_add C x) y) eqn:H.
  - apply set_has_In, set_add_In in H. symmetry. apply orb_true_iff.
    destruct H as [->|H]; [right; apply Nat.eqb_refl|left; apply set_has_In; auto].
  - apply set_has_false in H. symmetry. apply orb_false_iff. split.
    + apply set_has_false. intros Hin. apply H, set_add_In. auto.
    + apply Nat.eqb_neq. intros ->. apply H, set_add_In. auto.
Qed.

Section Pending.

(** [w s] bounds what expanding the state [s] pushes. *)
Variable w : AutomatonState -> nat.

(** Sum of [w] over the states, numbered from [i], that are not in [C] *)
Fixpoint pending (C : list nat) (i : nat) (sts : list AutomatonState) : nat :=
  match sts with
  | [] => 0
  | s :: r => (if Js.set_has C i then 0 else w s) + pending C (S i) r
  end.

Definition weight (sts : list AutomatonState) : nat :=
  fold_right (fun s n => w s + n) 0 sts.

Lemma pending_le C i sts : pending C i sts <= weight sts.
Proof.
  revert i. induction sts as [|s r IH]; intros i; simpl; auto.
  specialize (IH (S i)). destruct (Js.set_has C i); lia.
Qed.

Lemma pending_add_le C x i sts : pending (Js.set_add C x) i sts <= pending C i sts.
Proof.
  revert i. induction sts as [|s r IH]; intros i; simpl; auto.
  specialize (IH (S i)). rewrite set_has_add.
  destruct (Js.set_has C i); simpl; [lia|]. destruct (Nat.eqb i x); lia.
Qed.

Lemma pending_add C x i sts s :
  Js.set_has C x = false -> i <= x -> nth_error sts (x - i) = Some s ->
  pending (Js.set_add C x) i sts + w s <= pending C i sts.
Proof.
  intros Hx. revert i. induction sts as [|s0 r IH]; intros i Hle Hnth.
  - destruct (x - i); discriminate.
  - simpl. rewrite set_has_add.
    destruct (Nat.eq_dec i x) as [->|Hne].
    + rewrite Nat.sub_diag in Hnth. simpl in Hnth. injection Hnth as ->.
      rewrite Hx, Nat.eqb_refl. simpl.
      pose proof (pending_add_le C x (S x) r). lia.
    + assert (Hsub : x - i = S (x - S i)) by lia.
      rewrite Hsub in Hnth. simpl in Hnth.
      specialize (IH (S i) ltac:(lia) Hnth).
      destruct (Js.set_has C i); simpl; [lia|]. destruct (Nat.eqb i x); lia.
Qed.

End Pending.

Lemma weight_transitions a :
  weight (fun s => List.length (transitions s)) (states a) = Matcher.count_transitions a.
Proof. reflexivity. Qed.

Lemma weight_scaled k sts :
  weight (fun s => List.length (transitions s) * k) sts
  = weight (fun s => List.length (transitions s)) sts * k.
Proof. induction sts as [|s r IH]; simpl; auto. rewrite IH. lia. Qed.

Lemma weight_le w w' sts :
  (forall s, w s <= w' s) -> weight w sts <= weight w' sts.
Proof.
  intros H. induction sts as [|s r IH]; simpl; auto. specialize (H s). lia.
Qed.

Lemma targets_length ts :
  List.length (flat_map Emptiness.getTransitionTargets ts) <= List.length ts * 2.
Proof.
  induction ts as [|t ts IH]; simpl; auto. rewrite length_app.
  destruct t; simpl; lia.
Qed.

(* ===================================================================== *)
(** ** The graph of an automaton                                          *)
(* ===================================================================== *)

Section Graph.

Variable a : SegmentAutomaton.

Lemma eps_targets_of_targets ts j :
  In j (eps_targets_of ts) -> In j (flat_map Emptiness.getTransitionTargets ts).
Proof.
  unfold eps_targets_of. rewrite !in_flat_map.
  intros (t & Ht & Hj). exists t. split; auto.
  destruct t; simpl in *; tauto.
Qed.

Lemma eps_edge_edge i j : eps_edge a i j -> edge a i j.
Proof.
  intros (s & Hs & Hj). exists s. split; auto. apply eps_targets_of_targets; auto.
Qed.

Lemma eps_reach_closed P i j : closed a P -> P i -> eps_reach a i j -> P j.
Proof.
  intros Hc Hi H. induction H as [|j k _ IH Hjk]; auto.
  eapply Hc; eauto. apply eps_edge_edge; auto.
Qed.

Lemma eps_reach_trans i j k : eps_reach a i j -> eps_reach a j k -> eps_reach a i k.
Proof.
  intros Hij Hjk. induction Hjk as [|k l _ IH Hkl]; auto.
  eapply eps_reach_step; eauto.
Qed.

Lemma eps_edge_targets i j : eps_edge a i j -> In j (eps_targets a).
Proof.
  intros (s & Hs & Hj). eapply eps_targets_In; eauto.
Qed.

End Graph.

(* ===================================================================== *)
(** ** [emptiness.ts]: the three traversals return                        *)
(* ===================================================================== *)

Module EmptinessSpec.

Import Emptiness.

Section Traversals.

Variable a : SegmentAutomaton.

Lemma eps_reach_cases i k : eps_reach a i k -> k = i \/ In k (eps_targets a).
Proof.
  intros H. destruct H as [|j k _ Hjk]; auto.
  right. eapply eps_edge_targets; eauto.
Qed.

(** *** [epsilonClosure] *)

Lemma closure_fold C ts :
  forall W,
    let W' :=
      fold_left
        (fun worklist transition =>
           match transition with
           | EpsilonTransition target =>
               if negb (Js.set_has C target) then target :: worklist else worklist
           | GlobstarTransition _ exit =>
               if negb (Js.set_has C exit) then exit :: worklist else worklist
           | _ => worklist
           end) ts W in
    List.length W' <= List.length W + List.length ts /\
    (forall x, In x W' -> In x W \/ In x (eps_targets_of ts)).
Proof.
  induction ts as [|t ts IH]; intros W; cbn zeta.
  - simpl. split; [lia|auto].
  - cbn [fold_left].
    match goal with |- context [fold_left ?f ts ?W1] => specialize (IH W1) end.
    cbn zeta in IH. destruct IH as [Hlen Hin]. split.
    + eapply Nat.le_trans; [exact Hlen|].
      destruct t as [seg tg|p src tg|sl ex|tg]; simpl; try lia;
        match goal with |- context [negb ?b] => destruct b end; simpl; lia.
    + intros x Hx. specialize (Hin x Hx).
      unfold eps_targets_of. cbn [flat_map]. rewrite in_app_iff.
      destruct Hin as [Hin|Hin]; [|right; right; exact Hin].
      destruct t as [seg tg|p src tg|sl ex|tg]; auto;
        match type of Hin with context [negb ?b] => destruct b end;
        simpl in Hin; auto; destruct Hin as [<-|Hin]; auto; right; left; simpl; auto.
Qed.

Lemma epsilonClosure_spec start :
  exists C, epsilonClosure a start = Ok C /\
            NoDup C /\
            (forall c, In c C -> eps_reach a start c) /\
            List.length C <= S (Matcher.count_transitions a).
Proof.
  unfold epsilonClosure.
  destruct (while_loop_total (closure_step a)
              (fun st => NoDup (fst st) /\
                         (forall c, In c (fst st) -> eps_reach a start c) /\
                         (forall c, In c (snd st) -> eps_reach a start c))
              (fun st => List.length (snd st)
                         + pending (fun s => List.length (transitions s))
                                   (fst st) 0 (states a))
              (fun C => NoDup C /\ forall c, In c C -> eps_reach a start c))
    with (fuel := 2 + Matcher.count_transitions a) (s := (@nil nat, [start]))
    as (C & Hrun & Hnd & Hreach).
  - intros [C W] (Hnd & HC & HW). cbn [fst snd] in *. unfold closure_step.
    destruct W as [|x W]; [split; assumption|].
    destruct (Js.set_has C x) eqn:Hx.
    + split; [|simpl; lia]. cbn [fst snd]. split; [exact Hnd|]. split; [exact HC|].
      intros c Hc. apply HW. right; exact Hc.
    + assert (HC' : forall c, In c (Js.set_add C x) -> eps_reach a start c).
      { intros c Hc. apply set_add_In in Hc. destruct Hc as [->|Hc]; auto.
        apply HW. left; reflexivity. }
      destruct (state_at a x) as [s|] eqn:Hs.
      * destruct (closure_fold (Js.set_add C x) (transitions s) W) as [Hlen Hin].
        cbn zeta in Hlen, Hin. cbn [fst snd]. split.
        -- split; [apply set_add_NoDup; exact Hnd|]. split; [exact HC'|].
           intros c Hc. destruct (Hin c Hc) as [Hc'|Hc'].
           ++ apply HW. right; exact Hc'.
           ++ eapply eps_reach_step; [apply HW; left; reflexivity|].
              exists s. split; assumption.
        -- pose proof (pending_add (fun s => List.length (transitions s))
                         C x 0 (states a) s Hx (Nat.le_0_l x)) as Hp.
           rewrite Nat.sub_0_r in Hp. specialize (Hp Hs). simpl. lia.
      * cbn [fst snd]. split.
        -- split; [apply set_add_NoDup; exact Hnd|]. split; [exact HC'|].
           intros c Hc. apply HW. right; exact Hc.
        -- pose proof (pending_add_le (fun s => List.length (transitions s))
                         C x 0 (states a)). simpl. lia.
  - cbn [fst snd]. split; [constructor|]. split; [intros c []|].
    intros c [<-|[]]. constructor.
  - cbn [fst snd].
    pose proof (pending_le (fun s => List.length (transitions s)) [] 0 (states a)) as Hp.
    rewrite weight_transitions in Hp. simpl. lia.
  - exists C. split; [exact Hrun|]. split; [exact Hnd|]. split; [exact Hreach|].
    assert (Hincl : incl C (start :: eps_targets a)).
    { intros c Hc. destruct (eps_reach_cases _ _ (Hreach c Hc)) as [->|Hin];
        [left; reflexivity|right; exact Hin]. }
    pose proof (NoDup_incl_length Hnd Hincl) as Hlen.
    pose proof (eps_targets_length a). simpl in Hlen. lia.
Qed.

(** *** [findReachableStates] *)

Lemma reachable_fold R xs :
  forall W,
    let W' :=
      fold_left (fun worklist target =>
                   if negb (Js.set_has R target) then target :: worklist else worklist)
                xs W in
    List.length W' <= List.length W + List.length xs /\
    (forall x, In x W -> In x W') /\
    (forall x, In x xs -> In x R \/ In x W').
Proof.
  induction xs as [|y xs IH]; intros W; cbn zeta.
  - simpl. split; [lia|]. split; [auto|intros x []].
  - cbn [fold_left].
    match goal with |- context [fold_left ?f xs ?W1] => specialize (IH W1) end.
    cbn zeta in IH. destruct IH as (Hlen & Hkeep & Hnew).
    split; [|split].
    + eapply Nat.le_trans; [exact Hlen|].
      destruct (Js.set_has R y); simpl; lia.
    + intros x Hx. apply Hkeep. destruct (Js.set_has R y); simpl; auto.
    + intros x [->|Hx]; [|auto].
      destruct (Js.set_has R x) eqn:Hy.
      * left. apply set_has_In. exact Hy.
      * right. apply Hkeep. simpl. auto.
Qed.

Lemma findReachableStates_spec :
  exists R, findReachableStates a = Ok R /\
            In (initialState a) R /\
            closed a (fun i => In i R).
Proof.
  unfold findReachableStates.
  set (w2 := fun s => List.length (flat_map getTransitionTargets (transitions s))).
  destruct (while_loop_total (reachable_step a)
              (fun st => (In (initialState a) (fst st) \/ In (initialState a) (snd st)) /\
                         (forall i j, In i (fst st) -> edge a i j ->
                                      In j (fst st) \/ In j (snd st)))
              (fun st => List.length (snd st) + pending w2 (fst st) 0 (states a))
              (fun R => In (initialState a) R /\ closed a (fun i => In i R)))
    with (fuel := 2 + 2 * Matcher.count_transitions a)
         (s := (@nil nat, [initialState a]))
    as (R & Hrun & HR).
  - intros [R W] (Hinit & Hedges). cbn [fst snd] in *. unfold reachable_step.
    destruct W as [|x W].
    + destruct Hinit as [Hinit|[]]. split; [exact Hinit|].
      intros i j Hi Hij. destruct (Hedges i j Hi Hij) as [Hj|[]]. exact Hj.
    + destruct (Js.set_has R x) eqn:Hx.
      * apply set_has_In in Hx. cbn [fst snd]. split; [|simpl; lia]. split.
        -- destruct Hinit as [Hinit|[<-|Hinit]]; auto.
        -- intros i j Hi Hij. destruct (Hedges i j Hi Hij) as [Hj|[<-|Hj]]; auto.
      * destruct (state_at a x) as [s|] eqn:Hs.
        -- destruct (reachable_fold (Js.set_add R x)
                       (flat_map getTransitionTargets (transitions s)) W)
             as (Hlen & Hkeep & Hnew).
           cbn zeta in Hlen, Hkeep, Hnew. cbn [fst snd]. split.
           ++ split.
              ** destruct Hinit as [Hinit|[<-|Hinit]].
                 --- left. apply set_add_In. auto.
                 --- left. apply set_add_In. auto.
                 --- right. apply Hkeep. exact Hinit.
              ** intros i j Hi Hij. apply set_add_In in Hi. destruct Hi as [->|Hi].
                 --- destruct Hij as (s' & Hs' & Hj). rewrite Hs in Hs'.
                     injection Hs' as <-. apply Hnew. exact Hj.
                 --- destruct (Hedges i j Hi Hij) as [Hj|[<-|Hj]].
                     +++ left. apply set_add_In. auto.
                     +++ left. apply set_add_In. auto.
                     +++ right. apply Hkeep. exact Hj.
           ++ pose proof (pending_add w2 R x 0 (states a) s Hx (Nat.le_0_l x)) as Hp.
              rewrite Nat.sub_0_r in Hp. specialize (Hp Hs).
              unfold w2 in Hp at 2. simpl. lia.
        -- cbn [fst snd]. split.
           ++ split.
              ** destruct Hinit as [Hinit|[<-|Hinit]].
                 --- left. apply set_add_In. auto.
                 --- left. apply set_add_In. auto.
                 --- right. exact Hinit.
              ** intros i j Hi Hij. apply set_add_In in Hi. destruct Hi as [->|Hi].
                 --- destruct Hij as (s' & Hs' & _). congruence.
                 --- destruct (Hedges i j Hi Hij) as [Hj|[<-|Hj]].
                     +++ left. apply set_add_In. auto.
                     +++ left. apply set_add_In. auto.
                     +++ right. exact Hj.
           ++ pose proof (pending_add_le w2 R x 0 (states a)). simpl. lia.
  - cbn [fst snd]. split; [right; left; reflexivity|]. intros i j [].
  - cbn [fst snd].
    pose proof (pending_le w2 [] 0 (states a)) as Hp.
    assert (Hw : weight w2 (states a) <= Matcher.count_transitions a * 2).
    { rewrite <- weight_transitions, <- weight_scaled.
      apply weight_le. intros s. apply targets_length. }
    simpl. lia.
  - exists R. split; [exact Hrun|exact HR].
Qed.

End Traversals.

End EmptinessSpec.

Module WitnessSearch.

Import Emptiness.

Section Bfs.

Variable a : SegmentAutomaton.

(** What the search knows about a queue entry: [J i p] relates a state
    to the path recorded with it. *)
Variable J : nat -> list string -> Prop.

Hypothesis J_eps : forall i j p, J i p -> eps_edge a i j -> J j p.
Hypothesis J_literal :
  forall i s segment target p,
    J i p -> state_at a i = Some s ->
    In (LiteralTransition segment target) (transitions s) ->
    J target (p ++ [segment])%list.
Hypothesis J_wildcard :
  forall i s pattern patternSource target p,
    J i p -> state_at a i = Some s ->
    In (WildcardTransition pattern patternSource target) (transitions s) ->
    J target (p ++ [generateMatchingSample pattern patternSource])%list.
Hypothesis J_globstar :
  forall i s selfLoop exit p,
    J i p -> state_at a i = Some s ->
    In (GlobstarTransition selfLoop exit) (transitions s) ->
    J selfLoop (p ++ ["x"])%list.

Definition entries_ok (queue : list SearchState) : Prop :=
  forall e, In e queue -> J (search_stateId e) (path e).

Lemma J_eps_reach i j p : J i p -> eps_reach a i j -> J j p.
Proof.
  intros Hi H. induction H as [|j k _ IH Hjk]; auto. eapply J_eps; eauto.
Qed.

Lemma entries_ok_snoc queue e :
  entries_ok queue -> J (search_stateId e) (path e) -> entries_ok (queue ++ [e]).
Proof.
  intros Hq He e' Hin. apply in_app_or in Hin. destruct Hin as [Hin|[<-|[]]]; auto.
Qed.

Lemma exit_fold visited p exitClosure :
  forall queue,
    entries_ok queue -> (forall c, In c exitClosure -> J c p) ->
    let queue' :=
      fold_left (fun queue exitState =>
                   if negb (Js.set_has visited exitState)
                   then (queue ++ [mkSearch exitState p])%list else queue)
                exitClosure queue in
    entries_ok queue' /\
    List.length queue' <= List.length queue + List.length exitClosure.
Proof.
  induction exitClosure as [|c cs IH]; intros queue Hq Hc; cbn zeta.
  - simpl. split; [exact Hq|lia].
  - cbn [fold_left].
    match goal with |- context [fold_left ?f cs ?Q1] =>
      assert (HQ1 : entries_ok Q1 /\ List.length Q1 <= S (List.length queue)) end.
    { destruct (Js.set_has visited c); simpl.
      - split; [exact Hq|lia].
      - split; [|rewrite length_app; simpl; lia].
        apply entries_ok_snoc; auto. apply Hc. left; reflexivity. }
    destruct HQ1 as [HQ1 Hlen1].
    match goal with |- context [fold_left ?f cs ?Q1] =>
      specialize (IH Q1 HQ1 (fun c' Hc' => Hc c' (or_intror Hc'))) end.
    cbn zeta in IH. destruct IH as [Hok Hlen]. split; [exact Hok|]. simpl. lia.
Qed.

(** One transition pushes entries that satisfy [J], at most
    [count_transitions + 2] of them, and raises nothing. *)
Lemma explore_spec visited i s p queue t :
  J i p -> state_at a i = Some s -> In t (transitions s) -> entries_ok queue ->
  exists queue',
    explore a visited p queue t = Ok queue' /\
    entries_ok queue' /\
    List.length queue' <= List.length queue + (Matcher.count_transitions a + 2).
Proof.
  intros Hi Hs Ht Hq. destruct t as [seg tg|pat src tg|sl ex|tg]; cbn [explore].
  - eexists. split; [reflexivity|].
    destruct (Js.set_has visited tg); simpl.
    + split; [exact Hq|lia].
    + split; [|rewrite length_app; simpl; lia].
      apply entries_ok_snoc; auto. exact (J_literal _ _ _ _ _ Hi Hs Ht).
  - eexists. split; [reflexivity|].
    destruct (Js.set_has visited tg); simpl.
    + split; [exact Hq|lia].
    + split; [|rewrite length_app; simpl; lia].
      apply entries_ok_snoc; auto. exact (J_wildcard _ _ _ _ _ _ Hi Hs Ht).
  - destruct (EmptinessSpec.epsilonClosure_spec a ex) as (C & -> & _ & Hreach & Hlen).
    cbn [bind].
    assert (Hex : J ex p).
    { eapply J_eps; [exact Hi|]. exists s. split; [exact Hs|].
      unfold eps_targets_of. apply in_flat_map.
      exists (GlobstarTransition sl ex). split; [exact Ht|left; reflexivity]. }
    destruct (exit_fold visited p C queue Hq
                (fun c Hc => J_eps_reach _ _ _ Hex (Hreach c Hc))) as [Hok Hlen'].
    cbn zeta in Hok, Hlen'.
    eexists. split; [reflexivity|].
    destruct (Js.set_has visited sl); simpl.
    + split; [exact Hok|lia].
    + split; [|rewrite length_app; simpl; lia].
      apply entries_ok_snoc; auto. exact (J_globstar _ _ _ _ _ Hi Hs Ht).
  - eexists. split; [reflexivity|].
    destruct (Js.set_has visited tg); simpl.
    + split; [exact Hq|lia].
    + split; [|rewrite length_app; simpl; lia].
      apply entries_ok_snoc; auto. simpl.
      eapply J_eps; [exact Hi|]. exists s. split; [exact Hs|].
      unfold eps_targets_of. apply in_flat_map.
      exists (EpsilonTransition tg). split; [exact Ht|left; reflexivity].
Qed.

Lemma explore_all visited i s p ts :
  J i p -> state_at a i = Some s ->
  forall queue,
    (forall t, In t ts -> In t (transitions s)) -> entries_ok queue ->
    exists queue',
      foldM (explore a visited p) ts queue = Ok queue' /\
      entries_ok queue' /\
      List.length queue'
      <= List.length queue + List.length ts * (Matcher.count_transitions a + 2).
Proof.
  intros Hi Hs. induction ts as [|t ts IH]; intros queue Hts Hq.
  - exists queue. split; [reflexivity|]. split; [exact Hq|simpl; lia].
  - cbn [foldM].
    destruct (explore_spec visited i s p queue t Hi Hs (Hts t (or_introl eq_refl)) Hq)
      as (q1 & -> & Hq1 & Hlen1).
    cbn [bind].
    destruct (IH q1 (fun t' Ht' => Hts t' (or_intror Ht')) Hq1) as (q2 & -> & Hq2 & Hlen2).
    exists q2. split; [reflexivity|]. split; [exact Hq2|]. simpl. lia.
Qed.

(** What a returned witness tells: the path came with an accepting state. *)
Definition found (w : string) : Prop :=
  (w = "/" /\ exists c s, J c [] /\ state_at a c = Some s /\ accepting s = true) \/
  (exists i p s, J i p /\ p <> [] /\ state_at a i = Some s /\ accepting s = true /\
                 w = "/" ++ Js.join "/" p).

Lemma existsb_accepting C :
  existsb (fun stateId => match state_at a stateId with
                          | Some state => accepting state
                          | None => false
                          end) C = true ->
  exists c s, In c C /\ state_at a c = Some s /\ accepting s = true.
Proof.
  intros H. apply existsb_exists in H. destruct H as (c & Hc & Hacc).
  destruct (state_at a c) as [s|] eqn:Hs; [|discriminate].
  exists c, s. auto.
Qed.

(** [findWitness] returns, and a returned path was recorded with an
    accepting state. *)
Theorem findWitness_spec :
  J (initialState a) [] ->
  exists r, findWitness a = Ok r /\
            match r with Some w => found w | None => True end.
Proof.
  intros Hinit. unfold findWitness.
  destruct (EmptinessSpec.epsilonClosure_spec a (initialState a))
    as (C & -> & _ & Hreach & Hlen).
  cbn [bind].
  destruct (existsb _ C) eqn:Hacc.
  - exists (Some "/"). split; [reflexivity|]. left. split; [reflexivity|].
    apply existsb_accepting in Hacc. destruct Hacc as (c & s & Hc & Hs & Ha).
    exists c, s. split; [|auto]. eapply J_eps_reach; eauto.
  - set (wB := fun s : AutomatonState =>
                 List.length (transitions s) * (Matcher.count_transitions a + 2)).
    apply (while_loop_total (witness_step a)
             (fun st => entries_ok (snd st))
             (fun st => List.length (snd st) + pending wB (fst st) 0 (states a))
             (fun r => match r with Some w => found w | None => True end)).
    + intros [V Q] HQ. cbn [fst snd] in *. unfold witness_step.
      destruct Q as [|[i p] Q]; [exact I|].
      assert (HQ' : entries_ok Q) by (intros e He; apply HQ; right; exact He).
      assert (Hip : J i p) by (apply (HQ (mkSearch i p)); left; reflexivity).
      destruct (Js.set_has V i) eqn:Hv.
      * cbn [fst snd]. split; [exact HQ'|simpl; lia].
      * destruct (state_at a i) as [s|] eqn:Hs.
        -- destruct (accepting s && Nat.ltb 0 (List.length p)) eqn:Hret.
           ++ right. apply andb_true_iff in Hret. destruct Hret as [Ha Hp].
              exists i, p, s. split; [exact Hip|]. split; [|auto].
              intros ->. discriminate.
           ++ destruct (explore_all (Js.set_add V i) i s p (transitions s) Hip Hs Q
                          (fun t Ht => Ht) HQ') as (Q' & -> & HQ1 & Hlen1).
              cbn [bind fst snd]. split; [exact HQ1|].
              pose proof (pending_add wB V i 0 (states a) s Hv (Nat.le_0_l i)) as Hp.
              rewrite Nat.sub_0_r in Hp. specialize (Hp Hs).
              unfold wB in Hp at 2. simpl. lia.
        -- cbn [fst snd]. split; [exact HQ'|].
           pose proof (pending_add_le wB V i 0 (states a)). simpl. lia.
    + cbn [snd]. intros e [<-|He]; [exact Hinit|].
      apply in_map_iff in He. destruct He as (c & <- & Hc).
      apply filter_In in Hc. destruct Hc as [Hc _]. simpl.
      eapply J_eps_reach; eauto.
    + cbn [fst snd].
      pose proof (pending_le wB [] 0 (states a)) as Hp.
      assert (Hw : weight wB (states a)
                   = Matcher.count_transitions a * (Matcher.count_transitions a + 2)).
      { unfold wB. rewrite weight_scaled, weight_transitions. reflexivity. }
      rewrite Hw in Hp.
      assert (Hq : List.length
                     (map (fun stateId => mkSearch stateId [])
                          (filter (fun stateId =>
                                     negb (Nat.eqb stateId (initialState a))) C))
                   <= S (Matcher.count_transitions a)).
      { rewrite length_map. eapply Nat.le_trans; [apply filter_length_le|exact Hlen]. }
      unfold witness_fuel. cbn [List.length]. cbn zeta. nia.
Qed.

End Bfs.

End WitnessSearch.

(* ===================================================================== *)
(** ** [isEmpty] and [findWitness]                                        *)
(* ===================================================================== *)

Lemma transition_edge a i s t j :
  state_at a i = Some s -> In t (transitions s) ->
  In j (Emptiness.getTransitionTargets t) -> edge a i j.
Proof.
  intros Hs Ht Hj. exists s. split; [exact Hs|].
  apply in_flat_map. exists t. auto.
Qed.

Lemma isEmpty_total a : exists b, Emptiness.isEmpty a = Ok b.
Proof.
  unfold Emptiness.isEmpty.
  destruct (EmptinessSpec.findReachableStates_spec a) as (R & -> & _).
  eexists. reflexivity.
Qed.

Lemma findWitness_total a : exists r, Emptiness.findWitness a = Ok r.
Proof.
  destruct (WitnessSearch.findWitness_spec a (fun _ _ => True)) as (r & Hr & _); auto.
  exists r. exact Hr.
Qed.

Lemma isEmpty_findWitness a :
  accepting_listed a -> Emptiness.isEmpty a = Ok true ->
  Emptiness.findWitness a = Ok None.
Proof.
  intros Hlisted. unfold Emptiness.isEmpty.
  destruct (EmptinessSpec.findReachableStates_spec a) as (R & -> & Hinit & Hclosed).
  cbn [bind]. intros Hempty. injection Hempty as Hempty.
  apply negb_true_iff in Hempty.
  assert (Hnone : forall c s, In c R -> state_at a c = Some s -> accepting s = false).
  { intros c s Hc Hs. destruct (accepting s) eqn:Hacc; [|reflexivity].
    assert (Hex : existsb (fun acceptingId => Js.set_has R acceptingId)
                          (acceptingStates a) = true).
    { apply existsb_exists. exists c. split; [eapply Hlisted; eauto|].
      apply set_has_In. exact Hc. }
    congruence. }
  destruct (WitnessSearch.findWitness_spec a (fun i _ => In i R)) as (r & Hr & Hfound).
  - intros i j p Hi Hij. eapply Hclosed; [exact Hi|]. apply eps_edge_edge. exact Hij.
  - intros i s seg tg p Hi Hs Ht. eapply Hclosed; [exact Hi|].
    eapply transition_edge; eauto. left; reflexivity.
  - intros i s pat src tg p Hi Hs Ht. eapply Hclosed; [exact Hi|].
    eapply transition_edge; eauto. left; reflexivity.
  - intros i s sl ex p Hi Hs Ht. eapply Hclosed; [exact Hi|].
    eapply transition_edge; eauto. left; reflexivity.
  - exact Hinit.
  - rewrite Hr. destruct r as [w|]; [|reflexivity]. exfalso.
    destruct Hfound as [(_ & c & s & Hc & Hs & Hacc)|(c & p & s & Hc & _ & Hs & Hacc & _)];
      rewrite (Hnone c s Hc Hs) in Hacc; discriminate.
Qed.

(* ===================================================================== *)
(** ** Runs of a non-deterministic automaton                              *)
(* ===================================================================== *)

Lemma well_formedb_ok a : well_formedb a = true -> well_formed a.
Proof.
  unfold well_formedb. rewrite andb_true_iff, forallb_forall.
  intros [Hinit Hall]. split; [apply Nat.ltb_lt; exact Hinit|].
  intros s t Hs Ht x Hx. specialize (Hall s Hs).
  rewrite forallb_forall in Hall. specialize (Hall t Ht).
  rewrite forallb_forall in Hall. apply Nat.ltb_lt. apply Hall. exact Hx.
Qed.

Module Simulation.

Import Matcher.

Lemma visit_one C W t C' W' :
  closure_visit (C, W) t = (C', W') ->
  (forall c, In c C -> In c C') /\
  (forall x, In x W -> In x W') /\
  (forall c, In c C' -> In c C \/ (In c W' /\ In c (eps_targets_of [t]))) /\
  (forall x, In x W' -> In x W \/ In x C') /\
  (forall j, In j (eps_targets_of [t]) -> In j C').
Proof.
  assert (Hpush : forall x,
             In x (eps_targets_of [t]) ->
             (forall j, In j (eps_targets_of [t]) -> j = x) ->
             (if negb (Js.set_has C x) then (Js.set_add C x, x :: W) else (C, W))
             = (C', W') ->
             (forall c, In c C -> In c C') /\
             (forall x, In x W -> In x W') /\
             (forall c, In c C' -> In c C \/ (In c W' /\ In c (eps_targets_of [t]))) /\
             (forall x, In x W' -> In x W \/ In x C') /\
             (forall j, In j (eps_targets_of [t]) -> In j C')).
  { intros x Hx Honly. destruct (Js.set_has C x) eqn:Hhas; simpl;
      intros H; injection H as <- <-.
    - apply set_has_In in Hhas. repeat split; auto.
      intros j Hj. rewrite (Honly j Hj). exact Hhas.
    - split; [intros c Hc; apply set_add_In; auto|].
      split; [intros y Hy; right; exact Hy|].
      split; [|split].
      + intros c Hc. apply set_add_In in Hc. destruct Hc as [->|Hc]; auto.
        right. split; [left; reflexivity|exact Hx].
      + intros y [<-|Hy]; auto. right. apply set_add_In. auto.
      + intros j Hj. rewrite (Honly j Hj). apply set_add_In. auto. }
  destruct t as [seg tg|p src tg|sl ex|tg]; cbn [closure_visit].
  - intros H. injection H as <- <-. repeat split; auto. intros j [].
  - intros H. injection H as <- <-. repeat split; auto. intros j [].
  - apply Hpush; [left; reflexivity|]. intros j [<-|[]]. reflexivity.
  - apply Hpush; [left; reflexivity|]. intros j [<-|[]]. reflexivity.
Qed.

Lemma eps_targets_of_cons t ts j :
  In j (eps_targets_of (t :: ts)) <->
  In j (eps_targets_of [t]) \/ In j (eps_targets_of ts).
Proof.
  unfold eps_targets_of. cbn [flat_map]. rewrite app_nil_r, in_app_iff. tauto.
Qed.

Lemma visit_fold ts :
  forall C W C' W',
    fold_left closure_visit ts (C, W) = (C', W') ->
    (forall c, In c C -> In c C') /\
    (forall x, In x W -> In x W') /\
    (forall c, In c C' -> In c C \/ (In c W' /\ In c (eps_targets_of ts))) /\
    (forall x, In x W' -> In x W \/ In x C') /\
    (forall j, In j (eps_targets_of ts) -> In j C').
Proof.
  induction ts as [|t ts IH]; intros C W C' W' Hfold.
  - simpl in Hfold. injection Hfold as <- <-. repeat split; auto. intros j [].
  - cbn [fold_left] in Hfold.
    destruct (closure_visit (C, W) t) as [C1 W1] eqn:Hone.
    destruct (visit_one _ _ _ _ _ Hone) as (HC1 & HW1 & Hnew1 & Hback1 & Htg1).
    destruct (IH _ _ _ _ Hfold) as (HC2 & HW2 & Hnew2 & Hback2 & Htg2).
    split; [auto|]. split; [auto|]. split; [|split].
    + intros c Hc. destruct (Hnew2 c Hc) as [Hc1|[Hw Hc1]].
      * destruct (Hnew1 c Hc1) as [Hc0|[Hw Ht]]; [left; exact Hc0|].
        right. split; [auto|]. apply eps_targets_of_cons. auto.
      * right. split; [exact Hw|]. apply eps_targets_of_cons. auto.
    + intros x Hx. destruct (Hback2 x Hx) as [Hx1|Hx1]; [|auto].
      destruct (Hback1 x Hx1) as [Hx0|Hx0]; auto.
    + intros j Hj. apply eps_targets_of_cons in Hj. destruct Hj as [Hj|Hj]; auto.
Qed.

Section Runs.

Variable a : SegmentAutomaton.
Hypothesis a_wf : well_formed a.
Hypothesis a_nfa : isDeterministic a = false.

Definition in_range (X : list nat) : Prop :=
  forall x, In x X -> x < List.length (states a).

(** A set of states inside the array that is closed under epsilon edges *)
Definition good (X : list nat) : Prop :=
  in_range X /\ forall i j, In i X -> eps_edge a i j -> In j X.

Lemma eps_targets_range i s j :
  state_at a i = Some s -> In j (eps_targets_of (transitions s)) ->
  j < List.length (states a).
Proof.
  intros Hs Hj. destruct a_wf as [_ Htg].
  apply eps_targets_of_targets in Hj. apply in_flat_map in Hj.
  destruct Hj as (t & Ht & Hj).
  eapply Htg; eauto. eapply nth_error_In; exact Hs.
Qed.

Lemma matcher_closure_spec X :
  in_range X ->
  exists C, epsilonClosure a X = Ok C /\ (forall x, In x X -> In x C) /\ good C.
Proof.
  intros HX. unfold epsilonClosure.
  destruct (while_loop_total (closure_step a)
              (fun st => (forall x, In x X -> In x (fst st)) /\
                         in_range (fst st) /\
                         (forall x, In x (snd st) -> In x (fst st)) /\
                         (forall i j, In i (fst st) -> eps_edge a i j ->
                                      In j (fst st) \/ In i (snd st)))
              (fun st => List.length (snd st) + unseen (fst st) (eps_targets a))
              (fun C => (forall x, In x X -> In x C) /\ good C))
    with (fuel := S (List.length X + count_transitions a)) (s := (X, rev X))
    as (C & Hrun & HC).
  - intros [C W] (HXC & Hrange & HW & Hedges). cbn [fst snd] in *.
    unfold closure_step. destruct W as [|x W].
    + split; [exact HXC|]. split; [exact Hrange|].
      intros i j Hi Hij. destruct (Hedges i j Hi Hij) as [Hj|[]]. exact Hj.
    + assert (Hx : x < List.length (states a)) by (apply Hrange, HW; left; reflexivity).
      unfold state_at_exn.
      destruct (state_at a x) as [s|] eqn:Hs;
        [|apply nth_error_None in Hs; lia].
      cbn [bind].
      destruct (fold_left closure_visit (transitions s) (C, W)) as [C' W'] eqn:Hfold.
      destruct (visit_fold _ _ _ _ _ Hfold) as (HC' & HW' & Hnew & Hback & Htg).
      cbn [fst snd]. split.
      * split; [auto|]. split; [|split].
        -- intros c Hc. destruct (Hnew c Hc) as [Hc0|[_ Hc0]]; [auto|].
           eapply eps_targets_range; eauto.
        -- intros y Hy. destruct (Hback y Hy) as [Hy0|Hy0]; [|exact Hy0].
           apply HC', HW. right; exact Hy0.
        -- intros i j Hi Hij. destruct (Hnew i Hi) as [Hi0|[Hw _]]; [|right; exact Hw].
           destruct (Hedges i j Hi0 Hij) as [Hj|[<-|Hiw]]; [left; auto| |right; auto].
           left. apply Htg. destruct Hij as (s' & Hs' & Hj).
           rewrite Hs in Hs'. injection Hs' as <-. exact Hj.
      * change closure_visit with Determinize.closure_visit in Hfold.
        apply closure_visit_measure with (E := eps_targets a) in Hfold.
        -- simpl. lia.
        -- intros y Hy. eapply eps_targets_In; eauto.
  - cbn [fst snd]. split; [auto|]. split; [exact HX|]. split.
    + intros x Hx. apply in_rev. exact Hx.
    + intros i j Hi _. right. apply in_rev in Hi. exact Hi.
  - cbn [fst snd]. rewrite length_rev.
    pose proof (unseen_length X (eps_targets a)).
    pose proof (eps_targets_length a). lia.
  - exists C. split; [exact Hrun|exact HC].
Qed.

Lemma step_fold segment ts :
  forall acc,
    let next :=
      fold_left
        (fun nextStates transition =>
           if matchTransition transition segment then
             match getTransitionTarget transition segment with
             | Some target => Js.set_add nextStates target
             | None => nextStates
             end
           else nextStates) ts acc in
    (forall x, In x acc -> In x next) /\
    (forall t j, In t ts -> matchTransition t segment = true ->
                 getTransitionTarget t segment = Some j -> In j next) /\
    (forall x, In x next ->
               In x acc \/ exists t, In t ts /\ In x (Emptiness.getTransitionTargets t)).
Proof.
  induction ts as [|t ts IH]; intros acc; cbn zeta.
  - simpl. split; [auto|]. split; [intros t j []|auto].
  - cbn [fold_left].
    match goal with |- context [fold_left ?f ts ?A1] =>
      specialize (IH A1);
      assert (H1 : (forall x, In x acc -> In x A1) /\
                   (forall j, matchTransition t segment = true ->
                              getTransitionTarget t segment = Some j -> In j A1) /\
                   (forall x, In x A1 ->
                              In x acc \/ In x (Emptiness.getTransitionTargets t)))
    end.
    { destruct (matchTransition t segment); [|split; [auto|split; [discriminate|auto]]].
      destruct (getTransitionTarget t segment) as [tg|] eqn:Htg;
        [|split; [auto|split; [discriminate|auto]]].
      split; [intros x Hx; apply set_add_In; auto|]. split.
      - intros j _ Hj. injection Hj as <-. apply set_add_In. auto.
      - intros x Hx. apply set_add_In in Hx. destruct Hx as [->|Hx]; [|auto].
        right. destruct t; simpl in *; try discriminate;
          injection Htg as <-; auto. }
    cbn zeta in IH. destruct IH as (Hkeep & Hhit & Hfrom).
    destruct H1 as (Hkeep1 & Hhit1 & Hfrom1).
    split; [auto|]. split.
    + intros t' j [<-|Ht'] Hm Htg; eauto.
    + intros x Hx. destruct (Hfrom x Hx) as [Hx1|(t' & Ht' & Hx1)].
      * destruct (Hfrom1 x Hx1) as [Hx0|Hx0]; [auto|].
        right. exists t. split; [left; reflexivity|exact Hx0].
      * right. exists t'. split; [right; exact Ht'|exact Hx1].
Qed.

Lemma next_states segment cur :
  in_range cur ->
  forall acc,
    in_range acc ->
    exists next,
      foldM (step_state a segment) cur acc = Ok next /\
      (forall x, In x acc -> In x next) /\
      (forall i j, In i cur -> seg_edge a segment i j -> In j next) /\
      in_range next.
Proof.
  induction cur as [|c cur IH]; intros Hcur acc Hacc.
  - exists acc. split; [reflexivity|]. split; [auto|]. split; [intros i j []|exact Hacc].
  - cbn [foldM]. unfold step_state at 1. unfold state_at_exn.
    assert (Hc : c < List.length (states a)) by (apply Hcur; left; reflexivity).
    destruct (state_at a c) as [s|] eqn:Hs; [|apply nth_error_None in Hs; lia].
    cbn [bind]. rewrite a_nfa.
    destruct (step_fold segment (transitions s) acc) as (Hkeep & Hhit & Hfrom).
    cbn zeta in Hkeep, Hhit, Hfrom. cbn [bind].
    match goal with |- context [foldM _ cur ?A1] =>
      destruct (IH (fun x Hx => Hcur x (or_intror Hx)) A1) as (next & Hrun & Hk & He & Hr)
    end.
    { intros x Hx. destruct (Hfrom x Hx) as [Hx0|(t & Ht & Hx0)]; [auto|].
      destruct a_wf as [_ Htg]. eapply Htg; eauto. eapply nth_error_In; exact Hs. }
    exists next. split; [exact Hrun|]. split; [auto|]. split; [|exact Hr].
    intros i j [<-|Hi] Hij; [|eauto].
    destruct Hij as (s' & t & Hs' & Ht & Hm & Htg).
    rewrite Hs in Hs'. injection Hs' as <-. apply Hk. eapply Hhit; eauto.
Qed.

Lemma simulate_one segment cur i j :
  good cur -> In i cur -> seg_edge a segment i j ->
  exists cur', simulate_loop a [segment] cur = Ok (Some cur') /\
               good cur' /\ In j cur'.
Proof.
  intros [Hrange _] Hi Hij. cbn [simulate_loop].
  destruct (next_states segment cur Hrange [] (fun x (H : In x []) => match H with end))
    as (next & -> & _ & Hedge & Hnr).
  cbn [bind].
  destruct (matcher_closure_spec next Hnr) as (C & -> & Hsub & HC).
  cbn [bind].
  assert (Hj : In j C) by (apply Hsub; eapply Hedge; eauto).
  destruct C as [|c C]; [destruct Hj|]. cbn [List.length Nat.eqb].
  eexists. split; [reflexivity|]. split; [exact HC|exact Hj].
Qed.

Lemma simulate_loop_app p q :
  forall cur,
    simulate_loop a (p ++ q) cur =
    match simulate_loop a p cur with
    | Ok (Some cur') => simulate_loop a q cur'
    | Ok None => Ok None
    | Err e => Err e
    end.
Proof.
  induction p as [|segment p IH]; intros cur; [reflexivity|].
  cbn [app simulate_loop].
  destruct (foldM (step_state a segment) cur []) as [next|e]; cbn [bind];
    [|reflexivity].
  destruct (epsilonClosure a next) as [C|e]; cbn [bind]; [|reflexivity].
  destruct (Nat.eqb (List.length C) 0); [reflexivity|apply IH].
Qed.

Lemma any_accepting_true cur i s :
  in_range cur -> In i cur -> state_at a i = Some s -> accepting s = true ->
  any_accepting a cur = Ok true.
Proof.
  induction cur as [|c cur IH]; intros Hrange Hi Hs Hacc; [destruct Hi|].
  cbn [any_accepting]. unfold state_at_exn.
  assert (Hc : c < List.length (states a)) by (apply Hrange; left; reflexivity).
  destruct (state_at a c) as [s'|] eqn:Hs'; [|apply nth_error_None in Hs'; lia].
  cbn [bind]. destruct (accepting s') eqn:Hacc'; [reflexivity|].
  destruct Hi as [->|Hi]; [congruence|].
  apply IH; auto. intros x Hx. apply Hrange. right; exact Hx.
Qed.

(** The simulation follows every run. *)
Lemma reach_simulated p i :
  reach a p i ->
  forall C0, epsilonClosure a [initialState a] = Ok C0 ->
    exists cur, simulate_loop a p C0 = Ok (Some cur) /\ good cur /\ In i cur.
Proof.
  intros Hreach C0 HC0.
  assert (Hinit : in_range [initialState a]).
  { intros x [<-|[]]. apply a_wf. }
  destruct (matcher_closure_spec _ Hinit) as (C & HC & Hsub & Hgood).
  rewrite HC0 in HC. injection HC as <-.
  induction Hreach as [|p i j _ IH Hij|p segment i j _ IH Hij].
  - exists C0. split; [reflexivity|]. split; [exact Hgood|].
    apply Hsub. left; reflexivity.
  - destruct IH as (cur & Hrun & Hcur & Hi).
    exists cur. split; [exact Hrun|]. split; [exact Hcur|].
    destruct Hcur as [_ Hclosed]. eapply Hclosed; eauto.
  - destruct IH as (cur & Hrun & Hcur & Hi).
    destruct (simulate_one segment cur i j Hcur Hi Hij) as (cur' & Hrun' & Hcur' & Hj).
    exists cur'. split; [|split; assumption].
    rewrite simulate_loop_app, Hrun. exact Hrun'.
Qed.

(** A run that ends in an accepting state is accepted by [simulateNFA]. *)
Lemma reach_accepted p i s :
  reach a p i -> state_at a i = Some s -> accepting s = true ->
  simulateNFA a p = Ok true.
Proof.
  intros Hreach Hs Hacc. unfold simulateNFA.
  assert (Hinit : in_range [initialState a]).
  { intros x [<-|[]]. apply a_wf. }
  destruct (matcher_closure_spec _ Hinit) as (C0 & HC0 & _).
  destruct (reach_simulated p i Hreach C0 HC0) as (cur & Hrun & [Hrange _] & Hi).
  rewrite HC0. cbn [bind]. rewrite Hrun. cbn [bind].
  eapply any_accepting_true; eauto.
Qed.

End Runs.

End Simulation.

Lemma samples_match_spec a s pattern patternSource target :
  samples_match a = true -> In s (states a) ->
  In (WildcardTransition pattern patternSource target) (transitions s) ->
  test pattern (Emptiness.generateMatchingSample pattern patternSource) = true.
Proof.
  unfold samples_match. rewrite forallb_forall. intros Hall Hs Ht.
  specialize (Hall s Hs). rewrite forallb_forall in Hall.
  exact (Hall _ Ht).
Qed.

(** A path returned by [findWitness] for a well-formed non-deterministic
    automaton whose wildcards accept their samples is accepted. *)
Lemma findWitness_accepted a w :
  well_formed a -> isDeterministic a = false -> samples_match a = true ->
  Emptiness.findWitness a = Ok (Some w) ->
  exists segments,
    w = PathUtils.segmentsToPath segments /\
    Matcher.simulateNFA a segments = Ok true.
Proof.
  intros Hwf Hnfa Hsamples Hw.
  destruct (WitnessSearch.findWitness_spec a (fun i p => reach a p i))
    as (r & Hr & Hfound).
  - intros i j p Hi Hij. eapply reach_eps; eauto.
  - intros i s segment target p Hi Hs Ht. eapply reach_segment; [exact Hi|].
    exists s, (LiteralTransition segment target).
    split; [exact Hs|]. split; [exact Ht|]. split; [apply String.eqb_refl|reflexivity].
  - intros i s pattern patternSource target p Hi Hs Ht.
    eapply reach_segment; [exact Hi|].
    exists s, (WildcardTransition pattern patternSource target).
    split; [exact Hs|]. split; [exact Ht|]. split; [|reflexivity].
    eapply samples_match_spec; eauto. eapply nth_error_In; exact Hs.
  - intros i s selfLoop exit p Hi Hs Ht. eapply reach_segment; [exact Hi|].
    exists s, (GlobstarTransition selfLoop exit).
    split; [exact Hs|]. split; [exact Ht|]. split; reflexivity.
  - constructor.
  - rewrite Hw in Hr. injection Hr as <-.
    destruct Hfound as [(-> & c & s & Hc & Hs & Hacc)|(i & p & s & Hi & Hp & Hs & Hacc & ->)].
    + exists []. split; [reflexivity|].
      eapply Simulation.reach_accepted; eauto.
    + exists p. split; [destruct p; [congruence|reflexivity]|].
      eapply Simulation.reach_accepted; eauto.
Qed.

(* ===================================================================== *)
(** ** The product construction returns                                   *)
(* ===================================================================== *)

Module ProductTermination.

Import Intersect.

Lemma array_includes_snoc P k k' :
  Js.array_includes (P ++ [k])%list k' = Js.array_includes P k' || String.eqb k' k.
Proof.
  unfold Js.array_includes. rewrite existsb_app. simpl. rewrite orb_false_r. reflexivity.
Qed.

Section Grid.

Variables a b : SegmentAutomaton.
Variable mode : ProductMode.

(** Pairs of transitions of the state pairs [(i, j)], [j] numbered from
    [j0] along [stsB], whose key is not in [P] *)
Fixpoint row (P : list string) (i wa j0 : nat) (stsB : list AutomatonState) : nat :=
  match stsB with
  | [] => 0
  | sb :: r =>
      (if Js.array_includes P (getPairKey i j0) then 0
       else wa * List.length (transitions sb))
      + row P i wa (S j0) r
  end.

Fixpoint grid (P : list string) (i0 : nat) (stsA : list AutomatonState) : nat :=
  match stsA with
  | [] => 0
  | sa :: r => row P i0 (List.length (transitions sa)) 0 (states b) + grid P (S i0) r
  end.

Lemma row_le P i wa j0 stsB :
  row P i wa j0 stsB <= wa * weight (fun s => List.length (transitions s)) stsB.
Proof.
  revert j0. induction stsB as [|sb r IH]; intros j0; simpl; [lia|].
  specialize (IH (S j0)). destruct (Js.array_includes P (getPairKey i j0)); lia.
Qed.

Lemma grid_le P i0 stsA :
  grid P i0 stsA
  <= weight (fun s => List.length (transitions s)) stsA * Matcher.count_transitions b.
Proof.
  revert i0. induction stsA as [|sa r IH]; intros i0; simpl; [lia|].
  specialize (IH (S i0)).
  pose proof (row_le P i0 (List.length (transitions sa)) 0 (states b)) as Hrow.
  rewrite weight_transitions in Hrow. lia.
Qed.

Lemma row_snoc_le P k i wa j0 stsB :
  row (P ++ [k])%list i wa j0 stsB <= row P i wa j0 stsB.
Proof.
  revert j0. induction stsB as [|sb r IH]; intros j0; simpl; [lia|].
  specialize (IH (S j0)). rewrite array_includes_snoc.
  destruct (Js.array_includes P (getPairKey i j0)); simpl; [lia|].
  destruct (String.eqb (getPairKey i j0) k); lia.
Qed.

Lemma grid_snoc_le P k i0 stsA :
  grid (P ++ [k])%list i0 stsA <= grid P i0 stsA.
Proof.
  revert i0. induction stsA as [|sa r IH]; intros i0; simpl; [lia|].
  specialize (IH (S i0)).
  pose proof (row_snoc_le P k i0 (List.length (transitions sa)) 0 (states b)). lia.
Qed.

Lemma row_snoc P i wa y j0 stsB sb :
  Js.array_includes P (getPairKey i y) = false -> j0 <= y ->
  nth_error stsB (y - j0) = Some sb ->
  row (P ++ [getPairKey i y])%list i wa j0 stsB + wa * List.length (transitions sb)
  <= row P i wa j0 stsB.
Proof.
  intros Hy. revert j0. induction stsB as [|s0 r IH]; intros j0 Hle Hnth.
  - destruct (y - j0); discriminate.
  - simpl. rewrite array_includes_snoc.
    destruct (Nat.eq_dec j0 y) as [->|Hne].
    + rewrite Nat.sub_diag in Hnth. simpl in Hnth. injection Hnth as ->.
      rewrite Hy, String.eqb_refl. simpl.
      pose proof (row_snoc_le P (getPairKey i y) i wa (S y) r). lia.
    + assert (Hsub : y - j0 = S (y - S j0)) by lia.
      rewrite Hsub in Hnth. simpl in Hnth.
      specialize (IH (S j0) ltac:(lia) Hnth).
      destruct (Js.array_includes P (getPairKey i j0)); simpl; [lia|].
      destruct (String.eqb (getPairKey i j0) (getPairKey i y)); lia.
Qed.

Lemma grid_snoc P x y i0 stsA sa sb :
  Js.array_includes P (getPairKey x y) = false -> i0 <= x ->
  nth_error stsA (x - i0) = Some sa -> nth_error (states b) y = Some sb ->
  grid (P ++ [getPairKey x y])%list i0 stsA
  + List.length (transitions sa) * List.length (transitions sb)
  <= grid P i0 stsA.
Proof.
  intros Hxy. revert i0. induction stsA as [|s0 r IH]; intros i0 Hle Hsa Hsb.
  - destruct (x - i0); discriminate.
  - simpl. destruct (Nat.eq_dec i0 x) as [->|Hne].
    + rewrite Nat.sub_diag in Hsa. simpl in Hsa. injection Hsa as ->.
      pose proof (row_snoc P x (List.length (transitions sa)) y 0 (states b) sb
                    Hxy (Nat.le_0_l y)) as Hrow.
      rewrite Nat.sub_0_r in Hrow. specialize (Hrow Hsb).
      pose proof (grid_snoc_le P (getPairKey x y) (S x) r). lia.
    + assert (Hsub : x - i0 = S (x - S i0)) by lia.
      rewrite Hsub in Hsa. simpl in Hsa.
      specialize (IH (S i0) ltac:(lia) Hsa Hsb).
      pose proof (row_snoc_le P (getPairKey x y) i0
                    (List.length (transitions s0)) 0 (states b)). lia.
Qed.

(** *** What the inner loops keep *)

Definition keyed (c : Construction) (item : WorkItem) : Prop :=
  Js.map_get (pairToState c) (getPairKey (sa item) (sb item)) = Some (stateId item).

Definition KInv (c0 : Construction) (n : nat)
           (acc : Construction * list AutomatonTransition * list WorkItem) : Prop :=
  let '(c, _, wl) := acc in
  ProductInv.map_below c /\
  (forall k v, Js.map_get (pairToState c0) k = Some v ->
               Js.map_get (pairToState c) k = Some v) /\
  (forall item, In item wl -> keyed c item) /\
  List.length wl <= n.

Lemma combine_visit_KInv c0 n P acc pair :
  KInv c0 n acc -> KInv c0 (S n) (combine_visit a b mode P acc pair).
Proof.
  destruct acc as [[c ts] wl]. intros (Hmap & Hext & Hitems & Hlen).
  unfold combine_visit.
  destruct (combineTransitions (fst pair) (snd pair)) as [cb|].
  - destruct (getOrCreateState a b mode c (targetA cb) (targetB cb)) as [i c1] eqn:Hgoc.
    destruct (ProductInv.getOrCreateState_spec a b mode _ _ _ _ _ Hmap Hgoc)
      as (Hi & Hmap1 & Hext1 & _).
    split; [exact Hmap1|]. split; [intros k v Hk; auto|]. split.
    + intros item Hin.
      assert (Hold : forall it, In it wl -> keyed c1 it).
      { intros it Hit. apply Hext1. apply Hitems. exact Hit. }
      destruct (negb _); [|auto]. destruct Hin as [<-|Hin]; [exact Hi|auto].
    + destruct (negb _); simpl; lia.
  - split; [exact Hmap|]. split; [exact Hext|]. split; [exact Hitems|]. lia.
Qed.

Lemma fold_KInv c0 P pairs :
  forall n acc,
    KInv c0 n acc ->
    KInv c0 (n + List.length pairs) (fold_left (combine_visit a b mode P) pairs acc).
Proof.
  induction pairs as [|pair pairs IH]; intros n acc Hacc; simpl.
  - rewrite Nat.add_0_r. exact Hacc.
  - replace (n + S (List.length pairs)) with (S n + List.length pairs) by lia.
    apply IH. apply combine_visit_KInv. exact Hacc.
Qed.

Lemma pairs_length (tsA tsB : list AutomatonTransition) :
  List.length (flat_map (fun tA => map (fun tB => (tA, tB)) tsB) tsA)
  = List.length tsA * List.length tsB.
Proof.
  induction tsA as [|t tsA IH]; simpl; [reflexivity|].
  rewrite length_app, length_map, IH. reflexivity.
Qed.

(** The loop of [productConstruction] returns: every pair of states is
    expanded at most once, and expanding it pushes at most one entry per
    pair of transitions. *)
Lemma product_loop_total c0 i0 :
  ProductInv.map_below c0 ->
  Js.map_get (pairToState c0) (getPairKey (initialState a) (initialState b)) = Some i0 ->
  exists c,
    while_loop (product_fuel a b) (product_step a b mode)
      (mkLoop c0 [mkItem i0 (initialState a) (initialState b)] []) = Ok c.
Proof.
  intros Hmap0 Hkey0.
  destruct (while_loop_total (product_step a b mode)
              (fun l => ProductInv.map_below (construction l) /\
                        forall item, In item (worklist l) -> keyed (construction l) item)
              (fun l => List.length (worklist l) + grid (processed l) 0 (states a))
              (fun _ => True))
    with (fuel := product_fuel a b)
         (s := mkLoop c0 [mkItem i0 (initialState a) (initialState b)] [])
    as (c & Hrun & _).
  - intros l [Hmap Hitems]. unfold product_step.
    destruct (worklist l) as [|item wl] eqn:Hw; [exact I|].
    destruct (Js.array_includes (processed l) (getPairKey (sa item) (sb item))) eqn:Hinc.
    + cbn [construction worklist processed]. split; [|simpl; lia].
      split; [exact Hmap|]. intros it Hit. apply Hitems. right; exact Hit.
    + set (P := (processed l ++ [getPairKey (sa item) (sb item)])%list).
      set (pairs := flat_map _ _).
      assert (HK : KInv (construction l) (List.length wl + List.length pairs)
                        (fold_left (combine_visit a b mode P) pairs
                                   (construction l, [], wl))).
      { apply fold_KInv. split; [exact Hmap|]. split; [auto|]. split; [|lia].
        intros it Hit. apply Hitems. right; exact Hit. }
      destruct (fold_left _ _ _) as [[c ts] wl'].
      destruct HK as (Hmap1 & Hext1 & Hitems1 & Hlen1).
      assert (Hid : stateId item < List.length (productStates c)).
      { eapply Hmap1. apply Hext1. apply Hitems. left; reflexivity. }
      destruct (nth_error (productStates c) (stateId item)) as [st|] eqn:Hnth;
        [|apply nth_error_None in Hnth; lia].
      cbn [construction worklist processed pairToState productStates]. split.
      * split.
        -- intros k v Hk. cbn [pairToState productStates] in *.
           rewrite array_set_length. eapply Hmap1; eauto.
        -- exact Hitems1.
      * assert (Hpairs : grid P 0 (states a) + List.length pairs
                         <= grid (processed l) 0 (states a)).
        { unfold pairs. rewrite pairs_length.
          unfold transitions_or_empty, state_at.
          destruct (nth_error (states a) (sa item)) as [stA|] eqn:HA.
          - destruct (nth_error (states b) (sb item)) as [stB|] eqn:HB.
            + pose proof (grid_snoc (processed l) (sa item) (sb item) 0 (states a)
                            stA stB Hinc (Nat.le_0_l _)) as Hg.
              rewrite Nat.sub_0_r in Hg. exact (Hg HA HB).
            + cbn [List.length]. rewrite Nat.mul_0_r, Nat.add_0_r. apply grid_snoc_le.
          - cbn [List.length]. rewrite Nat.mul_0_l, Nat.add_0_r. apply grid_snoc_le. }
        simpl. lia.
  - cbn [construction worklist]. split; [exact Hmap0|].
    intros item [<-|[]]. exact Hkey0.
  - cbn [worklist processed]. unfold product_fuel.
    pose proof (grid_le [] 0 (states a)) as Hg.
    rewrite weight_transitions in Hg. simpl. lia.
  - exists c. exact Hrun.
Qed.

(** [productConstruction] returns an automaton for all inputs. *)
Lemma productConstruction_total :
  exists p, productConstruction a b mode = Ok p.
Proof.
  unfold productConstruction.
  destruct (getOrCreateState a b mode (mkConstruction [] []) (initialState a)
              (initialState b)) as [i0 c0] eqn:Hgoc.
  assert (Hm0 : ProductInv.map_below (mkConstruction [] []))
    by (intros k v; discriminate).
  destruct (ProductInv.getOrCreateState_spec a b mode _ _ _ _ _ Hm0 Hgoc)
    as (Hi & Hmap & _ & _).
  destruct (product_loop_total c0 i0 Hmap Hi) as (c & ->).
  cbn [bind]. eexists. reflexivity.
Qed.

End Grid.

End ProductTermination.

(** [intersect] returns an automaton for all inputs. *)
Lemma intersect_total a b : exists p, Intersect.intersect a b = Ok p.
Proof. apply ProductTermination.productConstruction_total. Qed.

(** The produced automata are closed under [intersect], which returns on
    them. *)
Lemma intersect_of_produced a b :
  produced a -> produced b ->
  exists p, Intersect.intersect a b = Ok p /\ produced p.
Proof.
  intros Ha Hb. destruct (intersect_total a b) as [p Hp].
  exists p. split; [exact Hp|]. exact (produced_intersect a b p Ha Hb Hp).
Qed.

(* ===================================================================== *)
(** ** The set-based simulation computes the runs of the automaton        *)
(* ===================================================================== *)

Module SimulationExact.

Import Matcher Simulation.

Section Exact.

Variable a : SegmentAutomaton.
Hypothesis a_wf : well_formed a.
Hypothesis a_nfa : isDeterministic a = false.

(** Every member of the set comes from a member of [X] by epsilon edges. *)
Definition from_set (X C : list nat) : Prop :=
  forall c, In c C -> exists x, In x X /\ eps_reach a x c.

(** [epsilonClosure] returns exactly the states reachable from the given
    ones by epsilon transitions and globstar exits. *)
Lemma matcher_closure_exact X :
  in_range a X ->
  exists C, epsilonClosure a X = Ok C /\
            in_range a C /\
            forall c, In c C <-> exists x, In x X /\ eps_reach a x c.
Proof.
  intros HX.
  destruct (matcher_closure_spec a a_wf X HX) as (C & Hrun & Hsub & Hrange & Hclosed).
  exists C. split; [exact Hrun|]. split; [exact Hrange|].
  intros c. split.
  - (* soundness, by the invariant of the loop *)
    revert c. unfold epsilonClosure in Hrun.
    refine (while_loop_inv (closure_step a)
              (fun st => from_set X (fst st) /\ (forall x, In x (snd st) -> In x (fst st)))
              (from_set X) _ _ _ _ _ _ Hrun).
    + intros [C0 W] [C1 W1] [Hfrom HW]. cbn [fst snd] in *. unfold closure_step.
      destruct W as [|x W]; [discriminate|].
      unfold state_at_exn. destruct (state_at a x) as [s|] eqn:Hs; [|discriminate].
      cbn [bind]. intros Heq. injection Heq as Hfold.
      destruct (visit_fold _ _ _ _ _ Hfold) as (HC' & HW' & Hnew & Hback & Htg).
      split.
      * intros c Hc. destruct (Hnew c Hc) as [Hc0|[_ Hc0]]; [auto|].
        destruct (Hfrom x (HW x (or_introl eq_refl))) as (x0 & Hx0 & Hreach).
        exists x0. split; [exact Hx0|].
        eapply eps_reach_step; [exact Hreach|]. exists s. auto.
      * intros y Hy. destruct (Hback y Hy) as [Hy0|Hy0]; [|exact Hy0].
        apply HC', HW. right; exact Hy0.
    + intros [C0 W] r [Hfrom HW]. cbn [fst snd] in *. unfold closure_step.
      destruct W as [|x W].
      * intros Heq. injection Heq as <-. exact Hfrom.
      * unfold state_at_exn. destruct (state_at a x); discriminate.
    + cbn [fst snd]. split.
      * intros c Hc. exists c. split; [exact Hc|constructor].
      * intros x Hx. apply in_rev. exact Hx.
  - intros (x & Hx & Hreach).
    induction Hreach as [|j k _ IH Hjk]; [auto|]. eapply Hclosed; eauto.
Qed.

Lemma step_fold_sound segment ts :
  forall acc x,
    In x (fold_left
            (fun nextStates transition =>
               if matchTransition transition segment then
                 match getTransitionTarget transition segment with
                 | Some target => Js.set_add nextStates target
                 | None => nextStates
                 end
               else nextStates) ts acc) ->
    In x acc \/
    exists t, In t ts /\ matchTransition t segment = true /\
              getTransitionTarget t segment = Some x.
Proof.
  induction ts as [|t ts IH]; intros acc x Hx; cbn [fold_left] in Hx; [auto|].
  apply IH in Hx. destruct Hx as [Hx|(t' & Ht' & Hm & Htg)].
  - destruct (matchTransition t segment) eqn:Hm; [|auto].
    destruct (getTransitionTarget t segment) as [tg|] eqn:Htg; [|auto].
    apply set_add_In in Hx. destruct Hx as [->|Hx]; [|auto].
    right. exists t. split; [left; reflexivity|auto].
  - right. exists t'. split; [right; exact Ht'|auto].
Qed.

Lemma next_states_sound segment cur :
  forall acc next,
    foldM (step_state a segment) cur acc = Ok next ->
    forall x, In x next ->
              In x acc \/ exists i, In i cur /\ seg_edge a segment i x.
Proof.
  induction cur as [|c cur IH]; intros acc next Hrun x Hx.
  - injection Hrun as <-. auto.
  - cbn [foldM] in Hrun. unfold step_state at 1 in Hrun. unfold state_at_exn in Hrun.
    destruct (state_at a c) as [s|] eqn:Hs; [|discriminate].
    cbn [bind] in Hrun. rewrite a_nfa in Hrun. cbn [bind] in Hrun.
    destruct (IH _ _ Hrun x Hx) as [Hx0|(i & Hi & Hedge)].
    + apply step_fold_sound in Hx0. destruct Hx0 as [Hx0|(t & Ht & Hm & Htg)]; [auto|].
      right. exists c. split; [left; reflexivity|]. exists s, t. auto.
    + right. exists i. split; [right; exact Hi|exact Hedge].
Qed.

(** The loop over the segments keeps a set of states each of which is
    reached by a run over the segments read so far. *)
Lemma simulate_loop_sound p :
  forall q cur,
    in_range a cur -> (forall c, In c cur -> reach a q c) ->
    simulate_loop a p cur = Ok None \/
    exists cur', simulate_loop a p cur = Ok (Some cur') /\
                 in_range a cur' /\
                 forall c, In c cur' -> reach a (q ++ p)%list c.
Proof.
  induction p as [|segment p IH]; intros q cur Hrange Hreach.
  - right. exists cur. split; [reflexivity|]. split; [exact Hrange|].
    rewrite app_nil_r. exact Hreach.
  - cbn [simulate_loop].
    destruct (next_states a a_wf a_nfa segment cur Hrange []
                (fun x (H : In x []) => match H with end))
      as (next & Hnext & _ & _ & Hnr).
    rewrite Hnext. cbn [bind].
    destruct (matcher_closure_exact next Hnr) as (C & -> & HCr & HC).
    cbn [bind].
    destruct (Nat.eqb (List.length C) 0); [left; reflexivity|].
    assert (HCreach : forall c, In c C -> reach a (q ++ [segment])%list c).
    { intros c Hc. apply HC in Hc. destruct Hc as (x & Hx & Heps).
      destruct (next_states_sound _ _ _ _ Hnext x Hx) as [[]|(i & Hi & Hedge)].
      assert (Hrx : reach a (q ++ [segment])%list x)
        by (eapply reach_segment; eauto).
      clear Hx Hedge. induction Heps as [|j k _ IHe Hjk]; [exact Hrx|].
      eapply reach_eps; eauto. }
    destruct (IH (q ++ [segment])%list C HCr HCreach) as [Hnone|(cur' & Hrun & Hr' & Hreach')].
    + left. exact Hnone.
    + right. exists cur'. split; [exact Hrun|]. split; [exact Hr'|].
      rewrite <- app_assoc in Hreach'. exact Hreach'.
Qed.

Lemma any_accepting_spec cur :
  in_range a cur ->
  exists b, any_accepting a cur = Ok b /\
            (b = true <->
             exists i s, In i cur /\ state_at a i = Some s /\ accepting s = true).
Proof.
  induction cur as [|c cur IH]; intros Hrange.
  - exists false. split; [reflexivity|]. split; [discriminate|].
    intros (i & s & [] & _).
  - cbn [any_accepting]. unfold state_at_exn.
    assert (Hc : c < List.length (states a)) by (apply Hrange; left; reflexivity).
    destruct (state_at a c) as [s|] eqn:Hs; [|apply nth_error_None in Hs; lia].
    cbn [bind]. destruct (accepting s) eqn:Hacc.
    + exists true. split; [reflexivity|]. split; [|reflexivity].
      intros _. exists c, s. split; [left; reflexivity|auto].
    + destruct (IH (fun x Hx => Hrange x (or_intror Hx))) as (b & Hb & Hiff).
      exists b. split; [exact Hb|]. rewrite Hiff. split.
      * intros (i & s' & Hi & Hs' & Ha). exists i, s'. split; [right; exact Hi|auto].
      * intros (i & s' & [<-|Hi] & Hs' & Ha); [congruence|].
        exists i, s'. auto.
Qed.

(** [simulateNFA] returns, and answers true exactly when some run over
    the segments ends in an accepting state. *)
Lemma simulateNFA_exact p :
  exists b, simulateNFA a p = Ok b /\
            (b = true <->
             exists i s, reach a p i /\ state_at a i = Some s /\ accepting s = true).
Proof.
  assert (Hinit : in_range a [initialState a]).
  { intros x [<-|[]]. apply a_wf. }
  destruct (matcher_closure_exact _ Hinit) as (C0 & HC0 & HC0r & HC0e).
  assert (Hsound : forall b, simulateNFA a p = Ok b -> b = true ->
            exists i s, reach a p i /\ state_at a i = Some s /\ accepting s = true).
  { intros b Hrun ->. unfold simulateNFA in Hrun. rewrite HC0 in Hrun.
    cbn [bind] in Hrun.
    assert (Hreach0 : forall c, In c C0 -> reach a [] c).
    { intros c Hc. apply HC0e in Hc. destruct Hc as (x & [<-|[]] & Heps).
      induction Heps as [|j k _ IHe Hjk]; [constructor|]. eapply reach_eps; eauto. }
    destruct (simulate_loop_sound p [] C0 HC0r Hreach0)
      as [Hnone|(cur & Hloop & Hcr & Hcreach)]; rewrite ?Hnone, ?Hloop in Hrun;
      cbn [bind] in Hrun; [discriminate|].
    destruct (any_accepting_spec cur Hcr) as (b & Hb & Hiff).
    rewrite Hb in Hrun. injection Hrun as ->.
    destruct (proj1 Hiff eq_refl) as (i & s & Hi & Hs & Ha).
    exists i, s. split; [apply Hcreach; exact Hi|auto]. }
  assert (Htotal : exists b, simulateNFA a p = Ok b).
  { unfold simulateNFA. rewrite HC0. cbn [bind].
    assert (Hreach0 : forall c, In c C0 -> reach a [] c).
    { intros c Hc. apply HC0e in Hc. destruct Hc as (x & [<-|[]] & Heps).
      induction Heps as [|j k _ IHe Hjk]; [constructor|]. eapply reach_eps; eauto. }
    destruct (simulate_loop_sound p [] C0 HC0r Hreach0)
      as [->|(cur & -> & Hcr & _)]; cbn [bind]; [eexists; reflexivity|].
    destruct (any_accepting_spec cur Hcr) as (b & -> & _). eexists; reflexivity. }
  destruct Htotal as [b Hb]. exists b. split; [exact Hb|]. split.
  - apply Hsound. exact Hb.
  - intros (i & s & Hreach & Hs & Ha).
    rewrite (reach_accepted a a_wf a_nfa p i s Hreach Hs Ha) in Hb. congruence.
Qed.

End Exact.

End SimulationExact.

(* ===================================================================== *)
(** ** Deterministic simulation and [complement]                          *)
(* ===================================================================== *)

Module DfaSimulation.

Import Matcher.

Lemma eps_free_spec a s t :
  eps_free a = true -> In s (states a) -> In t (transitions s) -> consuming t = true.
Proof.
  unfold eps_free. rewrite forallb_forall. intros H Hs Ht.
  specialize (H s Hs). rewrite forallb_forall in H. exact (H t Ht).
Qed.

Lemma closure_visit_consuming ts :
  forall acc, (forall t, In t ts -> consuming t = true) ->
              fold_left closure_visit ts acc = acc.
Proof.
  induction ts as [|t ts IH]; intros [C W] Hts; [reflexivity|].
  cbn [fold_left].
  assert (Ht : consuming t = true) by (apply Hts; left; reflexivity).
  destruct t; try discriminate; cbn [closure_visit]; apply IH;
    intros t' Ht'; apply Hts; right; exact Ht'.
Qed.

Lemma getDeterministicTarget_In ts segment target :
  getDeterministicTarget ts segment = Some target ->
  exists t, In t ts /\ In target (Emptiness.getTransitionTargets t).
Proof.
  unfold getDeterministicTarget.
  destruct (find _ ts) as [t|] eqn:Hlit.
  - apply find_some in Hlit. destruct Hlit as [Ht Hlit].
    destruct t as [seg tg| | |]; try discriminate.
    intros H. injection H as <-. exists (LiteralTransition seg tg). simpl. auto.
  - clear Hlit.
    destruct (find (fun t => match t with
                             | WildcardTransition pattern _ _ => test pattern segment
                             | _ => false
                             end) ts) as [t|] eqn:Hw.
    + apply find_some in Hw. destruct Hw as [Ht Hw].
      destruct t as [|pat src tg| |]; try discriminate.
      intros H. injection H as <-. exists (WildcardTransition pat src tg). simpl. auto.
    + clear Hw.
      destruct (find (fun t => match t with
                               | GlobstarTransition _ _ => true
                               | _ => false
                               end) ts) as [t|] eqn:Hg; [|discriminate].
      apply find_some in Hg. destruct Hg as [Ht Hg].
      destruct t as [| |sl ex|]; try discriminate.
      intros H. injection H as <-. exists (GlobstarTransition sl ex). simpl. auto.
Qed.

Section Deterministic.

Variable a : SegmentAutomaton.
Hypothesis a_wf : well_formed a.
Hypothesis a_dfa : isDeterministic a = true.
Hypothesis a_free : eps_free a = true.

Lemma closure_singleton q :
  q < List.length (states a) -> epsilonClosure a [q] = Ok [q].
Proof.
  intros Hq. unfold epsilonClosure. cbn [List.length rev app Nat.add while_loop].
  unfold closure_step at 1. unfold state_at_exn.
  destruct (state_at a q) as [s|] eqn:Hs; [|apply nth_error_None in Hs; lia].
  cbn [bind]. rewrite closure_visit_consuming.
  - destruct (count_transitions a); reflexivity.
  - intros t Ht. eapply eps_free_spec; eauto. eapply nth_error_In; exact Hs.
Qed.

Lemma closure_empty : epsilonClosure a [] = Ok [].
Proof. reflexivity. Qed.

(** From a single state, the loop of [simulateNFA] follows [run_dfa]. *)
Lemma simulate_loop_dfa p :
  forall q, q < List.length (states a) ->
    simulate_loop a p [q] = Ok (option_map (fun q' => [q']) (run_dfa a q p)) /\
    forall q', run_dfa a q p = Some q' -> q' < List.length (states a).
Proof.
  induction p as [|segment p IH]; intros q Hq.
  - split; [reflexivity|]. intros q' H. injection H as <-. exact Hq.
  - cbn [simulate_loop run_dfa foldM]. unfold step_state, state_at_exn.
    destruct (state_at a q) as [s|] eqn:Hs; [|apply nth_error_None in Hs; lia].
    cbn [bind]. rewrite a_dfa.
    destruct (getDeterministicTarget (transitions s) segment) as [target|] eqn:Htg.
    + cbn [bind Js.set_add Js.set_has existsb app].
      assert (Ht : target < List.length (states a)).
      { destruct (getDeterministicTarget_In _ _ _ Htg) as (t & Hin & Htarget).
        destruct a_wf as [_ Hbelow]. eapply Hbelow; eauto.
        eapply nth_error_In; exact Hs. }
      rewrite (closure_singleton target Ht). cbn [bind List.length Nat.eqb].
      apply IH. exact Ht.
    + cbn [bind]. rewrite closure_empty. cbn [bind List.length Nat.eqb option_map].
      split; [reflexivity|discriminate].
Qed.

(** In an automaton flagged deterministic whose transitions are literals
    and wildcards, [simulateNFA] follows one state at a time. *)
Lemma simulateNFA_dfa p : simulateNFA a p = Ok (accepts_dfa a p).
Proof.
  unfold simulateNFA, accepts_dfa.
  assert (Hinit : initialState a < List.length (states a)) by apply a_wf.
  rewrite (closure_singleton _ Hinit). cbn [bind].
  destruct (simulate_loop_dfa p _ Hinit) as [-> Hrange].
  cbn [bind]. destruct (run_dfa a (initialState a) p) as [q|] eqn:Hrun; [|reflexivity].
  cbn [option_map any_accepting]. unfold state_at_exn.
  specialize (Hrange q eq_refl).
  destruct (state_at a q) as [s|] eqn:Hs; [|apply nth_error_None in Hs; lia].
  cbn [bind]. destruct (accepting s); reflexivity.
Qed.

(** In a complete automaton a run never gets stuck on segments without
    line terminators. *)
Lemma run_dfa_complete p :
  complete a -> forallb no_line_terminator p = true ->
  forall q, q < List.length (states a) ->
            exists q', run_dfa a q p = Some q' /\ q' < List.length (states a).
Proof.
  intros Hc. induction p as [|segment p IH]; intros Hp q Hq.
  - exists q. split; [reflexivity|exact Hq].
  - cbn [forallb] in Hp. apply andb_true_iff in Hp. destruct Hp as [Hseg Hp].
    cbn [run_dfa].
    destruct (state_at a q) as [s|] eqn:Hs; [|apply nth_error_None in Hs; lia].
    assert (Hin : In s (states a)) by (eapply nth_error_In; exact Hs).
    destruct (has_universal_selects s segment (Hc s Hin) Hseg)
      as (_ & t & target & Ht & _ & _ & Htg).
    rewrite Htg. apply IH; [exact Hp|].
    destruct (getDeterministicTarget_In _ _ _ Htg) as (t' & Hin' & Htarget).
    destruct a_wf as [_ Hbelow]. eapply Hbelow; eauto.
Qed.

End Deterministic.

End DfaSimulation.

(* ===================================================================== *)
(** ** [complement]                                                       *)
(* ===================================================================== *)

Module ComplementSpec.

Import Complement.

Definition flip (state : AutomatonState) : AutomatonState :=
  mkState (id state) (transitions state) (negb (accepting state)).

Lemma complement_flagged a :
  isDeterministic a = true ->
  complement a
  = Ok (mkAutomaton (map flip (states a)) (initialState a)
                    (map id (filter accepting (map flip (states a)))) true).
Proof. intros H. unfold complement. rewrite H. reflexivity. Qed.

Lemma flip_flip s : flip (flip s) = s.
Proof. destruct s. unfold flip. simpl. rewrite negb_involutive. reflexivity. Qed.

Lemma map_flip_flip sts : map flip (map flip sts) = sts.
Proof.
  rewrite map_map. rewrite <- (map_id sts) at 2.
  apply map_ext. intros s. apply flip_flip.
Qed.

(** Complementing twice gives back the states and the initial state, and
    lists the states whose [accepting] bit is set. *)
Lemma complement_twice a c :
  isDeterministic a = true -> complement a = Ok c ->
  exists c', complement c = Ok c' /\
             states c' = states a /\
             initialState c' = initialState a /\
             acceptingStates c' = map id (filter accepting (states a)) /\
             isDeterministic c' = true.
Proof.
  intros Hflag Hc. rewrite (complement_flagged a Hflag) in Hc. injection Hc as <-.
  eexists. split; [apply complement_flagged; reflexivity|].
  cbn [states initialState acceptingStates isDeterministic].
  rewrite map_flip_flip. auto.
Qed.

Lemma state_at_flip a c q :
  states c = map flip (states a) ->
  state_at c q = option_map flip (state_at a q).
Proof. intros H. unfold state_at. rewrite H. apply nth_error_map. Qed.

Lemma run_dfa_flip a c p :
  states c = map flip (states a) ->
  forall q, run_dfa c q p = run_dfa a q p.
Proof.
  intros H. induction p as [|segment p IH]; intros q; [reflexivity|].
  cbn [run_dfa]. rewrite (state_at_flip a c q H).
  destruct (state_at a q) as [s|]; [|reflexivity]. cbn [option_map flip transitions].
  destruct (Matcher.getDeterministicTarget (transitions s) segment); auto.
Qed.

Lemma flip_well_formed a c :
  states c = map flip (states a) -> initialState c = initialState a ->
  well_formed a -> well_formed c.
Proof.
  intros Hs Hi [Hinit Hbelow]. unfold well_formed. rewrite Hs, Hi, length_map.
  split; [exact Hinit|].
  intros s t Hin Ht. apply in_map_iff in Hin. destruct Hin as (s0 & <- & Hs0).
  eapply Hbelow; eauto.
Qed.

Lemma flip_eps_free a c :
  states c = map flip (states a) -> eps_free a = true -> eps_free c = true.
Proof.
  intros Hs. unfold eps_free. rewrite Hs, !forallb_forall.
  intros H s Hin. apply in_map_iff in Hin. destruct Hin as (s0 & <- & Hs0).
  exact (H s0 Hs0).
Qed.

Lemma flip_complete a c :
  states c = map flip (states a) -> complete a -> complete c.
Proof.
  intros Hs Hc s Hin. rewrite Hs in Hin. apply in_map_iff in Hin.
  destruct Hin as (s0 & <- & Hs0). exact (Hc s0 Hs0).
Qed.

(** On a complete, well-formed automaton flagged deterministic whose
    transitions are literals and wildcards, [complement] negates the
    answer of [simulateNFA] on segments without line terminators. *)
Lemma complement_negates a p :
  well_formed a -> isDeterministic a = true -> eps_free a = true -> complete a ->
  forallb no_line_terminator p = true ->
  exists c b,
    complement a = Ok c /\
    Matcher.simulateNFA a p = Ok b /\
    Matcher.simulateNFA c p = Ok (negb b).
Proof.
  intros Hwf Hflag Hfree Hc Hp.
  eexists. exists (accepts_dfa a p).
  split; [apply complement_flagged; exact Hflag|].
  split; [apply DfaSimulation.simulateNFA_dfa; assumption|].
  set (c := mkAutomaton _ _ _ _).
  assert (Hs : states c = map flip (states a)) by reflexivity.
  rewrite (DfaSimulation.simulateNFA_dfa c).
  - f_equal. unfold accepts_dfa. rewrite (run_dfa_flip a c p Hs).
    change (initialState c) with (initialState a).
    destruct (DfaSimulation.run_dfa_complete a Hwf p Hc Hp (initialState a))
      as (q & -> & Hq); [apply Hwf|].
    rewrite (state_at_flip a c q Hs).
    destruct (state_at a q) as [s|] eqn:Hsq; [reflexivity|].
    apply nth_error_None in Hsq. lia.
  - eapply flip_well_formed; eauto.
  - reflexivity.
  - eapply flip_eps_free; eauto.
Qed.

End ComplementSpec.

(* ===================================================================== *)
(** ** Reachability, [isEmpty] and the search of [findWitness]            *)
(* ===================================================================== *)

Module ReachabilitySpec.

Import Emptiness.

Section Reachability.

Variable a : SegmentAutomaton.

Lemma closed_graph_reach (P : nat -> Prop) i j :
  closed a P -> P i -> graph_reach a i j -> P j.
Proof.
  intros Hc Hi H. induction H as [|j k _ IH Hjk]; [exact Hi|]. eapply Hc; eauto.
Qed.

Lemma reachable_fold_sound R xs :
  forall W x,
    In x (fold_left (fun worklist target =>
                       if negb (Js.set_has R target) then target :: worklist
                       else worklist) xs W) ->
    In x W \/ In x xs.
Proof.
  induction xs as [|y xs IH]; intros W x Hx; cbn [fold_left] in Hx; [auto|].
  apply IH in Hx. destruct Hx as [Hx|Hx]; [|right; right; exact Hx].
  destruct (negb (Js.set_has R y)); [|auto].
  destruct Hx as [<-|Hx]; [right; left; reflexivity|auto].
Qed.

(** [findReachableStates] returns exactly the states reachable from the
    initial state. *)
Lemma findReachableStates_exact :
  exists R, findReachableStates a = Ok R /\
            forall i, In i R <-> graph_reach a (initialState a) i.
Proof.
  destruct (EmptinessSpec.findReachableStates_spec a) as (R & Hrun & Hinit & Hclosed).
  exists R. split; [exact Hrun|]. intros i. split.
  - revert i. unfold findReachableStates in Hrun.
    refine (while_loop_inv (reachable_step a)
              (fun st => (forall i, In i (fst st) -> graph_reach a (initialState a) i) /\
                         (forall i, In i (snd st) -> graph_reach a (initialState a) i))
              (fun R => forall i, In i R -> graph_reach a (initialState a) i)
              _ _ _ _ _ _ Hrun).
    + intros [R0 W] [R1 W1] [HR HW]. cbn [fst snd] in *. unfold reachable_step.
      destruct W as [|x W]; [discriminate|].
      assert (Hx : graph_reach a (initialState a) x) by (apply HW; left; reflexivity).
      assert (HR' : forall i, In i (Js.set_add R0 x) -> graph_reach a (initialState a) i).
      { intros i Hi. apply set_add_In in Hi. destruct Hi as [->|Hi]; auto. }
      destruct (Js.set_has R0 x).
      * intros H. injection H as <- <-. split; [exact HR|].
        intros i Hi. apply HW. right; exact Hi.
      * destruct (state_at a x) as [s|] eqn:Hs; intros H; injection H as <- <-.
        -- split; [exact HR'|]. intros i Hi.
           apply reachable_fold_sound in Hi. destruct Hi as [Hi|Hi].
           ++ apply HW. right; exact Hi.
           ++ eapply graph_reach_step; [exact Hx|]. exists s. auto.
        -- split; [exact HR'|]. intros i Hi. apply HW. right; exact Hi.
    + intros [R0 W] r [HR HW]. cbn [fst snd] in *. unfold reachable_step.
      destruct W as [|x W].
      * intros H. injection H as <-. exact HR.
      * destruct (Js.set_has R0 x); [discriminate|].
        destruct (state_at a x); discriminate.
    + cbn [fst snd]. split; [intros i []|]. intros i [<-|[]]. constructor.
  - intros Hreach. eapply (closed_graph_reach (fun i => In i R)); eauto.
Qed.

(** [isEmpty] returns, and answers false exactly when a state listed in
    [acceptingStates] is reachable from the initial state. *)
Lemma isEmpty_exact :
  exists b, isEmpty a = Ok b /\
            (b = false <->
             exists i, In i (acceptingStates a) /\
                       graph_reach a (initialState a) i).
Proof.
  unfold isEmpty. destruct findReachableStates_exact as (R & -> & HR).
  cbn [bind]. eexists. split; [reflexivity|].
  rewrite negb_false_iff, existsb_exists. split.
  - intros (i & Hi & Hhas). exists i. split; [exact Hi|].
    apply HR, set_has_In. exact Hhas.
  - intros (i & Hi & Hreach). exists i. split; [exact Hi|].
    apply set_has_In, HR. exact Hreach.
Qed.

(** *** [epsilonClosure] of [emptiness.ts] is closed *)

Lemma closure_fold_complete C ts :
  forall W,
    let W' :=
      fold_left
        (fun worklist transition =>
           match transition with
           | EpsilonTransition target =>
               if negb (Js.set_has C target) then target :: worklist else worklist
           | GlobstarTransition _ exit =>
               if negb (Js.set_has C exit) then exit :: worklist else worklist
           | _ => worklist
           end) ts W in
    (forall x, In x W -> In x W') /\
    (forall j, In j (eps_targets_of ts) -> In j C \/ In j W').
Proof.
  induction ts as [|t ts IH]; intros W; cbn zeta.
  - simpl. split; [auto|intros j []].
  - cbn [fold_left].
    match goal with |- context [fold_left ?f ts ?W1] =>
      specialize (IH W1);
      assert (H1 : (forall x, In x W -> In x W1) /\
                   (forall j, In j (eps_targets_of [t]) -> In j C \/ In j W1))
    end.
    { assert (Hpush : forall y,
                (forall x, In x W ->
                           In x (if negb (Js.set_has C y) then y :: W else W)) /\
                (In y C \/ In y (if negb (Js.set_has C y) then y :: W else W))).
      { intros y. destruct (Js.set_has C y) eqn:Hh; simpl.
        - split; [auto|]. left. apply set_has_In. exact Hh.
        - split; [auto|]. right. left. reflexivity. }
      destruct t as [seg tg|p src tg|sl ex|tg].
      - split; [auto|]. intros j [].
      - split; [auto|]. intros j [].
      - destruct (Hpush ex) as [H1 H2]. split; [exact H1|].
        intros j [<-|[]]. exact H2.
      - destruct (Hpush tg) as [H1 H2]. split; [exact H1|].
        intros j [<-|[]]. exact H2. }
    cbn zeta in IH. destruct IH as [Hkeep Hnew]. destruct H1 as [Hkeep1 Hnew1].
    split; [auto|].
    intros j Hj. apply Simulation.eps_targets_of_cons in Hj.
    destruct Hj as [Hj|Hj]; [|auto].
    destruct (Hnew1 j Hj) as [Hc|Hw]; auto.
Qed.

Lemma epsilonClosure_closed start C :
  epsilonClosure a start = Ok C ->
  In start C /\ forall i j, In i C -> eps_edge a i j -> In j C.
Proof.
  unfold epsilonClosure.
  refine (while_loop_inv (closure_step a)
            (fun st => (In start (fst st) \/ In start (snd st)) /\
                       (forall i j, In i (fst st) -> eps_edge a i j ->
                                    In j (fst st) \/ In j (snd st)))
            (fun C => In start C /\ forall i j, In i C -> eps_edge a i j -> In j C)
            _ _ _ _ _ _).
  - intros [C0 W] [C1 W1] [Hstart Hedges]. cbn [fst snd] in *. unfold closure_step.
    destruct W as [|x W]; [discriminate|].
    destruct (Js.set_has C0 x) eqn:Hx.
    + apply set_has_In in Hx. intros H. injection H as <- <-. split.
      * destruct Hstart as [H|[<-|H]]; auto.
      * intros i j Hi Hij. destruct (Hedges i j Hi Hij) as [H|[<-|H]]; auto.
    + destruct (state_at a x) as [s|] eqn:Hs; intros H; injection H as <- <-.
      * destruct (closure_fold_complete (Js.set_add C0 x) (transitions s) W)
          as [Hkeep Hnew]. cbn zeta in Hkeep, Hnew.
        split.
        -- destruct Hstart as [H|[<-|H]]; [left|left|right; auto];
             apply set_add_In; auto.
        -- intros i j Hi Hij. apply set_add_In in Hi. destruct Hi as [->|Hi].
           ++ destruct Hij as (s' & Hs' & Hj). rewrite Hs in Hs'.
              injection Hs' as <-. apply Hnew. exact Hj.
           ++ destruct (Hedges i j Hi Hij) as [H|[<-|H]];
                [left|left|right; auto]; apply set_add_In; auto.
      * split.
        -- destruct Hstart as [H|[<-|H]]; [left|left|right; auto];
             apply set_add_In; auto.
        -- intros i j Hi Hij. apply set_add_In in Hi. destruct Hi as [->|Hi].
           ++ destruct Hij as (s' & Hs' & _). congruence.
           ++ destruct (Hedges i j Hi Hij) as [H|[<-|H]];
                [left|left|right; auto]; apply set_add_In; auto.
  - intros [C0 W] r [Hstart Hedges]. cbn [fst snd] in *. unfold closure_step.
    destruct W as [|x W].
    + intros H. injection H as <-. split.
      * destruct Hstart as [H|[]]. exact H.
      * intros i j Hi Hij. destruct (Hedges i j Hi Hij) as [H|[]]. exact H.
    + destruct (Js.set_has C0 x); [discriminate|].
      destruct (state_at a x); discriminate.
  - cbn [fst snd]. split; [right; left; reflexivity|]. intros i j [].
Qed.

(** *** The search visits every reachable state *)

Definition ids (queue : list SearchState) : list nat := map search_stateId queue.

(** The states recorded with the empty path *)
Definition at_start (C0 : list nat) (queue : list SearchState) : Prop :=
  forall e, In e queue -> path e = [] -> In (search_stateId e) C0.

Lemma exit_fold_complete visited p exitClosure :
  forall queue,
    let queue' :=
      fold_left (fun queue exitState =>
                   if negb (Js.set_has visited exitState)
                   then (queue ++ [mkSearch exitState p])%list else queue)
                exitClosure queue in
    (forall e, In e queue -> In e queue') /\
    (forall c, In c exitClosure -> In c visited \/ In c (ids queue')) /\
    (forall e, In e queue' ->
               In e queue \/ (path e = p /\ In (search_stateId e) exitClosure)).
Proof.
  induction exitClosure as [|c cs IH]; intros queue; cbn zeta.
  - simpl. split; [auto|]. split; [intros c []|auto].
  - cbn [fold_left].
    match goal with |- context [fold_left ?f cs ?Q1] =>
      specialize (IH Q1);
      assert (H1 : (forall e, In e queue -> In e Q1) /\
                   (In c visited \/ In c (ids Q1)) /\
                   (forall e, In e Q1 ->
                              In e queue \/ (path e = p /\ search_stateId e = c)))
    end.
    { destruct (Js.set_has visited c) eqn:Hv; simpl.
      - apply set_has_In in Hv. auto.
      - split; [intros e He; apply in_or_app; auto|]. split.
        + right. unfold ids. rewrite map_app. apply in_or_app. right. left. reflexivity.
        + intros e He. apply in_app_or in He. destruct He as [He|[<-|[]]]; auto. }
    cbn zeta in IH. destruct IH as (Hkeep & Hall & Hfrom).
    destruct H1 as (Hkeep1 & Hc & Hfrom1).
    split; [auto|]. split.
    + intros c' [<-|Hc']; [|auto].
      destruct Hc as [Hc|Hc]; [auto|]. right.
      unfold ids in *. apply in_map_iff in Hc. destruct Hc as (e & He & Hin).
      apply in_map_iff. exists e. auto.
    + intros e He. destruct (Hfrom e He) as [He1|[Hp Hin]].
      * destruct (Hfrom1 e He1) as [He0|[Hp Hid]]; [auto|].
        right. split; [exact Hp|]. left. symmetry. exact Hid.
      * right. split; [exact Hp|]. right. exact Hin.
Qed.

Lemma snoc_not_nil (p : list string) x : (p ++ [x])%list <> [].
Proof. destruct p; discriminate. Qed.

(** What exploring one transition of the state [i] adds to the queue *)
Lemma explore_complete visited i s p queue t queue' :
  state_at a i = Some s -> In t (transitions s) ->
  explore a visited p queue t = Ok queue' ->
  (forall e, In e queue -> In e queue') /\
  (forall j, In j (getTransitionTargets t) -> In j visited \/ In j (ids queue')) /\
  (forall e, In e queue' ->
             In e queue \/ path e <> [] \/
             (path e = p /\ eps_reach a i (search_stateId e))).
Proof.
  intros Hs Ht.
  assert (Hpush : forall target p',
            (path (mkSearch target p') <> [] \/
             (p' = p /\ eps_reach a i target)) ->
            let queue' := if negb (Js.set_has visited target)
                          then (queue ++ [mkSearch target p'])%list else queue in
            (forall e, In e queue -> In e queue') /\
            (In target visited \/ In target (ids queue')) /\
            (forall e, In e queue' ->
                       In e queue \/ path e <> [] \/
                       (path e = p /\ eps_reach a i (search_stateId e)))).
  { intros target p' Hnew. cbn zeta.
    destruct (Js.set_has visited target) eqn:Hv; simpl.
    - apply set_has_In in Hv. auto.
    - split; [intros e He; apply in_or_app; auto|]. split.
      + right. unfold ids. rewrite map_app. apply in_or_app. right. left. reflexivity.
      + intros e He. apply in_app_or in He. destruct He as [He|[<-|[]]]; [auto|].
        right. destruct Hnew as [Hn|[-> Hr]]; [left; exact Hn|right; auto]. }
  destruct t as [seg tg|pat src tg|sl ex|tg]; cbn [explore getTransitionTargets].
  - intros H. injection H as <-.
    destruct (Hpush tg (p ++ [seg])%list) as (H1 & H2 & H3);
      [left; apply snoc_not_nil|].
    split; [exact H1|]. split; [intros j [<-|[]]; exact H2|exact H3].
  - intros H. injection H as <-.
    destruct (Hpush tg (p ++ [generateMatchingSample pat src])%list) as (H1 & H2 & H3);
      [left; apply snoc_not_nil|].
    split; [exact H1|]. split; [intros j [<-|[]]; exact H2|exact H3].
  - destruct (epsilonClosure a ex) as [C|e] eqn:HC; cbn [bind]; [|discriminate].
    destruct (epsilonClosure_closed ex C HC) as [Hex _].
    destruct (EmptinessSpec.epsilonClosure_spec a ex) as (C' & HC' & _ & Hreach & _).
    rewrite HC in HC'. injection HC' as <-.
    destruct (exit_fold_complete visited p C queue) as (Hkeep & Hall & Hfrom).
    cbn zeta in Hkeep, Hall, Hfrom.
    assert (Hiex : eps_edge a i ex).
    { exists s. split; [exact Hs|]. unfold eps_targets_of. apply in_flat_map.
      exists (GlobstarTransition sl ex). split; [exact Ht|left; reflexivity]. }
    intros H. injection H as <-.
    set (Q1 := fold_left _ C queue) in *.
    destruct (Js.set_has visited sl) eqn:Hv; simpl.
    + apply set_has_In in Hv. split; [exact Hkeep|]. split.
      * intros j [<-|[<-|[]]]; [auto|]. apply Hall. exact Hex.
      * intros e He. destruct (Hfrom e He) as [He0|[Hp Hin]]; [auto|].
        right. right. split; [exact Hp|].
        eapply eps_reach_trans; [|apply Hreach; exact Hin].
        eapply eps_reach_step; [constructor|exact Hiex].
    + split; [intros e He; apply in_or_app; left; auto|]. split.
      * intros j [<-|[<-|[]]].
        -- right. unfold ids. rewrite map_app. apply in_or_app. right. left. reflexivity.
        -- destruct (Hall ex Hex) as [H|H]; [auto|]. right.
           unfold ids in *. rewrite map_app. apply in_or_app. left. exact H.
      * intros e He. apply in_app_or in He. destruct He as [He|[<-|[]]].
        -- destruct (Hfrom e He) as [He0|[Hp Hin]]; [auto|].
           right. right. split; [exact Hp|].
           eapply eps_reach_trans; [|apply Hreach; exact Hin].
           eapply eps_reach_step; [constructor|exact Hiex].
        -- right. left. apply snoc_not_nil.
  - intros H. injection H as <-.
    destruct (Hpush tg p) as (H1 & H2 & H3).
    { right. split; [reflexivity|]. eapply eps_reach_step; [constructor|].
      exists s. split; [exact Hs|]. unfold eps_targets_of. apply in_flat_map.
      exists (EpsilonTransition tg). split; [exact Ht|left; reflexivity]. }
    split; [exact H1|]. split; [intros j [<-|[]]; exact H2|exact H3].
Qed.

Lemma explore_all_complete visited i s p ts :
  state_at a i = Some s ->
  forall queue queue',
    (forall t, In t ts -> In t (transitions s)) ->
    foldM (explore a visited p) ts queue = Ok queue' ->
    (forall e, In e queue -> In e queue') /\
    (forall t j, In t ts -> In j (getTransitionTargets t) ->
                 In j visited \/ In j (ids queue')) /\
    (forall e, In e queue' ->
               In e queue \/ path e <> [] \/
               (path e = p /\ eps_reach a i (search_stateId e))).
Proof.
  intros Hs. induction ts as [|t ts IH]; intros queue queue' Hts Hrun.
  - injection Hrun as <-. split; [auto|]. split; [intros t j []|auto].
  - cbn [foldM] in Hrun.
    destruct (explore a visited p queue t) as [q1|e] eqn:H1; cbn [bind] in Hrun;
      [|discriminate].
    destruct (explore_complete _ _ _ _ _ _ _ Hs (Hts t (or_introl eq_refl)) H1)
      as (Hk1 & Ht1 & Hf1).
    destruct (IH q1 queue' (fun t' Ht' => Hts t' (or_intror Ht')) Hrun)
      as (Hk2 & Ht2 & Hf2).
    split; [auto|]. split.
    + intros t' j [<-|Ht'] Hj; [|eauto].
      destruct (Ht1 j Hj) as [H|H]; [auto|]. right.
      unfold ids in *. apply in_map_iff in H. destruct H as (e & He & Hin).
      apply in_map_iff. exists e. auto.
    + intros e He. destruct (Hf2 e He) as [He1|Hnew]; [|auto]. auto.
Qed.

(** When [findWitness] returns [undefined], no state reachable from the
    initial state has its [accepting] bit set. *)
Lemma findWitness_none :
  findWitness a = Ok None ->
  forall i s, graph_reach a (initialState a) i -> state_at a i = Some s ->
              accepting s = false.
Proof.
  unfold findWitness.
  destruct (epsilonClosure a (initialState a)) as [C0|e] eqn:HC0; cbn [bind];
    [|discriminate].
  destruct (epsilonClosure_closed _ _ HC0) as [Hinit0 Hclosed0].
  destruct (existsb _ C0) eqn:Hacc0; [discriminate|].
  assert (HC0acc : forall c s, In c C0 -> state_at a c = Some s -> accepting s = false).
  { intros c s Hc Hs. destruct (accepting s) eqn:Hacc; [|reflexivity].
    assert (Hex : existsb (fun stateId => match state_at a stateId with
                                          | Some state => accepting state
                                          | None => false
                                          end) C0 = true).
    { apply existsb_exists. exists c. split; [exact Hc|]. rewrite Hs. exact Hacc. }
    congruence. }
  assert (HC0reach : forall c j, In c C0 -> eps_reach a c j -> In j C0).
  { intros c j Hc H. induction H as [|j k _ IH Hjk]; [exact Hc|]. eapply Hclosed0; eauto. }
  intros Hrun.
  assert (Hpost : exists V, In (initialState a) V /\ closed a (fun i => In i V) /\
                            forall i s, In i V -> state_at a i = Some s ->
                                        accepting s = false).
  { refine (while_loop_inv (witness_step a)
              (fun st => (In (initialState a) (fst st) \/
                          In (initialState a) (ids (snd st))) /\
                         (forall i j, In i (fst st) -> edge a i j ->
                                      In j (fst st) \/ In j (ids (snd st))) /\
                         (forall i s, In i (fst st) -> state_at a i = Some s ->
                                      accepting s = false) /\
                         at_start C0 (snd st))
              (fun r => r = None ->
                        exists V, In (initialState a) V /\ closed a (fun i => In i V) /\
                                  forall i s, In i V -> state_at a i = Some s ->
                                              accepting s = false)
              _ _ _ _ _ _ Hrun eq_refl).
    - intros [V Q] [V1 Q1] (Hstart & Hedges & Hnon & Hat). cbn [fst snd] in *.
      unfold witness_step. destruct Q as [|[i p] Q]; [discriminate|].
      assert (Hat' : at_start C0 Q) by (intros e He; apply Hat; right; exact He).
      destruct (Js.set_has V i) eqn:Hv.
      + apply set_has_In in Hv. intros H. injection H as <- <-.
        split; [|split; [|split; [exact Hnon|exact Hat']]].
        * destruct Hstart as [H|[<-|H]]; auto.
        * intros i' j Hi Hij. destruct (Hedges i' j Hi Hij) as [H|[<-|H]]; auto.
      + destruct (state_at a i) as [s|] eqn:Hs.
        * destruct (accepting s && Nat.ltb 0 (List.length p)) eqn:Hret; [discriminate|].
          destruct (foldM (explore a (Js.set_add V i) p) (transitions s) Q)
            as [Q'|e] eqn:Hfold; cbn [bind]; [|discriminate].
          intros H. injection H as <- <-.
          destruct (explore_all_complete _ _ _ _ _ Hs _ _ (fun t Ht => Ht) Hfold)
            as (Hkeep & Htargets & Hfrom).
          assert (Hids : forall j, In j (ids Q) -> In j (ids Q')).
          { intros j Hj. unfold ids in *. apply in_map_iff in Hj.
            destruct Hj as (e & He & Hin). apply in_map_iff. exists e. auto. }
          split; [|split; [|split]].
          -- destruct Hstart as [H|[<-|H]]; [left|left|right; auto];
               apply set_add_In; auto.
          -- intros i' j Hi Hij. apply set_add_In in Hi. destruct Hi as [->|Hi].
             ++ destruct Hij as (s' & Hs' & Hj). rewrite Hs in Hs'.
                injection Hs' as <-. apply in_flat_map in Hj.
                destruct Hj as (t & Ht & Hj). eapply Htargets; eauto.
             ++ destruct (Hedges i' j Hi Hij) as [H|[<-|H]];
                  [left|left|right; auto]; apply set_add_In; auto.
          -- intros i' s' Hi Hs'. apply set_add_In in Hi. destruct Hi as [->|Hi];
               [|eauto].
             rewrite Hs in Hs'. injection Hs' as <-.
             apply andb_false_iff in Hret. destruct Hret as [Hf|Hp]; [exact Hf|].
             apply Nat.ltb_ge in Hp. destruct p; [|simpl in Hp; lia].
             eapply HC0acc; [|exact Hs].
             apply (Hat (mkSearch i [])); [left; reflexivity|reflexivity].
          -- intros e He Hp. destruct (Hfrom e He) as [He0|[Hne|[Hpe Hreach]]].
             ++ apply Hat'; auto.
             ++ contradiction.
             ++ rewrite Hp in Hpe. subst p.
                eapply HC0reach; [|exact Hreach].
                apply (Hat (mkSearch i [])); [left; reflexivity|reflexivity].
        * intros H. injection H as <- <-.
          split; [|split; [|split; [|exact Hat']]].
          -- destruct Hstart as [H|[<-|H]]; [left|left|right; auto];
               apply set_add_In; auto.
          -- intros i' j Hi Hij. apply set_add_In in Hi. destruct Hi as [->|Hi].
             ++ destruct Hij as (s' & Hs' & _). congruence.
             ++ destruct (Hedges i' j Hi Hij) as [H|[<-|H]];
                  [left|left|right; auto]; apply set_add_In; auto.
          -- intros i' s' Hi Hs'. apply set_add_In in Hi. destruct Hi as [->|Hi];
               [congruence|eauto].
    - intros [V Q] r (Hstart & Hedges & Hnon & Hat). cbn [fst snd] in *.
      unfold witness_step. destruct Q as [|[i p] Q].
      + intros _ _. exists V. split; [destruct Hstart as [H|[]]; exact H|].
        split; [|exact Hnon].
        intros i j Hi Hij. destruct (Hedges i j Hi Hij) as [H|[]]. exact H.
      + destruct (Js.set_has V i); [discriminate|].
        destruct (state_at a i) as [s|]; [|discriminate].
        destruct (accepting s && Nat.ltb 0 (List.length p)).
        * intros H Hr. injection H as <-. discriminate.
        * destruct (foldM _ _ _); discriminate.
    - cbn [fst snd]. split; [right; left; reflexivity|].
      split; [intros i j []|]. split; [intros i s []|].
      intros e [<-|He] _; [exact Hinit0|].
      apply in_map_iff in He. destruct He as (c & <- & Hc).
      apply filter_In in Hc. exact (proj1 Hc). }
  destruct Hpost as (V & HinitV & HclosedV & HnonV).
  intros i s Hreach Hs. eapply HnonV; [|exact Hs].
  eapply (closed_graph_reach (fun i => In i V)); eauto.
Qed.

End Reachability.

End ReachabilitySpec.

(** [findWitness] finds no path exactly when [isEmpty] holds, for an
    automaton whose [acceptingStates] are the states with the [accepting]
    bit set. *)
Lemma findWitness_none_iff_isEmpty a :
  accepting_listed a -> listed_accepting a ->
  (Emptiness.findWitness a = Ok None <-> Emptiness.isEmpty a = Ok true).
Proof.
  intros Hlisted Hsound. split.
  - intros Hnone.
    destruct (ReachabilitySpec.isEmpty_exact a) as (b & Hb & Hiff).
    destruct b; [exact Hb|].
    destruct (proj1 Hiff eq_refl) as (i & Hi & Hreach).
    destruct (Hsound i Hi) as (s & Hs & Hacc).
    rewrite (ReachabilitySpec.findWitness_none a Hnone i s Hreach Hs) in Hacc.
    discriminate.
  - apply isEmpty_findWitness. exact Hlisted.
Qed.

(* ===================================================================== *)
(** ** The automaton of a pattern is well formed                          *)
(* ===================================================================== *)

(** Induction on pattern nodes, through the lists of branches *)
Lemma PatternNode_nested_ind (P : PatternNode -> Prop) :
  (forall segments, P (SegmentSequence segments)) ->
  (forall branches, Forall P branches -> P (Alternation branches)) ->
  forall node, P node.
Proof.
  intros Hseq Halt.
  fix IH 1. intros [segments|branches].
  - apply Hseq.
  - apply Halt. induction branches as [|b bs IHb]; constructor; [apply IH|exact IHb].
Qed.

Module BuilderSpec.

Import Builder.

(** The [accepting] bit of the state at index [i]; false outside the array *)
Definition acc_at (sts : list AutomatonState) (i : nat) : bool :=
  match nth_error sts i with Some s => accepting s | None => false end.

(** The builder numbers its states by their index, and every transition
    target is an existing state. *)
Record BInv (b : AutomatonBuilder) : Prop := mkBInv {
  bi_next : nextStateId b = List.length (builder_states b);
  bi_below : states_below (List.length (builder_states b)) (builder_states b);
  bi_ids : forall i s, nth_error (builder_states b) i = Some s -> id s = i
}.

(** [b'] extends [b]: no state is lost and no [accepting] bit changes. *)
Definition extends (b b' : AutomatonBuilder) : Prop :=
  BInv b' /\
  List.length (builder_states b) <= List.length (builder_states b') /\
  forall i, acc_at (builder_states b') i = acc_at (builder_states b) i.

Lemma extends_refl b : BInv b -> extends b b.
Proof. intros H. split; [exact H|]. split; [lia|reflexivity]. Qed.

Lemma extends_trans b1 b2 b3 : extends b1 b2 -> extends b2 b3 -> extends b1 b3.
Proof.
  intros (_ & Hl1 & Ha1) (H3 & Hl2 & Ha2). split; [exact H3|]. split; [lia|].
  intros i. rewrite Ha2. apply Ha1.
Qed.

Lemma createState_spec b i b' :
  BInv b -> createState b false = (i, b') ->
  i = List.length (builder_states b) /\
  List.length (builder_states b') = S (List.length (builder_states b)) /\
  extends b b'.
Proof.
  intros [Hnext Hbelow Hids]. unfold createState. intros H. injection H as <- <-.
  cbn [builder_states nextStateId]. rewrite length_app. cbn [List.length].
  split; [exact Hnext|]. split; [lia|]. split; [|split].
  - constructor; cbn [builder_states nextStateId].
    + rewrite length_app. simpl. lia.
    + rewrite length_app. apply states_below_app.
      * eapply states_below_mono; [|exact Hbelow]. lia.
      * intros s t [<-|[]] [].
    + intros i s Hnth.
      destruct (Nat.lt_ge_cases i (List.length (builder_states b))) as [Hlt|Hge].
      * rewrite nth_error_app1 in Hnth by exact Hlt. eauto.
      * rewrite nth_error_app2 in Hnth by exact Hge.
        destruct (i - List.length (builder_states b)) as [|k] eqn:Hk.
        -- simpl in Hnth. injection Hnth as <-. simpl. lia.
        -- simpl in Hnth. destruct k; discriminate.
  - cbn [builder_states]. rewrite length_app. lia.
  - intros i. unfold acc_at. cbn [builder_states].
    destruct (Nat.lt_ge_cases i (List.length (builder_states b))) as [Hlt|Hge].
    + rewrite nth_error_app1 by exact Hlt. reflexivity.
    + rewrite nth_error_app2 by exact Hge.
      assert (Hnone : nth_error (builder_states b) i = None)
        by (apply nth_error_None; exact Hge).
      rewrite Hnone.
      destruct (i - List.length (builder_states b)) as [|[|k]]; reflexivity.
Qed.

Lemma addTransition_spec b from t :
  BInv b -> from < List.length (builder_states b) ->
  targets_below (List.length (builder_states b)) t ->
  exists b', addTransition b from t = Ok b' /\
             List.length (builder_states b') = List.length (builder_states b) /\
             extends b b'.
Proof.
  intros [Hnext Hbelow Hids] Hfrom Ht. unfold addTransition.
  destruct (nth_error (builder_states b) from) as [s|] eqn:Hs;
    [|apply nth_error_None in Hs; lia].
  eexists. split; [reflexivity|]. cbn [builder_states].
  rewrite array_set_length. split; [reflexivity|]. split; [|split].
  - constructor; cbn [builder_states nextStateId].
    + rewrite array_set_length. exact Hnext.
    + rewrite array_set_length. intros s' t' Hin Ht'.
      apply array_set_In in Hin. destruct Hin as [->|Hin].
      * cbn [transitions] in Ht'. apply in_app_or in Ht'.
        destruct Ht' as [Ht'|[<-|[]]]; [|exact Ht].
        eapply Hbelow; eauto. eapply nth_error_In; exact Hs.
      * eapply Hbelow; eauto.
    + intros i s' Hnth. destruct (Nat.eq_dec from i) as [<-|Hne].
      * rewrite array_set_nth_same in Hnth by exact Hfrom.
        injection Hnth as <-. cbn [id]. eauto.
      * rewrite array_set_nth_other in Hnth by exact Hne. eauto.
  - cbn [builder_states]. rewrite array_set_length. lia.
  - intros i. unfold acc_at. cbn [builder_states].
    destruct (Nat.eq_dec from i) as [<-|Hne].
    + rewrite array_set_nth_same by exact Hfrom. rewrite Hs. reflexivity.
    + rewrite array_set_nth_other by exact Hne. reflexivity.
Qed.

Lemma targets_below_single n t x :
  Emptiness.getTransitionTargets t = [x] -> x < n -> targets_below n t.
Proof. intros Ht H y Hy. rewrite Ht in Hy. destruct Hy as [<-|[]]. exact H. Qed.

Lemma buildSegmentAutomaton_spec b segment start endS b' :
  BInv b -> start < List.length (builder_states b) ->
  endS < List.length (builder_states b) ->
  buildSegmentAutomaton b segment start endS = Ok b' ->
  List.length (builder_states b') = List.length (builder_states b) /\ extends b b'.
Proof.
  intros Hb Hs He.
  assert (Hadd : forall t, targets_below (List.length (builder_states b)) t ->
                           addTransition b start t = Ok b' ->
                           List.length (builder_states b') = List.length (builder_states b)
                           /\ extends b b').
  { intros t Ht Hrun. destruct (addTransition_spec b start t Hb Hs Ht) as (b1 & H1 & Hl & Hx).
    rewrite Hrun in H1. injection H1 as <-. auto. }
  assert (Hregex : forall source,
            (regex <- SegMatch.segmentToRegex segment ;;
             match regex with
             | Some regex =>
                 addTransition b start (WildcardTransition (MRegExp regex) source endS)
             | None => Ok b
             end) = Ok b' ->
            List.length (builder_states b') = List.length (builder_states b)
            /\ extends b b').
  { intros source. destruct (SegMatch.segmentToRegex segment) as [[regex|]|e];
      cbn [bind]; [| |discriminate].
    - apply Hadd. intros y Hy. simpl in Hy. destruct Hy as [<-|[]]. exact He.
    - intros H. injection H as <-. split; [reflexivity|]. apply extends_refl. exact Hb. }
  destruct segment; cbn [buildSegmentAutomaton].
  - apply Hadd. intros y Hy. simpl in Hy. destruct Hy as [<-|[]]. exact He.
  - apply Hregex.
  - apply Hadd. intros y [<-|[<-|[]]]; assumption.
  - apply Hregex.
  - apply Hregex.
Qed.

Lemma buildSequenceLoop_spec segments :
  forall b current endS b',
    BInv b -> current < List.length (builder_states b) ->
    endS < List.length (builder_states b) ->
    buildSequenceLoop b segments current endS = Ok b' -> extends b b'.
Proof.
  induction segments as [|segment rest IH]; intros b current endS b' Hb Hc He Hrun.
  - injection Hrun as <-. apply extends_refl. exact Hb.
  - cbn [buildSequenceLoop] in Hrun.
    destruct rest as [|next rest].
    + cbn zeta in Hrun.
      destruct (buildSegmentAutomaton b segment current endS) as [b1|e] eqn:H1;
        cbn [bind] in Hrun; [|discriminate].
      injection Hrun as <-.
      exact (proj2 (buildSegmentAutomaton_spec _ _ _ _ _ Hb Hc He H1)).
    + cbn zeta in Hrun.
      destruct (createState b false) as [nextState b0] eqn:Hcreate.
      destruct (createState_spec b _ _ Hb Hcreate) as (Hid & Hlen0 & Hx0).
      destruct (buildSegmentAutomaton b0 segment current nextState) as [b1|e] eqn:H1;
        cbn [bind] in Hrun; [|discriminate].
      destruct (buildSegmentAutomaton_spec b0 segment current nextState b1)
        as (Hlen1 & Hx1); [apply Hx0|lia|lia|exact H1|].
      eapply extends_trans; [exact Hx0|]. eapply extends_trans; [exact Hx1|].
      eapply IH; [apply Hx1| | |exact Hrun]; lia.
Qed.

Lemma buildSequenceAutomaton_spec segments b start endS b' :
  BInv b -> start < List.length (builder_states b) ->
  endS < List.length (builder_states b) ->
  buildSequenceAutomaton b segments start endS = Ok b' -> extends b b'.
Proof.
  intros Hb Hs He. destruct segments as [|segment rest]; cbn [buildSequenceAutomaton].
  - intros Hrun.
    destruct (addTransition_spec b start (EpsilonTransition endS) Hb Hs
                (targets_below_single _ (EpsilonTransition endS) endS eq_refl He)) as (b1 & H1 & _ & Hx).
    rewrite Hrun in H1. injection H1 as <-. exact Hx.
  - apply buildSequenceLoop_spec; assumption.
Qed.

Lemma buildNodeAutomaton_spec node :
  forall b start endS b',
    BInv b -> start < List.length (builder_states b) ->
    endS < List.length (builder_states b) ->
    buildNodeAutomaton b node start endS = Ok b' -> extends b b'.
Proof.
  induction node as [segments|branches IH] using PatternNode_nested_ind;
    intros b start endS b' Hb Hs He Hrun.
  - cbn [buildNodeAutomaton] in Hrun.
    exact (buildSequenceAutomaton_spec _ _ _ _ _ Hb Hs He Hrun).
  - cbn [buildNodeAutomaton] in Hrun. revert b Hb Hs He Hrun.
    induction IH as [|branch rest Hbranch _ IHrest]; intros b Hb Hs He Hrun.
    + injection Hrun as <-. apply extends_refl. exact Hb.
    + destruct (createState b false) as [branchStart b1] eqn:Hc1.
      destruct (createState_spec b _ _ Hb Hc1) as (Hid1 & Hlen1 & Hx1).
      destruct (createState b1 false) as [branchEnd b2] eqn:Hc2.
      destruct (createState_spec b1 _ _ (proj1 Hx1) Hc2) as (Hid2 & Hlen2 & Hx2).
      assert (Hs2 : start < List.length (builder_states b2)) by lia.
      assert (Hbs2 : branchStart < List.length (builder_states b2)) by lia.
      destruct (addTransition_spec b2 start (EpsilonTransition branchStart)
                  (proj1 Hx2) Hs2
                  (targets_below_single _ (EpsilonTransition branchStart) branchStart
                     eq_refl Hbs2))
        as (b3 & H3 & Hlen3 & Hx3).
      rewrite H3 in Hrun. cbn [bind] in Hrun.
      destruct (buildNodeAutomaton b3 branch branchStart branchEnd) as [b4|e] eqn:H4;
        cbn [bind] in Hrun; [|discriminate].
      assert (Hx4 : extends b3 b4).
      { eapply Hbranch; [apply Hx3| | |exact H4]; lia. }
      destruct Hx4 as (Hb4 & Hlen4 & Hacc4).
      assert (Hbe4 : branchEnd < List.length (builder_states b4)) by lia.
      assert (He4 : endS < List.length (builder_states b4)) by lia.
      destruct (addTransition_spec b4 branchEnd (EpsilonTransition endS)
                  Hb4 Hbe4
                  (targets_below_single _ (EpsilonTransition endS) endS eq_refl He4))
        as (b5 & H5 & Hlen5 & Hx5).
      rewrite H5 in Hrun. cbn [bind] in Hrun.
      assert (Hx05 : extends b b5).
      { eapply extends_trans; [exact Hx1|]. eapply extends_trans; [exact Hx2|].
        eapply extends_trans; [exact Hx3|].
        eapply extends_trans; [|exact Hx5]. split; [exact Hb4|]. split; assumption. }
      eapply extends_trans; [exact Hx05|].
      apply IHrest; [apply Hx5| | |exact Hrun]; destruct Hx05 as (_ & Hl & _); lia.
Qed.

(** [buildAutomaton] returns a well-formed automaton, not flagged
    deterministic, with initial state 0 and the single accepting state 1,
    whose states carry their index as [id]. *)
Lemma buildAutomaton_spec pattern a :
  buildAutomaton pattern = Ok a ->
  well_formed a /\
  isDeterministic a = false /\
  initialState a = 0 /\
  acceptingStates a = [1] /\
  (forall i s, state_at a i = Some s -> id s = i /\ (accepting s = true <-> i = 1)) /\
  2 <= List.length (states a).
Proof.
  set (b2 := mkBuilder [mkState 0 [] false; mkState 1 [] true] 2).
  change (buildAutomaton pattern)
    with (builder <- buildNodeAutomaton b2 (root pattern) 0 1 ;;
          Ok (mkAutomaton (builder_states builder) 0 [1] false)).
  destruct (buildNodeAutomaton b2 (root pattern) 0 1) as [b|e] eqn:Hrun; cbn [bind];
    [|discriminate].
  intros H. injection H as <-.
  assert (Hb2 : BInv b2).
  { constructor; cbn [builder_states nextStateId b2].
    - reflexivity.
    - intros s t [<-|[<-|[]]] [].
    - intros [|[|i]] s H; simpl in H;
        [injection H as <-; reflexivity|injection H as <-; reflexivity|].
      destruct i; discriminate. }
  destruct (buildNodeAutomaton_spec _ b2 0 1 b Hb2 ltac:(simpl; lia) ltac:(simpl; lia) Hrun)
    as ([Hnext Hbelow Hids] & Hlen & Hacc).
  cbn [builder_states b2 List.length] in Hlen.
  split; [split; cbn [states initialState]; [lia|exact Hbelow]|].
  do 3 (split; [reflexivity|]). split; [|exact Hlen].
  intros i s Hs. unfold state_at in Hs. cbn [states] in Hs.
  split; [eauto|].
  specialize (Hacc i). unfold acc_at in Hacc. rewrite Hs in Hacc.
  cbn [builder_states b2] in Hacc. rewrite Hacc.
  destruct i as [|[|[|i]]]; simpl; split; intros H; try discriminate; try reflexivity; lia.
Qed.

End BuilderSpec.

(** The automaton of a pattern lists its accepting states. *)
Lemma buildAutomaton_accepting pattern a :
  Builder.buildAutomaton pattern = Ok a -> accepting_listed a /\ listed_accepting a.
Proof.
  intros H. destruct (BuilderSpec.buildAutomaton_spec _ _ H)
    as (Hwf & _ & _ & Hacc & Hstates & Hlen).
  split.
  - intros i s Hs Ha. rewrite Hacc. left. symmetry.
    apply (proj2 (Hstates i s Hs)). exact Ha.
  - intros i Hi. rewrite Hacc in Hi. destruct Hi as [<-|[]].
    destruct (state_at a 1) as [s|] eqn:Hs.
    + exists s. split; [reflexivity|]. apply (proj2 (Hstates 1 s Hs)). reflexivity.
    + apply nth_error_None in Hs. lia.
Qed.

(* ===================================================================== *)
(** ** [union]                                                            *)
(* ===================================================================== *)

Module UnionSpec.

Import Intersect.

Definition renumber (offset : nat) (state : AutomatonState) : AutomatonState :=
  mkState (id state + offset)
          (map (fun t => renumberTransition t offset) (transitions state))
          (accepting state).

Lemma eps_targets_of_renumber ts offset j :
  In j (eps_targets_of (map (fun t => renumberTransition t offset) ts)) <->
  exists j', In j' (eps_targets_of ts) /\ j = j' + offset.
Proof.
  unfold eps_targets_of. rewrite in_flat_map. split.
  - intros (t & Ht & Hj). apply in_map_iff in Ht. destruct Ht as (t0 & <- & Ht0).
    destruct t0; simpl in Hj; try contradiction; destruct Hj as [<-|[]];
      eexists; (split; [apply in_flat_map; eexists; split; [exact Ht0|left; reflexivity]
                       |reflexivity]).
  - intros (j' & Hj' & ->). apply in_flat_map in Hj'. destruct Hj' as (t & Ht & Hj').
    exists (renumberTransition t offset). split; [apply in_map_iff; exists t; auto|].
    destruct t; simpl in *; try contradiction; destruct Hj' as [<-|[]]; left; reflexivity.
Qed.

Lemma matchTransition_renumber t offset segment :
  Matcher.matchTransition (renumberTransition t offset) segment
  = Matcher.matchTransition t segment.
Proof. destruct t; reflexivity. Qed.

Lemma getTransitionTarget_renumber t offset segment :
  Matcher.getTransitionTarget (renumberTransition t offset) segment
  = option_map (fun x => x + offset) (Matcher.getTransitionTarget t segment).
Proof. destruct t; reflexivity. Qed.

Lemma targets_renumber t offset :
  Emptiness.getTransitionTargets (renumberTransition t offset)
  = map (fun x => x + offset) (Emptiness.getTransitionTargets t).
Proof. destruct t; reflexivity. Qed.

Section Union.

Variables a b : SegmentAutomaton.
Hypothesis a_wf : well_formed a.
Hypothesis b_wf : well_formed b.

Let na := List.length (states a).
Let nb := List.length (states b).

Lemma union_states :
  states (union a b)
  = (map (renumber 0) (states a) ++ map (renumber na) (states b)
     ++ [mkState (na + nb)
           [EpsilonTransition (initialState a + 0);
            EpsilonTransition (initialState b + na)] false])%list.
Proof. reflexivity. Qed.

Lemma union_length : List.length (states (union a b)) = S (na + nb).
Proof.
  rewrite union_states, !length_app, !length_map. cbn [List.length].
  fold na nb. lia.
Qed.

Lemma state_at_left i :
  i < na -> state_at (union a b) i = option_map (renumber 0) (state_at a i).
Proof.
  intros Hi. unfold state_at. rewrite union_states.
  rewrite nth_error_app1 by (rewrite length_map; exact Hi).
  apply nth_error_map.
Qed.

Lemma state_at_right i :
  i < nb -> state_at (union a b) (i + na) = option_map (renumber na) (state_at b i).
Proof.
  intros Hi. unfold state_at. rewrite union_states.
  rewrite nth_error_app2 by (rewrite length_map; fold na; lia).
  rewrite length_map. fold na. replace (i + na - na) with i by lia.
  rewrite nth_error_app1 by (rewrite length_map; exact Hi).
  apply nth_error_map.
Qed.

Lemma state_at_new :
  state_at (union a b) (na + nb)
  = Some (mkState (na + nb)
            [EpsilonTransition (initialState a + 0);
             EpsilonTransition (initialState b + na)] false).
Proof.
  unfold state_at. rewrite union_states.
  rewrite nth_error_app2 by (rewrite length_map; fold na; lia).
  rewrite length_map. fold na.
  rewrite nth_error_app2 by (rewrite length_map; fold nb; lia).
  rewrite length_map. fold nb. replace (na + nb - na - nb) with 0 by lia.
  reflexivity.
Qed.

Lemma state_in_range (x : SegmentAutomaton) i s :
  state_at x i = Some s -> i < List.length (states x).
Proof. intros H. apply nth_error_Some. unfold state_at in H. congruence. Qed.

Lemma eps_edge_range (x : SegmentAutomaton) i j :
  well_formed x -> eps_edge x i j -> j < List.length (states x).
Proof.
  intros [_ Hbelow] (s & Hs & Hj).
  apply eps_targets_of_targets in Hj. apply in_flat_map in Hj.
  destruct Hj as (t & Ht & Hj). eapply Hbelow; eauto. eapply nth_error_In; exact Hs.
Qed.

Lemma seg_edge_range (x : SegmentAutomaton) segment i j :
  well_formed x -> seg_edge x segment i j -> j < List.length (states x).
Proof.
  intros [_ Hbelow] (s & t & Hs & Ht & _ & Htg).
  eapply Hbelow; [eapply nth_error_In; exact Hs|exact Ht|].
  destruct t; simpl in *; try discriminate; injection Htg as <-; auto.
Qed.

Lemma reach_range (x : SegmentAutomaton) p i :
  well_formed x -> reach x p i -> i < List.length (states x).
Proof.
  intros Hwf H. destruct H as [|p i j _ Hij|p segment i j _ Hij].
  - apply Hwf.
  - eapply eps_edge_range; eauto.
  - eapply seg_edge_range; eauto.
Qed.

(** Edges of the operands are edges of the union, shifted. *)
Lemma eps_edge_left i j : eps_edge a i j -> eps_edge (union a b) i j.
Proof.
  intros (s & Hs & Hj). exists (renumber 0 s). split.
  - rewrite state_at_left by (eapply state_in_range; exact Hs). rewrite Hs. reflexivity.
  - cbn [renumber transitions]. apply eps_targets_of_renumber.
    exists j. split; [exact Hj|lia].
Qed.

Lemma eps_edge_right i j : eps_edge b i j -> eps_edge (union a b) (i + na) (j + na).
Proof.
  intros (s & Hs & Hj). exists (renumber na s). split.
  - rewrite state_at_right by (eapply state_in_range; exact Hs). rewrite Hs. reflexivity.
  - cbn [renumber transitions]. apply eps_targets_of_renumber.
    exists j. split; [exact Hj|reflexivity].
Qed.

Lemma seg_edge_left segment i j :
  seg_edge a segment i j -> seg_edge (union a b) segment i j.
Proof.
  intros (s & t & Hs & Ht & Hm & Htg).
  exists (renumber 0 s), (renumberTransition t 0). split; [|split; [|split]].
  - rewrite state_at_left by (eapply state_in_range; exact Hs). rewrite Hs. reflexivity.
  - cbn [renumber transitions]. apply in_map_iff. exists t. auto.
  - rewrite matchTransition_renumber. exact Hm.
  - rewrite getTransitionTarget_renumber, Htg. cbn [option_map]. f_equal. lia.
Qed.

Lemma seg_edge_right segment i j :
  seg_edge b segment i j -> seg_edge (union a b) segment (i + na) (j + na).
Proof.
  intros (s & t & Hs & Ht & Hm & Htg).
  exists (renumber na s), (renumberTransition t na). split; [|split; [|split]].
  - rewrite state_at_right by (eapply state_in_range; exact Hs). rewrite Hs. reflexivity.
  - cbn [renumber transitions]. apply in_map_iff. exists t. auto.
  - rewrite matchTransition_renumber. exact Hm.
  - rewrite getTransitionTarget_renumber, Htg. reflexivity.
Qed.

Lemma new_initial : initialState (union a b) = na + nb.
Proof. reflexivity. Qed.

Lemma reach_left p i : reach a p i -> reach (union a b) p i.
Proof.
  induction 1 as [|p i j _ IH Hij|p segment i j _ IH Hij].
  - eapply reach_eps; [constructor|]. rewrite new_initial.
    exists (mkState (na + nb)
              [EpsilonTransition (initialState a + 0);
               EpsilonTransition (initialState b + na)] false).
    split; [apply state_at_new|]. simpl. left. lia.
  - eapply reach_eps; [exact IH|]. apply eps_edge_left. exact Hij.
  - eapply reach_segment; [exact IH|]. apply seg_edge_left. exact Hij.
Qed.

Lemma reach_right p i : reach b p i -> reach (union a b) p (i + na).
Proof.
  induction 1 as [|p i j _ IH Hij|p segment i j _ IH Hij].
  - eapply reach_eps; [constructor|]. rewrite new_initial.
    exists (mkState (na + nb)
              [EpsilonTransition (initialState a + 0);
               EpsilonTransition (initialState b + na)] false).
    split; [apply state_at_new|]. simpl. right. left. reflexivity.
  - eapply reach_eps; [exact IH|]. apply eps_edge_right. exact Hij.
  - eapply reach_segment; [exact IH|]. apply seg_edge_right. exact Hij.
Qed.

(** Where a run of the union can be *)
Definition located (p : list string) (i : nat) : Prop :=
  (i = na + nb /\ p = []) \/
  (i < na /\ reach a p i) \/
  (exists i', i = i' + na /\ i' < nb /\ reach b p i').

Lemma located_eps p i j :
  located p i -> eps_edge (union a b) i j -> located p j.
Proof.
  intros Hloc (s & Hs & Hj).
  destruct Hloc as [[-> ->]|[[Hi Hr]|(i' & -> & Hi' & Hr)]].
  - rewrite state_at_new in Hs. injection Hs as <-. simpl in Hj.
    destruct Hj as [<-|[<-|[]]].
    + right. left. rewrite Nat.add_0_r. split; [apply a_wf|constructor].
    + right. right. exists (initialState b). split; [reflexivity|].
      split; [apply b_wf|constructor].
  - rewrite state_at_left in Hs by exact Hi.
    destruct (state_at a i) as [s0|] eqn:Hs0; [|discriminate].
    injection Hs as <-. cbn [renumber transitions] in Hj.
    apply eps_targets_of_renumber in Hj. destruct Hj as (j' & Hj' & ->).
    rewrite Nat.add_0_r.
    assert (Hedge : eps_edge a i j') by (exists s0; auto).
    right. left. split; [eapply eps_edge_range; eauto|eapply reach_eps; eauto].
  - rewrite state_at_right in Hs by exact Hi'.
    destruct (state_at b i') as [s0|] eqn:Hs0; [|discriminate].
    injection Hs as <-. cbn [renumber transitions] in Hj.
    apply eps_targets_of_renumber in Hj. destruct Hj as (j' & Hj' & ->).
    assert (Hedge : eps_edge b i' j') by (exists s0; auto).
    right. right. exists j'. split; [reflexivity|].
    split; [eapply eps_edge_range; eauto|eapply reach_eps; eauto].
Qed.

Lemma located_segment p segment i j :
  located p i -> seg_edge (union a b) segment i j ->
  located (p ++ [segment])%list j.
Proof.
  intros Hloc (s & t & Hs & Ht & Hm & Htg).
  destruct Hloc as [[-> ->]|[[Hi Hr]|(i' & -> & Hi' & Hr)]].
  - rewrite state_at_new in Hs. injection Hs as <-. simpl in Ht.
    destruct Ht as [<-|[<-|[]]]; discriminate.
  - rewrite state_at_left in Hs by exact Hi.
    destruct (state_at a i) as [s0|] eqn:Hs0; [|discriminate].
    injection Hs as <-. cbn [renumber transitions] in Ht.
    apply in_map_iff in Ht. destruct Ht as (t0 & <- & Ht0).
    rewrite matchTransition_renumber in Hm. rewrite getTransitionTarget_renumber in Htg.
    destruct (Matcher.getTransitionTarget t0 segment) as [j'|] eqn:Htg0; [|discriminate].
    injection Htg as <-. rewrite Nat.add_0_r.
    assert (Hedge : seg_edge a segment i j') by (exists s0, t0; auto).
    right. left. split; [eapply seg_edge_range; eauto|eapply reach_segment; eauto].
  - rewrite state_at_right in Hs by exact Hi'.
    destruct (state_at b i') as [s0|] eqn:Hs0; [|discriminate].
    injection Hs as <-. cbn [renumber transitions] in Ht.
    apply in_map_iff in Ht. destruct Ht as (t0 & <- & Ht0).
    rewrite matchTransition_renumber in Hm. rewrite getTransitionTarget_renumber in Htg.
    destruct (Matcher.getTransitionTarget t0 segment) as [j'|] eqn:Htg0; [|discriminate].
    injection Htg as <-.
    assert (Hedge : seg_edge b segment i' j') by (exists s0, t0; auto).
    right. right. exists j'. split; [reflexivity|].
    split; [eapply seg_edge_range; eauto|eapply reach_segment; eauto].
Qed.

Lemma reach_located p i : reach (union a b) p i -> located p i.
Proof.
  induction 1 as [|p i j _ IH Hij|p segment i j _ IH Hij].
  - left. split; reflexivity.
  - eapply located_eps; eauto.
  - eapply located_segment; eauto.
Qed.

(** The runs of the union that accept are those of its operands. *)
Lemma union_accepting_run p :
  has_accepting_run (union a b) p <->
  has_accepting_run a p \/ has_accepting_run b p.
Proof.
  split.
  - intros (i & s & Hr & Hs & Hacc). apply reach_located in Hr.
    destruct Hr as [[-> ->]|[[Hi Hr]|(i' & -> & Hi' & Hr)]].
    + rewrite state_at_new in Hs. injection Hs as <-. discriminate.
    + left. rewrite state_at_left in Hs by exact Hi.
      destruct (state_at a i) as [s0|] eqn:Hs0; [|discriminate].
      injection Hs as <-. exists i, s0. auto.
    + right. rewrite state_at_right in Hs by exact Hi'.
      destruct (state_at b i') as [s0|] eqn:Hs0; [|discriminate].
      injection Hs as <-. exists i', s0. auto.
  - intros [(i & s & Hr & Hs & Hacc)|(i & s & Hr & Hs & Hacc)].
    + exists i, (renumber 0 s). split; [apply reach_left; exact Hr|]. split; [|exact Hacc].
      rewrite state_at_left by (eapply state_in_range; exact Hs). rewrite Hs. reflexivity.
    + exists (i + na), (renumber na s). split; [apply reach_right; exact Hr|].
      split; [|exact Hacc].
      rewrite state_at_right by (eapply state_in_range; exact Hs). rewrite Hs. reflexivity.
Qed.

Lemma union_well_formed : well_formed (union a b).
Proof.
  split.
  - rewrite union_length, new_initial. lia.
  - rewrite union_length. rewrite union_states.
    destruct a_wf as [Hia Hba]. destruct b_wf as [Hib Hbb].
    apply states_below_app; [|apply states_below_app].
    + intros s t Hs Ht x Hx. apply in_map_iff in Hs. destruct Hs as (s0 & <- & Hs0).
      cbn [renumber transitions] in Ht. apply in_map_iff in Ht.
      destruct Ht as (t0 & <- & Ht0). rewrite targets_renumber in Hx.
      apply in_map_iff in Hx. destruct Hx as (x0 & <- & Hx0).
      specialize (Hba s0 t0 Hs0 Ht0 x0 Hx0). fold na in Hba. lia.
    + intros s t Hs Ht x Hx. apply in_map_iff in Hs. destruct Hs as (s0 & <- & Hs0).
      cbn [renumber transitions] in Ht. apply in_map_iff in Ht.
      destruct Ht as (t0 & <- & Ht0). rewrite targets_renumber in Hx.
      apply in_map_iff in Hx. destruct Hx as (x0 & <- & Hx0).
      specialize (Hbb s0 t0 Hs0 Ht0 x0 Hx0). fold nb in Hbb. lia.
    + fold na in Hia. fold nb in Hib.
      intros s t [<-|[]] [<-|[<-|[]]] x [<-|[]]; lia.
Qed.

(** [simulateNFA] accepts on the union exactly the sequences with an
    accepting run in one of the operands. *)
Lemma union_simulated p :
  exists r, Matcher.simulateNFA (union a b) p = Ok r /\
            (r = true <-> has_accepting_run a p \/ has_accepting_run b p).
Proof.
  destruct (SimulationExact.simulateNFA_exact (union a b) union_well_formed eq_refl p)
    as (r & Hr & Hiff).
  exists r. split; [exact Hr|]. rewrite Hiff. apply union_accepting_run.
Qed.

End Union.

End UnionSpec.

(* ===================================================================== *)
(** ** Path utilities                                                     *)
(* ===================================================================== *)

Module PathSpec.

Import PathUtils.

Local Arguments Ascii.eqb : simpl never.

(** *** Strings as lists of characters *)

Lemma chars_of_chars l : Js.chars (Js.of_chars l) = l.
Proof. induction l; simpl; congruence. Qed.

Lemma of_chars_chars s : Js.of_chars (Js.chars s) = s.
Proof. induction s; simpl; congruence. Qed.

Lemma chars_append s1 s2 : Js.chars (s1 ++ s2) = (Js.chars s1 ++ Js.chars s2)%list.
Proof. induction s1; simpl; congruence. Qed.

Lemma chars_inj s1 s2 : Js.chars s1 = Js.chars s2 -> s1 = s2.
Proof. intros H. rewrite <- (of_chars_chars s1), H. apply of_chars_chars. Qed.

Lemma append_assoc (s1 s2 s3 : string) : (s1 ++ s2) ++ s3 = s1 ++ (s2 ++ s3).
Proof. induction s1; simpl; congruence. Qed.

Lemma append_nil_r (s : string) : s ++ "" = s.
Proof. induction s; simpl; congruence. Qed.

Lemma string_snoc s : s <> "" -> exists s' c, s = s' ++ String c "".
Proof.
  induction s as [|c r IH]; [congruence|]. intros _.
  destruct r as [|c' r'].
  - exists "", c. reflexivity.
  - destruct IH as (s' & d & Hs); [discriminate|].
    exists (String c s'), d. simpl. rewrite <- Hs. reflexivity.
Qed.

Lemma includes_char_spec s c : Js.includes_char s c = true <-> In c (Js.chars s).
Proof.
  unfold Js.includes_char. rewrite existsb_exists. split.
  - intros (x & Hx & Heq). apply Ascii.eqb_eq in Heq. subst. exact Hx.
  - intros H. exists c. split; [exact H|apply Ascii.eqb_refl].
Qed.

Lemma includes_char_false s c : Js.includes_char s c = false <-> ~ In c (Js.chars s).
Proof.
  rewrite <- includes_char_spec. destruct (Js.includes_char s c); split; intros H;
    congruence || (exfalso; apply H; reflexivity) || (intros; discriminate).
Qed.

Lemma slash_free_spec s : slash_free s = true <-> ~ In "/"%char (Js.chars s).
Proof. unfold slash_free. rewrite negb_true_iff. apply includes_char_false. Qed.

Lemma slash_free_cons c r :
  slash_free (String c r) = negb (Ascii.eqb c "/") && slash_free r.
Proof.
  unfold slash_free, Js.includes_char. cbn [Js.chars existsb]. rewrite negb_orb.
  rewrite (Ascii.eqb_sym "/"%char c). reflexivity.
Qed.

Lemma slash_free_append s1 s2 :
  slash_free (s1 ++ s2) = slash_free s1 && slash_free s2.
Proof.
  induction s1 as [|c r IH]; [reflexivity|].
  simpl. rewrite !slash_free_cons, IH. apply andb_assoc.
Qed.

(** *** [split] and [join] *)

Lemma split_nonempty s : Js.split "/" s <> [].
Proof.
  destruct s as [|c r]; simpl; [discriminate|].
  destruct (Ascii.eqb c "/"); [discriminate|].
  destruct (Js.split "/" r); discriminate.
Qed.

Lemma split_slash_free s : slash_free s = true -> Js.split "/" s = [s].
Proof.
  induction s as [|c r IH]; [reflexivity|].
  rewrite slash_free_cons. intros H. apply andb_prop in H. destruct H as [Hc Hr].
  simpl. apply negb_true_iff in Hc. rewrite Hc, (IH Hr). reflexivity.
Qed.

Lemma split_append x r :
  slash_free x = true ->
  Js.split "/" (x ++ String "/" r) = x :: Js.split "/" r.
Proof.
  induction x as [|c x' IH]; [reflexivity|].
  rewrite slash_free_cons. intros H. apply andb_prop in H. destruct H as [Hc Hx].
  simpl. apply negb_true_iff in Hc. rewrite Hc, (IH Hx). reflexivity.
Qed.

Lemma join_cons x y r :
  Js.join "/" (x :: y :: r) = x ++ String "/" (Js.join "/" (y :: r)).
Proof. reflexivity. Qed.

Lemma split_join xs :
  xs <> [] -> forallb slash_free xs = true -> Js.split "/" (Js.join "/" xs) = xs.
Proof.
  induction xs as [|x r IH]; [congruence|]. intros _ H.
  simpl in H. apply andb_prop in H. destruct H as [Hx Hr].
  destruct r as [|y r'].
  - apply split_slash_free. exact Hx.
  - rewrite join_cons, split_append by exact Hx.
    rewrite IH; [reflexivity|discriminate|exact Hr].
Qed.

Lemma split_all_slash_free s : forallb slash_free (Js.split "/" s) = true.
Proof.
  induction s as [|c r IH]; [reflexivity|]. simpl.
  destruct (Ascii.eqb c "/") eqn:Hc.
  - simpl. exact IH.
  - destruct (Js.split "/" r) as [|h t].
    + simpl. rewrite slash_free_cons, Hc. reflexivity.
    + simpl in *. rewrite slash_free_cons, Hc. exact IH.
Qed.

Lemma join_snoc xs l :
  xs <> [] -> Js.join "/" (xs ++ [l]) = Js.join "/" xs ++ String "/" l.
Proof.
  induction xs as [|x r IH]; [congruence|]. intros _.
  destruct r as [|y r'].
  - reflexivity.
  - change ((x :: y :: r') ++ [l])%list with (x :: y :: (r' ++ [l]))%list.
    rewrite !join_cons. change (y :: (r' ++ [l]))%list with ((y :: r') ++ [l])%list.
    rewrite IH by discriminate. rewrite append_assoc. reflexivity.
Qed.

(** *** [endsWith] and [slice(0, -1)] *)

Lemma endsWith_snoc s c : Js.endsWith (s ++ String c "") "/" = Ascii.eqb "/" c.
Proof.
  unfold Js.endsWith, Js.rev_string. rewrite chars_append. simpl.
  rewrite rev_app_distr. simpl. unfold Js.startsWith. simpl.
  destruct (Ascii.eqb "/" c); reflexivity.
Qed.

Lemma endsWith_empty : Js.endsWith "" "/" = false.
Proof. reflexivity. Qed.

Lemma drop_last_snoc s c : Js.drop_last (s ++ String c "") = s.
Proof.
  unfold Js.drop_last. rewrite chars_append. simpl.
  rewrite removelast_last. apply of_chars_chars.
Qed.

(** *** [pathToSegments] after [segmentsToPath] *)

Lemma segmentsToPath_eq segs : segmentsToPath segs = String "/" (Js.join "/" segs).
Proof. destruct segs; reflexivity. Qed.

Lemma pathToSegments_slash j :
  pathToSegments (String "/" j) =
  if String.eqb j "" then []
  else
    let w := if Js.endsWith j "/" then Js.drop_last j else j in
    if String.eqb w "" then [] else Js.split "/" w.
Proof.
  unfold pathToSegments.
  change (String.eqb (String "/" j) "") with false.
  change (String.eqb (String "/" j) "/") with (String.eqb j "").
  cbn [orb].
  destruct (String.eqb j ""); [reflexivity|].
  change (Js.startsWith (String "/" j) "/") with true. cbv iota.
  change (Js.slice_from 1 (String "/" j)) with j. reflexivity.
Qed.

Lemma eqb_snoc_empty s c : String.eqb (s ++ String c "") "" = false.
Proof. destruct s; reflexivity. Qed.

(** The last segment is not empty: the segments come back unchanged. *)
Lemma pathToSegments_join segs l :
  forallb slash_free (segs ++ [l]) = true -> l <> "" ->
  pathToSegments (String "/" (Js.join "/" (segs ++ [l]))) = (segs ++ [l])%list.
Proof.
  intros Hfree Hl.
  destruct (string_snoc l Hl) as (l' & c & ->).
  assert (Hc : Ascii.eqb "/" c = false).
  { rewrite forallb_app in Hfree. apply andb_prop in Hfree. destruct Hfree as [_ H].
    simpl in H. rewrite andb_true_r, slash_free_append, slash_free_cons in H.
    apply andb_prop in H. destruct H as [_ H]. apply andb_prop in H. destruct H as [H _].
    apply negb_true_iff in H. rewrite Ascii.eqb_sym. exact H. }
  assert (Hj : exists j', Js.join "/" (segs ++ [l' ++ String c ""]) = j' ++ String c "").
  { destruct segs as [|x r].
    - exists l'. reflexivity.
    - rewrite join_snoc by discriminate.
      exists (Js.join "/" (x :: r) ++ String "/" l').
      rewrite append_assoc. reflexivity. }
  destruct Hj as (j' & Hj).
  rewrite pathToSegments_slash, Hj, eqb_snoc_empty, endsWith_snoc, Hc.
  cbv zeta. rewrite eqb_snoc_empty, <- Hj.
  apply split_join; [destruct segs; discriminate|exact Hfree].
Qed.

(** The last segment is empty: it is lost, and a remaining single empty
    segment with it. *)
Lemma pathToSegments_join_empty segs :
  forallb slash_free segs = true ->
  prefix_of (pathToSegments (String "/" (Js.join "/" (segs ++ [""])))) segs.
Proof.
  intros Hfree. destruct segs as [|x r].
  - exists []. reflexivity.
  - rewrite join_snoc by discriminate.
    rewrite pathToSegments_slash, eqb_snoc_empty, endsWith_snoc, drop_last_snoc.
    change (Ascii.eqb "/" "/") with true. cbv iota zeta.
    destruct (String.eqb (Js.join "/" (x :: r)) "").
    + exists (x :: r). reflexivity.
    + rewrite split_join by (discriminate || exact Hfree).
      exists []. symmetry. apply app_nil_r.
Qed.

Lemma prefix_of_refl xs : prefix_of xs xs.
Proof. exists []. symmetry. apply app_nil_r. Qed.

Lemma prefix_of_trans xs ys zs : prefix_of xs ys -> prefix_of ys zs -> prefix_of xs zs.
Proof.
  intros [r1 ->] [r2 ->]. exists (r1 ++ r2)%list. symmetry. apply app_assoc.
Qed.

Lemma prefix_of_nil xs : prefix_of [] xs.
Proof. exists xs. reflexivity. Qed.

Lemma prefix_of_app xs r : prefix_of xs (xs ++ r).
Proof. exists r. reflexivity. Qed.

Lemma prefix_of_length xs ys : prefix_of xs ys -> List.length xs <= List.length ys.
Proof. intros [r ->]. rewrite length_app. lia. Qed.

Lemma prefix_of_forallb (f : string -> bool) xs ys :
  prefix_of xs ys -> forallb f ys = true -> forallb f xs = true.
Proof.
  intros [r ->]. rewrite forallb_app. intros H. apply andb_prop in H. apply H.
Qed.

Lemma removelast_prefix (xs : list string) : prefix_of (removelast xs) xs.
Proof.
  destruct xs as [|x r]; [apply prefix_of_nil|].
  destruct (@exists_last _ (x :: r)) as (init & l & Heq); [discriminate|].
  rewrite Heq, removelast_last. apply prefix_of_app.
Qed.

(** What [pathToSegments] returns for the path of slash-free segments is an
    initial part of the segments. *)
Lemma pathToSegments_segmentsToPath_prefix segs :
  forallb slash_free segs = true ->
  prefix_of (pathToSegments (segmentsToPath segs)) segs.
Proof.
  intros Hfree. rewrite segmentsToPath_eq.
  destruct segs as [|x r]; [apply prefix_of_nil|].
  destruct (@exists_last _ (x :: r)) as (init & l & Heq); [discriminate|].
  rewrite Heq in *. destruct (string_dec l "") as [->|Hl].
  - eapply prefix_of_trans; [|apply prefix_of_app].
    apply pathToSegments_join_empty.
    rewrite forallb_app in Hfree. apply andb_prop in Hfree. apply Hfree.
  - rewrite pathToSegments_join by assumption. apply prefix_of_refl.
Qed.

Lemma plain_segment_spec s :
  plain_segment s = true <-> s <> "" /\ slash_free s = true.
Proof.
  unfold plain_segment. rewrite andb_true_iff, negb_true_iff, String.eqb_neq. tauto.
Qed.

Lemma plain_slash_free segs :
  forallb plain_segment segs = true -> forallb slash_free segs = true.
Proof.
  rewrite !forallb_forall. intros H x Hx. apply plain_segment_spec. auto.
Qed.

(** Plain segments come back unchanged. *)
Lemma pathToSegments_segmentsToPath segs :
  forallb plain_segment segs = true ->
  pathToSegments (segmentsToPath segs) = segs.
Proof.
  intros Hplain. rewrite segmentsToPath_eq.
  destruct segs as [|x r]; [reflexivity|].
  destruct (@exists_last _ (x :: r)) as (init & l & Heq); [discriminate|].
  rewrite Heq in *. apply pathToSegments_join.
  - apply plain_slash_free. exact Hplain.
  - rewrite forallb_app in Hplain. apply andb_prop in Hplain. destruct Hplain as [_ H].
    simpl in H. rewrite andb_true_r in H. apply plain_segment_spec in H. apply H.
Qed.

(** The segments of any path are free of slashes. *)
Lemma pathToSegments_slash_free path :
  forallb slash_free (pathToSegments path) = true.
Proof.
  unfold pathToSegments.
  destruct (String.eqb path "" || String.eqb path "/"); [reflexivity|].
  match goal with |- context [String.eqb ?w ""] => destruct (String.eqb w "") end;
    [reflexivity|apply split_all_slash_free].
Qed.

(** *** [isAncestorPath], [commonPrefix], [getDirname], [getBasename] *)

Lemma segments_agree_spec xs ys :
  segments_agree xs ys = true <-> prefix_of xs ys.
Proof.
  revert ys. induction xs as [|x r IH]; intros ys.
  - split; [intros _; apply prefix_of_nil|reflexivity].
  - destruct ys as [|y ys']; simpl.
    + split; [discriminate|]. intros [rest H]. discriminate.
    + destruct (String.eqb x y) eqn:Hxy; simpl.
      * apply String.eqb_eq in Hxy. subst y. rewrite IH. split.
        -- intros [rest ->]. exists rest. reflexivity.
        -- intros [rest H]. injection H as ->. exists rest. reflexivity.
      * apply String.eqb_neq in Hxy. split; [discriminate|].
        intros [rest H]. injection H as H _. congruence.
Qed.

Lemma isAncestorPath_spec ancestor descendant :
  isAncestorPath ancestor descendant = true <->
  prefix_of (pathToSegments ancestor) (pathToSegments descendant).
Proof.
  unfold isAncestorPath.
  destruct (Nat.ltb _ _) eqn:Hlt.
  - apply Nat.ltb_lt in Hlt. split; [discriminate|].
    intros H. apply prefix_of_length in H. lia.
  - apply segments_agree_spec.
Qed.

Lemma common_loop_prefix xs ys :
  prefix_of (common_loop xs ys) xs /\ prefix_of (common_loop xs ys) ys.
Proof.
  revert ys. induction xs as [|x r IH]; intros ys.
  - split; apply prefix_of_nil.
  - destruct ys as [|y ys']; simpl.
    + split; apply prefix_of_nil.
    + destruct (String.eqb x y) eqn:Hxy.
      * apply String.eqb_eq in Hxy. subst y.
        destruct (IH ys') as [[r1 H1] [r2 H2]]. split.
        -- exists r1. simpl. congruence.
        -- exists r2. simpl. congruence.
      * split; apply prefix_of_nil.
Qed.

Lemma common_loop_greatest zs xs ys :
  prefix_of zs xs -> prefix_of zs ys -> prefix_of zs (common_loop xs ys).
Proof.
  revert xs ys. induction zs as [|z r IH]; intros xs ys Hx Hy.
  - apply prefix_of_nil.
  - destruct Hx as [r1 ->]. destruct Hy as [r2 ->]. simpl.
    rewrite String.eqb_refl.
    destruct (IH (r ++ r1)%list (r ++ r2)%list) as [rest Hrest];
      [apply prefix_of_app|apply prefix_of_app|].
    exists rest. simpl. congruence.
Qed.

(** *** [normalizePath] *)

Lemma resolved_segment_spec s :
  resolved_segment s = true <-> plain_segment s = true /\ s <> "." /\ s <> "..".
Proof.
  unfold resolved_segment.
  rewrite !andb_true_iff, !negb_true_iff, !String.eqb_neq. tauto.
Qed.

Lemma resolved_plain segs :
  forallb resolved_segment segs = true -> forallb plain_segment segs = true.
Proof.
  rewrite !forallb_forall. intros H x Hx. apply resolved_segment_spec. auto.
Qed.

Lemma resolve_loop_resolved segments resolved :
  forallb plain_segment segments = true ->
  forallb resolved_segment resolved = true ->
  forallb resolved_segment (resolve_loop segments resolved) = true.
Proof.
  revert resolved. induction segments as [|x r IH]; intros resolved Hs Hr; [exact Hr|].
  simpl in Hs. apply andb_prop in Hs. destruct Hs as [Hx Hs]. simpl.
  destruct (String.eqb x ".") eqn:Hdot; [apply IH; auto|].
  destruct (String.eqb x "..") eqn:Hdots.
  - apply IH; [exact Hs|]. destruct (Nat.ltb 0 (List.length resolved)); [|exact Hr].
    eapply prefix_of_forallb; [apply removelast_prefix|exact Hr].
  - apply IH; [exact Hs|]. rewrite forallb_app, Hr. simpl.
    unfold resolved_segment. rewrite Hx, Hdot, Hdots. reflexivity.
Qed.

Lemma resolve_loop_id segments resolved :
  forallb resolved_segment segments = true ->
  resolve_loop segments resolved = (resolved ++ segments)%list.
Proof.
  revert resolved. induction segments as [|x r IH]; intros resolved Hs.
  - symmetry. apply app_nil_r.
  - simpl in Hs. apply andb_prop in Hs. destruct Hs as [Hx Hs].
    apply resolved_segment_spec in Hx. destruct Hx as (_ & Hdot & Hdots).
    apply String.eqb_neq in Hdot, Hdots. simpl. rewrite Hdot, Hdots.
    rewrite IH by exact Hs. rewrite <- app_assoc. reflexivity.
Qed.

Lemma filter_nonempty_plain segs :
  forallb slash_free segs = true ->
  forallb plain_segment (filter (fun s => negb (String.eqb s "")) segs) = true.
Proof.
  intros H. apply forallb_forall. intros x Hx. apply filter_In in Hx.
  destruct Hx as [Hin Hne]. unfold plain_segment. rewrite Hne. simpl.
  rewrite forallb_forall in H. auto.
Qed.

Lemma filter_nonempty_id segs :
  forallb plain_segment segs = true ->
  filter (fun s => negb (String.eqb s "")) segs = segs.
Proof.
  induction segs as [|x r IH]; [reflexivity|]. simpl. intros H.
  apply andb_prop in H. destruct H as [Hx Hr]. unfold plain_segment in Hx.
  apply andb_prop in Hx. destruct Hx as [Hx _]. rewrite Hx, IH by exact Hr. reflexivity.
Qed.

(** The segments [normalizePath] joins *)
Definition resolved_of (path : string) (context : PathContext) : list string :=
  pathToSegments (normalizePath path context).

Lemma normalizePath_shape path context :
  exists resolved,
    normalizePath path context = String "/" (Js.join "/" resolved) /\
    forallb resolved_segment resolved = true.
Proof.
  unfold normalizePath. cbv zeta.
  match goal with |- context [resolve_loop ?segs []] => exists (resolve_loop segs []) end.
  split; [reflexivity|].
  apply resolve_loop_resolved; [|reflexivity].
  apply filter_nonempty_plain, split_all_slash_free.
Qed.

(** Where the characters of the pieces come from *)
Lemma split_chars s x c :
  In x (Js.split "/" s) -> In c (Js.chars x) -> In c (Js.chars s).
Proof.
  revert x. induction s as [|d r IH]; intros x; simpl.
  - intros [<-|[]] [].
  - destruct (Ascii.eqb d "/").
    + intros [<-|Hx] Hc; [destruct Hc|]. right. eapply IH; eauto.
    + destruct (Js.split "/" r) as [|h t] eqn:Hsp.
      * intros [<-|[]] [<-|[]]. left. reflexivity.
      * intros [<-|Hx] Hc.
        -- destruct Hc as [<-|Hc]; [left; reflexivity|].
           right. eapply (IH h); [left; reflexivity|exact Hc].
        -- right. eapply (IH x); [right; exact Hx|exact Hc].
Qed.

Lemma removelast_In (xs : list string) x : In x (removelast xs) -> In x xs.
Proof.
  intros H. destruct (removelast_prefix xs) as [rest Heq]. rewrite Heq.
  apply in_or_app. left. exact H.
Qed.

Lemma resolve_loop_In segments resolved x :
  In x (resolve_loop segments resolved) -> In x segments \/ In x resolved.
Proof.
  revert resolved. induction segments as [|y r IH]; intros resolved; [auto|]. simpl.
  destruct (String.eqb y ".").
  - intros H. destruct (IH _ H); auto.
  - destruct (String.eqb y "..").
    + intros H. destruct (IH _ H) as [H1|H1]; auto.
      destruct (Nat.ltb 0 (List.length resolved)); auto.
      right. apply removelast_In. exact H1.
    + intros H. destruct (IH _ H) as [H1|H1]; auto.
      apply in_app_or in H1. destruct H1 as [H1|[<-|[]]]; auto.
Qed.

Lemma join_chars xs c :
  In c (Js.chars (Js.join "/" xs)) ->
  c = "/"%char \/ exists x, In x xs /\ In c (Js.chars x).
Proof.
  induction xs as [|x r IH]; [intros []|].
  destruct r as [|y r'].
  - intros H. right. exists x. split; [left; reflexivity|exact H].
  - rewrite join_cons, chars_append. intros H. apply in_app_or in H.
    destruct H as [H|[<-|H]].
    + right. exists x. split; [left; reflexivity|exact H].
    + left. reflexivity.
    + destruct (IH H) as [->|(z & Hz & Hc)]; [left; reflexivity|].
      right. exists z. split; [right; exact Hz|exact Hc].
Qed.

Lemma slice_from_chars n s c : In c (Js.chars (Js.slice_from n s)) -> In c (Js.chars s).
Proof.
  revert s. induction n as [|n IH]; intros s; [destruct s; auto|].
  destruct s as [|d r]; simpl; [auto|]. intros H. right. apply IH. exact H.
Qed.

Lemma backslash_free_spec s : backslash_free s = true <-> ~ In "\"%char (Js.chars s).
Proof. unfold backslash_free. rewrite negb_true_iff. apply includes_char_false. Qed.

Lemma backslashes_to_slashes_free s : backslash_free (backslashes_to_slashes s) = true.
Proof.
  apply backslash_free_spec. unfold backslashes_to_slashes. rewrite chars_of_chars.
  intros H. apply in_map_iff in H. destruct H as (c & Hc & _).
  destruct (Ascii.eqb c "\") eqn:Heq; [discriminate|].
  apply Ascii.eqb_neq in Heq. congruence.
Qed.

Lemma backslashes_to_slashes_id s :
  backslash_free s = true -> backslashes_to_slashes s = s.
Proof.
  rewrite backslash_free_spec. unfold backslashes_to_slashes. intros H.
  rewrite <- (of_chars_chars s) at 2. f_equal.
  induction (Js.chars s) as [|c r IH]; [reflexivity|]. simpl.
  destruct (Ascii.eqb c "\") eqn:Heq.
  - apply Ascii.eqb_eq in Heq. subst. exfalso. apply H. left. reflexivity.
  - f_equal. apply IH. intros Hin. apply H. right. exact Hin.
Qed.

Lemma backslash_free_append s1 s2 :
  backslash_free s1 = true -> backslash_free s2 = true ->
  backslash_free (s1 ++ s2) = true.
Proof.
  rewrite !backslash_free_spec, chars_append. intros H1 H2 H.
  apply in_app_or in H. tauto.
Qed.

Lemma backslash_free_slice n s :
  backslash_free s = true -> backslash_free (Js.slice_from n s) = true.
Proof.
  rewrite !backslash_free_spec. intros H Hin. apply H. eapply slice_from_chars; eauto.
Qed.

(** With a context free of backslashes, so is the normalized path. *)
Lemma normalizePath_backslash_free path context :
  backslash_free (homeDir context) = true ->
  backslash_free (cwd context) = true ->
  backslash_free (normalizePath path context) = true.
Proof.
  intros Hhome Hcwd. unfold normalizePath. cbv zeta.
  set (n0 := backslashes_to_slashes path).
  assert (H0 : backslash_free n0 = true) by apply backslashes_to_slashes_free.
  set (n1 := if String.eqb n0 "~" then homeDir context
             else if Js.startsWith n0 "~/" then homeDir context ++ Js.slice_from 1 n0
                  else n0).
  assert (H1 : backslash_free n1 = true).
  { unfold n1. destruct (String.eqb n0 "~"); [exact Hhome|].
    destruct (Js.startsWith n0 "~/"); [|exact H0].
    apply backslash_free_append; [exact Hhome|apply backslash_free_slice; exact H0]. }
  set (n2 := if negb (Js.startsWith n1 "/") then cwd context ++ "/" ++ n1 else n1).
  assert (H2 : backslash_free n2 = true).
  { unfold n2. destruct (negb (Js.startsWith n1 "/")); [|exact H1].
    apply backslash_free_append; [exact Hcwd|].
    apply backslash_free_append; [reflexivity|exact H1]. }
  apply backslash_free_spec. rewrite backslash_free_spec in H2.
  change ("/" ++ ?x) with (String "/" x). cbn [Js.chars].
  intros [Hc|Hc]; [discriminate|].
  apply join_chars in Hc. destruct Hc as [Hc|(x & Hx & Hc)]; [discriminate|].
  apply resolve_loop_In in Hx. destruct Hx as [Hx|[]].
  apply filter_In in Hx. destruct Hx as [Hx _].
  apply H2. eapply split_chars; eauto.
Qed.

(** Normalizing a path whose segments are resolved changes nothing, provided
    the path holds no backslash. *)
Lemma normalizePath_resolved resolved context :
  forallb resolved_segment resolved = true ->
  backslash_free (String "/" (Js.join "/" resolved)) = true ->
  normalizePath (String "/" (Js.join "/" resolved)) context
  = String "/" (Js.join "/" resolved).
Proof.
  intros Hres Hfree. unfold normalizePath. cbv zeta.
  rewrite (backslashes_to_slashes_id _ Hfree).
  change (String.eqb (String "/" (Js.join "/" resolved)) "~") with false. cbv iota.
  change (Js.startsWith (String "/" (Js.join "/" resolved)) "~/") with false. cbv iota.
  change (Js.startsWith (String "/" (Js.join "/" resolved)) "/") with true.
  cbn [negb]. cbv iota.
  change (Js.split "/" (String "/" (Js.join "/" resolved)))
    with ("" :: Js.split "/" (Js.join "/" resolved)).
  cbn [filter]. change (negb (String.eqb "" "")) with false. cbv iota.
  destruct resolved as [|x r]; [reflexivity|].
  rewrite split_join by (discriminate || apply plain_slash_free, resolved_plain, Hres).
  rewrite filter_nonempty_id by (apply resolved_plain, Hres).
  rewrite resolve_loop_id by exact Hres. reflexivity.
Qed.

(** *** [lastIndexOf] and [getExtension] *)

Lemma string_length_chars s : String.length s = List.length (Js.chars s).
Proof. induction s; simpl; congruence. Qed.

Lemma lastIndexOf_fold c l k acc :
  let r := fold_left (fun acc ic => if Ascii.eqb (snd ic) c then Some (fst ic) else acc)
                     (combine (seq k (List.length l)) l) acc in
  (r = acc /\ ~ In c l) \/
  (exists l1 l2, l = (l1 ++ c :: l2)%list /\ ~ In c l2 /\ r = Some (k + List.length l1)).
Proof.
  revert k acc. induction l as [|x l' IH]; intros k acc; cbn [List.length seq combine fold_left].
  - left. split; [reflexivity|intros []].
  - cbn [snd fst].
    destruct (IH (S k) (if Ascii.eqb x c then Some k else acc))
      as [[Hr Hnot]|(l1 & l2 & Hl & Hnot & Hr)].
    + destruct (Ascii.eqb x c) eqn:Hx.
      * apply Ascii.eqb_eq in Hx. subst x. right. exists [], l'.
        split; [reflexivity|]. split; [exact Hnot|].
        cbv zeta. rewrite Hr. f_equal. simpl. lia.
      * left. split; [exact Hr|]. apply Ascii.eqb_neq in Hx.
        intros [H|H]; [congruence|contradiction].
    + right. exists (x :: l1), l2. split; [simpl; congruence|]. split; [exact Hnot|].
      cbv zeta. rewrite Hr. f_equal. simpl. lia.
Qed.

Lemma lastIndexOf_spec s c :
  (lastIndexOf s c = None /\ ~ In c (Js.chars s)) \/
  (exists l1 l2, Js.chars s = (l1 ++ c :: l2)%list /\ ~ In c l2 /\
                 lastIndexOf s c = Some (List.length l1)).
Proof.
  unfold lastIndexOf. rewrite string_length_chars.
  destruct (lastIndexOf_fold c (Js.chars s) 0 None) as [[Hr Hnot]|(l1 & l2 & Hl & Hnot & Hr)].
  - left. auto.
  - right. exists l1, l2. auto.
Qed.

Lemma slice_from_app l1 l2 :
  Js.slice_from (List.length l1) (Js.of_chars (l1 ++ l2)) = Js.of_chars l2.
Proof. induction l1 as [|x r IH]; [destruct l2; reflexivity|exact IH]. Qed.

Lemma of_chars_app l1 l2 : Js.of_chars (l1 ++ l2) = Js.of_chars l1 ++ Js.of_chars l2.
Proof. induction l1; simpl; congruence. Qed.

(** The part of a path after its last slash *)
Lemma last_segment_spec p :
  let segment := match lastIndexOf p "/" with
                 | Some lastSlash => Js.slice_from (lastSlash + 1) p
                 | None => p
                 end in
  exists pre, p = pre ++ segment /\ slash_free segment = true.
Proof.
  cbv zeta.
  destruct (lastIndexOf_spec p "/") as [[-> Hnot]|(l1 & l2 & Hl & Hnot & ->)].
  - exists "". split; [reflexivity|]. apply slash_free_spec. exact Hnot.
  - assert (Hp : p = Js.of_chars ((l1 ++ ["/"%char]) ++ l2)).
    { rewrite <- app_assoc. simpl. rewrite <- Hl. symmetry. apply of_chars_chars. }
    assert (Hslice : Js.slice_from (List.length l1 + 1) p = Js.of_chars l2).
    { replace (List.length l1 + 1) with (List.length (l1 ++ ["/"%char]))
        by (rewrite length_app; reflexivity).
      rewrite Hp. apply slice_from_app. }
    rewrite Hslice.
    exists (Js.of_chars (l1 ++ ["/"%char])). split.
    + rewrite Hp. apply of_chars_app.
    + apply slash_free_spec. rewrite chars_of_chars. exact Hnot.
Qed.

Lemma getExtension_shape p :
  getExtension p = "" \/
  exists stem c e,
    p = stem ++ String c (String "." e) /\ c <> "/"%char /\
    getExtension p = String "." e /\
    Js.includes_char e "." = false /\ Js.includes_char e "/" = false.
Proof.
  unfold getExtension. cbv zeta.
  destruct (last_segment_spec p) as (pre & Hp & Hfree). cbv zeta in Hp, Hfree.
  set (segment := match lastIndexOf p "/" with
                  | Some lastSlash => Js.slice_from (lastSlash + 1) p
                  | None => p
                  end) in *.
  destruct (lastIndexOf_spec segment ".") as [[-> Hnot]|(m1 & m2 & Hm & Hnot & ->)];
    [left; reflexivity|].
  destruct m1 as [|x m1']; [left; reflexivity|].
  right. cbn [Nat.leb List.length].
  destruct (@exists_last _ (x :: m1')) as (m0 & c & Hm1); [discriminate|].
  rewrite Hm1 in Hm.
  assert (Hseg : segment = Js.of_chars (m0 ++ [c]) ++ String "." (Js.of_chars m2)).
  { rewrite <- (of_chars_chars segment), Hm. apply of_chars_app. }
  apply slash_free_spec in Hfree. rewrite Hm in Hfree.
  exists (pre ++ Js.of_chars m0), c, (Js.of_chars m2).
  split; [|split; [|split; [|split]]].
  - rewrite Hp, Hseg, of_chars_app. simpl. rewrite !append_assoc. reflexivity.
  - intros ->. apply Hfree. apply in_or_app. left. apply in_or_app. right. left. reflexivity.
  - replace (S (List.length m1')) with (List.length (m0 ++ [c]))
      by (rewrite <- Hm1; reflexivity).
    rewrite <- (of_chars_chars segment), Hm, slice_from_app. reflexivity.
  - apply includes_char_false. rewrite chars_of_chars. exact Hnot.
  - apply includes_char_false. rewrite chars_of_chars. intros Hin.
    apply Hfree. apply in_or_app. right. right. exact Hin.
Qed.

(** [getDirname] and [getBasename] take a path of plain segments apart. *)
Lemma dirname_basename path :
  pathToSegments path <> [] ->
  forallb plain_segment (pathToSegments path) = true ->
  pathToSegments path
  = (pathToSegments (getDirname path) ++ [getBasename path])%list.
Proof.
  intros Hne Hplain. unfold getDirname, getBasename. cbv zeta.
  destruct (pathToSegments path) as [|x r] eqn:Hsegs; [congruence|].
  destruct (@exists_last _ (x :: r)) as (init & l & Heq); [discriminate|].
  rewrite Heq in *. rewrite removelast_last, last_last.
  rewrite length_app. cbn [List.length].
  replace (Nat.ltb 0 (List.length init + 1)) with true
    by (symmetry; apply Nat.ltb_lt; lia).
  f_equal. destruct init as [|y init'].
  - reflexivity.
  - replace (Nat.leb (List.length (y :: init') + 1) 1) with false
      by (symmetry; apply Nat.leb_gt; simpl; lia).
    symmetry. apply pathToSegments_segmentsToPath.
    rewrite forallb_app in Hplain. apply andb_prop in Hplain. apply Hplain.
Qed.

Lemma getDirname_prefix path :
  prefix_of (pathToSegments (getDirname path)) (pathToSegments path).
Proof.
  unfold getDirname. cbv zeta.
  destruct (Nat.leb (List.length (pathToSegments path)) 1); [apply prefix_of_nil|].
  eapply prefix_of_trans; [|apply removelast_prefix].
  apply pathToSegments_segmentsToPath_prefix.
  eapply prefix_of_forallb; [apply removelast_prefix|apply pathToSegments_slash_free].
Qed.

Lemma commonPrefix_prefix pathA pathB :
  prefix_of (pathToSegments (commonPrefix pathA pathB)) (pathToSegments pathA) /\
  prefix_of (pathToSegments (commonPrefix pathA pathB)) (pathToSegments pathB).
Proof.
  unfold commonPrefix. cbv zeta.
  destruct (common_loop_prefix (pathToSegments pathA) (pathToSegments pathB)) as [HA HB].
  assert (H : prefix_of
                (pathToSegments
                   (segmentsToPath (common_loop (pathToSegments pathA) (pathToSegments pathB))))
                (common_loop (pathToSegments pathA) (pathToSegments pathB))).
  { apply pathToSegments_segmentsToPath_prefix.
    eapply prefix_of_forallb; [exact HA|apply pathToSegments_slash_free]. }
  split; eapply prefix_of_trans; eauto.
Qed.

Lemma commonPrefix_greatest c pathA pathB :
  forallb plain_segment (pathToSegments pathA) = true ->
  prefix_of (pathToSegments c) (pathToSegments pathA) ->
  prefix_of (pathToSegments c) (pathToSegments pathB) ->
  prefix_of (pathToSegments c) (pathToSegments (commonPrefix pathA pathB)).
Proof.
  intros Hplain HA HB. unfold commonPrefix. cbv zeta.
  rewrite pathToSegments_segmentsToPath.
  - apply common_loop_greatest; assumption.
  - eapply prefix_of_forallb; [|exact Hplain].
    apply (common_loop_prefix (pathToSegments pathA) (pathToSegments pathB)).
Qed.

Lemma normalizePath_segments path context :
  normalizePath path context = segmentsToPath (resolved_of path context) /\
  forallb resolved_segment (resolved_of path context) = true.
Proof.
  unfold resolved_of.
  destruct (normalizePath_shape path context) as (resolved & Heq & Hres).
  rewrite Heq, <- segmentsToPath_eq.
  rewrite pathToSegments_segmentsToPath by (apply resolved_plain, Hres).
  split; [reflexivity|exact Hres].
Qed.

Lemma normalizePath_idempotent path context :
  backslash_free (homeDir context) = true ->
  backslash_free (cwd context) = true ->
  normalizePath (normalizePath path context) context = normalizePath path context.
Proof.
  intros Hhome Hcwd.
  pose proof (normalizePath_backslash_free path context Hhome Hcwd) as Hfree.
  destruct (normalizePath_shape path context) as (resolved & Heq & Hres).
  rewrite Heq in *. apply normalizePath_resolved; assumption.
Qed.

End PathSpec.

(* ===================================================================== *)
(** ** The transitions and the exceptions of [determinize]                *)
(* ===================================================================== *)

Module DetShape.

Import Determinize DetInv DetWhole.

Definition all_consuming (sts : list AutomatonState) : Prop :=
  forall s t, In s sts -> In t (transitions s) -> consuming t = true.

Lemma all_consuming_eps_free a : all_consuming (states a) <-> eps_free a = true.
Proof.
  unfold eps_free, all_consuming. rewrite forallb_forall. split.
  - intros H s Hs. apply forallb_forall. intros t Ht. eauto.
  - intros H s t Hs Ht. specialize (H s Hs). rewrite forallb_forall in H. auto.
Qed.

Lemma getOrCreateState_consuming nfa cap c X i c' :
  all_consuming (dfaStates c) -> getOrCreateState nfa cap c X = Ok (i, c') ->
  all_consuming (dfaStates c').
Proof.
  intros Hc. unfold getOrCreateState.
  destruct (Js.map_get (stateSetMap c) (serializeStateSet X)).
  - intros Heq. injection Heq as <- <-. exact Hc.
  - destruct (Nat.leb cap (List.length (dfaStates c))); [discriminate|].
    destruct (some_accepting nfa X) as [acc|e]; simpl; [|discriminate].
    intros Heq. injection Heq as <- <-. simpl.
    intros s t Hs Ht. apply in_app_or in Hs.
    destruct Hs as [Hs|[<-|[]]]; [eauto|destruct Ht].
Qed.

Definition CAcc (acc : Construction * list AutomatonTransition * list (nat * list nat))
  : Prop :=
  all_consuming (dfaStates (fst (fst acc))) /\
  forall t, In t (snd (fst acc)) -> consuming t = true.

Definition mk_consuming (mk : nat -> list AutomatonTransition) : Prop :=
  forall target t, In t (mk target) -> consuming t = true.

Lemma symbol_transition_consuming sym : mk_consuming (symbol_transition sym).
Proof.
  intros target t. destruct sym; simpl; intros H;
    try (destruct H as [<-|[]]; reflexivity); destruct H.
Qed.

Lemma any_transition_consuming : mk_consuming any_transition.
Proof. intros target t [<-|[]]. reflexivity. Qed.

Lemma add_target_consuming nfa cap processed mk acc X acc' :
  mk_consuming mk -> CAcc acc ->
  add_target nfa cap processed mk acc X = Ok acc' -> CAcc acc'.
Proof.
  intros Hmk. destruct acc as [[c ts] wl]. intros [Hc Hts]. unfold add_target.
  simpl in Hc, Hts.
  destruct (Nat.ltb 0 (List.length X)).
  - destruct (getOrCreateState nfa cap c X) as [[i c1]|e] eqn:Hgoc; simpl; [|discriminate].
    intros Heq. injection Heq as <-. split; simpl.
    + eapply getOrCreateState_consuming; eauto.
    + intros t Ht. apply in_app_or in Ht. destruct Ht; [auto|eapply Hmk; eauto].
  - intros Heq. injection Heq as <-. split; auto.
Qed.

Lemma symbols_fold_consuming nfa cap alphabet processed X acc acc' :
  CAcc acc -> symbols_fold nfa cap alphabet processed X acc = Ok acc' -> CAcc acc'.
Proof.
  intros Hacc Hrun. unfold symbols_fold in Hrun.
  eapply foldM_inv with (Inv := CAcc) in Hrun; eauto.
  intros a sym a' _ Ha.
  destruct (computeTransition nfa X sym) as [T|e]; simpl; [|discriminate].
  apply add_target_consuming; auto. apply symbol_transition_consuming.
Qed.

Lemma determinize_step_consuming nfa cap alphabet l l' :
  all_consuming (dfaStates (construction l)) ->
  determinize_step nfa cap alphabet l = Ok (inl l') ->
  all_consuming (dfaStates (construction l')).
Proof.
  intros Hc. rewrite determinize_step_unfold.
  destruct (worklist l) as [|[i X] wl]; [discriminate|].
  destruct (Js.set_has (processed l) i).
  - intros Heq. injection Heq as <-. exact Hc.
  - cbv zeta.
    destruct (symbols_fold _ _ _ _ _ _) as [acc|e] eqn:Hfold; simpl; [|discriminate].
    apply symbols_fold_consuming in Hfold; [|split; [exact Hc|intros t []]].
    destruct (computeAnyTransition nfa X) as [T|e]; simpl; [|discriminate].
    destruct (add_target _ _ _ _ acc T) as [[[c ts] wl']|e] eqn:Hadd; simpl; [|discriminate].
    apply (add_target_consuming _ _ _ _ _ _ _ any_transition_consuming Hfold) in Hadd.
    destruct Hadd as [Hc1 Hts]. simpl in Hc1, Hts.
    destruct (nth_error (dfaStates c) i) as [st|]; [|discriminate].
    intros Heq. injection Heq as <-. simpl.
    intros s t Hs Ht. apply array_set_In in Hs. destruct Hs as [->|Hs].
    + simpl in Ht. auto.
    + eapply Hc1; eauto.
Qed.

Lemma subset_construction_consuming nfa cap i0 c :
  subset_construction nfa cap = Ok (i0, c) -> all_consuming (dfaStates c).
Proof.
  unfold subset_construction.
  destruct (epsilonClosure nfa [initialState nfa]) as [C0|e]; cbn [bind]; [|discriminate].
  destruct (getOrCreateState _ _ _ C0) as [[i1 c0]|e] eqn:Hgoc; cbn [bind]; [|discriminate].
  destruct (while_loop _ _ _) as [c1|e] eqn:Hloop; cbn [bind]; [|discriminate].
  intros Heq. injection Heq as <- <-.
  eapply while_loop_inv with
    (Inv := fun l => all_consuming (dfaStates (construction l)))
    (Post := fun c => all_consuming (dfaStates c)) in Hloop; auto.
  - intros s s' Hs Hstep. eapply determinize_step_consuming; eauto.
  - intros s r Hs Hstep. apply determinize_step_inr in Hstep. subst r. exact Hs.
  - simpl. eapply getOrCreateState_consuming; [|exact Hgoc]. intros s t [].
Qed.

Lemma makeComplete_eps_free a :
  eps_free a = true -> eps_free (makeComplete a) = true.
Proof.
  intros H. apply all_consuming_eps_free in H. apply all_consuming_eps_free.
  unfold makeComplete. simpl. intros s t Hs Ht.
  apply in_app_or in Hs. destruct Hs as [Hs|[<-|[]]].
  - apply in_map_iff in Hs. destruct Hs as (s0 & <- & Hs0).
    destruct (hasCatchAll s0); [eauto|].
    simpl in Ht. apply in_app_or in Ht. destruct Ht as [Ht|[<-|[]]]; [eauto|reflexivity].
  - destruct Ht as [<-|[]]. reflexivity.
Qed.

(** The automaton [determinize] returns holds literal and wildcard
    transitions only. *)
Lemma determinize_eps_free nfa options dfa :
  (isDeterministic nfa = true -> eps_free nfa = true) ->
  determinize nfa options = Ok dfa -> eps_free dfa = true.
Proof.
  intros Hfree. rewrite determinize_unfold.
  destruct (isDeterministic nfa).
  - intros H. injection H as <-. apply makeComplete_eps_free. auto.
  - destruct (subset_construction _ _) as [[i0 c]|e] eqn:Hrun; cbn [bind]; [|discriminate].
    intros H. injection H as <-. apply makeComplete_eps_free.
    apply all_consuming_eps_free. simpl.
    eapply subset_construction_consuming; eauto.
Qed.

End DetShape.

Module DetErrors.

Import Determinize DetInv DetWhole Simulation.

Lemma foldM_total {A B} (f : B -> A -> result B) (Inv : B -> Prop) :
  forall xs acc,
    (forall acc x, In x xs -> Inv acc -> exists acc', f acc x = Ok acc' /\ Inv acc') ->
    Inv acc -> exists r, foldM f xs acc = Ok r /\ Inv r.
Proof.
  induction xs as [|x xs IH]; intros acc Hf Hacc; simpl.
  - eauto.
  - destruct (Hf acc x (or_introl eq_refl) Hacc) as (acc' & -> & Hacc'). simpl.
    apply IH; [|exact Hacc']. intros. apply Hf; auto. right; auto.
Qed.

Section WellFormed.

Variable nfa : SegmentAutomaton.
Hypothesis nfa_wf : well_formed nfa.

Lemma state_at_exn_in_range i :
  i < List.length (states nfa) ->
  exists s, state_at_exn nfa i = Ok s /\ In s (states nfa).
Proof.
  intros Hi. unfold state_at_exn, state_at.
  destruct (nth_error (states nfa) i) as [s|] eqn:Hs.
  - exists s. split; [reflexivity|]. eapply nth_error_In; eauto.
  - apply nth_error_None in Hs. lia.
Qed.

Lemma some_accepting_ok X :
  in_range nfa X -> exists b, some_accepting nfa X = Ok b.
Proof.
  induction X as [|x X IH]; intros HX; simpl; [eauto|].
  destruct (state_at_exn_in_range x) as (s & -> & _); [apply HX; left; reflexivity|].
  simpl. destruct (accepting s); [eauto|]. apply IH. intros y Hy. apply HX. right; auto.
Qed.

Lemma closure_ok X :
  in_range nfa X -> exists C, epsilonClosure nfa X = Ok C /\ in_range nfa C.
Proof.
  intros HX. destruct (matcher_closure_spec nfa nfa_wf X HX) as (C & HC & _ & Hgood & _).
  exists C. split; [exact HC|exact Hgood].
Qed.

Lemma getTarget_range s t :
  In s (states nfa) -> In t (transitions s) -> getTarget t < List.length (states nfa).
Proof.
  intros Hs Ht. destruct nfa_wf as [_ Hbelow]. apply (Hbelow s t Hs Ht).
  destruct t; simpl; auto.
Qed.

Lemma computeTransition_ok X sym :
  in_range nfa X ->
  exists T, computeTransition nfa X sym = Ok T /\ in_range nfa T.
Proof.
  intros HX. unfold computeTransition.
  match goal with |- context [foldM ?f X []] =>
    destruct (foldM_total f (in_range nfa) X []) as (reached & -> & Hr)
  end.
  - intros acc x Hx Hacc.
    destruct (state_at_exn_in_range x (HX x Hx)) as (s & -> & Hs). simpl.
    eexists. split; [reflexivity|].
    assert (Hgen : forall ts acc0,
               (forall t, In t ts -> In t (transitions s)) -> in_range nfa acc0 ->
               in_range nfa
                 (fold_left (fun reached transition =>
                               if matchesSymbol transition sym
                               then Js.set_add reached (getTarget transition)
                               else reached) ts acc0)).
    { induction ts as [|t ts IH]; intros acc0 Hsub Hacc0; [exact Hacc0|]. simpl.
      apply IH; [intros; apply Hsub; right; auto|].
      destruct (matchesSymbol t sym); [|exact Hacc0].
      intros y Hy. apply set_add_In in Hy. destruct Hy as [->|Hy]; [|auto].
      eapply getTarget_range; [exact Hs|]. apply Hsub. left; reflexivity. }
    apply Hgen; auto.
  - intros x [].
  - simpl. apply closure_ok. exact Hr.
Qed.

Lemma computeAnyTransition_ok X :
  in_range nfa X ->
  exists T, computeAnyTransition nfa X = Ok T /\ in_range nfa T.
Proof.
  intros HX. unfold computeAnyTransition.
  match goal with |- context [foldM ?f X []] =>
    destruct (foldM_total f (in_range nfa) X []) as (reached & -> & Hr)
  end.
  - intros acc x Hx Hacc.
    destruct (state_at_exn_in_range x (HX x Hx)) as (s & -> & Hs). simpl.
    eexists. split; [reflexivity|].
    assert (Hgen : forall ts acc0,
               (forall t, In t ts -> In t (transitions s)) -> in_range nfa acc0 ->
               in_range nfa
                 (fold_left (fun reached transition =>
                               match transition with
                               | GlobstarTransition selfLoop _ => Js.set_add reached selfLoop
                               | _ => reached
                               end) ts acc0)).
    { induction ts as [|t ts IH]; intros acc0 Hsub Hacc0; [exact Hacc0|]. simpl.
      apply IH; [intros; apply Hsub; right; auto|].
      pose proof (getTarget_range s t Hs (Hsub t (or_introl eq_refl))) as Htg.
      destruct t; try exact Hacc0.
      intros y Hy. apply set_add_In in Hy. destruct Hy as [->|Hy]; [exact Htg|auto]. }
    apply Hgen; auto.
  - intros x [].
  - simpl. apply closure_ok. exact Hr.
Qed.

(** Under the cap a state is created, or found; at the cap the limit error
    is raised. *)
Lemma getOrCreateState_no_TypeError cap c X :
  in_range nfa X -> getOrCreateState nfa cap c X <> Err TypeError.
Proof.
  intros HX. unfold getOrCreateState.
  destruct (Js.map_get (stateSetMap c) (serializeStateSet X)); [discriminate|].
  destruct (Nat.leb cap (List.length (dfaStates c))); [discriminate|].
  destruct (some_accepting_ok X HX) as (b & ->). discriminate.
Qed.

Definition WRange (wl : list (nat * list nat)) : Prop :=
  forall item, In item wl -> in_range nfa (snd item).

Definition RAcc (acc : Construction * list AutomatonTransition * list (nat * list nat))
  : Prop := WRange (snd acc).

Lemma add_target_range cap processed mk acc X acc' :
  in_range nfa X -> RAcc acc ->
  add_target nfa cap processed mk acc X = Ok acc' -> RAcc acc'.
Proof.
  destruct acc as [[c ts] wl]. intros HX Hwl. unfold add_target.
  destruct (Nat.ltb 0 (List.length X)).
  - destruct (getOrCreateState nfa cap c X) as [[i c1]|e]; simpl; [|discriminate].
    intros Heq. injection Heq as <-. unfold RAcc. simpl.
    destruct (negb (Js.set_has processed i)); [|exact Hwl].
    intros item [<-|Hitem]; [exact HX|auto].
  - intros Heq. injection Heq as <-. exact Hwl.
Qed.

Lemma add_target_no_TypeError cap processed mk acc X :
  in_range nfa X -> add_target nfa cap processed mk acc X <> Err TypeError.
Proof.
  destruct acc as [[c ts] wl]. intros HX. unfold add_target.
  destruct (Nat.ltb 0 (List.length X)); [|discriminate].
  pose proof (getOrCreateState_no_TypeError cap c X HX) as Hno.
  destruct (getOrCreateState nfa cap c X) as [[i c1]|e]; simpl; [discriminate|].
  congruence.
Qed.

Lemma symbols_fold_range cap alphabet processed X acc acc' :
  in_range nfa X -> RAcc acc ->
  symbols_fold nfa cap alphabet processed X acc = Ok acc' -> RAcc acc'.
Proof.
  intros HX Hacc Hrun. unfold symbols_fold in Hrun.
  eapply foldM_inv with (Inv := RAcc) in Hrun; eauto.
  intros a sym a' _ Ha.
  destruct (computeTransition_ok X sym HX) as (T & -> & HT). simpl.
  apply add_target_range; auto.
Qed.

Lemma symbols_fold_no_TypeError cap alphabet processed X acc :
  in_range nfa X -> RAcc acc ->
  symbols_fold nfa cap alphabet processed X acc <> Err TypeError.
Proof.
  intros HX Hacc Hrun. unfold symbols_fold in Hrun.
  eapply foldM_err with (Inv := RAcc) (Q := fun e => e <> TypeError) in Hrun; eauto.
  - intros a sym a' _ Ha.
    destruct (computeTransition_ok X sym HX) as (T & -> & HT). simpl.
    apply add_target_range; auto.
  - intros a sym e _ Ha.
    destruct (computeTransition_ok X sym HX) as (T & -> & HT). simpl.
    intros Heq ->. eapply add_target_no_TypeError; eauto.
Qed.

Lemma determinize_step_range cap alphabet l l' :
  WRange (worklist l) ->
  determinize_step nfa cap alphabet l = Ok (inl l') -> WRange (worklist l').
Proof.
  intros Hwl. rewrite determinize_step_unfold.
  destruct (worklist l) as [|[i X] wl]; [discriminate|].
  assert (HX : in_range nfa X) by (apply (Hwl (i, X)); left; reflexivity).
  assert (Hrest : WRange wl) by (intros item Hitem; apply Hwl; right; exact Hitem).
  destruct (Js.set_has (processed l) i).
  - intros Heq. injection Heq as <-. exact Hrest.
  - cbv zeta.
    destruct (symbols_fold _ _ _ _ _ _) as [acc|e] eqn:Hfold; simpl; [|discriminate].
    apply symbols_fold_range in Hfold; [|exact HX|exact Hrest].
    destruct (computeAnyTransition_ok X HX) as (T & -> & HT). simpl.
    destruct (add_target _ _ _ _ acc T) as [[[c ts] wl']|e] eqn:Hadd; simpl; [|discriminate].
    apply add_target_range in Hadd; [|exact HT|exact Hfold].
    destruct (nth_error (dfaStates c) i) as [st|]; [|discriminate].
    intros Heq. injection Heq as <-. exact Hadd.
Qed.

Lemma determinize_step_no_TypeError cap alphabet l :
  LInv cap l -> WRange (worklist l) ->
  determinize_step nfa cap alphabet l <> Err TypeError.
Proof.
  intros [HC Hwl Hpr Hnd] Hrange. rewrite determinize_step_unfold.
  destruct (worklist l) as [|[i X] wl] eqn:Hw; [discriminate|].
  assert (HX : in_range nfa X) by (apply (Hrange (i, X)); left; reflexivity).
  assert (Hrest : WRange wl) by (intros item Hitem; apply Hrange; right; exact Hitem).
  destruct (Js.set_has (processed l) i); [discriminate|]. cbv zeta.
  assert (Hi : i < List.length (dfaStates (construction l)))
    by (apply (Hwl (i, X)); left; auto).
  assert (Hacc0 : AInv cap (List.length (dfaStates (construction l)))
                       (construction l, [], wl)).
  { split; [exact HC|]. split; [lia|]. split; [intros t []|].
    intros item Hitem. apply Hwl. right; auto. }
  pose proof (symbols_fold_no_TypeError cap alphabet (Js.set_add (processed l) i) X
                (construction l, [], wl) HX Hrest) as Hno.
  destruct (symbols_fold _ _ _ _ _ _) as [acc|e] eqn:Hfold; simpl; [|congruence].
  pose proof (symbols_fold_range cap alphabet (Js.set_add (processed l) i) X
                (construction l, [], wl) acc HX Hrest Hfold) as Hracc.
  apply (symbols_fold_Ok _ _ _ _ _ _ _ _ Hacc0) in Hfold.
  destruct (computeAnyTransition_ok X HX) as (T & -> & HT). simpl.
  pose proof (add_target_no_TypeError cap (Js.set_add (processed l) i) any_transition
                acc T HT) as Hno2.
  destruct (add_target _ _ _ _ acc T) as [[[c ts] wl']|e] eqn:Hadd; simpl; [|congruence].
  apply (add_target_Ok _ _ _ _ _ _ _ _ any_transition_below Hfold) in Hadd.
  destruct Hadd as (_ & Hn0 & _).
  destruct (nth_error (dfaStates c) i) as [st|] eqn:Hnth; [discriminate|].
  apply nth_error_None in Hnth. lia.
Qed.

Lemma subset_construction_no_TypeError cap :
  subset_construction nfa cap <> Err TypeError.
Proof.
  unfold subset_construction.
  destruct (closure_ok [initialState nfa]) as (C0 & -> & HC0).
  { intros x [<-|[]]. apply nfa_wf. }
  cbn [bind].
  pose proof (getOrCreateState_no_TypeError cap (mkConstruction [] []) C0 HC0) as Hno.
  destruct (getOrCreateState _ _ _ C0) as [[i1 c0]|e] eqn:Hgoc; cbn [bind]; [|congruence].
  pose proof (initial_LInv _ _ _ _ _ Hgoc) as HL.
  destruct (while_loop _ _ _) as [c1|e] eqn:Hloop; cbn [bind]; [discriminate|].
  eapply while_loop_err with
    (Inv := fun l => LInv cap l /\ WRange (worklist l))
    (Q := fun e => e <> TypeError) in Hloop.
  - destruct Hloop as [->|Hne]; congruence.
  - intros s s' [Hs Hr] Hstep. split.
    + eapply determinize_step_inl; eauto.
    + eapply determinize_step_range; eauto.
  - intros s e0 [Hs Hr] Hstep ->. eapply determinize_step_no_TypeError; eauto.
  - split; [exact HL|]. intros item [<-|[]]. exact HC0.
Qed.

(** On a well-formed automaton [determinize] returns, or raises the limit
    error of the configured cap. *)
Lemma determinize_well_formed_input options :
  (exists dfa, determinize nfa options = Ok dfa) \/
  determinize nfa options = Err (limit_error_for options).
Proof.
  rewrite determinize_unfold.
  destruct (isDeterministic nfa); [left; eauto|].
  pose proof (subset_construction_no_TypeError (configured_cap options)) as Hno.
  destruct (subset_construction nfa (configured_cap options)) as [r|e] eqn:Hrun;
    cbn [bind]; [left; eauto|].
  right. apply subset_construction_Err in Hrun. destruct Hrun as [->| ->]; [congruence|].
  reflexivity.
Qed.

End WellFormed.

End DetErrors.

(* ===================================================================== *)
(** ** [patternComplement]                                                *)
(* ===================================================================== *)

Module AlgebraSpec.

Import PatternAlgebra.

(** The automaton of a compiled pattern is the one the builder returns. *)
Lemma compilePattern_automaton pattern a :
  Compiler.compilePattern pattern = Ok a ->
  Builder.buildAutomaton pattern = Ok (automaton a).
Proof.
  unfold Compiler.compilePattern.
  destruct (Builder.buildAutomaton pattern) as [x|e]; cbn [bind]; [|discriminate].
  intros H. injection H as <-. reflexivity.
Qed.

(** The complement of a pattern whose automaton is a well-formed NFA
    matches a path exactly when the determinized automaton rejects its
    segments. *)
Lemma patternComplement_negates a c path :
  well_formed (automaton a) -> isDeterministic (automaton a) = false ->
  patternComplement a = Ok c ->
  forallb no_line_terminator (PathUtils.pathToSegments path) = true ->
  exists dfa b,
    Determinize.determinize (automaton a) Determinize.default_options = Ok dfa /\
    Matcher.simulateNFA dfa (PathUtils.pathToSegments path) = Ok b /\
    Matcher.matchPath path c = Ok (negb b).
Proof.
  intros Hwf Hnfa Hc Hseg. unfold patternComplement, as_dfa in Hc. rewrite Hnfa in Hc.
  destruct (Determinize.determinize (automaton a) Determinize.default_options)
    as [dfa|e] eqn:Hdet; cbn [bind] in Hc; [|discriminate].
  assert (Hdwf : well_formed dfa).
  { eapply determinize_well_formed; [|exact Hdet]. congruence. }
  destruct (determinize_complete _ _ _ Hdet) as [Hcomplete Hflag].
  assert (Hfree : eps_free dfa = true).
  { eapply DetShape.determinize_eps_free; [|exact Hdet]. congruence. }
  destruct (ComplementSpec.complement_negates dfa (PathUtils.pathToSegments path)
              Hdwf Hflag Hfree Hcomplete Hseg) as (c0 & b & Hc0 & Hb & Hnb).
  rewrite Hc0 in Hc. cbn [bind] in Hc. injection Hc as <-.
  exists dfa, b. split; [reflexivity|]. split; [exact Hb|].
  unfold Matcher.matchPath, Matcher.matchPathUnderlying.
  cbn [quickReject minSegments maxSegments automaton ast isNegation createSyntheticAst].
  change (QuickReject.applyQuickReject path (mkFilter None None None None)) with true.
  cbn [negb]. cbv iota.
  change (Js.num_ltb (Num (List.length (PathUtils.pathToSegments path))) (Num 0))
    with (Nat.ltb (List.length (PathUtils.pathToSegments path)) 0).
  replace (Nat.ltb (List.length (PathUtils.pathToSegments path)) 0) with false
    by (symmetry; apply Nat.ltb_ge; lia).
  cbv iota. rewrite Hnb. reflexivity.
Qed.

End AlgebraSpec.

(* ===================================================================== *)
(** ** The segment bounds of a pattern and its automaton                  *)
(* ===================================================================== *)

Module BoundsSpec.

Import Builder BuilderSpec.

(** *** Numbers extended by infinity *)

(** A natural number or, as [None], infinity *)
Definition ext := option nat.

Definition ext_le (x y : ext) : Prop :=
  match x, y with
  | _, None => True
  | Some a, Some b => a <= b
  | None, Some _ => False
  end.

Definition ext_add (x : ext) (w : nat) : ext :=
  match x with Some a => Some (a + w) | None => None end.

Ltac ext_solve :=
  repeat match goal with
         | x : ext |- _ => destruct x
         | H : _ /\ _ |- _ => destruct H
         end;
  unfold ext_le, ext_add in *; simpl in *;
  repeat split; try congruence; try lia; auto.

(** *** Labellings *)

(** Bounds on the number of segments consumed on the way to a state *)
Record label := mkLabel { lo : ext; hi : ext }.

(** An edge that consumes [w] segments respects the labels of its ends. *)
Definition step_ok (w : nat) (x y : label) : Prop :=
  ext_le (lo y) (ext_add (lo x) w) /\ ext_le (ext_add (hi x) w) (hi y).

Definition trans_ok (L : nat -> label) (i : nat) (t : AutomatonTransition) : Prop :=
  match t with
  | LiteralTransition _ j | WildcardTransition _ _ j => step_ok 1 (L i) (L j)
  | EpsilonTransition j => step_ok 0 (L i) (L j)
  | GlobstarTransition selfLoop exit =>
      step_ok 1 (L i) (L selfLoop) /\ step_ok 0 (L i) (L exit)
  end.

Definition labelled (L : nat -> label) (sts : list AutomatonState) : Prop :=
  forall i s t, nth_error sts i = Some s -> In t (transitions s) -> trans_ok L i t.

Definition agree (n : nat) (L L' : nat -> label) : Prop :=
  forall i, i < n -> L' i = L i.

Definition upd (L : nat -> label) (k : nat) (v : label) : nat -> label :=
  fun i => if Nat.eqb i k then v else L i.

Lemma agree_refl n L : agree n L L.
Proof. intros i _. reflexivity. Qed.

Lemma agree_trans n m L1 L2 L3 :
  n <= m -> agree n L1 L2 -> agree m L2 L3 -> agree n L1 L3.
Proof. intros Hnm H12 H23 i Hi. rewrite H23 by lia. apply H12. exact Hi. Qed.

Lemma agree_upd n L k v : n <= k -> agree n L (upd L k v).
Proof.
  intros Hk i Hi. unfold upd.
  destruct (Nat.eqb i k) eqn:Heq; [apply Nat.eqb_eq in Heq; lia|reflexivity].
Qed.

Lemma upd_same L k v : upd L k v k = v.
Proof. unfold upd. rewrite Nat.eqb_refl. reflexivity. Qed.

Lemma trans_ok_agree n L L' i t :
  agree n L L' -> i < n -> targets_below n t -> trans_ok L i t -> trans_ok L' i t.
Proof.
  intros Hag Hi Ht. unfold trans_ok.
  destruct t as [seg j|pat src j|sl ex|j]; simpl in Ht;
    rewrite ?(Hag i Hi);
    try (rewrite (Hag j) by (apply Ht; simpl; auto); auto).
  rewrite (Hag sl), (Hag ex) by (apply Ht; simpl; auto). auto.
Qed.

Lemma labelled_agree L L' b :
  BInv b -> agree (List.length (builder_states b)) L L' ->
  labelled L (builder_states b) -> labelled L' (builder_states b).
Proof.
  intros [_ Hbelow _] Hag Hlab i s t Hs Ht.
  eapply trans_ok_agree; [exact Hag| | |eapply Hlab; eauto].
  - apply nth_error_Some. congruence.
  - eapply Hbelow; [eapply nth_error_In; exact Hs|exact Ht].
Qed.

Lemma labelled_createState L b i b' :
  createState b false = (i, b') ->
  labelled L (builder_states b) -> labelled L (builder_states b').
Proof.
  unfold createState. intros H. injection H as <- <-. cbn [builder_states].
  intros Hlab i s t Hs Ht.
  destruct (Nat.lt_ge_cases i (List.length (builder_states b))) as [Hlt|Hge].
  - rewrite nth_error_app1 in Hs by exact Hlt. eapply Hlab; eauto.
  - rewrite nth_error_app2 in Hs by exact Hge.
    destruct (i - List.length (builder_states b)) as [|k].
    + simpl in Hs. injection Hs as <-. destruct Ht.
    + simpl in Hs. destruct k; discriminate.
Qed.

Lemma labelled_addTransition L b from t b' :
  from < List.length (builder_states b) ->
  addTransition b from t = Ok b' ->
  trans_ok L from t ->
  labelled L (builder_states b) -> labelled L (builder_states b').
Proof.
  intros Hfrom. unfold addTransition.
  destruct (nth_error (builder_states b) from) as [s0|] eqn:Hs0; [|discriminate].
  intros H. injection H as <-. cbn [builder_states].
  intros Hok Hlab i s t' Hs Ht'.
  destruct (Nat.eq_dec from i) as [<-|Hne].
  - rewrite array_set_nth_same in Hs by exact Hfrom. injection Hs as <-.
    cbn [transitions] in Ht'. apply in_app_or in Ht'.
    destruct Ht' as [Ht'|[<-|[]]]; [eapply Hlab; eauto|exact Hok].
  - rewrite array_set_nth_other in Hs by exact Hne. eapply Hlab; eauto.
Qed.

(** *** Segments and sequences *)

Definition seg_ok (segment : Segment) (x y : label) : Prop :=
  if is_globstar segment then step_ok 1 x x /\ step_ok 0 x y else step_ok 1 x y.

Lemma buildSegmentAutomaton_labelled L b segment current next b' :
  current < List.length (builder_states b) ->
  seg_ok segment (L current) (L next) ->
  buildSegmentAutomaton b segment current next = Ok b' ->
  labelled L (builder_states b) -> labelled L (builder_states b').
Proof.
  intros Hc Hok.
  assert (Hregex : forall source,
            is_globstar segment = false ->
            (regex <- SegMatch.segmentToRegex segment ;;
             match regex with
             | Some regex =>
                 addTransition b current
                   (WildcardTransition (MRegExp regex) source next)
             | None => Ok b
             end) = Ok b' ->
            labelled L (builder_states b) -> labelled L (builder_states b')).
  { intros source Hg. unfold seg_ok in Hok. rewrite Hg in Hok.
    destruct (SegMatch.segmentToRegex segment) as [[regex|]|e]; cbn [bind];
      [| |discriminate].
    - intros Hadd. eapply labelled_addTransition; eauto.
    - intros H. injection H as <-. auto. }
  destruct segment; cbn [buildSegmentAutomaton].
  - intros Hadd. eapply labelled_addTransition; eauto.
  - apply Hregex. reflexivity.
  - intros Hadd. eapply labelled_addTransition; eauto.
  - apply Hregex. reflexivity.
  - apply Hregex. reflexivity.
Qed.

Definition nonglob (segments : list Segment) : nat :=
  List.length (filter (fun s => negb (is_globstar s)) segments).

Definition glob (segments : list Segment) : bool := existsb is_globstar segments.

(** What the labels of the two ends of a sequence must satisfy *)
Definition seq_pre (segments : list Segment) (x y : label) : Prop :=
  ext_le (lo y) (ext_add (lo x) (nonglob segments)) /\
  if glob segments then hi x = None /\ hi y = None
  else ext_le (ext_add (hi x) (List.length segments)) (hi y).

Definition weight (segment : Segment) : nat :=
  if is_globstar segment then 0 else 1.

Lemma nonglob_cons segment rest :
  nonglob (segment :: rest) = weight segment + nonglob rest.
Proof. unfold nonglob, weight. simpl. destruct (is_globstar segment); reflexivity. Qed.

Lemma glob_cons segment rest : glob (segment :: rest) = is_globstar segment || glob rest.
Proof. reflexivity. Qed.

(** The outcome of a construction step: the labelling is extended to the
    states created, and the builder keeps its invariant. *)
Definition extended (L : nat -> label) (b b' : AutomatonBuilder) : Prop :=
  exists L', agree (List.length (builder_states b)) L L' /\
             labelled L' (builder_states b') /\
             BInv b' /\
             List.length (builder_states b) <= List.length (builder_states b').

Lemma buildSequenceLoop_labelled segments :
  forall L b current endS b',
    BInv b -> current < List.length (builder_states b) ->
    endS < List.length (builder_states b) ->
    labelled L (builder_states b) ->
    seq_pre segments (L current) (L endS) ->
    buildSequenceLoop b segments current endS = Ok b' ->
    extended L b b'.
Proof.
  induction segments as [|segment rest IH]; intros L b current endS b' Hb Hc He Hlab Hpre Hrun.
  - injection Hrun as <-. exists L. split; [apply agree_refl|]. auto.
  - cbn [buildSequenceLoop] in Hrun. destruct Hpre as [Hlo Hhi].
    rewrite nonglob_cons in Hlo. rewrite glob_cons in Hhi.
    destruct rest as [|next rest].
    + cbn zeta in Hrun.
      destruct (buildSegmentAutomaton b segment current endS) as [b1|e] eqn:H1;
        cbn [bind] in Hrun; [|discriminate].
      injection Hrun as <-.
      destruct (buildSegmentAutomaton_spec _ _ _ _ _ Hb Hc He H1) as (Hlen & Hx).
      exists L. split; [apply agree_refl|]. split; [|split; [apply Hx|lia]].
      eapply buildSegmentAutomaton_labelled; [exact Hc| |exact H1|exact Hlab].
      change (nonglob []) with 0 in Hlo. change (glob []) with false in Hhi.
      rewrite orb_false_r in Hhi. cbn [List.length] in Hhi.
      unfold seg_ok, step_ok, weight in *.
      destruct (L current) as [lc hc], (L endS) as [le he]. cbn [lo hi] in *.
      destruct (is_globstar segment); ext_solve.
    + cbn zeta in Hrun.
      destruct (createState b false) as [nextState b0] eqn:Hcreate.
      destruct (createState_spec b _ _ Hb Hcreate) as (Hid & Hlen0 & Hx0).
      destruct (buildSegmentAutomaton b0 segment current nextState) as [b1|e] eqn:H1;
        cbn [bind] in Hrun; [|discriminate].
      destruct (buildSegmentAutomaton_spec b0 segment current nextState b1)
        as (Hlen1 & Hx1); [apply Hx0|lia|lia|exact H1|].
      set (fresh := mkLabel (ext_add (lo (L current)) (weight segment))
                            (if glob (segment :: next :: rest) then None
                             else ext_add (hi (L current)) 1)).
      set (L1 := upd L nextState fresh).
      assert (Hag1 : agree (List.length (builder_states b)) L L1)
        by (apply agree_upd; lia).
      assert (Hcur : L1 current = L current) by (apply Hag1; exact Hc).
      assert (Hend : L1 endS = L endS) by (apply Hag1; exact He).
      assert (Hnext : L1 nextState = fresh) by apply upd_same.
      assert (Hlab0 : labelled L1 (builder_states b0)).
      { eapply labelled_createState; [exact Hcreate|].
        eapply labelled_agree; eauto. }
      assert (Hlab1 : labelled L1 (builder_states b1)).
      { eapply buildSegmentAutomaton_labelled; [|  |exact H1|exact Hlab0]; [lia|].
        rewrite Hcur, Hnext. unfold fresh. rewrite glob_cons.
        remember (glob (next :: rest)) as g.
        unfold seg_ok, step_ok, weight. cbn [lo hi].
        destruct (L current) as [lc hc], (L endS) as [le he]. cbn [lo hi] in *.
        destruct (is_globstar segment); destruct g; cbn [orb] in *; ext_solve. }
      destruct (IH L1 b1 nextState endS b') as (L2 & Hag2 & Hlab2 & Hb2 & Hlen2);
        [apply Hx1|lia|lia|exact Hlab1| |exact Hrun|].
      { rewrite Hnext, Hend. unfold fresh. rewrite glob_cons.
        unfold seq_pre. cbn [lo hi].
        change (List.length (segment :: next :: rest))
          with (S (List.length (next :: rest))) in Hhi.
        remember (glob (next :: rest)) as g.
        remember (nonglob (next :: rest)) as N.
        remember (List.length (next :: rest)) as len.
        unfold weight in *.
        destruct (L current) as [lc hc], (L endS) as [le he]. cbn [lo hi] in *.
        destruct (is_globstar segment); destruct g; cbn [orb] in *; ext_solve. }
      exists L2. split; [|split; [exact Hlab2|split; [exact Hb2|lia]]].
      eapply agree_trans; [|exact Hag1|exact Hag2]. lia.
Qed.

Lemma buildSequenceAutomaton_labelled segments L b start endS b' :
  BInv b -> start < List.length (builder_states b) ->
  endS < List.length (builder_states b) ->
  labelled L (builder_states b) ->
  seq_pre segments (L start) (L endS) ->
  buildSequenceAutomaton b segments start endS = Ok b' ->
  extended L b b'.
Proof.
  intros Hb Hs He Hlab Hpre. destruct segments as [|segment rest]; cbn [buildSequenceAutomaton].
  - intros Hrun.
    destruct (addTransition_spec b start (EpsilonTransition endS) Hb Hs
                (targets_below_single _ (EpsilonTransition endS) endS eq_refl He))
      as (b1 & H1 & Hlen & Hx).
    rewrite Hrun in H1. injection H1 as <-.
    exists L. split; [apply agree_refl|]. split; [|split; [apply Hx|lia]].
    eapply labelled_addTransition; [exact Hs|exact Hrun| |exact Hlab].
    destruct Hpre as [Hlo Hhi]. unfold nonglob, glob in *. simpl in *.
    unfold step_ok. destruct (L start) as [ls hs], (L endS) as [le he]. simpl in *.
    ext_solve.
  - apply buildSequenceLoop_labelled; assumption.
Qed.

(** *** The numbers of JavaScript *)

Definition jle (a b : jsnum) : Prop :=
  match a, b with
  | NegInfinity, _ => True
  | Num x, Num y => x <= y
  | Num _, Infinity => True
  | Infinity, Infinity => True
  | _, _ => False
  end.

Lemma jle_refl a : jle a a.
Proof. destruct a; simpl; auto. Qed.

Lemma jle_trans a b c : jle a b -> jle b c -> jle a c.
Proof. destruct a, b, c; simpl; auto; try lia; try tauto. Qed.

Lemma num_min_le a b : jle (Js.num_min a b) a /\ jle (Js.num_min a b) b.
Proof.
  unfold Js.num_min. destruct a as [|x|]; destruct b as [|y|]; simpl; auto.
  destruct (Nat.ltb y x) eqn:H; simpl;
    [apply Nat.ltb_lt in H|apply Nat.ltb_ge in H]; lia.
Qed.

Lemma num_max_le a b : jle a (Js.num_max a b) /\ jle b (Js.num_max a b).
Proof.
  unfold Js.num_max. destruct a as [|x|]; destruct b as [|y|]; simpl; auto.
  destruct (Nat.ltb x y) eqn:H; simpl;
    [apply Nat.ltb_lt in H|apply Nat.ltb_ge in H]; lia.
Qed.

Lemma fold_min_le xs : forall acc,
  jle (fold_left Js.num_min xs acc) acc /\
  forall x, In x xs -> jle (fold_left Js.num_min xs acc) x.
Proof.
  induction xs as [|y xs IH]; intros acc; simpl.
  - split; [apply jle_refl|intros x []].
  - destruct (IH (Js.num_min acc y)) as [Hacc Hin].
    destruct (num_min_le acc y) as [H1 H2]. split.
    + eapply jle_trans; eauto.
    + intros x [<-|Hx]; [eapply jle_trans; eauto|auto].
Qed.

Lemma fold_max_le xs : forall acc,
  jle acc (fold_left Js.num_max xs acc) /\
  forall x, In x xs -> jle x (fold_left Js.num_max xs acc).
Proof.
  induction xs as [|y xs IH]; intros acc; simpl.
  - split; [apply jle_refl|intros x []].
  - destruct (IH (Js.num_max acc y)) as [Hacc Hin].
    destruct (num_max_le acc y) as [H1 H2]. split.
    + eapply jle_trans; eauto.
    + intros x [<-|Hx]; [eapply jle_trans; eauto|auto].
Qed.

Lemma Math_min_le xs x : In x xs -> jle (Js.Math_min xs) x.
Proof. intros H. apply (fold_min_le xs Infinity). exact H. Qed.

Lemma Math_max_le xs x : In x xs -> jle x (Js.Math_max xs).
Proof. intros H. apply (fold_max_le xs NegInfinity). exact H. Qed.

Lemma Math_min_infinite xs : (forall x, In x xs -> x = Infinity) -> Js.Math_min xs = Infinity.
Proof.
  unfold Js.Math_min. induction xs as [|y xs IH]; intros H; [reflexivity|].
  simpl. rewrite (H y (or_introl eq_refl)). simpl. apply IH.
  intros x Hx. apply H. right. exact Hx.
Qed.

(** *** Nodes *)

Definition lo_of (ls : ext) (m : jsnum) : ext :=
  match m with
  | Num k => ext_add ls k
  | Infinity => None
  | NegInfinity => Some 0
  end.

Definition hi_of (hs : ext) (m : option jsnum) : ext :=
  match m with
  | None | Some Infinity => None
  | Some (Num k) => ext_add hs k
  | Some NegInfinity => Some 0
  end.

Definition lo_pre (le ls : ext) (m : jsnum) : Prop :=
  match m with
  | Num k => ext_le le (ext_add ls k)
  | Infinity => True
  | NegInfinity => le = Some 0
  end.

Definition hi_pre (he hs : ext) (m : option jsnum) : Prop :=
  match m with
  | None | Some Infinity => he = None
  | Some (Num k) => ext_le (ext_add hs k) he
  | Some NegInfinity => True
  end.

(** A sequence with a globstar: its start state may carry a self loop. *)
Definition open_sequence (node : PatternNode) : bool :=
  match node with
  | SegmentSequence segments => glob segments
  | Alternation _ => false
  end.

(** What the labels of the two ends of a node must satisfy *)
Definition node_pre (node : PatternNode) (x y : label) : Prop :=
  lo_pre (lo y) (lo x) (getNodeMinSegments node) /\
  hi_pre (hi y) (hi x) (getNodeMaxSegments node) /\
  (open_sequence node = true -> hi x = None).

(** The labels given to the two states created for a branch *)
Definition start_label (x : label) (branch : PatternNode) : label :=
  mkLabel (lo x) (if open_sequence branch then None else hi x).

Definition end_label (x : label) (branch : PatternNode) : label :=
  mkLabel (lo_of (lo x) (getNodeMinSegments branch))
          (hi_of (hi (start_label x branch)) (getNodeMaxSegments branch)).

Lemma lo_pre_of l m : lo_pre (lo_of l m) l m.
Proof. destruct m as [|k|]; simpl; auto. destruct l; simpl; auto. Qed.

Lemma hi_pre_of h m : hi_pre (hi_of h m) h m.
Proof. destruct m as [[|k|]|]; simpl; auto. destruct h; simpl; auto. Qed.

Lemma node_pre_branch x branch :
  node_pre branch (start_label x branch) (end_label x branch).
Proof.
  unfold node_pre, end_label. cbn [lo hi].
  split; [apply lo_pre_of|]. split; [apply hi_pre_of|].
  unfold start_label. cbn [hi]. intros ->. reflexivity.
Qed.

Lemma node_pre_sequence segments x y :
  node_pre (SegmentSequence segments) x y -> seq_pre segments x y.
Proof.
  unfold node_pre, seq_pre. cbn [getNodeMinSegments getNodeMaxSegments open_sequence].
  fold (nonglob segments). fold (glob segments).
  intros (Hlo & Hhi & Hopen). split; [exact Hlo|].
  destruct (glob segments); simpl in *; auto.
Qed.

Lemma open_sequence_max node :
  open_sequence node = true -> getNodeMaxSegments node = None.
Proof.
  destruct node as [segments|branches]; simpl; [|discriminate].
  unfold glob. intros ->. reflexivity.
Qed.

(** The labels of a branch fit those of the alternation it belongs to. *)
Lemma alternation_branch branches x y branch :
  node_pre (Alternation branches) x y -> In branch branches ->
  step_ok 0 x (start_label x branch) /\ step_ok 0 (end_label x branch) y.
Proof.
  intros (Hlo & Hhi & _) Hin. cbn [getNodeMinSegments getNodeMaxSegments] in Hlo, Hhi.
  assert (Hmin : jle (Js.Math_min (map getNodeMinSegments branches))
                     (getNodeMinSegments branch))
    by (apply Math_min_le, in_map; exact Hin).
  split.
  - unfold step_ok, start_label. cbn [lo hi].
    destruct (open_sequence branch); destruct x as [[l|] [h|]]; simpl; auto; lia.
  - unfold step_ok, end_label. cbn [lo hi]. split.
    + unfold lo_pre in Hlo. unfold lo_of.
      destruct (Js.Math_min (map getNodeMinSegments branches)) as [|k|];
        destruct (getNodeMinSegments branch) as [|k'|]; simpl in Hmin; try tauto;
        destruct x as [[l|] hx], y as [[l'|] hy]; cbn [lo hi] in *;
        unfold ext_le, ext_add in *; simpl in *; try congruence; try lia; auto;
        try (injection Hlo as ->; lia).
    + destruct (existsb (fun m => match m with None => true | Some _ => false end)
                        (map getNodeMaxSegments branches)) eqn:Hnone.
      * unfold hi_pre in Hhi. rewrite Hhi. destruct (ext_add _ 0); exact I.
      * assert (Hsome : exists v, getNodeMaxSegments branch = Some v).
        { destruct (getNodeMaxSegments branch) as [v|] eqn:Hb; [eauto|].
          exfalso. rewrite <- not_true_iff_false in Hnone. apply Hnone.
          apply existsb_exists. exists None. split; [|reflexivity].
          rewrite <- Hb. apply in_map. exact Hin. }
        destruct Hsome as (v & Hv).
        assert (Hclosed : open_sequence branch = false).
        { destruct (open_sequence branch) eqn:Ho; [|reflexivity].
          apply open_sequence_max in Ho. congruence. }
        assert (Hmax : jle v (Js.Math_max
                                (map (fun m => match m with Some n => n | None => NegInfinity end)
                                     (map getNodeMaxSegments branches)))).
        { apply Math_max_le. apply in_map_iff. exists (Some v). split; [reflexivity|].
          rewrite <- Hv. apply in_map. exact Hin. }
        unfold start_label. rewrite Hclosed, Hv. cbn [hi].
        unfold hi_pre in Hhi. unfold hi_of.
        destruct (Js.Math_max _) as [|K|]; destruct v as [|k|]; simpl in Hmax; try tauto;
          destruct x as [lx [h|]], y as [ly [h'|]]; cbn [lo hi] in *;
          unfold ext_le, ext_add in *; simpl in *; try congruence; try lia; auto.
Qed.

Lemma upd_other L k v i : i <> k -> upd L k v i = L i.
Proof.
  intros H. unfold upd. destruct (Nat.eqb i k) eqn:Heq; [|reflexivity].
  apply Nat.eqb_eq in Heq. congruence.
Qed.

Lemma buildNodeAutomaton_labelled node :
  forall L b start endS b',
    BInv b -> start < List.length (builder_states b) ->
    endS < List.length (builder_states b) ->
    labelled L (builder_states b) ->
    node_pre node (L start) (L endS) ->
    buildNodeAutomaton b node start endS = Ok b' ->
    extended L b b'.
Proof.
  induction node as [segments|branches IH] using PatternNode_nested_ind;
    intros L b start endS b' Hb Hs He Hlab Hpre Hrun.
  - cbn [buildNodeAutomaton] in Hrun.
    exact (buildSequenceAutomaton_labelled segments L b start endS b' Hb Hs He Hlab
             (node_pre_sequence _ _ _ Hpre) Hrun).
  - cbn [buildNodeAutomaton] in Hrun.
    assert (Hbranches : forall branch, In branch branches ->
              step_ok 0 (L start) (start_label (L start) branch) /\
              step_ok 0 (end_label (L start) branch) (L endS)).
    { intros branch Hin. eapply alternation_branch; eauto. }
    clear Hpre. revert L b Hb Hs He Hlab Hrun Hbranches.
    induction IH as [|branch rest Hbranch _ IHrest];
      intros L b Hb Hs He Hlab Hrun Hbranches.
    + injection Hrun as <-. exists L. split; [apply agree_refl|]. auto.
    + destruct (createState b false) as [branchStart b1] eqn:Hc1.
      destruct (createState_spec b _ _ Hb Hc1) as (Hid1 & Hlen1 & Hx1).
      destruct (createState b1 false) as [branchEnd b2] eqn:Hc2.
      destruct (createState_spec b1 _ _ (proj1 Hx1) Hc2) as (Hid2 & Hlen2 & Hx2).
      assert (Hs2 : start < List.length (builder_states b2)) by lia.
      assert (Hbs2 : branchStart < List.length (builder_states b2)) by lia.
      destruct (addTransition_spec b2 start (EpsilonTransition branchStart)
                  (proj1 Hx2) Hs2
                  (targets_below_single _ (EpsilonTransition branchStart) branchStart
                     eq_refl Hbs2))
        as (b3 & H3 & Hlen3 & Hx3).
      rewrite H3 in Hrun. cbn [bind] in Hrun.
      destruct (buildNodeAutomaton b3 branch branchStart branchEnd) as [b4|e] eqn:H4;
        cbn [bind] in Hrun; [|discriminate].
      destruct (Hbranches branch (or_introl eq_refl)) as [Hin_ok Hout_ok].
      set (L1 := upd (upd L branchStart (start_label (L start) branch))
                     branchEnd (end_label (L start) branch)).
      assert (Hag1 : agree (List.length (builder_states b)) L L1).
      { intros i Hi. unfold L1. rewrite !upd_other by lia. reflexivity. }
      assert (HbS : L1 branchStart = start_label (L start) branch).
      { unfold L1. rewrite upd_other by lia. apply upd_same. }
      assert (HbE : L1 branchEnd = end_label (L start) branch) by apply upd_same.
      assert (Hst : L1 start = L start) by (apply Hag1; exact Hs).
      assert (Hen : L1 endS = L endS) by (apply Hag1; exact He).
      assert (Hlab2 : labelled L1 (builder_states b2)).
      { eapply labelled_createState; [exact Hc2|].
        eapply labelled_createState; [exact Hc1|].
        eapply labelled_agree; eauto. }
      assert (Hlab3 : labelled L1 (builder_states b3)).
      { eapply labelled_addTransition; [exact Hs2|exact H3| |exact Hlab2].
        cbn [trans_ok]. rewrite Hst, HbS. exact Hin_ok. }
      destruct (Hbranch L1 b3 branchStart branchEnd b4) as (L4 & Hag4 & Hlab4 & Hb4 & Hlen4);
        [apply Hx3|lia|lia|exact Hlab3| |exact H4|].
      { rewrite HbS, HbE. apply node_pre_branch. }
      assert (Hbe4 : branchEnd < List.length (builder_states b4)) by lia.
      assert (He4 : endS < List.length (builder_states b4)) by lia.
      destruct (addTransition_spec b4 branchEnd (EpsilonTransition endS)
                  Hb4 Hbe4
                  (targets_below_single _ (EpsilonTransition endS) endS eq_refl He4))
        as (b5 & H5 & Hlen5 & Hx5).
      rewrite H5 in Hrun. cbn [bind] in Hrun.
      assert (Hlab5 : labelled L4 (builder_states b5)).
      { eapply labelled_addTransition; [exact Hbe4|exact H5| |exact Hlab4].
        cbn [trans_ok]. rewrite (Hag4 branchEnd), (Hag4 endS) by lia.
        rewrite HbE, Hen. exact Hout_ok. }
      assert (Hag04 : agree (List.length (builder_states b)) L L4).
      { eapply agree_trans; [|exact Hag1|exact Hag4]. lia. }
      destruct (IHrest L4 b5) as (L6 & Hag6 & Hlab6 & Hb6 & Hlen6);
        [apply Hx5|lia|lia|exact Hlab5|exact Hrun| |].
      { intros br Hin. rewrite (Hag04 start Hs), (Hag04 endS He).
        apply Hbranches. right. exact Hin. }
      exists L6. split; [|split; [exact Hlab6|split; [exact Hb6|lia]]].
      eapply agree_trans; [|exact Hag04|exact Hag6]. lia.
Qed.

(** *** Runs respect a labelling *)

Lemma reach_labelled a L p i :
  labelled L (states a) ->
  ext_le (lo (L (initialState a))) (Some 0) ->
  ext_le (Some 0) (hi (L (initialState a))) ->
  reach a p i ->
  ext_le (lo (L i)) (Some (List.length p)) /\ ext_le (Some (List.length p)) (hi (L i)).
Proof.
  intros Hlab Hlo0 Hhi0. induction 1 as [|p i j _ IH Hedge|p segment i j _ IH Hedge].
  - auto.
  - destruct Hedge as (s & Hs & Hj). unfold eps_targets_of in Hj.
    apply in_flat_map in Hj. destruct Hj as (t & Ht & Hj).
    pose proof (Hlab i s t Hs Ht) as Hok.
    destruct t as [seg k|pat src k|sl ex|k]; simpl in Hj; try contradiction;
      destruct Hj as [->|[]]; cbn [trans_ok] in Hok.
    + destruct Hok as [_ [H1 H2]]. destruct IH as [I1 I2].
      destruct (L i) as [[a1|] [a2|]], (L j) as [[c1|] [c2|]];
        unfold ext_le, ext_add in *; simpl in *; try tauto; lia.
    + destruct Hok as [H1 H2]. destruct IH as [I1 I2].
      destruct (L i) as [[a1|] [a2|]], (L j) as [[c1|] [c2|]];
        unfold ext_le, ext_add in *; simpl in *; try tauto; lia.
  - destruct Hedge as (s & t & Hs & Ht & _ & Htg).
    pose proof (Hlab i s t Hs Ht) as Hok. rewrite length_app. cbn [List.length].
    destruct t as [seg k|pat src k|sl ex|k]; simpl in Htg; try discriminate;
      injection Htg as ->; cbn [trans_ok] in Hok.
    + destruct Hok as [H1 H2]. destruct IH as [I1 I2].
      destruct (L i) as [[a1|] [a2|]], (L j) as [[c1|] [c2|]];
        unfold ext_le, ext_add in *; simpl in *; try tauto; lia.
    + destruct Hok as [H1 H2]. destruct IH as [I1 I2].
      destruct (L i) as [[a1|] [a2|]], (L j) as [[c1|] [c2|]];
        unfold ext_le, ext_add in *; simpl in *; try tauto; lia.
    + destruct Hok as [[H1 H2] _]. destruct IH as [I1 I2].
      destruct (L i) as [[a1|] [a2|]], (L j) as [[c1|] [c2|]];
        unfold ext_le, ext_add in *; simpl in *; try tauto; lia.
Qed.

(** A pattern without a finite maximum count that is negative infinity
    has an infinite minimum: it matches nothing. *)
Lemma max_negative_min_infinite node :
  getNodeMaxSegments node = Some NegInfinity -> getNodeMinSegments node = Infinity.
Proof.
  induction node as [segments|branches IH] using PatternNode_nested_ind.
  - cbn [getNodeMaxSegments]. destruct (existsb is_globstar segments); discriminate.
  - cbn [getNodeMaxSegments getNodeMinSegments].
    destruct (existsb _ (map getNodeMaxSegments branches)) eqn:Hnone; [discriminate|].
    intros H. injection H as Hmax. apply Math_min_infinite.
    intros x Hx. apply in_map_iff in Hx. destruct Hx as (branch & <- & Hin).
    rewrite Forall_forall in IH. apply IH; [exact Hin|].
    destruct (getNodeMaxSegments branch) as [v|] eqn:Hb.
    + assert (Hle : jle v NegInfinity).
      { rewrite <- Hmax. apply Math_max_le. apply in_map_iff. exists (Some v).
        split; [reflexivity|]. rewrite <- Hb. apply in_map. exact Hin. }
      destruct v; simpl in Hle; try contradiction. reflexivity.
    + exfalso. rewrite <- not_true_iff_false in Hnone. apply Hnone.
      apply existsb_exists. exists None. split; [|reflexivity].
      rewrite <- Hb. apply in_map. exact Hin.
Qed.

(** The segments of an accepting run of the automaton of a pattern are
    within the segment bounds of the pattern. *)
Lemma buildAutomaton_within_bounds pattern a p :
  buildAutomaton pattern = Ok a -> has_accepting_run a p ->
  within_bounds (List.length p) (getMinSegments pattern) (getMaxSegments pattern) = true.
Proof.
  intros Hbuild (i & s & Hreach & Hs & Hacc).
  destruct (buildAutomaton_spec pattern a Hbuild) as (_ & _ & Hinit & _ & Hstates & _).
  assert (Hi : i = 1) by (apply (proj2 (Hstates i s Hs)); exact Hacc). subst i.
  revert Hbuild.
  set (b2 := mkBuilder [mkState 0 [] false; mkState 1 [] true] 2).
  change (buildAutomaton pattern)
    with (builder <- buildNodeAutomaton b2 (root pattern) 0 1 ;;
          Ok (mkAutomaton (builder_states builder) 0 [1] false)).
  destruct (buildNodeAutomaton b2 (root pattern) 0 1) as [b|e] eqn:Hrun; cbn [bind];
    [|discriminate].
  intros H. injection H as Ha.
  assert (Hb2 : BInv b2).
  { constructor; cbn [builder_states nextStateId b2].
    - reflexivity.
    - intros s0 t [<-|[<-|[]]] [].
    - intros [|[|k]] s0 H; simpl in H;
        [injection H as <-; reflexivity|injection H as <-; reflexivity|].
      destruct k; discriminate. }
  set (x0 := start_label (mkLabel (Some 0) (Some 0)) (root pattern)).
  set (L0 := fun k : nat =>
               if Nat.eqb k 0 then x0
               else end_label (mkLabel (Some 0) (Some 0)) (root pattern)).
  assert (Hlab0 : labelled L0 (builder_states b2)).
  { intros [|[|k]] s0 t H; simpl in H;
      [injection H as <-; intros []|injection H as <-; intros []|].
    destruct k; discriminate. }
  destruct (buildNodeAutomaton_labelled (root pattern) L0 b2 0 1 b Hb2)
    as (L' & Hag & Hlab & _ & _);
    [simpl; lia|simpl; lia|exact Hlab0| |exact Hrun|].
  { change (L0 0) with x0.
    change (L0 1) with (end_label (mkLabel (Some 0) (Some 0)) (root pattern)).
    apply node_pre_branch. }
  assert (H0 : L' 0 = x0) by (apply (Hag 0); simpl; lia).
  assert (H1 : L' 1 = end_label (mkLabel (Some 0) (Some 0)) (root pattern))
    by (apply (Hag 1); simpl; lia).
  destruct (reach_labelled a L' p 1) as [Hlo Hhi].
  - rewrite <- Ha. exact Hlab.
  - rewrite Hinit, H0. unfold x0, start_label. simpl. lia.
  - rewrite Hinit, H0. unfold x0, start_label. cbn [hi].
    destruct (open_sequence (root pattern)); simpl; auto.
  - exact Hreach.
  - rewrite H1 in Hlo, Hhi. unfold end_label, start_label in Hlo, Hhi. cbn [lo hi] in Hlo, Hhi.
    unfold within_bounds, getMinSegments, getMaxSegments.
    pose proof (max_negative_min_infinite (root pattern)) as Hneg.
    pose proof (open_sequence_max (root pattern)) as Hopen.
    destruct (getNodeMinSegments (root pattern)) as [|k|] eqn:Hmin;
      destruct (getNodeMaxSegments (root pattern)) as [[|K|]|] eqn:Hmax;
      destruct (open_sequence (root pattern)); simpl in *;
      try (specialize (Hopen eq_refl); discriminate);
      try (specialize (Hneg eq_refl); discriminate);
      try contradiction; try reflexivity;
      rewrite ?andb_true_r, ?negb_true_iff, ?Nat.ltb_ge; try lia;
      try (apply andb_true_iff; split; rewrite negb_true_iff, Nat.ltb_ge; lia).
Qed.

End BoundsSpec.

(* ===================================================================== *)
(** ** The result of [checkContainment]                                   *)
(* ===================================================================== *)

Module ContainmentSpec.

Import Containment.

(** The path [first_mismatch] returns is one of the paths, and the pattern
    rejects it. *)
Lemma first_mismatch_rejected paths pattern p :
  first_mismatch paths pattern = Ok (Some p) ->
  In p paths /\ Matcher.matchPath p pattern = Ok false.
Proof.
  induction paths as [|path rest IH]; simpl; [discriminate|].
  destruct (Matcher.matchPath path pattern) as [[|]|e] eqn:Hm; cbn [bind negb];
    [| |discriminate].
  - intros H. destruct (IH H) as [Hin Hrej]. split; [right; exact Hin|exact Hrej].
  - intros H. injection H as <-. split; [left; reflexivity|exact Hm].
Qed.

(** The second stage of [checkContainmentStructural]: a subset verdict
    is withdrawn when the first pattern is unbounded and the second is
    not. *)
Definition deepen (subset_ : bool) (counterexample_ : option string)
           (a b : CompiledPattern) : result (bool * option string) :=
  if subset_ && isUnbounded a && negb (isUnbounded b)
  then depth <- deep_depth (maxSegments b) ;;
       Ok (false, Some (generateDeepPath a depth))
  else Ok (subset_, counterexample_).

Lemma deepen_spec paths a b ce s ce' :
  first_mismatch paths b = Ok ce ->
  deepen (match ce with None => true | Some _ => false end) ce a b = Ok (s, ce') ->
  (s = true <-> ce' = None) /\
  (forall p, ce' = Some p -> isUnbounded a = false \/ isUnbounded b = true ->
             Matcher.matchPath p b = Ok false).
Proof.
  intros Hfirst. unfold deepen. destruct ce as [p0|].
  - cbn [andb]. intros H. injection H as <- <-. split.
    + split; discriminate.
    + intros p Hp _. injection Hp as <-.
      exact (proj2 (first_mismatch_rejected _ _ _ Hfirst)).
  - cbn [andb]. destruct (isUnbounded a) eqn:Ha; cbn [andb].
    + destruct (isUnbounded b) eqn:Hb; cbn [negb].
      * intros H. injection H as <- <-. split; [tauto|discriminate].
      * destruct (deep_depth (maxSegments b)) as [depth|e]; cbn [bind]; [|discriminate].
        intros H. injection H as <- <-. split.
        -- split; discriminate.
        -- intros p _ [H|H]; discriminate.
    + intros H. injection H as <- <-. split; [tauto|discriminate].
Qed.

Lemma checkContainmentStructural_unfold a b :
  checkContainmentStructural a b =
  (aPaths <- generateTestPaths a 20 ;;
   bPaths <- generateTestPaths b 20 ;;
   counterexample <- first_mismatch aPaths b ;;
   reverseCounterexample <- first_mismatch bPaths a ;;
   '(aSubsetB, counterexample) <-
     deepen (match counterexample with None => true | Some _ => false end)
            counterexample a b ;;
   '(bSubsetA, reverseCounterexample) <-
     deepen (match reverseCounterexample with None => true | Some _ => false end)
            reverseCounterexample b a ;;
   Ok (aSubsetB, bSubsetA, counterexample, reverseCounterexample)).
Proof. reflexivity. Qed.

(** The fields of the result fit together, and a counterexample found
    among the test paths is rejected by the other pattern. *)
Lemma checkContainment_spec a b r :
  checkContainment a b = Ok r ->
  patternA r = cp_source a /\ patternB r = cp_source b /\
  isEqual r = isSubset r && isSuperset r /\
  (isSubset r = true <-> counterexample r = None) /\
  (isSuperset r = true <-> reverseCounterexample r = None) /\
  relationship r
  = (if isEqual r then equal
     else if isSubset r then subset
     else if isSuperset r then superset
     else if hasOverlap r then overlapping else disjoint) /\
  (forall p, counterexample r = Some p ->
             isUnbounded a = false \/ isUnbounded b = true ->
             Matcher.matchPath p b = Ok false) /\
  (forall p, reverseCounterexample r = Some p ->
             isUnbounded b = false \/ isUnbounded a = true ->
             Matcher.matchPath p a = Ok false).
Proof.
  unfold checkContainment. rewrite checkContainmentStructural_unfold.
  destruct (generateTestPaths a 20) as [aPaths|e]; cbn [bind]; [|discriminate].
  destruct (generateTestPaths b 20) as [bPaths|e]; cbn [bind]; [|discriminate].
  destruct (first_mismatch aPaths b) as [ce|e] eqn:Hce; cbn [bind]; [|discriminate].
  destruct (first_mismatch bPaths a) as [rce|e] eqn:Hrce; cbn [bind]; [|discriminate].
  destruct (deepen _ ce a b) as [[s ce']|e] eqn:Hd1; cbn [bind]; [|discriminate].
  destruct (deepen _ rce b a) as [[s' rce']|e] eqn:Hd2; cbn [bind]; [|discriminate].
  destruct (checkHasOverlap a b) as [ov|e]; cbn [bind]; [|discriminate].
  intros H. injection H as <-.
  cbn [patternA patternB isEqual isSubset isSuperset hasOverlap relationship
       counterexample reverseCounterexample].
  destruct (deepen_spec aPaths a b ce s ce' Hce Hd1) as [Hs Hrej].
  destruct (deepen_spec bPaths b a rce s' rce' Hrce Hd2) as [Hs' Hrej'].
  repeat (split; [first [reflexivity|assumption]|]).
  split; [|split; assumption].
  destruct (s && s'), s, s', ov; reflexivity.
Qed.

End ContainmentSpec.

(* ===================================================================== *)
(** ** What the product of [intersect] accepts                            *)
(* ===================================================================== *)

Module ProductSound.

Import Intersect.

(** *** The keys of the pairs *)

Lemma string_of_uint_no_comma d :
  ~ In ","%char (Js.chars (NilEmpty.string_of_uint d)).
Proof.
  induction d; simpl; try (intros []; fail);
    (intros [H|H]; [discriminate|auto]).
Qed.

Lemma String_of_nat_inj x y : Js.String_of_nat x = Js.String_of_nat y -> x = y.
Proof.
  unfold Js.String_of_nat. intros H. apply DecimalNat.Unsigned.to_uint_inj.
  assert (Hs : Some (Nat.to_uint x) = Some (Nat.to_uint y))
    by (rewrite <- !NilEmpty.usu, H; reflexivity).
  injection Hs as Hs. exact Hs.
Qed.

Lemma append_comma_inj s1 :
  forall s2 t1 t2,
    ~ In ","%char (Js.chars s1) -> ~ In ","%char (Js.chars s2) ->
    s1 ++ String "," t1 = s2 ++ String "," t2 -> s1 = s2 /\ t1 = t2.
Proof.
  induction s1 as [|c r IH]; intros [|d r2] t1 t2 H1 H2 Heq; simpl in *.
  - injection Heq as ->. auto.
  - injection Heq as Hc _. exfalso. apply H2. left. symmetry. exact Hc.
  - injection Heq as Hc _. exfalso. apply H1. left. exact Hc.
  - injection Heq as -> Hr.
    destruct (IH r2 t1 t2) as [-> ->]; auto.
Qed.

Lemma getPairKey_inj sa sb sa' sb' :
  getPairKey sa sb = getPairKey sa' sb' -> sa = sa' /\ sb = sb'.
Proof.
  unfold getPairKey. intros H.
  change ("," ++ Js.String_of_nat sb) with (String "," (Js.String_of_nat sb)) in H.
  change ("," ++ Js.String_of_nat sb') with (String "," (Js.String_of_nat sb')) in H.
  apply append_comma_inj in H; try apply string_of_uint_no_comma.
  destruct H as [H1 H2]. split; apply String_of_nat_inj; assumption.
Qed.

(** *** Combined transitions *)

Definition part_matches (part : TransitionWithoutTarget) (segment : string) : bool :=
  match part with
  | LiteralPart s => String.eqb s segment
  | WildcardPart_ pattern _ => test pattern segment
  end.

(** The transition [productConstruction] writes for a combined one *)
Definition mk_transition (part : TransitionWithoutTarget) (target : nat)
  : AutomatonTransition :=
  match part with
  | LiteralPart segment => LiteralTransition segment target
  | WildcardPart_ pattern patternSource => WildcardTransition pattern patternSource target
  end.

Lemma mk_transition_matches part target segment :
  Matcher.matchTransition (mk_transition part target) segment = part_matches part segment /\
  Matcher.getTransitionTarget (mk_transition part target) segment = Some target /\
  consuming (mk_transition part target) = true.
Proof. destruct part; simpl; auto. Qed.

(** A combined transition fires only on segments on which both of its
    components fire, and leads to their targets. *)
Lemma combineTransitions_sound tA tB cb segment :
  combineTransitions tA tB = Some cb ->
  part_matches (transition cb) segment = true ->
  Matcher.matchTransition tA segment = true /\
  Matcher.getTransitionTarget tA segment = Some (targetA cb) /\
  Matcher.matchTransition tB segment = true /\
  Matcher.getTransitionTarget tB segment = Some (targetB cb).
Proof.
  destruct tA as [sA tgA|pA srcA tgA|slA exA|tgA];
    destruct tB as [sB tgB|pB srcB tgB|slB exB|tgB];
    cbn [combineTransitions handleGlobstarProduct]; try discriminate;
    try (match goal with |- context [if ?x then _ else _] => destruct x eqn:Hc end;
         try discriminate);
    intros H; injection H as <-;
    cbn [transition targetA targetB part_matches Matcher.matchTransition
         Matcher.getTransitionTarget test createIntersectionPattern];
    intros Hm;
    repeat match goal with
           | H : String.eqb _ _ = true |- _ => apply String.eqb_eq in H; subst
           end;
    rewrite ?String.eqb_refl;
    try (apply andb_prop in Hm; destruct Hm);
    repeat split; auto.
Qed.

(** *** The pairs behind the product states *)

Section Sound.

Variables a b : SegmentAutomaton.

Definition paired (m : list (string * nat)) (i sa sb : nat) : Prop :=
  Js.map_get m (getPairKey sa sb) = Some i.

Definition mono (m m' : list (string * nat)) : Prop :=
  forall k v, Js.map_get m k = Some v -> Js.map_get m' k = Some v.

(** A transition of the product state of [(sa, sb)] combines a transition
    of [sa] with one of [sb] and leads to the state of their targets. *)
Definition sound_transition (m : list (string * nat)) (sa sb : nat)
           (t : AutomatonTransition) : Prop :=
  exists tA tB cb target,
    In tA (transitions_or_empty a sa) /\
    In tB (transitions_or_empty b sb) /\
    combineTransitions tA tB = Some cb /\
    paired m target (targetA cb) (targetB cb) /\
    t = mk_transition (transition cb) target.

Record SInv (c : Construction) : Prop := mkSInv {
  si_below : forall k v, Js.map_get (pairToState c) k = Some v ->
                         v < List.length (productStates c);
  si_inj : forall k k' v, Js.map_get (pairToState c) k = Some v ->
                          Js.map_get (pairToState c) k' = Some v -> k = k';
  si_all : forall i, i < List.length (productStates c) ->
                     exists sa sb, paired (pairToState c) i sa sb;
  si_acc : forall i sa sb st,
      paired (pairToState c) i sa sb -> nth_error (productStates c) i = Some st ->
      accepting st = accepting_or_false a sa && accepting_or_false b sb;
  si_trans : forall i sa sb st t,
      paired (pairToState c) i sa sb -> nth_error (productStates c) i = Some st ->
      In t (transitions st) -> sound_transition (pairToState c) sa sb t
}.

Lemma mono_refl m : mono m m.
Proof. intros k v H. exact H. Qed.

Lemma mono_trans m1 m2 m3 : mono m1 m2 -> mono m2 m3 -> mono m1 m3.
Proof. intros H1 H2 k v H. auto. Qed.

Lemma sound_transition_mono m m' sa sb t :
  mono m m' -> sound_transition m sa sb t -> sound_transition m' sa sb t.
Proof.
  intros Hm (tA & tB & cb & target & HA & HB & Hcb & Hp & Ht).
  exists tA, tB, cb, target. repeat split; auto. apply Hm. exact Hp.
Qed.

Lemma getOrCreateState_sound c sa sb i c' :
  SInv c ->
  getOrCreateState a b intersection c sa sb = (i, c') ->
  SInv c' /\ paired (pairToState c') i sa sb /\ mono (pairToState c) (pairToState c').
Proof.
  intros [Hbelow Hinj Hall Hacc Htrans]. unfold getOrCreateState.
  destruct (Js.map_get (pairToState c) (getPairKey sa sb)) as [v|] eqn:Hget.
  - intros H. injection H as <- <-.
    split; [constructor; assumption|]. split; [exact Hget|apply mono_refl].
  - intros H. injection H as <- <-. cbn [pairToState productStates].
    set (n := List.length (productStates c)).
    set (m' := Js.map_set (pairToState c) (getPairKey sa sb) n).
    assert (Hmono : mono (pairToState c) m').
    { intros k v Hk. unfold m'. rewrite map_get_set, Hk. reflexivity. }
    assert (Hnew : forall k v, Js.map_get m' k = Some v ->
                     Js.map_get (pairToState c) k = Some v \/
                     (k = getPairKey sa sb /\ v = n)).
    { intros k v. unfold m'. rewrite map_get_set.
      destruct (Js.map_get (pairToState c) k) as [x|]; [auto|].
      destruct (String.eqb k (getPairKey sa sb)) eqn:Heq; [|discriminate].
      apply String.eqb_eq in Heq. intros H. injection H as <-. auto. }
    split; [|split; [|exact Hmono]].
    + constructor; cbn [pairToState productStates].
      * intros k v Hk. rewrite length_app. cbn [List.length]. fold n.
        destruct (Hnew k v Hk) as [Hold|[_ ->]]; [apply Hbelow in Hold; fold n in Hold|]; lia.
      * intros k k' v Hk Hk'.
        destruct (Hnew k v Hk) as [Hold|[Hk1 Hv1]];
          destruct (Hnew k' v Hk') as [Hold'|[Hk2 Hv2]].
        -- eapply Hinj; eauto.
        -- apply Hbelow in Hold. fold n in Hold. lia.
        -- apply Hbelow in Hold'. fold n in Hold'. lia.
        -- congruence.
      * intros i. rewrite length_app. cbn [List.length]. fold n. intros Hi.
        destruct (Nat.eq_dec i n) as [->|Hne].
        -- exists sa, sb. unfold paired, m'. rewrite map_get_set, Hget, String.eqb_refl.
           reflexivity.
        -- destruct (Hall i) as (x & y & Hxy); [fold n; lia|].
           exists x, y. apply Hmono. exact Hxy.
      * intros i x y st Hp Hst.
        destruct (Hnew _ _ Hp) as [Hold|[Hkey ->]].
        -- pose proof (Hbelow _ _ Hold) as Hlt.
           rewrite nth_error_app1 in Hst by exact Hlt. eapply Hacc; eauto.
        -- apply getPairKey_inj in Hkey. destruct Hkey as [-> ->].
           rewrite nth_error_app2 in Hst by (fold n; lia). fold n in Hst.
           rewrite Nat.sub_diag in Hst. simpl in Hst. injection Hst as <-. reflexivity.
      * intros i x y st t Hp Hst Ht.
        destruct (Hnew _ _ Hp) as [Hold|[Hkey ->]].
        -- pose proof (Hbelow _ _ Hold) as Hlt.
           rewrite nth_error_app1 in Hst by exact Hlt.
           eapply sound_transition_mono; [exact Hmono|]. eapply Htrans; eauto.
        -- rewrite nth_error_app2 in Hst by (fold n; lia). fold n in Hst.
           rewrite Nat.sub_diag in Hst. simpl in Hst. injection Hst as <-. destruct Ht.
    + unfold paired, m'. rewrite map_get_set, Hget, String.eqb_refl. reflexivity.
Qed.

Definition item_paired (m : list (string * nat)) (item : WorkItem) : Prop :=
  paired m (stateId item) (sa item) (sb item).

(** Invariant of the accumulator of the two nested [for] loops *)
Definition SAcc (m0 : list (string * nat)) (sa sb : nat)
           (acc : Construction * list AutomatonTransition * list WorkItem) : Prop :=
  let '(c, ts, wl) := acc in
  SInv c /\ mono m0 (pairToState c) /\
  (forall t, In t ts -> sound_transition (pairToState c) sa sb t) /\
  (forall item, In item wl -> item_paired (pairToState c) item).

Lemma combine_visit_sound m0 sa sb P acc pair :
  In (fst pair) (transitions_or_empty a sa) ->
  In (snd pair) (transitions_or_empty b sb) ->
  SAcc m0 sa sb acc -> SAcc m0 sa sb (combine_visit a b intersection P acc pair).
Proof.
  intros HA HB. destruct acc as [[c ts] wl]. intros (Hc & Hm0 & Hts & Hwl).
  unfold combine_visit.
  destruct (combineTransitions (fst pair) (snd pair)) as [cb|] eqn:Hcb;
    [|exact (conj Hc (conj Hm0 (conj Hts Hwl)))].
  destruct (getOrCreateState a b intersection c (targetA cb) (targetB cb))
    as [target c1] eqn:Hgoc.
  destruct (getOrCreateState_sound _ _ _ _ _ Hc Hgoc) as (Hc1 & Hp & Hmono).
  split; [exact Hc1|]. split; [eapply mono_trans; eauto|]. split.
  - intros t Ht. apply in_app_or in Ht. destruct Ht as [Ht|[<-|[]]].
    + eapply sound_transition_mono; [exact Hmono|auto].
    + exists (fst pair), (snd pair), cb, target. repeat split; auto.
  - intros item Hitem.
    destruct (negb (Js.array_includes P (getPairKey (targetA cb) (targetB cb)))).
    + destruct Hitem as [<-|Hitem]; [exact Hp|].
      apply Hmono. apply Hwl. exact Hitem.
    + apply Hmono. apply Hwl. exact Hitem.
Qed.

Lemma fold_sound m0 sa sb P pairs :
  forall acc,
    (forall pair, In pair pairs ->
                  In (fst pair) (transitions_or_empty a sa) /\
                  In (snd pair) (transitions_or_empty b sb)) ->
    SAcc m0 sa sb acc ->
    SAcc m0 sa sb (fold_left (combine_visit a b intersection P) pairs acc).
Proof.
  induction pairs as [|pair rest IH]; intros acc Hin Hacc; [exact Hacc|].
  simpl. apply IH.
  - intros p Hp. apply Hin. right. exact Hp.
  - destruct (Hin pair (or_introl eq_refl)) as [HA HB].
    apply combine_visit_sound; assumption.
Qed.

Lemma pairs_components (tsA tsB : list AutomatonTransition) pair :
  In pair (flat_map (fun transA => map (fun transB => (transA, transB)) tsB) tsA) ->
  In (fst pair) tsA /\ In (snd pair) tsB.
Proof.
  intros H. apply in_flat_map in H. destruct H as (tA & HA & H).
  apply in_map_iff in H. destruct H as (tB & <- & HB). auto.
Qed.

(** Invariant of the main loop *)
Definition LInv (l : Loop) : Prop :=
  SInv (construction l) /\
  forall item, In item (worklist l) -> item_paired (pairToState (construction l)) item.

Lemma product_step_sound l l' :
  LInv l -> product_step a b intersection l = Ok (inl l') ->
  LInv l' /\ mono (pairToState (construction l)) (pairToState (construction l')).
Proof.
  intros [Hc Hwl]. unfold product_step.
  destruct (worklist l) as [|item wl] eqn:Hw; [discriminate|].
  assert (Hitem : item_paired (pairToState (construction l)) item)
    by (apply Hwl; left; reflexivity).
  assert (Hrest : forall it, In it wl -> item_paired (pairToState (construction l)) it)
    by (intros it Hit; apply Hwl; right; exact Hit).
  destruct (Js.array_includes (processed l) (getPairKey (sa item) (sb item))).
  - intros H. injection H as <-. split; [split; assumption|apply mono_refl].
  - cbv zeta.
    set (P := (processed l ++ [getPairKey (sa item) (sb item)])%list).
    set (pairs := flat_map _ _).
    assert (Hacc0 : SAcc (pairToState (construction l)) (sa item) (sb item)
                         (construction l, [], wl)).
    { split; [exact Hc|]. split; [apply mono_refl|]. split; [intros t []|exact Hrest]. }
    pose proof (fold_sound (pairToState (construction l)) (sa item) (sb item) P pairs
                  (construction l, [], wl)
                  (fun pair Hp => pairs_components _ _ pair Hp) Hacc0) as Hfold.
    destruct (fold_left (combine_visit a b intersection P) pairs (construction l, [], wl))
      as [[c ts] wl1].
    destruct Hfold as (Hc1 & Hmono & Hts & Hwl1).
    destruct (nth_error (productStates c) (stateId item)) as [state|] eqn:Hstate;
      [|discriminate].
    intros H. assert (Hl' : l' = mkLoop
                        (mkConstruction (pairToState c)
                           (Js.array_set (productStates c) (stateId item)
                              (mkState (id state) ts (accepting state))))
                        wl1 P) by congruence.
    subst l'. clear H. unfold LInv. cbn [construction worklist pairToState].
    split; [|exact Hmono]. split; [|exact Hwl1].
    destruct Hc1 as [Hbelow Hinj Hall Hacc Htrans].
    assert (Hsid : stateId item < List.length (productStates c))
      by (apply nth_error_Some; congruence).
    constructor; cbn [pairToState productStates].
    + intros k v Hk. rewrite array_set_length. eauto.
    + exact Hinj.
    + intros i Hi. rewrite array_set_length in Hi. auto.
    + intros i x y st Hp Hst.
      destruct (Nat.eq_dec (stateId item) i) as [<-|Hne].
      * rewrite array_set_nth_same in Hst by exact Hsid. injection Hst as <-.
        cbn [accepting]. eapply Hacc; eauto.
      * rewrite array_set_nth_other in Hst by exact Hne. eapply Hacc; eauto.
    + intros i x y st t Hp Hst Ht.
      destruct (Nat.eq_dec (stateId item) i) as [<-|Hne].
      * rewrite array_set_nth_same in Hst by exact Hsid. injection Hst as <-.
        cbn [transitions] in Ht.
        assert (Hkey : getPairKey x y = getPairKey (sa item) (sb item)).
        { eapply Hinj; [exact Hp|]. apply Hmono. exact Hitem. }
        apply getPairKey_inj in Hkey. destruct Hkey as [-> ->]. auto.
      * rewrite array_set_nth_other in Hst by exact Hne. eapply Htrans; eauto.
Qed.

Lemma product_step_done l c :
  product_step a b intersection l = Ok (inr c) -> c = construction l.
Proof.
  unfold product_step. destruct (worklist l) as [|item wl].
  - intros H. injection H as <-. reflexivity.
  - destruct (Js.array_includes (processed l) (getPairKey (sa item) (sb item)));
      [discriminate|]. cbv zeta.
    destruct (fold_left _ _ _) as [[c1 ts] wl1].
    destruct (nth_error (productStates c1) (stateId item)); discriminate.
Qed.

(** *** Runs of the product *)

Lemma transitions_or_empty_state (x : SegmentAutomaton) s t :
  In t (transitions_or_empty x s) ->
  exists st, state_at x s = Some st /\ In t (transitions st).
Proof.
  unfold transitions_or_empty. destruct (state_at x s) as [st|]; [eauto|intros []].
Qed.

Lemma accepting_or_false_state (x : SegmentAutomaton) s :
  accepting_or_false x s = true ->
  exists st, state_at x s = Some st /\ accepting st = true.
Proof.
  unfold accepting_or_false. destruct (state_at x s) as [st|]; [eauto|discriminate].
Qed.

Section Runs.

Variable c : Construction.
Variable i0 : nat.
Variable flag : bool.
Hypothesis c_inv : SInv c.
Hypothesis c_init : paired (pairToState c) i0 (initialState a) (initialState b).

Let product : SegmentAutomaton :=
  mkAutomaton (productStates c) i0 (map id (filter accepting (productStates c))) flag.

Lemma product_eps_free : eps_free product = true.
Proof.
  unfold eps_free. apply forallb_forall. intros st Hst. apply forallb_forall.
  intros t Ht. apply In_nth_error in Hst. destruct Hst as (i & Hi).
  unfold product in Hi. cbn [states] in Hi.
  assert (Hlt : i < List.length (productStates c)) by (apply nth_error_Some; congruence).
  destruct (si_all c c_inv i Hlt) as (x & y & Hp).
  destruct (si_trans c c_inv i x y st t Hp Hi Ht) as (tA & tB & cb & target & _ & _ & _ & _ & ->).
  apply mk_transition_matches. exact "".
Qed.

Lemma product_reach p i :
  reach product p i ->
  exists x y, paired (pairToState c) i x y /\ reach a p x /\ reach b p y.
Proof.
  induction 1 as [|p i j _ IH Hedge|p segment i j _ IH Hedge].
  - exists (initialState a), (initialState b). split; [exact c_init|].
    split; constructor.
  - exfalso. destruct IH as (x & y & Hp & _). destruct Hedge as (st & Hst & Hj).
    unfold eps_targets_of in Hj. apply in_flat_map in Hj. destruct Hj as (t & Ht & Hj).
    destruct (si_trans c c_inv i x y st t Hp Hst Ht)
      as (tA & tB & cb & target & _ & _ & _ & _ & ->).
    destruct (transition cb); exact Hj.
  - destruct IH as (x & y & Hp & Hra & Hrb).
    destruct Hedge as (st & t & Hst & Ht & Hm & Htg).
    destruct (si_trans c c_inv i x y st t Hp Hst Ht)
      as (tA & tB & cb & target & HA & HB & Hcb & Hpt & ->).
    destruct (mk_transition_matches (transition cb) target segment) as (Hmm & Htt & _).
    rewrite Hmm in Hm. rewrite Htt in Htg. injection Htg as <-.
    destruct (combineTransitions_sound _ _ _ _ Hcb Hm) as (HmA & HtA & HmB & HtB).
    destruct (transitions_or_empty_state _ _ _ HA) as (stA & HsA & HinA).
    destruct (transitions_or_empty_state _ _ _ HB) as (stB & HsB & HinB).
    exists (targetA cb), (targetB cb). split; [exact Hpt|]. split.
    + eapply reach_segment; [exact Hra|]. exists stA, tA. auto.
    + eapply reach_segment; [exact Hrb|]. exists stB, tB. auto.
Qed.

Lemma product_accepting_run p :
  has_accepting_run product p -> has_accepting_run a p /\ has_accepting_run b p.
Proof.
  intros (i & st & Hr & Hst & Hacc).
  destruct (product_reach p i Hr) as (x & y & Hp & Hra & Hrb).
  pose proof (si_acc c c_inv i x y st Hp Hst) as Hboth. rewrite Hacc in Hboth.
  symmetry in Hboth. apply andb_prop in Hboth. destruct Hboth as [HaA HaB].
  destruct (accepting_or_false_state _ _ HaA) as (stA & HsA & HcA).
  destruct (accepting_or_false_state _ _ HaB) as (stB & HsB & HcB).
  split; [exists x, stA|exists y, stB]; auto.
Qed.

End Runs.

Lemma intersect_invariant p :
  intersect a b = Ok p ->
  exists c i0,
    SInv c /\ paired (pairToState c) i0 (initialState a) (initialState b) /\
    p = mkAutomaton (productStates c) i0 (map id (filter accepting (productStates c)))
                    (isDeterministic a && isDeterministic b).
Proof.
  unfold intersect, productConstruction.
  destruct (getOrCreateState a b intersection (mkConstruction [] [])
              (initialState a) (initialState b)) as [i0 c0] eqn:Hgoc.
  assert (Hempty : SInv (mkConstruction [] [])).
  { constructor; cbn [pairToState productStates].
    - discriminate.
    - discriminate.
    - intros i Hi. simpl in Hi. lia.
    - intros i x y st H. discriminate.
    - intros i x y st t H. discriminate. }
  destruct (getOrCreateState_sound _ _ _ _ _ Hempty Hgoc) as (Hc0 & Hp0 & _).
  destruct (while_loop _ _ _) as [c|e] eqn:Hloop; cbn [bind]; [|discriminate].
  intros H. injection H as <-.
  exists c, i0.
  refine ((fun H => conj (proj1 H) (conj (proj2 H) eq_refl)) _).
  refine (while_loop_inv (product_step a b intersection)
            (fun l => LInv l /\ paired (pairToState (construction l)) i0
                                      (initialState a) (initialState b))
            (fun c => SInv c /\ paired (pairToState c) i0 (initialState a) (initialState b))
            _ _ _ _ _ _ Hloop).
  - intros s s' [Hs Hp] Hstep.
    destruct (product_step_sound _ _ Hs Hstep) as [Hs' Hmono]. split; [exact Hs'|].
    apply Hmono. exact Hp.
  - intros s r [[Hs _] Hp] Hstep. apply product_step_done in Hstep. subst r. auto.
  - split; [split; [exact Hc0|]|exact Hp0].
    intros item [<-|[]]. exact Hp0.
Qed.

End Sound.

Lemma getDeterministicTarget_matches ts segment target :
  Matcher.getDeterministicTarget ts segment = Some target ->
  exists t, In t ts /\ Matcher.matchTransition t segment = true /\
            Matcher.getTransitionTarget t segment = Some target.
Proof.
  unfold Matcher.getDeterministicTarget.
  repeat match goal with
         | |- context [find ?f ts] =>
             let H := fresh "Hfind" in
             destruct (find f ts) as [[| | |]|] eqn:H;
             try (apply find_some in H; destruct H as [? ?])
         end;
    try discriminate;
    intros Heq; injection Heq as <-;
    eexists; (split; [eassumption|]); simpl; auto.
Qed.

Lemma run_dfa_reach x p :
  forall p0 q q',
    reach x p0 q -> run_dfa x q p = Some q' -> reach x (p0 ++ p)%list q'.
Proof.
  induction p as [|segment p IH]; intros p0 q q' Hr Hrun.
  - simpl in Hrun. injection Hrun as <-. rewrite app_nil_r. exact Hr.
  - cbn [run_dfa] in Hrun.
    destruct (state_at x q) as [s|] eqn:Hs; [|discriminate].
    destruct (Matcher.getDeterministicTarget (transitions s) segment) as [target|] eqn:Ht;
      [|discriminate].
    destruct (getDeterministicTarget_matches _ _ _ Ht) as (t & Hin & Hm & Htg).
    replace (p0 ++ segment :: p)%list with ((p0 ++ [segment]) ++ p)%list
      by (rewrite <- app_assoc; reflexivity).
    eapply IH; [|exact Hrun].
    eapply reach_segment; [exact Hr|]. exists s, t. auto.
Qed.

Lemma accepts_dfa_run x p : accepts_dfa x p = true -> has_accepting_run x p.
Proof.
  unfold accepts_dfa.
  destruct (run_dfa x (initialState x) p) as [q|] eqn:Hrun; [|discriminate].
  destruct (state_at x q) as [s|] eqn:Hs; [|discriminate].
  intros Hacc. exists q, s. split; [|auto].
  apply (run_dfa_reach x p [] (initialState x) q); [constructor|exact Hrun].
Qed.

(** A segment sequence the product accepts has an accepting run in both
    operands. *)
Lemma intersect_sound a b p segments :
  intersect a b = Ok p ->
  Matcher.simulateNFA p segments = Ok true ->
  has_accepting_run a segments /\ has_accepting_run b segments.
Proof.
  intros Hp Hsim.
  pose proof (ProductInv.productConstruction_well_formed _ _ _ _ Hp) as Hwf.
  destruct (intersect_invariant a b p Hp) as (c & i0 & Hc & Hinit & Heq).
  apply (product_accepting_run a b c i0 (isDeterministic a && isDeterministic b) Hc Hinit).
  rewrite <- Heq.
  destruct (isDeterministic p) eqn:Hflag.
  - apply accepts_dfa_run.
    assert (Hfree : eps_free p = true)
      by (rewrite Heq; apply (product_eps_free a b c i0 _ Hc)).
    rewrite (DfaSimulation.simulateNFA_dfa p Hwf Hflag Hfree segments) in Hsim.
    injection Hsim as Hsim. exact Hsim.
  - destruct (SimulationExact.simulateNFA_exact p Hwf Hflag segments) as (r & Hr & Hiff).
    rewrite Hsim in Hr. injection Hr as <-. apply Hiff. reflexivity.
Qed.

End ProductSound.

(* ===================================================================== *)
(** * The properties C1 to C10                                            *)
(* ===================================================================== *)

(** ** The concrete automata are what the library builds *)

Lemma nfa_a_built : nfa_of "a" = Ok nfa_a.
Proof. vm_compute. reflexivity. Qed.

Lemma nfa_star_ts_built : nfa_of "*.ts" = Ok nfa_star_ts.
Proof. vm_compute. reflexivity. Qed.

Lemma nfa_braces_built : nfa_of "{a,b,c,d,e}/*.ts" = Ok nfa_braces.
Proof. vm_compute. reflexivity. Qed.

Lemma dfa_a_built :
  Determinize.determinize nfa_a Determinize.default_options = Ok dfa_a.
Proof. vm_compute. reflexivity. Qed.

Lemma dfa_star_ts_built :
  Determinize.determinize nfa_star_ts Determinize.default_options = Ok dfa_star_ts.
Proof. vm_compute. reflexivity. Qed.

Lemma dfa_braces_built :
  Determinize.determinize nfa_braces Determinize.default_options = Ok dfa_braces.
Proof. vm_compute. reflexivity. Qed.

Lemma product_a_star_ts_built :
  Intersect.intersect dfa_a dfa_star_ts = Ok product_a_star_ts.
Proof. vm_compute. reflexivity. Qed.

(** ** Intersection, complement, determinization (C1, C2, C3) *)

(** C1 (fails on the code).  For the valid patterns [**/a/b] and [**] and
    the path [/a/a/b], [matchPath] answers true for both compiled patterns
    but false for their [patternIntersect]: determinizing [**/a/b] loses
    the globstar state when the literal [a] is read. *)
Theorem C1_intersect_rejects_common_path :
  exists a b r,
    valid_source "**/a/b" = Ok true /\ valid_source "**" = Ok true /\
    compile "**/a/b" = Ok a /\ compile "**" = Ok b /\
    PatternAlgebra.patternIntersect a b = Ok r /\
    Matcher.matchPath "/a/a/b" a = Ok true /\
    Matcher.matchPath "/a/a/b" b = Ok true /\
    Matcher.matchPath "/a/a/b" r = Ok false.
Proof.
  do 3 eexists.
  split; [vm_compute; reflexivity|].
  split; [vm_compute; reflexivity|].
  split; [vm_compute; reflexivity|].
  split; [vm_compute; reflexivity|].
  split; [vm_compute; reflexivity|].
  repeat split; vm_compute; reflexivity.
Qed.

(** C2 (fails on the code).  [/a/a/b] uses only literal segments of the
    valid pattern [**/a/b]; [matchPath] answers true both for the compiled
    pattern and for its [patternComplement]. *)
Theorem C2_complement_accepts_matching_path :
  exists a c,
    valid_source "**/a/b" = Ok true /\
    compile "**/a/b" = Ok a /\
    PatternAlgebra.patternComplement a = Ok c /\
    Matcher.matchPath "/a/a/b" a = Ok true /\
    Matcher.matchPath "/a/a/b" c = Ok true.
Proof.
  do 2 eexists.
  split; [vm_compute; reflexivity|].
  split; [vm_compute; reflexivity|].
  split; [vm_compute; reflexivity|].
  split; vm_compute; reflexivity.
Qed.

(** C3 (fails on the code).  For the NFA built from the valid pattern
    [**/a/b], [determinize] returns an automaton flagged deterministic
    that rejects the segment sequence [a, a, b], which the NFA accepts:
    [matchesSymbol] answers false for a globstar transition on a literal
    symbol, so the subset reached on [a] no longer holds the globstar
    state. *)
Theorem C3_determinize_changes_language :
  exists nfa dfa,
    valid_source "**/a/b" = Ok true /\
    nfa_of "**/a/b" = Ok nfa /\
    Determinize.determinize nfa Determinize.default_options = Ok dfa /\
    isDeterministic dfa = true /\
    Matcher.simulateNFA nfa ["a"; "a"; "b"] = Ok true /\
    Matcher.simulateNFA dfa ["a"; "a"; "b"] = Ok false.
Proof.
  do 2 eexists.
  split; [vm_compute; reflexivity|].
  split; [vm_compute; reflexivity|].
  split; [vm_compute; reflexivity|].
  repeat split; vm_compute; reflexivity.
Qed.

(** ** Compiled against direct matching (C4) *)

(** C4 (fails on the code).  For the valid pattern [src] and the
    normalized path [/src/foo], compiled matching answers false while
    [matchPathDirect] answers true: [matchSequenceRecursive] returns the
    index reached when the patterns run out, without comparing it with the
    number of segments. *)
Theorem C4_direct_matching_accepts_longer_path :
  exists p c,
    Parser.parsePattern "src" = Ok p /\
    Validator.isValidPattern p = true /\
    Compiler.compilePattern p = Ok c /\
    Matcher.matchPath "/src/foo" c = Ok false /\
    Matcher.matchPathDirect "/src/foo" p = true.
Proof.
  do 2 eexists.
  split; [vm_compute; reflexivity|].
  repeat split; vm_compute; reflexivity.
Qed.

(** ** Applicable transitions of deterministic automata (C5) *)

(** C5 as stated fails: the DFA of the pattern [a] has, in its initial
    state, two applicable transitions on the segment [a] (the literal and
    the catch-all wildcard added by [makeComplete]), and none at all on a
    segment that contains a line terminator, which [^.*$] does not match. *)
Lemma C5_catch_all_overlaps_literal :
  exists nfa dfa s,
    nfa_of "a" = Ok nfa /\
    Determinize.determinize nfa Determinize.default_options = Ok dfa /\
    isDeterministic dfa = true /\
    nth_error (states dfa) (initialState dfa) = Some s /\
    transitions s = [LiteralTransition "a" 1;
                     WildcardTransition (MRegExp (mkRegExp [ReDotStar])) "*" 2] /\
    applicable s "a" = 2 /\
    applicable s (String "010"%char EmptyString) = 0.
Proof.
  do 3 eexists.
  split; [vm_compute; reflexivity|].
  split; [vm_compute; reflexivity|].
  split; [vm_compute; reflexivity|].
  split; [vm_compute; reflexivity|].
  split; [vm_compute; reflexivity|].
  split; vm_compute; reflexivity.
Qed.

(** C5 (amended).  Every deterministic automaton the library produces, by
    [determinize] or as the product of two such automata by [intersect],
    carries the flag and has, in every state and on every segment without
    a line terminator, at least one applicable transition;
    [getDeterministicTarget] returns the target of the applicable
    transition selected by priority: the first literal transition whose
    segment equals the input when the state has one, and otherwise the
    first wildcard transition whose pattern matches it. *)
Theorem C5_deterministic_automata_select_a_transition :
  forall a, produced a ->
    isDeterministic a = true /\
    forall s segment, In s (states a) -> no_line_terminator segment = true ->
      1 <= applicable s segment /\
      exists t target,
        In t (transitions s) /\
        Matcher.matchTransition t segment = true /\
        Matcher.getTransitionTarget t segment = Some target /\
        Matcher.getDeterministicTarget (transitions s) segment = Some target /\
        selected_by_priority (transitions s) segment t.
Proof.
  intros a Ha. destruct (produced_invariant _ Ha) as [Hf [_ Hc]].
  split; [exact Hf|]. intros s segment Hs Hseg.
  split.
  - apply has_universal_selects; auto.
  - apply getDeterministicTarget_priority; auto.
Qed.

Lemma C5_product_instance :
  produced product_a_star_ts /\
  isDeterministic product_a_star_ts = true /\
  forall s, nth_error (states product_a_star_ts) 0 = Some s ->
    1 <= applicable s "a" /\
    exists t target,
      In t (transitions s) /\
      Matcher.matchTransition t "a" = true /\
      Matcher.getTransitionTarget t "a" = Some target /\
      Matcher.getDeterministicTarget (transitions s) "a" = Some target /\
      selected_by_priority (transitions s) "a" t.
Proof.
  assert (Hproduced : produced product_a_star_ts).
  { apply (produced_intersect dfa_a dfa_star_ts).
    - apply (produced_determinize nfa_a Determinize.default_options).
      + discriminate.
      + vm_compute. reflexivity.
    - apply (produced_determinize nfa_star_ts Determinize.default_options).
      + discriminate.
      + vm_compute. reflexivity.
    - vm_compute. reflexivity. }
  split; [exact Hproduced|].
  destruct (C5_deterministic_automata_select_a_transition
              product_a_star_ts Hproduced) as [Hflag Hsel].
  split; [exact Hflag|].
  intros s Hs. apply Hsel.
  - eapply nth_error_In; eauto.
  - reflexivity.
Defined.

(** ** The state cap of [determinize] (C6) *)

(** C6.  The default cap is 10000.  Whenever [determinize] fails with an
    [AutomatonLimitError], its code is [DFA_STATE_LIMIT], its [limit] is the
    configured cap and its [actual] is the attempted state count, one above
    the cap.  It does fail so whenever subset construction needs more states
    than the cap: if the construction succeeds under some options with a
    result of [k] states besides the completion sink, it raises that error
    under every cap below [k].  The NFA of [{a,b,c,d,e}/*.ts] with
    [maxStates = 2] raises it with [limit = 2] and [actual = 3]. *)
Theorem C6_state_limit_error :
  Determinize.DEFAULT_MAX_DFA_STATES = 10000 /\
  (forall nfa options e,
      Determinize.determinize nfa options = Err (LimitError e) ->
      code e = DFA_STATE_LIMIT /\ limit e = configured_cap options /\
      actual e = S (configured_cap options) /\ limit e < actual e) /\
  (forall nfa options options' dfa,
      isDeterministic nfa = false ->
      Determinize.determinize nfa options' = Ok dfa ->
      configured_cap options < List.length (states dfa) - 1 ->
      Determinize.determinize nfa options = Err (limit_error_for options)) /\
  (exists nfa,
      nfa_of "{a,b,c,d,e}/*.ts" = Ok nfa /\
      Determinize.determinize nfa (Determinize.mkOptions (Some 2))
      = Err (LimitError (mkLimitError DFA_STATE_LIMIT 2 3))).
Proof.
  split; [reflexivity|]. split; [|split].
  - intros nfa options e. rewrite DetWhole.determinize_unfold.
    destruct (isDeterministic nfa); [discriminate|].
    destruct (DetWhole.subset_construction nfa (configured_cap options))
      as [r|e0] eqn:Hrun; cbn [bind]; [discriminate|].
    intros Heq. injection Heq as ->.
    apply DetWhole.subset_construction_Err in Hrun.
    destruct Hrun as [Hrun|Hrun]; [discriminate|].
    injection Hrun as ->. simpl. repeat split; auto.
  - intros nfa options options' dfa Hflag.
    rewrite !DetWhole.determinize_unfold, Hflag.
    destruct (DetWhole.subset_construction nfa (configured_cap options'))
      as [[i0 c]|e0] eqn:Hrun; cbn [bind]; [|discriminate].
    intros Heq. injection Heq as <-.
    unfold DetWhole.finish. rewrite DetWhole.makeComplete_length. simpl.
    rewrite Nat.sub_0_r. intros Hlt.
    rewrite (DetWhole.subset_construction_cap _ _ _ _ _ Hrun Hlt). reflexivity.
  - eexists. split; vm_compute; reflexivity.
Qed.

Lemma C6_braces_instance :
  isDeterministic nfa_braces = false /\
  configured_cap (Determinize.mkOptions (Some 2))
  < List.length (states dfa_braces) - 1 /\
  Determinize.determinize nfa_braces (Determinize.mkOptions (Some 2))
  = Err (limit_error_for (Determinize.mkOptions (Some 2))).
Proof.
  split; [reflexivity|]. split; [vm_compute; lia|].
  destruct C6_state_limit_error as (_ & _ & Hcap & _).
  apply (Hcap nfa_braces (Determinize.mkOptions (Some 2))
              Determinize.default_options dfa_braces).
  - reflexivity.
  - vm_compute. reflexivity.
  - vm_compute. lia.
Defined.

(** ** The quick-reject filter (C7) *)

(** C7 (fails on the code).  For the valid pattern [a/**/b] and the path
    [/a/b]: the segment sequence [a, b] is accepted by the automaton
    simulation and lies within the segment bounds (minimum 2, no maximum),
    yet [applyQuickReject] answers false and [matchPath] with it:
    [extractSequenceFilters] adds one separator for the globstar segment,
    which can match no segment at all, so [minLength] is 5 against the 4
    characters of the path.  The same happens for [src/**/*.ts] and
    [/src/.ts]. *)
Theorem C7_quick_reject_rejects_accepted_path :
  exists c d,
    valid_source "a/**/b" = Ok true /\
    compile "a/**/b" = Ok c /\
    PathUtils.pathToSegments "/a/b" = ["a"; "b"] /\
    Matcher.simulateNFA (automaton c) ["a"; "b"] = Ok true /\
    minSegments c = Num 2 /\ maxSegments c = None /\
    minLength (quickReject c) = Some 5 /\
    QuickReject.applyQuickReject "/a/b" (quickReject c) = false /\
    Matcher.matchPath "/a/b" c = Ok false /\
    valid_source "src/**/*.ts" = Ok true /\
    compile "src/**/*.ts" = Ok d /\
    PathUtils.pathToSegments "/src/.ts" = ["src"; ".ts"] /\
    Matcher.simulateNFA (automaton d) ["src"; ".ts"] = Ok true /\
    minSegments d = Num 2 /\ maxSegments d = None /\
    minLength (quickReject d) = Some 9 /\
    QuickReject.applyQuickReject "/src/.ts" (quickReject d) = false.
Proof.
  do 2 eexists.
  split; [vm_compute; reflexivity|].
  split; [vm_compute; reflexivity|].
  split; [vm_compute; reflexivity|].
  split; [vm_compute; reflexivity|].
  split; [vm_compute; reflexivity|].
  split; [vm_compute; reflexivity|].
  split; [vm_compute; reflexivity|].
  split; [vm_compute; reflexivity|].
  split; [vm_compute; reflexivity|].
  split; [vm_compute; reflexivity|].
  split; [vm_compute; reflexivity|].
  split; [vm_compute; reflexivity|].
  split; [vm_compute; reflexivity|].
  split; [vm_compute; reflexivity|].
  split; [vm_compute; reflexivity|].
  split; vm_compute; reflexivity.
Qed.

(** ** Emptiness and witnesses (C8) *)

(** C8 (fails on the code).  For the NFA of the valid pattern [x*.ts],
    which is not empty, [findWitness] returns [/file.ts]:
    [generateMatchingSample] answers [file.ts] for every pattern source
    that contains [.ts], without testing it against the pattern.  The
    segment sequence [file.ts] of that path is rejected by the automaton
    simulation, and [matchPath] rejects the path. *)
Theorem C8_witness_rejected_by_simulation :
  exists c,
    valid_source "x*.ts" = Ok true /\
    compile "x*.ts" = Ok c /\
    nfa_of "x*.ts" = Ok (automaton c) /\
    Emptiness.isEmpty (automaton c) = Ok false /\
    Emptiness.findWitness (automaton c) = Ok (Some "/file.ts") /\
    PathUtils.pathToSegments "/file.ts" = ["file.ts"] /\
    Matcher.simulateNFA (automaton c) ["file.ts"] = Ok false /\
    Matcher.matchPath "/file.ts" c = Ok false.
Proof.
  eexists.
  split; [vm_compute; reflexivity|].
  split; [vm_compute; reflexivity|].
  split; [vm_compute; reflexivity|].
  split; [vm_compute; reflexivity|].
  split; [vm_compute; reflexivity|].
  split; [vm_compute; reflexivity|].
  split; vm_compute; reflexivity.
Qed.

(** What does hold of the two functions: both return on every automaton;
    an automaton found empty has no witness, as long as [acceptingStates]
    lists the accepting states; and the path returned for a well-formed
    non-deterministic automaton whose wildcards accept their samples is
    [/] followed by the segments, joined by [/], of a sequence that the
    simulation accepts. *)
Theorem emptiness_and_witness :
  (forall a, (exists b, Emptiness.isEmpty a = Ok b) /\
             (exists r, Emptiness.findWitness a = Ok r)) /\
  (forall a, accepting_listed a -> Emptiness.isEmpty a = Ok true ->
             Emptiness.findWitness a = Ok None) /\
  (forall a w,
      well_formed a -> isDeterministic a = false -> samples_match a = true ->
      Emptiness.findWitness a = Ok (Some w) ->
      exists segments,
        w = PathUtils.segmentsToPath segments /\
        Matcher.simulateNFA a segments = Ok true).
Proof.
  split; [|split].
  - intros a. split; [apply isEmpty_total|apply findWitness_total].
  - exact isEmpty_findWitness.
  - exact findWitness_accepted.
Qed.

(** ** Containment of [src/index.ts] in [src/*.ts] (C9) *)

(** C9.  [checkContainment(compile("src/index.ts"), compile("src/*.ts"))]
    returns a result whose relationship is [subset], with [isSubset] true
    and [isSuperset] false. *)
Theorem C9_index_ts_subset_of_star_ts :
  exists a b r,
    compile "src/index.ts" = Ok a /\ compile "src/*.ts" = Ok b /\
    Containment.checkContainment a b = Ok r /\
    Containment.relationship r = Containment.subset /\
    Containment.isSubset r = true /\
    Containment.isSuperset r = false.
Proof.
  do 3 eexists.
  split; [vm_compute; reflexivity|].
  split; [vm_compute; reflexivity|].
  split; [vm_compute; reflexivity|].
  repeat split; vm_compute; reflexivity.
Qed.

(** ** Already-deterministic inputs (C10) *)

(** C10 as stated fails: more than a sink is added.  The product of the
    DFAs of [a] and [*.ts] returned by [intersect] is flagged deterministic;
    its wildcards carry intersection patterns, whose source [makeComplete]
    does not recognise as a catch-all, so [determinize] appends a catch-all
    transition to the sink to its initial state as well. *)
Lemma C10_product_state_gains_a_transition :
  exists na nb da db p dfa s s',
    nfa_of "a" = Ok na /\ nfa_of "*.ts" = Ok nb /\
    Determinize.determinize na Determinize.default_options = Ok da /\
    Determinize.determinize nb Determinize.default_options = Ok db /\
    Intersect.intersect da db = Ok p /\
    isDeterministic p = true /\
    Determinize.determinize p Determinize.default_options = Ok dfa /\
    nth_error (states p) (initialState p) = Some s /\
    nth_error (states dfa) (initialState p) = Some s' /\
    List.length (transitions s) = 3 /\
    transitions s' = (transitions s ++ [Determinize.catchAll 4])%list /\
    transitions s' <> transitions s.
Proof.
  exists nfa_a, nfa_star_ts, dfa_a, dfa_star_ts, product_a_star_ts.
  exists (Determinize.makeComplete product_a_star_ts).
  do 2 eexists.
  split; [vm_compute; reflexivity|].
  split; [vm_compute; reflexivity|].
  split; [vm_compute; reflexivity|].
  split; [vm_compute; reflexivity|].
  split; [vm_compute; reflexivity|].
  split; [reflexivity|].
  split; [reflexivity|].
  split; [vm_compute; reflexivity|].
  split; [vm_compute; reflexivity|].
  split; [reflexivity|].
  split; [reflexivity|].
  intros H. apply (f_equal (@List.length _)) in H. vm_compute in H. discriminate.
Qed.

(** C10 (amended).  When the input is flagged deterministic, [determinize]
    returns [makeComplete] of it whatever the options are (no exception,
    whatever the cap and the number of states): one sink state is appended,
    the initial state and the accepting set are unchanged, and every
    existing state keeps its id and its accepting bit; its transitions are
    unchanged when one of them is a wildcard with a catch-all source, and
    are otherwise followed by one catch-all transition to the sink. *)
Theorem C10_deterministic_input_is_only_completed :
  forall nfa options,
    isDeterministic nfa = true ->
    let n := List.length (states nfa) in
    exists dfa,
      Determinize.determinize nfa options = Ok dfa /\
      List.length (states dfa) = S n /\
      nth_error (states dfa) n = Some (mkState n [Determinize.catchAll n] false) /\
      initialState dfa = initialState nfa /\
      acceptingStates dfa = acceptingStates nfa /\
      isDeterministic dfa = true /\
      forall i s,
        nth_error (states nfa) i = Some s ->
        exists s',
          nth_error (states dfa) i = Some s' /\
          id s' = id s /\ accepting s' = accepting s /\
          transitions s' =
            if Determinize.hasCatchAll s then transitions s
            else (transitions s ++ [Determinize.catchAll n])%list.
Proof.
  intros nfa options Hflag n. exists (Determinize.makeComplete nfa).
  split; [unfold Determinize.determinize; rewrite Hflag; reflexivity|].
  split; [apply DetWhole.makeComplete_length|].
  unfold Determinize.makeComplete. simpl. fold n.
  split.
  { rewrite nth_error_app2; rewrite length_map; [|lia].
    fold n. rewrite Nat.sub_diag. reflexivity. }
  do 3 (split; [reflexivity|]).
  intros i s Hnth.
  rewrite nth_error_app1
    by (rewrite length_map; apply nth_error_Some; congruence).
  rewrite nth_error_map, Hnth. simpl.
  destruct (Determinize.hasCatchAll s); eexists; (split; [reflexivity|]);
    simpl; auto.
Qed.

Lemma C10_cap_zero_instance :
  isDeterministic flagged_nfa_a = true /\
  List.length (states flagged_nfa_a) = 2 /\
  exists dfa,
    Determinize.determinize flagged_nfa_a (Determinize.mkOptions (Some 0)) = Ok dfa /\
    List.length (states dfa) = 3 /\
    nth_error (states dfa) 2 = Some (mkState 2 [Determinize.catchAll 2] false) /\
    exists s0 s1,
      nth_error (states dfa) 0 = Some s0 /\
      transitions s0 = [LiteralTransition "a" 1; Determinize.catchAll 2] /\
      nth_error (states dfa) 1 = Some s1 /\
      transitions s1 = [Determinize.catchAll 2].
Proof.
  split; [reflexivity|]. split; [reflexivity|].
  destruct (C10_deterministic_input_is_only_completed
              flagged_nfa_a (Determinize.mkOptions (Some 0)) eq_refl)
    as (dfa & Hrun & Hlen & Hsink & _ & _ & _ & Hstates).
  exists dfa. split; [exact Hrun|]. split; [exact Hlen|].
  split; [exact Hsink|].
  destruct (Hstates 0 (mkState 0 [LiteralTransition "a" 1] false) eq_refl)
    as (s0 & H0 & _ & _ & Ht0).
  destruct (Hstates 1 (mkState 1 [] true) eq_refl)
    as (s1 & H1 & _ & _ & Ht1).
  exists s0, s1. split; [exact H0|]. split; [exact Ht0|].
  split; [exact H1|exact Ht1].
Defined.

(* ===================================================================== *)
(** * Further properties of the code                                      *)
(* ===================================================================== *)

Lemma nfa_a_well_formed : well_formed nfa_a.
Proof. apply well_formedb_ok. reflexivity. Qed.

Lemma nfa_star_ts_well_formed : well_formed nfa_star_ts.
Proof. apply well_formedb_ok. reflexivity. Qed.

Lemma nfa_braces_well_formed : well_formed nfa_braces.
Proof. apply well_formedb_ok. reflexivity. Qed.

Lemma dfa_a_well_formed : well_formed dfa_a.
Proof. apply well_formedb_ok. reflexivity. Qed.

Lemma dfa_star_ts_well_formed : well_formed dfa_star_ts.
Proof. apply well_formedb_ok. reflexivity. Qed.

Lemma pattern_a_built : Builder.buildAutomaton pattern_a = Ok nfa_a.
Proof. reflexivity. Qed.

(** ** The simulation of the matcher *)

(** X1.  On a well-formed automaton that is not flagged deterministic,
    [simulateNFA] returns, and it returns [true] exactly when some run of
    the automaton over the segments (epsilon transitions and globstar
    exits taken freely, one consuming transition per segment) ends in a
    state whose [accepting] bit is set. *)
Theorem simulateNFA_decides_accepting_runs :
  forall a p,
    well_formed a -> isDeterministic a = false ->
    exists b, Matcher.simulateNFA a p = Ok b /\
              (b = true <-> has_accepting_run a p).
Proof.
  intros a p Hwf Hnfa.
  exact (SimulationExact.simulateNFA_exact a Hwf Hnfa p).
Qed.

Lemma simulateNFA_star_ts_instance :
  well_formed nfa_star_ts /\ isDeterministic nfa_star_ts = false /\
  exists b, Matcher.simulateNFA nfa_star_ts ["x.ts"] = Ok b /\
            (b = true <-> has_accepting_run nfa_star_ts ["x.ts"]).
Proof.
  split; [exact nfa_star_ts_well_formed|]. split; [reflexivity|].
  exact (simulateNFA_decides_accepting_runs nfa_star_ts ["x.ts"]
           nfa_star_ts_well_formed eq_refl).
Defined.

(** X2.  On a well-formed automaton and a list of state ids inside the
    state array, the [epsilonClosure] of the matcher returns a list of ids
    inside the array that holds exactly the states reached from the given
    ones along epsilon transitions and globstar exits; the copy of the
    function in [determinize.ts] returns the same list. *)
Theorem epsilonClosure_collects_epsilon_reachable :
  forall a X,
    well_formed a ->
    (forall x, In x X -> x < List.length (states a)) ->
    exists C,
      Matcher.epsilonClosure a X = Ok C /\
      Determinize.epsilonClosure a X = Ok C /\
      (forall c, In c C -> c < List.length (states a)) /\
      (forall c, In c C <-> exists x, In x X /\ eps_reach a x c).
Proof.
  intros a X Hwf HX.
  destruct (SimulationExact.matcher_closure_exact a Hwf X HX) as (C & HC & Hrange & Hiff).
  exists C. split; [exact HC|]. split; [exact HC|]. split; [exact Hrange|exact Hiff].
Qed.

Lemma epsilonClosure_star_ts_instance :
  well_formed nfa_star_ts /\
  (forall x, In x [0] -> x < List.length (states nfa_star_ts)) /\
  exists C,
    Matcher.epsilonClosure nfa_star_ts [0] = Ok C /\
    Determinize.epsilonClosure nfa_star_ts [0] = Ok C /\
    (forall c, In c C -> c < List.length (states nfa_star_ts)) /\
    (forall c, In c C <-> exists x, In x [0] /\ eps_reach nfa_star_ts x c).
Proof.
  assert (H0 : forall x, In x [0] -> x < List.length (states nfa_star_ts)).
  { intros x [<-|[]]. vm_compute. lia. }
  split; [exact nfa_star_ts_well_formed|]. split; [exact H0|].
  exact (epsilonClosure_collects_epsilon_reachable nfa_star_ts [0]
           nfa_star_ts_well_formed H0).
Defined.

(** X3.  On a well-formed automaton flagged deterministic whose
    transitions are all literals or wildcards, [simulateNFA] returns the
    [accepting] bit of the state reached by following, segment after
    segment, the one target [getDeterministicTarget] selects, and [false]
    when that run stops for want of a target. *)
Theorem simulateNFA_follows_the_selected_run :
  forall a p,
    well_formed a -> isDeterministic a = true -> eps_free a = true ->
    Matcher.simulateNFA a p = Ok (accepts_dfa a p).
Proof.
  intros a p Hwf Hdfa Hfree.
  exact (DfaSimulation.simulateNFA_dfa a Hwf Hdfa Hfree p).
Qed.

Lemma simulateNFA_dfa_star_ts_instance :
  well_formed dfa_star_ts /\ isDeterministic dfa_star_ts = true /\
  eps_free dfa_star_ts = true /\
  Matcher.simulateNFA dfa_star_ts ["x.ts"] = Ok (accepts_dfa dfa_star_ts ["x.ts"]).
Proof.
  split; [exact dfa_star_ts_well_formed|]. split; [reflexivity|]. split; [reflexivity|].
  exact (simulateNFA_follows_the_selected_run dfa_star_ts ["x.ts"]
           dfa_star_ts_well_formed eq_refl eq_refl).
Defined.

(** ** [complement] *)

(** X4.  For a well-formed, complete automaton flagged deterministic whose
    transitions are all literals or wildcards, and segments without line
    terminators, [complement] returns an automaton on which [simulateNFA]
    returns the negation of what it returns on the input. *)
Theorem complement_negates_the_simulation :
  forall a p,
    well_formed a -> isDeterministic a = true -> eps_free a = true ->
    complete a -> forallb no_line_terminator p = true ->
    exists c b,
      Complement.complement a = Ok c /\
      Matcher.simulateNFA a p = Ok b /\
      Matcher.simulateNFA c p = Ok (negb b).
Proof.
  intros a p Hwf Hdfa Hfree Hcomplete Hp.
  exact (ComplementSpec.complement_negates a p Hwf Hdfa Hfree Hcomplete Hp).
Qed.

Lemma complement_dfa_a_instance :
  well_formed dfa_a /\ isDeterministic dfa_a = true /\ eps_free dfa_a = true /\
  complete dfa_a /\ forallb no_line_terminator ["b"] = true /\
  exists c b,
    Complement.complement dfa_a = Ok c /\
    Matcher.simulateNFA dfa_a ["b"] = Ok b /\
    Matcher.simulateNFA c ["b"] = Ok (negb b).
Proof.
  assert (Hcomplete : complete dfa_a).
  { apply (determinize_complete nfa_a Determinize.default_options). reflexivity. }
  split; [exact dfa_a_well_formed|]. split; [reflexivity|]. split; [reflexivity|].
  split; [exact Hcomplete|]. split; [reflexivity|].
  exact (complement_negates_the_simulation dfa_a ["b"]
           dfa_a_well_formed eq_refl eq_refl Hcomplete eq_refl).
Defined.

(** X5.  On an automaton flagged deterministic [complement] returns
    without determinizing, and complementing the result gives back the
    states of the input (ids, transitions and [accepting] bits), its
    initial state and the flag; [acceptingStates] is recomputed as the ids
    of the states whose bit is set. *)
Theorem complement_twice_restores_the_states :
  forall a,
    isDeterministic a = true ->
    exists c c',
      Complement.complement a = Ok c /\
      Complement.complement c = Ok c' /\
      states c' = states a /\
      initialState c' = initialState a /\
      acceptingStates c' = map id (filter accepting (states a)) /\
      isDeterministic c' = true.
Proof.
  intros a Hdfa.
  pose proof (ComplementSpec.complement_flagged a Hdfa) as Hc.
  destruct (ComplementSpec.complement_twice a _ Hdfa Hc) as (c' & H).
  eexists. exists c'. split; [exact Hc|exact H].
Qed.

Lemma complement_twice_dfa_a_instance :
  isDeterministic dfa_a = true /\
  exists c c',
    Complement.complement dfa_a = Ok c /\
    Complement.complement c = Ok c' /\
    states c' = states dfa_a /\
    initialState c' = initialState dfa_a /\
    acceptingStates c' = map id (filter accepting (states dfa_a)) /\
    isDeterministic c' = true.
Proof.
  split; [reflexivity|].
  exact (complement_twice_restores_the_states dfa_a eq_refl).
Defined.

(** ** [determinize] *)

(** X6.  On a well-formed automaton [determinize] either returns an
    automaton or raises the [AutomatonLimitError] of the configured cap: it
    raises no other exception and its loops end. *)
Theorem determinize_returns_or_raises_the_limit_error :
  forall nfa options,
    well_formed nfa ->
    (exists dfa, Determinize.determinize nfa options = Ok dfa) \/
    Determinize.determinize nfa options = Err (limit_error_for options).
Proof.
  intros nfa options Hwf.
  exact (DetErrors.determinize_well_formed_input nfa Hwf options).
Qed.

Lemma determinize_braces_instance :
  well_formed nfa_braces /\
  ((exists dfa,
       Determinize.determinize nfa_braces (Determinize.mkOptions (Some 2)) = Ok dfa) \/
   Determinize.determinize nfa_braces (Determinize.mkOptions (Some 2))
   = Err (limit_error_for (Determinize.mkOptions (Some 2)))).
Proof.
  split; [exact nfa_braces_well_formed|].
  exact (determinize_returns_or_raises_the_limit_error
           nfa_braces (Determinize.mkOptions (Some 2)) nfa_braces_well_formed).
Defined.

(** X7.  The automaton [determinize] returns for an input that is not
    flagged deterministic is well formed and holds only literal and
    wildcard transitions, so that [simulateNFA] runs it as one
    deterministic run: it returns the [accepting] bit of the state reached
    through the targets [getDeterministicTarget] selects. *)
Theorem determinize_output_is_run_deterministically :
  forall nfa options dfa,
    isDeterministic nfa = false ->
    Determinize.determinize nfa options = Ok dfa ->
    well_formed dfa /\ eps_free dfa = true /\
    forall p, Matcher.simulateNFA dfa p = Ok (accepts_dfa dfa p).
Proof.
  intros nfa options dfa Hnfa Hdet.
  assert (Hwf : well_formed dfa).
  { eapply determinize_well_formed; [|exact Hdet]. congruence. }
  assert (Hfree : eps_free dfa = true).
  { eapply DetShape.determinize_eps_free; [|exact Hdet]. congruence. }
  destruct (determinize_complete _ _ _ Hdet) as [_ Hflag].
  split; [exact Hwf|]. split; [exact Hfree|].
  intros p. exact (DfaSimulation.simulateNFA_dfa dfa Hwf Hflag Hfree p).
Qed.

Lemma determinize_a_instance :
  isDeterministic nfa_a = false /\
  Determinize.determinize nfa_a Determinize.default_options = Ok dfa_a /\
  well_formed dfa_a /\ eps_free dfa_a = true /\
  forall p, Matcher.simulateNFA dfa_a p = Ok (accepts_dfa dfa_a p).
Proof.
  split; [reflexivity|]. split; [reflexivity|].
  exact (determinize_output_is_run_deterministically
           nfa_a Determinize.default_options dfa_a eq_refl eq_refl).
Defined.

(** ** The pattern algebra *)

(** X8.  For a compiled pattern whose automaton is a well-formed NFA, and a
    path whose segments hold no line terminator: when [patternComplement]
    returns, [determinize] returned a DFA for the automaton, and
    [matchPath] on the complement returns the negation of what
    [simulateNFA] returns for that DFA on the segments of the path (no
    quick-reject filter and no segment bound stands in the way). *)
Theorem patternComplement_negates_the_determinized_automaton :
  forall a c path,
    well_formed (automaton a) -> isDeterministic (automaton a) = false ->
    PatternAlgebra.patternComplement a = Ok c ->
    forallb no_line_terminator (PathUtils.pathToSegments path) = true ->
    exists dfa b,
      Determinize.determinize (automaton a) Determinize.default_options = Ok dfa /\
      Matcher.simulateNFA dfa (PathUtils.pathToSegments path) = Ok b /\
      Matcher.matchPath path c = Ok (negb b).
Proof.
  intros a c path Hwf Hnfa Hc Hpath.
  exact (AlgebraSpec.patternComplement_negates a c path Hwf Hnfa Hc Hpath).
Qed.

Lemma patternComplement_a_instance :
  well_formed (automaton compiled_a) /\
  isDeterministic (automaton compiled_a) = false /\
  PatternAlgebra.patternComplement compiled_a = Ok complement_a /\
  forallb no_line_terminator (PathUtils.pathToSegments "/b") = true /\
  exists dfa b,
    Determinize.determinize (automaton compiled_a) Determinize.default_options
    = Ok dfa /\
    Matcher.simulateNFA dfa (PathUtils.pathToSegments "/b") = Ok b /\
    Matcher.matchPath "/b" complement_a = Ok (negb b).
Proof.
  split; [exact nfa_a_well_formed|]. split; [reflexivity|].
  split; [vm_compute; reflexivity|]. split; [reflexivity|].
  exact (patternComplement_negates_the_determinized_automaton
           compiled_a complement_a "/b" nfa_a_well_formed eq_refl eq_refl eq_refl).
Defined.

(** X9.  [intersect] returns on every pair of automata, well formed or not:
    it raises no exception and its loop ends.  The product it returns is
    well formed, is flagged deterministic exactly when both operands are,
    and lists as [acceptingStates] the ids of its states whose [accepting]
    bit is set. *)
Theorem intersect_returns_a_well_formed_product :
  forall a b,
    exists p,
      Intersect.intersect a b = Ok p /\
      well_formed p /\
      isDeterministic p = isDeterministic a && isDeterministic b /\
      acceptingStates p = map id (filter accepting (states p)).
Proof.
  intros a b. destruct (intersect_total a b) as (p & Hp).
  exists p. split; [exact Hp|].
  split; [exact (ProductInv.productConstruction_well_formed _ _ _ _ Hp)|].
  unfold Intersect.intersect, Intersect.productConstruction in Hp.
  destruct (Intersect.getOrCreateState a b Intersect.intersection _ _ _) as [i0 c0].
  destruct (while_loop _ _ _) as [c|e]; cbn [bind] in Hp; [|discriminate].
  injection Hp as <-. split; reflexivity.
Qed.

(** X10.  For well-formed operands, flagged deterministic or not,
    [simulateNFA] returns on [union a b], and it returns [true] exactly
    when one of the operands has a run over the segments that ends in a
    state whose [accepting] bit is set. *)
Theorem union_accepts_what_an_operand_accepts :
  forall a b p,
    well_formed a -> well_formed b ->
    exists r, Matcher.simulateNFA (Intersect.union a b) p = Ok r /\
              (r = true <-> has_accepting_run a p \/ has_accepting_run b p).
Proof.
  intros a b p Ha Hb. exact (UnionSpec.union_simulated a b Ha Hb p).
Qed.

Lemma union_a_star_ts_instance :
  well_formed nfa_a /\ well_formed nfa_star_ts /\
  exists r, Matcher.simulateNFA (Intersect.union nfa_a nfa_star_ts) ["x.ts"] = Ok r /\
            (r = true <->
             has_accepting_run nfa_a ["x.ts"] \/ has_accepting_run nfa_star_ts ["x.ts"]).
Proof.
  split; [exact nfa_a_well_formed|]. split; [exact nfa_star_ts_well_formed|].
  exact (union_accepts_what_an_operand_accepts nfa_a nfa_star_ts ["x.ts"]
           nfa_a_well_formed nfa_star_ts_well_formed).
Defined.

(** ** The automaton builder *)

(** X11.  The automaton [buildAutomaton] returns is well formed and not
    flagged deterministic; its initial state is 0, its only listed
    accepting state is 1, every state carries its index as id, and state 1
    is the only state whose [accepting] bit is set. *)
Theorem buildAutomaton_builds_a_well_formed_nfa :
  forall pattern a,
    Builder.buildAutomaton pattern = Ok a ->
    well_formed a /\
    isDeterministic a = false /\
    initialState a = 0 /\
    acceptingStates a = [1] /\
    (forall i s, state_at a i = Some s -> id s = i /\ (accepting s = true <-> i = 1)) /\
    2 <= List.length (states a).
Proof.
  intros pattern a Hbuild. exact (BuilderSpec.buildAutomaton_spec pattern a Hbuild).
Qed.

Lemma buildAutomaton_a_instance :
  Builder.buildAutomaton pattern_a = Ok nfa_a /\
  well_formed nfa_a /\
  isDeterministic nfa_a = false /\
  initialState nfa_a = 0 /\
  acceptingStates nfa_a = [1] /\
  (forall i s, state_at nfa_a i = Some s ->
               id s = i /\ (accepting s = true <-> i = 1)) /\
  2 <= List.length (states nfa_a).
Proof.
  split; [reflexivity|].
  exact (buildAutomaton_builds_a_well_formed_nfa pattern_a nfa_a eq_refl).
Defined.

(** ** Emptiness *)

(** X12.  [isEmpty] and [findWitness] return on every automaton, also one
    whose transitions point outside the state array: they raise no
    exception and their loops end. *)
Theorem isEmpty_and_findWitness_return :
  forall a,
    (exists b, Emptiness.isEmpty a = Ok b) /\
    (exists r, Emptiness.findWitness a = Ok r).
Proof.
  intros a. split; [apply isEmpty_total|apply findWitness_total].
Qed.

(** X13.  The [epsilonClosure] of the emptiness module returns on every
    automaton and every start state; the list it returns has no duplicate
    and holds exactly the states reached from the start state along
    epsilon transitions and globstar exits. *)
Theorem emptiness_epsilonClosure_is_epsilon_reachability :
  forall a start,
    exists C,
      Emptiness.epsilonClosure a start = Ok C /\
      NoDup C /\
      forall c, In c C <-> eps_reach a start c.
Proof.
  intros a start.
  destruct (EmptinessSpec.epsilonClosure_spec a start) as (C & HC & Hnd & Hsound & _).
  destruct (ReachabilitySpec.epsilonClosure_closed a start C HC) as [Hstart Hclosed].
  exists C. split; [exact HC|]. split; [exact Hnd|].
  intros c. split; [apply Hsound|].
  induction 1 as [|j k _ IH Hedge]; [exact Hstart|].
  exact (Hclosed j k IH Hedge).
Qed.

(** X14.  [findReachableStates] returns, on every automaton, exactly the
    states reached from the initial state along transitions of any kind
    (for a globstar both the self loop and the exit). *)
Theorem findReachableStates_is_graph_reachability :
  forall a,
    exists R,
      Emptiness.findReachableStates a = Ok R /\
      forall i, In i R <-> graph_reach a (initialState a) i.
Proof. exact ReachabilitySpec.findReachableStates_exact. Qed.

(** X15.  [isEmpty] returns [false] exactly when a state listed in
    [acceptingStates] is reached from the initial state along transitions
    of any kind, whatever the segments on them. *)
Theorem isEmpty_decides_reachability_of_an_accepting_state :
  forall a,
    exists b,
      Emptiness.isEmpty a = Ok b /\
      (b = false <->
       exists i, In i (acceptingStates a) /\ graph_reach a (initialState a) i).
Proof. exact ReachabilitySpec.isEmpty_exact. Qed.

(** X16.  When [findWitness] returns [undefined], no state reached from
    the initial state along transitions of any kind has its [accepting]
    bit set: the search misses no state. *)
Theorem findWitness_undefined_leaves_no_accepting_state :
  forall a,
    Emptiness.findWitness a = Ok None ->
    forall i s, graph_reach a (initialState a) i -> state_at a i = Some s ->
                accepting s = false.
Proof. exact ReachabilitySpec.findWitness_none. Qed.

Lemma findWitness_product_instance :
  Emptiness.findWitness product_a_star_ts = Ok None /\
  forall i s, graph_reach product_a_star_ts (initialState product_a_star_ts) i ->
              state_at product_a_star_ts i = Some s -> accepting s = false.
Proof.
  split; [vm_compute; reflexivity|].
  apply (findWitness_undefined_leaves_no_accepting_state product_a_star_ts).
  vm_compute. reflexivity.
Defined.

(** X17.  On an automaton whose [acceptingStates] lists exactly the states
    whose [accepting] bit is set, [findWitness] returns [undefined] exactly
    when [isEmpty] returns [true]. *)
Theorem findWitness_undefined_iff_isEmpty :
  forall a,
    accepting_listed a -> listed_accepting a ->
    (Emptiness.findWitness a = Ok None <-> Emptiness.isEmpty a = Ok true).
Proof. exact findWitness_none_iff_isEmpty. Qed.

Lemma findWitness_isEmpty_a_instance :
  accepting_listed nfa_a /\ listed_accepting nfa_a /\
  (Emptiness.findWitness nfa_a = Ok None <-> Emptiness.isEmpty nfa_a = Ok true).
Proof.
  destruct (buildAutomaton_accepting pattern_a nfa_a pattern_a_built) as [H1 H2].
  split; [exact H1|]. split; [exact H2|].
  exact (findWitness_undefined_iff_isEmpty nfa_a H1 H2).
Defined.

(** X18.  The path [findWitness] returns for a well-formed automaton that
    is not flagged deterministic and whose wildcard transitions accept the
    samples [generateMatchingSample] gives for them is the path of a
    segment sequence that [simulateNFA] accepts. *)
Theorem findWitness_is_accepted_when_samples_match :
  forall a w,
    well_formed a -> isDeterministic a = false -> samples_match a = true ->
    Emptiness.findWitness a = Ok (Some w) ->
    exists segments,
      w = PathUtils.segmentsToPath segments /\
      Matcher.simulateNFA a segments = Ok true.
Proof. exact findWitness_accepted. Qed.

Lemma findWitness_star_ts_instance :
  well_formed nfa_star_ts /\ isDeterministic nfa_star_ts = false /\
  samples_match nfa_star_ts = true /\
  Emptiness.findWitness nfa_star_ts = Ok (Some "/file.ts") /\
  exists segments,
    "/file.ts" = PathUtils.segmentsToPath segments /\
    Matcher.simulateNFA nfa_star_ts segments = Ok true.
Proof.
  split; [exact nfa_star_ts_well_formed|]. split; [reflexivity|].
  split; [vm_compute; reflexivity|]. split; [vm_compute; reflexivity|].
  apply (findWitness_is_accepted_when_samples_match nfa_star_ts "/file.ts"
           nfa_star_ts_well_formed eq_refl).
  - vm_compute. reflexivity.
  - vm_compute. reflexivity.
Defined.

(** ** Path utilities *)

(** X19.  [pathToSegments] undoes [segmentsToPath] on segments that are
    not empty and hold no slash. *)
Theorem pathToSegments_undoes_segmentsToPath :
  forall segments,
    forallb plain_segment segments = true ->
    PathUtils.pathToSegments (PathUtils.segmentsToPath segments) = segments.
Proof. exact PathSpec.pathToSegments_segmentsToPath. Qed.

Lemma pathToSegments_home_user_instance :
  forallb plain_segment ["home"; "user"] = true /\
  PathUtils.pathToSegments (PathUtils.segmentsToPath ["home"; "user"])
  = ["home"; "user"].
Proof.
  split; [reflexivity|].
  exact (pathToSegments_undoes_segmentsToPath ["home"; "user"] eq_refl).
Defined.

(** X20.  [isAncestorPath] holds exactly when the segments of the first
    path are an initial part of the segments of the second; it is
    reflexive and transitive. *)
Theorem isAncestorPath_is_a_preorder_on_segments :
  (forall ancestor descendant,
      PathUtils.isAncestorPath ancestor descendant = true <->
      prefix_of (PathUtils.pathToSegments ancestor)
                (PathUtils.pathToSegments descendant)) /\
  (forall path, PathUtils.isAncestorPath path path = true) /\
  (forall a b c,
      PathUtils.isAncestorPath a b = true -> PathUtils.isAncestorPath b c = true ->
      PathUtils.isAncestorPath a c = true).
Proof.
  split; [exact PathSpec.isAncestorPath_spec|]. split.
  - intros path. apply PathSpec.isAncestorPath_spec, PathSpec.prefix_of_refl.
  - intros a b c Hab Hbc. apply PathSpec.isAncestorPath_spec.
    apply PathSpec.isAncestorPath_spec in Hab, Hbc.
    exact (PathSpec.prefix_of_trans _ _ _ Hab Hbc).
Qed.

(** X21.  The path [commonPrefix] returns is an ancestor, in the sense of
    [isAncestorPath], of both its arguments, whatever strings they are. *)
Theorem commonPrefix_is_an_ancestor_of_both :
  forall pathA pathB,
    PathUtils.isAncestorPath (PathUtils.commonPrefix pathA pathB) pathA = true /\
    PathUtils.isAncestorPath (PathUtils.commonPrefix pathA pathB) pathB = true.
Proof.
  intros pathA pathB.
  destruct (PathSpec.commonPrefix_prefix pathA pathB) as [HA HB].
  split; apply PathSpec.isAncestorPath_spec; assumption.
Qed.

(** X22.  When the segments of the first path are not empty, every common
    ancestor of two paths is an ancestor of their [commonPrefix]: it is the
    longest common ancestor. *)
Theorem commonPrefix_is_the_longest_common_ancestor :
  forall c pathA pathB,
    forallb plain_segment (PathUtils.pathToSegments pathA) = true ->
    PathUtils.isAncestorPath c pathA = true ->
    PathUtils.isAncestorPath c pathB = true ->
    PathUtils.isAncestorPath c (PathUtils.commonPrefix pathA pathB) = true.
Proof.
  intros c pathA pathB Hplain HA HB.
  apply PathSpec.isAncestorPath_spec. apply PathSpec.isAncestorPath_spec in HA, HB.
  exact (PathSpec.commonPrefix_greatest c pathA pathB Hplain HA HB).
Qed.

Lemma commonPrefix_home_instance :
  forallb plain_segment (PathUtils.pathToSegments "/home/user/a") = true /\
  PathUtils.isAncestorPath "/home" "/home/user/a" = true /\
  PathUtils.isAncestorPath "/home" "/home/user/b" = true /\
  PathUtils.isAncestorPath "/home"
    (PathUtils.commonPrefix "/home/user/a" "/home/user/b") = true.
Proof.
  split; [reflexivity|]. split; [reflexivity|]. split; [reflexivity|].
  exact (commonPrefix_is_the_longest_common_ancestor
           "/home" "/home/user/a" "/home/user/b" eq_refl eq_refl eq_refl).
Defined.

(** X23.  The path [getDirname] returns is an ancestor of its argument,
    whatever string it is. *)
Theorem getDirname_is_an_ancestor :
  forall path,
    PathUtils.isAncestorPath (PathUtils.getDirname path) path = true.
Proof.
  intros path. apply PathSpec.isAncestorPath_spec, PathSpec.getDirname_prefix.
Qed.

(** X24.  For a path with at least one segment and no empty segment, the
    segments of the path are the segments of its [getDirname] followed by
    its [getBasename]. *)
Theorem getDirname_and_getBasename_split_the_path :
  forall path,
    PathUtils.pathToSegments path <> [] ->
    forallb plain_segment (PathUtils.pathToSegments path) = true ->
    PathUtils.pathToSegments path
    = (PathUtils.pathToSegments (PathUtils.getDirname path)
       ++ [PathUtils.getBasename path])%list.
Proof. exact PathSpec.dirname_basename. Qed.

Lemma getDirname_file_instance :
  PathUtils.pathToSegments "/home/user/file.ts" <> [] /\
  forallb plain_segment (PathUtils.pathToSegments "/home/user/file.ts") = true /\
  PathUtils.pathToSegments "/home/user/file.ts"
  = (PathUtils.pathToSegments (PathUtils.getDirname "/home/user/file.ts")
     ++ [PathUtils.getBasename "/home/user/file.ts"])%list.
Proof.
  assert (Hne : PathUtils.pathToSegments "/home/user/file.ts" <> [])
    by (vm_compute; discriminate).
  split; [exact Hne|]. split; [reflexivity|].
  exact (getDirname_and_getBasename_split_the_path "/home/user/file.ts" Hne eq_refl).
Defined.

(** X25.  The path [normalizePath] returns is absolute, and it is
    [segmentsToPath] of its own segments, none of which is empty, holds a
    slash, or is [.] or [..]. *)
Theorem normalizePath_returns_resolved_segments :
  forall path context,
    let normalized := PathUtils.normalizePath path context in
    PathUtils.isAbsolutePath normalized = true /\
    normalized = PathUtils.segmentsToPath (PathUtils.pathToSegments normalized) /\
    forallb resolved_segment (PathUtils.pathToSegments normalized) = true.
Proof.
  intros path context normalized.
  destruct (PathSpec.normalizePath_segments path context) as [Heq Hres].
  split; [|split; [exact Heq|exact Hres]].
  destruct (PathSpec.normalizePath_shape path context) as (resolved & Hshape & _).
  unfold normalized. rewrite Hshape. reflexivity.
Qed.

(** X26.  When neither the home directory nor the working directory of the
    context holds a backslash, [normalizePath] is idempotent. *)
Theorem normalizePath_is_idempotent :
  forall path context,
    backslash_free (PathUtils.homeDir context) = true ->
    backslash_free (PathUtils.cwd context) = true ->
    PathUtils.normalizePath (PathUtils.normalizePath path context) context
    = PathUtils.normalizePath path context.
Proof. exact PathSpec.normalizePath_idempotent. Qed.

Lemma normalizePath_home_instance :
  backslash_free (PathUtils.homeDir (PathUtils.mkContext "/home/u" "/work" None)) = true /\
  backslash_free (PathUtils.cwd (PathUtils.mkContext "/home/u" "/work" None)) = true /\
  PathUtils.normalizePath
    (PathUtils.normalizePath "~/a/../b" (PathUtils.mkContext "/home/u" "/work" None))
    (PathUtils.mkContext "/home/u" "/work" None)
  = PathUtils.normalizePath "~/a/../b" (PathUtils.mkContext "/home/u" "/work" None).
Proof.
  split; [reflexivity|]. split; [reflexivity|].
  exact (normalizePath_is_idempotent
           "~/a/../b" (PathUtils.mkContext "/home/u" "/work" None) eq_refl eq_refl).
Defined.

(** X27.  [getExtension] returns the empty string, or the end of its
    argument from a dot on, where that dot follows a character other than
    a slash and no dot or slash comes after it. *)
Theorem getExtension_returns_the_last_dotted_suffix :
  forall pathOrSegment,
    PathUtils.getExtension pathOrSegment = "" \/
    exists stem c e,
      pathOrSegment = stem ++ String c (String "." e) /\ c <> "/"%char /\
      PathUtils.getExtension pathOrSegment = String "." e /\
      Js.includes_char e "." = false /\ Js.includes_char e "/" = false.
Proof. exact PathSpec.getExtension_shape. Qed.

(** ** Segment bounds *)

(** X28.  For a pattern compiled by [compilePattern], the segment bounds
    never decide a match: [simulateNFA] returns on the segments of every
    path, and [matchPathUnderlying] returns the conjunction of
    [applyQuickReject] and that result, because a segment sequence the
    automaton accepts has at least [minSegments] and, when a maximum is
    defined, at most [maxSegments] segments. *)
Theorem segment_bounds_reject_no_accepted_path :
  forall pattern c path,
    Compiler.compilePattern pattern = Ok c ->
    exists b,
      Matcher.simulateNFA (automaton c) (PathUtils.pathToSegments path) = Ok b /\
      (b = true ->
       within_bounds (List.length (PathUtils.pathToSegments path))
                     (minSegments c) (maxSegments c) = true) /\
      Matcher.matchPathUnderlying path c
      = Ok (QuickReject.applyQuickReject path (quickReject c) && b).
Proof.
  intros pattern c path Hc.
  pose proof (AlgebraSpec.compilePattern_automaton pattern c Hc) as Hbuild.
  destruct (BuilderSpec.buildAutomaton_spec _ _ Hbuild) as (Hwf & Hnfa & _).
  destruct (SimulationExact.simulateNFA_exact (automaton c) Hwf Hnfa
              (PathUtils.pathToSegments path)) as (b & Hb & Hiff).
  assert (Hbounds : b = true ->
            within_bounds (List.length (PathUtils.pathToSegments path))
                          (minSegments c) (maxSegments c) = true).
  { intros Htrue. apply Hiff in Htrue.
    pose proof (BoundsSpec.buildAutomaton_within_bounds pattern (automaton c)
                  (PathUtils.pathToSegments path) Hbuild Htrue) as H.
    unfold Compiler.compilePattern in Hc. rewrite Hbuild in Hc. cbn [bind] in Hc.
    injection Hc as <-. exact H. }
  exists b. split; [exact Hb|]. split; [exact Hbounds|].
  unfold Matcher.matchPathUnderlying.
  destruct (QuickReject.applyQuickReject path (quickReject c)); cbn [negb andb];
    [|reflexivity].
  unfold within_bounds in Hbounds.
  destruct (Js.num_ltb (Num (List.length (PathUtils.pathToSegments path)))
                       (minSegments c)).
  - destruct b; [discriminate (Hbounds eq_refl)|reflexivity].
  - destruct (match maxSegments c with
              | Some max =>
                  Js.num_ltb max (Num (List.length (PathUtils.pathToSegments path)))
              | None => false
              end).
    + destruct b; [discriminate (Hbounds eq_refl)|reflexivity].
    + exact Hb.
Qed.

Lemma segment_bounds_a_instance :
  Compiler.compilePattern pattern_a = Ok compiled_a /\
  exists b,
    Matcher.simulateNFA (automaton compiled_a) (PathUtils.pathToSegments "/a") = Ok b /\
    (b = true ->
     within_bounds (List.length (PathUtils.pathToSegments "/a"))
                   (minSegments compiled_a) (maxSegments compiled_a) = true) /\
    Matcher.matchPathUnderlying "/a" compiled_a
    = Ok (QuickReject.applyQuickReject "/a" (quickReject compiled_a) && b).
Proof.
  split; [reflexivity|].
  exact (segment_bounds_reject_no_accepted_path pattern_a compiled_a "/a" eq_refl).
Defined.

(** ** Containment *)

(** X29.  The fields of the result of [checkContainment] fit together:
    [isEqual] is the conjunction of [isSubset] and [isSuperset], a
    counterexample is reported exactly when [isSubset] is false (and
    likewise in the other direction), and [relationship] is read off the
    four flags.  A counterexample reported when the first pattern is
    bounded or the second is unbounded is a path that [matchPath] rejects
    for the second pattern (likewise in the other direction). *)
Theorem checkContainment_result_is_consistent :
  forall a b r,
    Containment.checkContainment a b = Ok r ->
    Containment.patternA r = cp_source a /\
    Containment.patternB r = cp_source b /\
    Containment.isEqual r = Containment.isSubset r && Containment.isSuperset r /\
    (Containment.isSubset r = true <-> Containment.counterexample r = None) /\
    (Containment.isSuperset r = true <-> Containment.reverseCounterexample r = None) /\
    Containment.relationship r
    = (if Containment.isEqual r then Containment.equal
       else if Containment.isSubset r then Containment.subset
       else if Containment.isSuperset r then Containment.superset
       else if Containment.hasOverlap r then Containment.overlapping
       else Containment.disjoint) /\
    (forall p, Containment.counterexample r = Some p ->
               isUnbounded a = false \/ isUnbounded b = true ->
               Matcher.matchPath p b = Ok false) /\
    (forall p, Containment.reverseCounterexample r = Some p ->
               isUnbounded b = false \/ isUnbounded a = true ->
               Matcher.matchPath p a = Ok false).
Proof. exact ContainmentSpec.checkContainment_spec. Qed.

Lemma checkContainment_index_instance :
  Containment.checkContainment compiled_index_ts compiled_src_star_ts
  = Ok containment_index_star /\
  Containment.isSuperset containment_index_star = false /\
  (forall p, Containment.reverseCounterexample containment_index_star = Some p ->
             isUnbounded compiled_src_star_ts = false \/
             isUnbounded compiled_index_ts = true ->
             Matcher.matchPath p compiled_index_ts = Ok false).
Proof.
  assert (Hrun : Containment.checkContainment compiled_index_ts compiled_src_star_ts
                 = Ok containment_index_star) by (vm_compute; reflexivity).
  split; [exact Hrun|]. split; [reflexivity|].
  destruct (checkContainment_result_is_consistent
              compiled_index_ts compiled_src_star_ts containment_index_star Hrun)
    as (_ & _ & _ & _ & _ & _ & _ & Hreverse).
  exact Hreverse.
Defined.

(** ** The product of [intersect] *)

(** X30.  A segment sequence that [simulateNFA] accepts on the automaton
    [intersect] returns has, in each of the two operands, a run that ends
    in a state whose [accepting] bit is set: the product accepts nothing
    that one of its operands has no accepting run for.  This holds for
    all operands, well formed or not, flagged deterministic or not. *)
Theorem intersect_accepts_only_what_both_operands_accept :
  forall a b p segments,
    Intersect.intersect a b = Ok p ->
    Matcher.simulateNFA p segments = Ok true ->
    has_accepting_run a segments /\ has_accepting_run b segments.
Proof. exact ProductSound.intersect_sound. Qed.

Lemma intersect_a_a_instance :
  Intersect.intersect nfa_a nfa_a = Ok product_a_a /\
  Matcher.simulateNFA product_a_a ["a"] = Ok true /\
  has_accepting_run nfa_a ["a"].
Proof.
  assert (Hp : Intersect.intersect nfa_a nfa_a = Ok product_a_a)
    by (vm_compute; reflexivity).
  assert (Hsim : Matcher.simulateNFA product_a_a ["a"] = Ok true)
    by (vm_compute; reflexivity).
  split; [exact Hp|]. split; [exact Hsim|].
  exact (proj1 (intersect_accepts_only_what_both_operands_accept
                  nfa_a nfa_a product_a_a ["a"] Hp Hsim)).
Defined.

